(** * Blocked int4 quantization (q4_dq.cpp): a shallow embedding

    The development follows [onnxruntime/core/mlas/lib/q4_dq.cpp]:
    - [F32]: IEEE binary32 arithmetic as the code uses it ([float], [fabsf],
      [roundf], [std::min], [std::max], [std::clamp], the casts);
    - the range reductions [range2scalezp] and [range2scale];
    - the Q4 GEMM packer and unpacker ([MlasQ4GemmPackB] and friends);
    - the generic [BlockwiseQuantizer];
    - the QDQ quantizer [BlockwiseQDQQuantizer].

    Undefined behaviour of the C++ source (a float to [uint8_t] cast whose
    value does not fit, an access outside a buffer) is the [None] of the
    option monad. *)

From Stdlib Require Import ZArith Bool Lia.
From Stdlib Require Import SpecFloat.
From stdpp Require Import base option list.

Local Open Scope Z_scope.

(** ** IEEE binary32 *)

Module F32.

Definition prec : Z := 24.
Definition emax : Z := 128.

Definition float : Type := spec_float.

Definition add : float -> float -> float := SFadd prec emax.
Definition sub : float -> float -> float := SFsub prec emax.
Definition mul : float -> float -> float := SFmul prec emax.
Definition div : float -> float -> float := SFdiv prec emax.
Definition ltb : float -> float -> bool := SFltb.
Definition eqb : float -> float -> bool := SFeqb.
Definition leb : float -> float -> bool := SFleb.
Definition fabsf : float -> float := SFabs.

(** [static_cast<float>(n)] for an integer [n]; [mkf m e] is the float
    nearest to [m * 2^e], used for the literals of the source. *)
Definition mkf (m e : Z) : float := binary_normalize prec emax m e false.
Definition of_Z (n : Z) : float := mkf n 0.

Definition zero : float := S754_zero false.
Definition one : float := of_Z 1.
(** [std::numeric_limits<float>::max()] *)
Definition FLT_MAX : float := S754_finite false (2 ^ 24 - 1) 104.
(** [std::numeric_limits<float>::lowest()] *)
Definition FLT_LOWEST : float := S754_finite true (2 ^ 24 - 1) 104.

(** Conversion of a float to [bool], as in [scale ? a : b]: every value
    but the two zeros is true. *)
Definition truthy (x : float) : bool :=
  match x with S754_zero _ => false | _ => true end.

(** [x != y] *)
Definition neqb (x y : float) : bool := negb (eqb x y).

(** [std::min(a, b)] is [(b < a) ? b : a], [std::max(a, b)] is
    [(a < b) ? b : a], [std::clamp(v, lo, hi)] is
    [(v < lo) ? lo : (hi < v) ? hi : v]. *)
Definition fmin (a b : float) : float := if ltb b a then b else a.
Definition fmax (a b : float) : float := if ltb a b then b else a.
Definition clamp (v lo hi : float) : float :=
  if ltb v lo then lo else if ltb hi v then hi else v.

(** The integer nearest to [m * 2^e], halves rounded away from zero
    ([m > 0]). *)
Definition round_half_away (m : positive) (e : Z) : Z :=
  if 0 <=? e then Z.pos m * 2 ^ e
  else (2 * Z.pos m + 2 ^ (- e)) / (2 * 2 ^ (- e)).

(** [roundf] *)
Definition roundf (x : float) : float :=
  match x with
  | S754_finite s m e =>
      if 0 <=? e then x
      else
        let n := round_half_away m e in
        if n =? 0 then S754_zero s
        else of_Z (if s then - n else n)
  | _ => x
  end.

(** The integer part of [m * 2^e] ([m > 0]). *)
Definition trunc_mag (m : positive) (e : Z) : Z :=
  if 0 <=? e then Z.pos m * 2 ^ e else Z.pos m / 2 ^ (- e).

(** [(uint8_t) x]: the value is truncated toward zero; the behaviour is
    undefined when the truncated value is not in [0, 255]. *)
Definition to_uint8 (x : float) : option Z :=
  match x with
  | S754_zero _ => Some 0
  | S754_finite s m e =>
      let t := trunc_mag m e in
      let v := if s then - t else t in
      if (0 <=? v) && (v <=? 255) then Some v else None
  | _ => None
  end.

Definition is_nan (x : float) : bool :=
  match x with S754_nan => true | _ => false end.
Definition is_zero (x : float) : bool :=
  match x with S754_zero _ => true | _ => false end.
(** Neither an infinity nor a NaN. *)
Definition is_finite (x : float) : bool :=
  match x with S754_zero _ | S754_finite _ _ _ => true | _ => false end.

(** The mantissa of a finite float fits the precision. Every float an
    operation rounds satisfies it. *)
Definition wf (x : float) : bool :=
  match x with
  | S754_finite _ m _ => Z.pos m <? 2 ^ prec
  | _ => true
  end.

(** The sign bit of a float that has one. *)
Definition has_sign (s : bool) (x : float) : Prop :=
  match x with
  | S754_zero s' | S754_infinity s' | S754_finite s' _ _ => s' = s
  | S754_nan => False
  end.

(** Signs: [x >= 0] and [x <= 0] for a float that is not a NaN. *)
Definition is_nonneg (x : float) : bool :=
  match x with
  | S754_zero _ => true
  | S754_infinity s | S754_finite s _ _ => negb s
  | S754_nan => false
  end.

Definition is_nonpos (x : float) : bool :=
  match x with
  | S754_zero _ => true
  | S754_infinity s | S754_finite s _ _ => s
  | S754_nan => false
  end.

End F32.

Import F32.

#[global] Instance float_inhabited : Inhabited float := populate zero.

(** ** Bit traits *)

Module BitsTraits.
Definition kMax (qbits : Z) : Z := Z.shiftl 1 qbits - 1.
Definition kMid (qbits : Z) : Z := Z.shiftl 1 (qbits - 1).
Definition kMaxFp (qbits : Z) : float := of_Z (kMax qbits).
Definition kPackSize (qbits : Z) : Z :=
  if qbits =? 8 then 1 else if qbits =? 4 then 2 else if qbits =? 2 then 4 else 0.
End BitsTraits.

(** ** Range reduction *)

(** [range2scalezp<float, qbits>]: the scale and the zero point of a block
    whose values span [min, max]. *)
Definition range2scalezp (qbits : Z) (min max : float) : option (float * Z) :=
  let zp_max := BitsTraits.kMax qbits in
  let zp_max_fp := BitsTraits.kMaxFp qbits in
  let min := fmin min zero in
  let max := fmax max zero in
  let scale_f := div (sub max min) (of_Z zp_max) in
  let zero_point_fp :=
    if neqb scale_f zero then sub zero (div min scale_f) else min in
  zp ← (if ltb zero_point_fp zero then Some 0
        else if ltb zp_max_fp zero_point_fp then Some zp_max
        else to_uint8 (roundf zero_point_fp));
  Some (scale_f, zp).

(** [range2scale<float, qbits>] *)
Definition range2scale (qbits : Z) (min max : float) : float :=
  let mid_fp := of_Z (- BitsTraits.kMid qbits) in
  let max := if ltb (fabsf min) (fabsf max) then max else min in
  div max mid_fp.


(** ** Loops and memories *)

(** The indices visited by [for (i = lo; i < hi; i += step)]. *)
Definition zrange (lo hi step : Z) : list Z :=
  map (fun n : nat => lo + Z.of_nat n * step)
      (seq 0 (Z.to_nat ((hi - lo + step - 1) / step))).

(** A loop body run over the visited indices, threading the state and
    stopping at the first undefined step. *)
Fixpoint foldM {A S : Type} (body : A -> S -> option S) (l : list A) (s : S)
  : option S :=
  match l with
  | [] => Some s
  | x :: l' => s' ← body x s; foldM body l' s'
  end.

(** Buffers are memories indexed by element offset. *)
Definition mem (A : Type) : Type := Z -> A.
Definition upd {A : Type} (m : mem A) (i : Z) (v : A) : mem A :=
  fun j => if j =? i then v else m j.

(** ** Q4 GEMM block types *)

(** Modelled from the spec: the block descriptors of q4common.h
    ([MLAS_Q4TYPE_BLK0], [_BLK1], [_BLK2], [_BLK4]) are absent from the
    sources; section 4.1 of the specification gives [BlkLen] and [BlobSize]
    (scale, optional zero point, payload). *)
Record Q4Type : Type := { BlkLen : Z; BlobSize : Z }.

Definition MLAS_Q4TYPE_BLK0 : Q4Type := {| BlkLen := 32; BlobSize := 4 + 16 |}.
Definition MLAS_Q4TYPE_BLK1 : Q4Type := {| BlkLen := 32; BlobSize := 4 + 1 + 16 |}.
Definition MLAS_Q4TYPE_BLK2 : Q4Type := {| BlkLen := 64; BlobSize := 4 + 32 |}.
Definition MLAS_Q4TYPE_BLK4 : Q4Type := {| BlkLen := 128; BlobSize := 4 + 64 |}.

(** One packed block, as [MlasQ4BlkScale], [MlasQ4BlkZeroPoint] and
    [MlasQ4BlkData] view it: the scale, the zero point byte (asymmetric
    blocks only) and the payload bytes. *)
Record blob : Type := { blk_scale : float; blk_zp : Z; blk_data : mem Z }.

(** [size_t] arithmetic wraps around at [2^64]. *)
Definition size_wrap (z : Z) : Z := z mod 2 ^ 64.

(** Modelled from the spec: [MlasDivRoundup] (mlasi.h) is absent from the
    sources; the specification reads it as the rounded-up quotient. *)
Definition MlasDivRoundup (up down : Z) : Z := (up + down - 1) / down.

(** [BlkQ4BufSize<T>] *)
Definition BlkQ4BufSize (T : Q4Type) (N K : Z) : Z :=
  let KBlocks := MlasDivRoundup K (BlkLen T) in
  size_wrap (size_wrap (N * KBlocks) * BlobSize T).

Definition lit_8_5 : float := mkf 17 (-1).
Definition lit_15 : float := of_Z 15.
Definition lit_m8 : float := of_Z (-8).

(** The byte [vi0 | (vi1 << 4)] stored in a [uint8_t]. *)
Definition pack_nibbles (vi0 vi1 : Z) : Z :=
  Z.land (Z.lor vi0 (Z.shiftl vi1 4)) 255.

Module Q4Sym.

(** The scan of one block: [(amax, max)] after the loop over
    [l < klen]. *)
Definition scan_step (src : mem float) (ldb : Z) (l : Z) (st : float * float)
  : float * float :=
  let v := src (ldb * l) in
  if ltb (fst st) (fabsf v) then (fabsf v, v) else st.

Definition scan (src : mem float) (ldb klen : Z) : float * float :=
  fold_left (fun st l => scan_step src ldb l st) (zrange 0 klen 1) (zero, zero).

(** [(uint8_t)std::min(15.0f, std::max(0.0f, v + 8.5f))] *)
Definition quant (v : float) : option Z :=
  to_uint8 (fmin lit_15 (fmax zero (add v lit_8_5))).

(** One iteration of the loop over [l < 16] of a 32-element stride. *)
Definition emit_byte (src : mem float) (ldb : Z) (reciprocal_scale : float)
    (kk kklen : Z) (doff : Z) (l : Z) (data : mem Z) : option (mem Z) :=
  let v0 := if l <? kklen then mul (src (ldb * (kk + l))) reciprocal_scale
            else of_Z 0 in
  vi0 ← quant v0;
  let l1 := l + 16 in
  let v1 := if l1 <? kklen then mul (src (ldb * (kk + l1))) reciprocal_scale
            else of_Z 0 in
  vi1 ← quant v1;
  Some (upd data (doff + l) (pack_nibbles vi0 vi1)).

(** The loop over the 32-element strides of one block; the state is the
    payload and the offset of [data] in it. *)
Definition emit_stride (src : mem float) (ldb : Z) (reciprocal_scale : float)
    (klen : Z) (kk : Z) (st : mem Z * Z) : option (mem Z * Z) :=
  let kklen := Z.min 32 (klen - kk) in
  data ← foldM (emit_byte src ldb reciprocal_scale kk kklen (snd st))
               (zrange 0 16 1) (fst st);
  Some (data, snd st + 16).

(** The body of the loop over [k]: one block of [klen] values read from
    [src], written to the blob [b]. *)
Definition pack_block (src : mem float) (ldb klen : Z) (b : blob) : option blob :=
  let max := snd (scan src ldb klen) in
  let scale := div max lit_m8 in
  let reciprocal_scale := if truthy scale then div one scale else zero in
  st ← foldM (emit_stride src ldb reciprocal_scale klen) (zrange 0 klen 32)
             (blk_data b, 0);
  Some {| blk_scale := scale; blk_zp := blk_zp b; blk_data := fst st |}.

End Q4Sym.

Module Q4Asym.

(** The scan of one block: [(min, max)] after the loop over [l < klen]. *)
Definition scan_step (src : mem float) (ldb : Z) (l : Z) (st : float * float)
  : float * float :=
  let v := src (ldb * l) in
  let min := if ltb v (fst st) then v else fst st in
  let max := if ltb (snd st) v then v else snd st in
  (min, max).

Definition scan (src : mem float) (ldb klen : Z) : float * float :=
  fold_left (fun st l => scan_step src ldb l st) (zrange 0 klen 1)
            (FLT_MAX, SFopp FLT_MAX).

(** Scale, reciprocal scale and zero point of a block spanning
    [min, max], as computed in line in the asymmetric packer. *)
Definition scale_zp (min max : float) : option (float * Z) :=
  let min := fmin min zero in
  let max := fmax max zero in
  let scale := div (sub max min) (of_Z (Z.shiftl 1 4 - 1)) in
  let zero_point_fp :=
    if neqb scale zero then sub zero (div min scale) else min in
  zp ← (if ltb zero_point_fp zero then Some 0
        else if ltb lit_15 zero_point_fp then Some 15
        else to_uint8 (roundf zero_point_fp));
  Some (scale, zp).

(** [(uint8_t)std::min(15.0f, std::max(0.0f, roundf(v * reciprocal_scale + zp)))] *)
Definition quant (reciprocal_scale : float) (zp : Z) (v : float) : option Z :=
  to_uint8 (fmin lit_15 (fmax zero (roundf (add (mul v reciprocal_scale) (of_Z zp))))).

Definition emit_byte (src : mem float) (ldb : Z) (reciprocal_scale : float)
    (zp : Z) (kk kklen : Z) (doff : Z) (l : Z) (data : mem Z) : option (mem Z) :=
  let v0 := if l <? kklen then src (ldb * (kk + l)) else of_Z 0 in
  vi0 ← quant reciprocal_scale zp v0;
  let l1 := l + 16 in
  let v1 := if l1 <? kklen then src (ldb * (kk + l1)) else of_Z 0 in
  vi1 ← quant reciprocal_scale zp v1;
  Some (upd data (doff + l) (pack_nibbles vi0 vi1)).

Definition emit_stride (src : mem float) (ldb : Z) (reciprocal_scale : float)
    (zp : Z) (klen : Z) (kk : Z) (st : mem Z * Z) : option (mem Z * Z) :=
  let kklen := Z.min 32 (klen - kk) in
  data ← foldM (emit_byte src ldb reciprocal_scale zp kk kklen (snd st))
               (zrange 0 16 1) (fst st);
  Some (data, snd st + 16).

Definition pack_block (src : mem float) (ldb klen : Z) (b : blob) : option blob :=
  let '(min, max) := scan src ldb klen in
  '(scale, zp) ← scale_zp min max;
  let reciprocal_scale := if truthy scale then div one scale else zero in
  st ← foldM (emit_stride src ldb reciprocal_scale zp klen) (zrange 0 klen 32)
             (blk_data b, 0);
  Some {| blk_scale := scale; blk_zp := zp; blk_data := fst st |}.

End Q4Asym.

(** The two loops shared by the packers: columns [n < N] outermost, blocks
    [k] of [BlkLen] inside; [dst_ptr] advances by [BlobSize] per block and
    [src] by [ldb * klen]. The state of the inner loop is
    [(dst_ptr, src, PackedBuf)]. *)
Definition pack_k_step (T : Q4Type)
    (block : mem float -> Z -> Z -> blob -> option blob)
    (FpData : mem float) (K ldb : Z) (k : Z) (st : Z * Z * mem blob)
  : option (Z * Z * mem blob) :=
  let '(dst_ptr, src, buf) := st in
  let klen := Z.min (BlkLen T) (K - k) in
  b ← block (fun i => FpData (src + i)) ldb klen (buf dst_ptr);
  Some (dst_ptr + BlobSize T, src + ldb * klen, upd buf dst_ptr b).

Definition pack_n_step (T : Q4Type)
    (block : mem float -> Z -> Z -> blob -> option blob)
    (FpData : mem float) (K ldb : Z) (n : Z) (st : Z * mem blob)
  : option (Z * mem blob) :=
  st' ← foldM (pack_k_step T block FpData K ldb) (zrange 0 K (BlkLen T))
              (fst st, n, snd st);
  Some (fst (fst st'), snd st').

Definition pack_loops (T : Q4Type)
    (block : mem float -> Z -> Z -> blob -> option blob)
    (PackedBuf : mem blob) (FpData : mem float) (N K ldb : Z)
  : option (mem blob) :=
  st ← foldM (pack_n_step T block FpData K ldb) (zrange 0 N 1) (0, PackedBuf);
  Some (snd st).

(** [MlasQ4GemmPackBImpl<T>], the generic (symmetric) template. *)
Definition MlasQ4GemmPackBImpl (T : Q4Type) :=
  pack_loops T Q4Sym.pack_block.

(** [MlasQ4GemmPackBImpl<MLAS_Q4TYPE_BLK1>], the asymmetric specialization. *)
Definition MlasQ4GemmPackBImpl_BLK1 :=
  pack_loops MLAS_Q4TYPE_BLK1 Q4Asym.pack_block.

(** *** Unpacking *)

Module Q4Unpack.

(** The loop over [l < 16] of one 32-element stride; [deq0] and [deq1]
    turn the low and the high nibble of a byte into a value. *)
Definition unpack_byte (deq0 deq1 : Z -> float) (data : mem Z) (doff : Z)
    (ldb dest kk kklen : Z) (FpData : mem float) (l : Z) : mem float :=
  let vi := data (doff + l) in
  let FpData :=
    if l <? kklen then upd FpData (dest + ldb * (kk + l)) (deq0 vi) else FpData in
  let l1 := l + 16 in
  if l1 <? kklen then upd FpData (dest + ldb * (kk + l1)) (deq1 vi) else FpData.

Definition unpack_stride (deq0 deq1 : Z -> float) (data : mem Z)
    (ldb dest CountK : Z) (st : mem float * Z) (kk : Z) : mem float * Z :=
  let kklen := Z.min 32 (CountK - kk) in
  (fold_left (unpack_byte deq0 deq1 data (snd st) ldb dest kk kklen)
             (zrange 0 16 1) (fst st),
   snd st + 16).

(** The body of the loop over [k]: the blob [b] is spread over [CountK]
    elements of a column of [FpData], starting at [dest]. *)
Definition unpack_block (deq0 deq1 : Z -> float) (b : blob)
    (ldb dest CountK : Z) (FpData : mem float) : mem float :=
  fst (fold_left (unpack_stride deq0 deq1 (blk_data b) ldb dest CountK)
                 (zrange 0 CountK 32) (FpData, 0)).

(** Symmetric blocks: [((vi & 0x0F) - 8) * scale] and
    [((vi >> 4) - 8) * scale]. *)
Definition sym_lo (scale : float) (vi : Z) : float :=
  mul (of_Z (Z.land vi 15 - 8)) scale.
Definition sym_hi (scale : float) (vi : Z) : float :=
  mul (of_Z (Z.shiftr vi 4 - 8)) scale.

(** Asymmetric blocks: [((vi & 0x0F) - z) * s] and [((vi >> 4) - z) * s]. *)
Definition asym_lo (s : float) (z : Z) (vi : Z) : float :=
  mul (of_Z (Z.land vi 15 - z)) s.
Definition asym_hi (s : float) (z : Z) (vi : Z) : float :=
  mul (of_Z (Z.shiftr vi 4 - z)) s.

Definition sym_block (b : blob) :=
  unpack_block (sym_lo (blk_scale b)) (sym_hi (blk_scale b)) b.
Definition asym_block (b : blob) :=
  unpack_block (asym_lo (blk_scale b) (blk_zp b)) (asym_hi (blk_scale b) (blk_zp b)) b.

End Q4Unpack.

(** The two loops shared by the unpackers; the state of the inner loop is
    [(src, FpData)], [src] being the offset of the current blob. *)
Definition unpack_k_step (T : Q4Type)
    (block : blob -> Z -> Z -> Z -> mem float -> mem float)
    (PackedBuf : mem blob) (K ldb n : Z) (st : Z * mem float) (k : Z)
  : Z * mem float :=
  let CountK := Z.min (K - k) (BlkLen T) in
  let dest := ldb * k + n in
  (fst st + BlobSize T, block (PackedBuf (fst st)) ldb dest CountK (snd st)).

Definition unpack_loops (T : Q4Type)
    (block : blob -> Z -> Z -> Z -> mem float -> mem float)
    (FpData : mem float) (PackedBuf : mem blob) (N K ldb : Z) : mem float :=
  snd (fold_left
         (fun st n =>
            fold_left (unpack_k_step T block PackedBuf K ldb n)
                      (zrange 0 K (BlkLen T)) st)
         (zrange 0 N 1) (0, FpData)).

(** [MlasQ4GemmUnPackBImpl<T>] and its specialization for
    [MLAS_Q4TYPE_BLK1]. *)
Definition MlasQ4GemmUnPackBImpl (T : Q4Type) :=
  unpack_loops T Q4Unpack.sym_block.
Definition MlasQ4GemmUnPackBImpl_BLK1 :=
  unpack_loops MLAS_Q4TYPE_BLK1 Q4Unpack.asym_block.

(** *** The entry points *)

(** The enumerators of [MLAS_BLK_QUANT_TYPE] (mlas_q4.h) are absent from the
    sources: a quantization type is its integer value, and the three
    enumerators the switches name are parameters. *)
Record QuantTypeEnum : Type :=
  { BlkQ4Sym : Z; BlkQ4Sym64 : Z; BlkQ4Sym128 : Z }.

(** The [switch (QType)] of the three entry points: the block type it
    selects, and whether the asymmetric specialization is taken. *)
Inductive q4_case : Type := CaseBlk0 | CaseBlk2 | CaseBlk4 | CaseDefault.

Definition q4_switch (E : QuantTypeEnum) (QType : Z) : q4_case :=
  if QType =? BlkQ4Sym E then CaseBlk0
  else if QType =? BlkQ4Sym64 E then CaseBlk2
  else if QType =? BlkQ4Sym128 E then CaseBlk4
  else CaseDefault.

(** [MlasQ4GemmPackBSize]; [FpQ4GemmDispatch] tells whether
    [GetMlasPlatform().FpQ4GemmDispatch] is a non-null pointer. *)
Definition MlasQ4GemmPackBSize (E : QuantTypeEnum) (FpQ4GemmDispatch : bool)
    (QType N K : Z) : Z :=
  if negb FpQ4GemmDispatch then 0
  else match q4_switch E QType with
       | CaseBlk0 => BlkQ4BufSize MLAS_Q4TYPE_BLK0 N K
       | CaseBlk2 => BlkQ4BufSize MLAS_Q4TYPE_BLK2 N K
       | CaseBlk4 => BlkQ4BufSize MLAS_Q4TYPE_BLK4 N K
       | CaseDefault => BlkQ4BufSize MLAS_Q4TYPE_BLK1 N K
       end.

(** [MlasQ4GemmPackB] *)
Definition MlasQ4GemmPackB (E : QuantTypeEnum) (QType : Z)
    (PackedBuf : mem blob) (FpData : mem float) (N K ldb : Z)
  : option (mem blob) :=
  match q4_switch E QType with
  | CaseBlk0 => MlasQ4GemmPackBImpl MLAS_Q4TYPE_BLK0 PackedBuf FpData N K ldb
  | CaseBlk2 => MlasQ4GemmPackBImpl MLAS_Q4TYPE_BLK2 PackedBuf FpData N K ldb
  | CaseBlk4 => MlasQ4GemmPackBImpl MLAS_Q4TYPE_BLK4 PackedBuf FpData N K ldb
  | CaseDefault => MlasQ4GemmPackBImpl_BLK1 PackedBuf FpData N K ldb
  end.

(** [MlasQ4GemmUnPackB] *)
Definition MlasQ4GemmUnPackB (E : QuantTypeEnum) (QType : Z)
    (FpData : mem float) (PackedBuf : mem blob) (N K ldb : Z) : mem float :=
  match q4_switch E QType with
  | CaseBlk0 => MlasQ4GemmUnPackBImpl MLAS_Q4TYPE_BLK0 FpData PackedBuf N K ldb
  | CaseBlk2 => MlasQ4GemmUnPackBImpl MLAS_Q4TYPE_BLK2 FpData PackedBuf N K ldb
  | CaseBlk4 => MlasQ4GemmUnPackBImpl MLAS_Q4TYPE_BLK4 FpData PackedBuf N K ldb
  | CaseDefault => MlasQ4GemmUnPackBImpl_BLK1 FpData PackedBuf N K ldb
  end.

(** ** The generic blockwise quantizer *)

(** [int] arithmetic is modelled in [Z]: signed overflow is undefined in the
    source and outside the model; [/] and [%] are the truncating [Z.quot]
    and [Z.rem]. *)

(** [Shape2D<Row_, Column_>] *)
Record Shape2D : Type := { kRow : Z; kColumn : Z }.

Module BlockwiseQuantizer.
Section Quantizer.

(** The template parameters; [ElementT] is [float] and [qbits] is 4 (the
    [static_assert] of the source). *)
Variable block_size : Z.
Variable Columnwise : bool.

Definition qbits : Z := 4.

Definition QuantBlk : Shape2D :=
  if Columnwise then {| kRow := block_size; kColumn := 1 |}
  else {| kRow := 1; kColumn := block_size |}.

Definition ThreadBlk : Shape2D :=
  {| kRow := kRow QuantBlk * BitsTraits.kPackSize qbits;
     kColumn := kColumn QuantBlk |}.

(** [quantizeMetaShape]: [(meta_rows, meta_cols)] *)
Definition quantizeMetaShape (rows columns : Z) : Z * Z :=
  (Z.quot (rows + kRow QuantBlk - 1) (kRow QuantBlk),
   Z.quot (columns + kColumn QuantBlk - 1) (kColumn QuantBlk)).

(** [quantizedShape]: [(q_rows, q_cols)] *)
Definition quantizedShape (rows columns : Z) : Z * Z :=
  let '(meta_rows, meta_cols) := quantizeMetaShape rows columns in
  (Z.quot (meta_rows * kRow QuantBlk * qbits + 7) 8,
   meta_cols * kColumn QuantBlk).

(** [quantizedBufferSizes]: [(data_bytes, scale_num_elements,
    *zero_point_bytes)]; the third component is [None] when the pointer
    [zero_point_bytes] is null. The [int] results are converted to
    [size_t]. *)
Definition quantizedBufferSizes (rows columns : Z) (zero_point_bytes : bool)
  : Z * Z * option Z :=
  let '(meta_rows, meta_cols) := quantizeMetaShape rows columns in
  let '(q_rows, q_cols) := quantizedShape rows columns in
  (size_wrap (q_rows * q_cols),
   size_wrap (meta_rows * meta_cols),
   if zero_point_bytes
   then Some (size_wrap (Z.quot (meta_rows * qbits + 7) 8 * meta_cols))
   else None).

(** The buffers a thread block of [quantizeAndTranspose] writes;
    [q_zero_points] is [None] for a null [zero_points]. *)
Record qbufs : Type :=
  { q_dst : mem Z; q_scales : mem float; q_zero_points : option (mem Z) }.

(** The scan of one quantization block for its range [(min, max)]. *)
Definition scan_block (src : mem float) (leadingDimension : Z)
    (row_start row_end c c_end : Z) : float * float :=
  fold_left
    (fun st i =>
       fold_left
         (fun (st : float * float) j =>
            let v := src (i * leadingDimension + j) in
            let min := if ltb v (fst st) then v else fst st in
            let max := if ltb (snd st) v then v else snd st in
            (min, max))
         (zrange c c_end 1) st)
    (zrange row_start row_end 1) (FLT_MAX, SFopp FLT_MAX).

(** One iteration of the loop over [kpack]: the state is
    [(scales, zp_bytes)]. *)
Definition scale_step (zero_points_null : bool) (src : mem float)
    (leadingDimension row_blks r r_end c c_end meta_row meta_col : Z)
    (kpack : Z) (st : mem float * list Z) : option (mem float * list Z) :=
  let '(scales, zp_bytes) := st in
  let row_start := r + kpack * kRow QuantBlk in
  let row_end := Z.min (row_start + kRow QuantBlk) r_end in
  let '(min, max) := scan_block src leadingDimension row_start row_end c c_end in
  if row_start <? row_end then
    let meta_idx := meta_col * row_blks + meta_row + kpack in
    if zero_points_null then
      Some (upd scales meta_idx (range2scale qbits min max), zp_bytes)
    else
      '(scale, zp) ← range2scalezp qbits min max;
      Some (upd scales meta_idx scale, <[Z.to_nat kpack := zp]> zp_bytes)
  else Some st.

(** [(uint8_t)std::clamp(roundf(v * reciprocal_scale + zp), 0.0f, kMaxFp)] *)
Definition quant (reciprocal_scale : float) (zp : Z) (v : float) : option Z :=
  to_uint8 (clamp (roundf (add (mul v reciprocal_scale) (of_Z zp)))
                  zero (BitsTraits.kMaxFp qbits)).

Definition reciprocal (scale : float) : float :=
  if truthy scale then div one scale else zero.

(** The byte written for the rows [i] and [i + 1] of column [j]. *)
Definition quant_pair (src : mem float) (scales : mem float)
    (zp_bytes : list Z) (leadingDimension row_blks r_end : Z) (j i : Z)
  : option Z :=
  let meta_c := Z.quot j (kColumn QuantBlk) in
  let meta_r := Z.quot i (kRow QuantBlk) in
  let scale := scales (meta_c * row_blks + meta_r) in
  let reciprocal_scale := reciprocal scale in
  let zp := zp_bytes !!! Z.to_nat (Z.land meta_r 1) in
  let zp1 := zp_bytes !!! Z.to_nat (Z.land (Z.quot (i + 1) (kRow QuantBlk)) 1) in
  let v0 := src (i * leadingDimension + j) in
  vi0 ← quant reciprocal_scale zp v0;
  vi1 ← (if i + 1 <? r_end then
           let reciprocal_scale1 :=
             if kRow QuantBlk =? 1
             then reciprocal (scales (meta_c * row_blks + meta_r + 1))
             else reciprocal_scale in
           let v1 := src ((i + 1) * leadingDimension + j) in
           quant reciprocal_scale1 zp1 v1
         else Some zp);
  Some (Z.land (Z.lor (Z.land vi0 15) (Z.shiftl vi1 4)) 255).

(** The body run for one thread block [block_idx]. *)
Definition quantize_tile (src : mem float) (rows columns leadingDimension : Z)
    (block_idx : Z) (b : qbufs) : option qbufs :=
  let thrd_col_blks := Z.quot (columns + kColumn ThreadBlk - 1) (kColumn ThreadBlk) in
  let row_blks := Z.quot (rows + kRow QuantBlk - 1) (kRow QuantBlk) in
  let q_rows := fst (quantizedShape rows columns) in
  let zp_bytes := replicate (Z.to_nat (BitsTraits.kPackSize qbits)) 8 in
  let r_blk_idx := Z.quot block_idx thrd_col_blks in
  let c_blk_idx := Z.rem block_idx thrd_col_blks in
  let r := r_blk_idx * kRow ThreadBlk in
  let c := c_blk_idx * kColumn ThreadBlk in
  let r_end := Z.min (r + kRow ThreadBlk) rows in
  let c_end := Z.min (c + kColumn ThreadBlk) columns in
  let meta_row := Z.quot r (kRow QuantBlk) in
  let meta_col := Z.quot c (kColumn QuantBlk) in
  let zero_points_null := match q_zero_points b with None => true | _ => false end in
  '(scales, zp_bytes) ←
    foldM (scale_step zero_points_null src leadingDimension row_blks
                      r r_end c c_end meta_row meta_col)
          (zrange 0 (BitsTraits.kPackSize qbits) 1) (q_scales b, zp_bytes);
  let zero_points :=
    match q_zero_points b with
    | Some zps =>
        let meta_idx := meta_col * Z.quot (row_blks + 1) 2 + Z.quot meta_row 2 in
        Some (upd zps meta_idx
                  (Z.land (Z.lor (Z.land (zp_bytes !!! 0%nat) 15)
                                 (Z.shiftl (zp_bytes !!! 1%nat) 4)) 255))
    | None => None
    end in
  dst ←
    foldM (fun j dst =>
             foldM (fun i dst =>
                      byte ← quant_pair src scales zp_bytes leadingDimension
                                        row_blks r_end j i;
                      Some (upd dst (j * q_rows + Z.quot i 2) byte))
                   (zrange r r_end 2) dst)
          (zrange c c_end 1) (q_dst b);
  Some {| q_dst := dst; q_scales := scales; q_zero_points := zero_points |}.

(** [quantizeAndTranspose]; [MlasTryBatchParallel] runs the body once per
    thread block, modelled in the order of the block indices. *)
Definition quantizeAndTranspose (dst : mem Z) (scales : mem float)
    (zero_points : option (mem Z)) (src : mem float)
    (rows columns leadingDimension : Z) : option qbufs :=
  let thrd_row_blks := Z.quot (rows + kRow ThreadBlk - 1) (kRow ThreadBlk) in
  let thrd_col_blks := Z.quot (columns + kColumn ThreadBlk - 1) (kColumn ThreadBlk) in
  let total_thrd_blks := thrd_row_blks * thrd_col_blks in
  foldM (quantize_tile src rows columns leadingDimension)
        (zrange 0 total_thrd_blks 1)
        {| q_dst := dst; q_scales := scales; q_zero_points := zero_points |}.

(** The pair of zero point nibbles [dequantize] reads for a block. *)
Definition zp_pair (zero_points : option (mem Z)) (row_blks meta_col meta_row : Z)
  : Z :=
  match zero_points with
  | None => 136 (* 0x88 *)
  | Some zps => zps (meta_col * Z.quot (row_blks + 1) 2 + Z.quot meta_row 2)
  end.

Definition dequant_zp0 (zero_points : option (mem Z)) (row_blks meta_col meta_row : Z)
  : Z :=
  let zp_pair := zp_pair zero_points row_blks meta_col meta_row in
  if Z.land meta_row 1 =? 0 then Z.land zp_pair 15 else Z.shiftr zp_pair 4.

Definition dequant_zp1 (zero_points : option (mem Z)) (row_blks meta_col meta_row : Z)
  : Z :=
  if kRow QuantBlk =? 1
  then Z.land (Z.shiftr (zp_pair zero_points row_blks meta_col meta_row) 4) 15
  else dequant_zp0 zero_points row_blks meta_col meta_row.

(** The writes of [dequantize] for the rows [i] and [i + 1] of column
    [j]. *)
Definition dequant_pair (weights : mem Z) (scales : mem float)
    (zero_points : option (mem Z)) (rows row_blks q_rows r_end : Z)
    (j : Z) (dst : mem float) (i : Z) : mem float :=
  let meta_col := Z.quot j (kColumn QuantBlk) in
  let meta_row := Z.quot i (kRow QuantBlk) in
  let scale0 := scales (meta_col * row_blks + meta_row) in
  let zp0 := dequant_zp0 zero_points row_blks meta_col meta_row in
  let vi0 := Z.land (weights (j * q_rows + Z.quot i 2)) 15 in
  let v0 := mul (sub (of_Z vi0) (of_Z zp0)) scale0 in
  let dst := upd dst (j * rows + i) v0 in
  if i + 1 <? r_end then
    let scale1 :=
      if kRow QuantBlk =? 1 then scales (meta_col * row_blks + meta_row + 1)
      else scale0 in
    let zp1 := dequant_zp1 zero_points row_blks meta_col meta_row in
    let vi1 := Z.shiftr (weights (j * q_rows + Z.quot i 2)) 4 in
    let v1 := mul (sub (of_Z vi1) (of_Z zp1)) scale1 in
    upd dst (j * rows + (i + 1)) v1
  else dst.

Definition dequantize_tile (weights : mem Z) (scales : mem float)
    (zero_points : option (mem Z)) (rows columns : Z)
    (dst : mem float) (block_idx : Z) : mem float :=
  let thrd_col_blks := Z.quot (columns + kColumn ThreadBlk - 1) (kColumn ThreadBlk) in
  let row_blks := Z.quot (rows + kRow QuantBlk - 1) (kRow QuantBlk) in
  let q_rows := fst (quantizedShape rows columns) in
  let r_blk_idx := Z.quot block_idx thrd_col_blks in
  let c_blk_idx := Z.rem block_idx thrd_col_blks in
  let r := r_blk_idx * kRow ThreadBlk in
  let c := c_blk_idx * kColumn ThreadBlk in
  let r_end := Z.min (r + kRow ThreadBlk) rows in
  let c_end := Z.min (c + kColumn ThreadBlk) columns in
  fold_left
    (fun dst j =>
       fold_left (dequant_pair weights scales zero_points rows row_blks q_rows r_end j)
                 (zrange r r_end 2) dst)
    (zrange c c_end 1) dst.

(** [dequantize] *)
Definition dequantize (dst : mem float) (weights : mem Z) (scales : mem float)
    (zero_points : option (mem Z)) (rows columns : Z) : mem float :=
  let thrd_row_blks := Z.quot (rows + kRow ThreadBlk - 1) (kRow ThreadBlk) in
  let thrd_col_blks := Z.quot (columns + kColumn ThreadBlk - 1) (kColumn ThreadBlk) in
  let total_thrd_blks := thrd_row_blks * thrd_col_blks in
  fold_left (dequantize_tile weights scales zero_points rows columns)
            (zrange 0 total_thrd_blks 1) dst.

End Quantizer.
End BlockwiseQuantizer.

(** The [switch (block_size)] of the dispatch layer. *)
Definition supported_block_size (block_size : Z) : bool :=
  (block_size =? 16) || (block_size =? 32) || (block_size =? 64)
  || (block_size =? 128) || (block_size =? 256).

(** [MlasBlockwiseQuantMetaShape<T, 4>] *)
Definition MlasBlockwiseQuantMetaShape (block_size : Z) (columnwise : bool)
    (rows columns : Z) : Z * Z :=
  if supported_block_size block_size
  then BlockwiseQuantizer.quantizeMetaShape block_size columnwise rows columns
  else (0, 0).

(** [MlasBlockwiseQuantizedShape<T, 4>] *)
Definition MlasBlockwiseQuantizedShape (block_size : Z) (columnwise : bool)
    (rows columns : Z) : Z * Z :=
  if supported_block_size block_size
  then BlockwiseQuantizer.quantizedShape block_size columnwise rows columns
  else (0, 0).

(** [MlasBlockwiseQuantizedBufferSizes]: the three sizes start at 0 and are
    set only for [qbits == 4] and a supported block size. *)
Definition MlasBlockwiseQuantizedBufferSizes (qbits block_size : Z)
    (columnwise : bool) (rows columns : Z) (q_zero_point_size_in_bytes : bool)
  : Z * Z * option Z :=
  if (qbits =? 4) && supported_block_size block_size
  then BlockwiseQuantizer.quantizedBufferSizes block_size columnwise rows columns
         q_zero_point_size_in_bytes
  else (0, 0, if q_zero_point_size_in_bytes then Some 0 else None).

(** [MlasQuantizeBlockwise<float, 4>] and [MlasDequantizeBlockwise<float, 4>]:
    an unsupported block size leaves the buffers alone. *)
Definition MlasQuantizeBlockwise (dst : mem Z) (scales : mem float)
    (zero_points : option (mem Z)) (src : mem float) (block_size : Z)
    (columnwise : bool) (rows columns leading_dimension : Z)
  : option (BlockwiseQuantizer.qbufs) :=
  if supported_block_size block_size
  then BlockwiseQuantizer.quantizeAndTranspose block_size columnwise
         dst scales zero_points src rows columns leading_dimension
  else Some {| BlockwiseQuantizer.q_dst := dst;
               BlockwiseQuantizer.q_scales := scales;
               BlockwiseQuantizer.q_zero_points := zero_points |}.

Definition MlasDequantizeBlockwise (dst : mem float) (src : mem Z)
    (scales : mem float) (zero_points : option (mem Z)) (block_size : Z)
    (columnwise : bool) (rows columns : Z) : mem float :=
  if supported_block_size block_size
  then BlockwiseQuantizer.dequantize block_size columnwise
         dst src scales zero_points rows columns
  else dst.

(** ** The QDQ quantizer *)

Module BlockwiseQDQQuantizer.
Section QDQ.

(** The template parameter, 4 or 2 (the [static_assert] of the source);
    [Tin] is [float]. *)
Variable qbits : Z.

Definition mask_ : Z := Z.shiftl 1 qbits - 1.
Definition pack_size_ : Z := BitsTraits.kPackSize qbits.
Definition shift_bit_ : Z := if qbits =? 4 then 1 else if qbits =? 2 then 2 else 0.

(** [SetElem] *)
Definition SetElem (val idx dst : Z) : Z :=
  let shift := idx * qbits in
  Z.land (Z.lor (Z.shiftl (Z.land val mask_) shift)
                (Z.land dst (Z.lnot (Z.shiftl mask_ shift)))) 255.

(** [Pack] *)
Definition Pack (vals : list Z) : Z :=
  if qbits =? 4 then
    Z.lor (Z.land (vals !!! 0%nat) 15) (Z.shiftl (Z.land (vals !!! 1%nat) 15) 4)
  else if qbits =? 2 then
    Z.lor (Z.lor (Z.lor (Z.land (vals !!! 0%nat) 3)
                        (Z.shiftl (Z.land (vals !!! 1%nat) 3) 2))
                 (Z.shiftl (Z.land (vals !!! 2%nat) 3) 4))
          (Z.shiftl (Z.land (vals !!! 3%nat) 3) 6)
  else vals !!! 0%nat.

Record qdq_bufs : Type :=
  { d_scales : mem float; d_zero_points : option (mem Z); d_dst : mem Z }.

(** The offsets [input_idx_t] of the rows [j < row_size] of a stride. *)
Definition row_offsets (input_idx row_size columns : Z) : list Z :=
  map (fun j => input_idx + j * columns) (zrange 0 row_size 1).

(** The minimum and maximum of [pack_size_] quantization blocks, scanned in
    lockstep: the state is [(vmin_t, vmax_t)]. *)
Definition minmax_step (src : mem float) (st : list float * list float)
    (input_idx_t : Z) : list float * list float :=
  fold_left
    (fun (st : list float * list float) i =>
       let v := src (input_idx_t + i) in
       (<[Z.to_nat i := fmin (fst st !!! Z.to_nat i) v]> (fst st),
        <[Z.to_nat i := fmax (snd st !!! Z.to_nat i) v]> (snd st)))
    (zrange 0 pack_size_ 1) st.

(** Scale and zero point of the block [i] of a stride; the state is
    [(scales, zp_t, reciprocal_scale_t, zp_f_t)]. *)
Definition scale_step (zero_points_null : bool) (vmin_t vmax_t : list float)
    (scale_idx : Z) (i : Z)
    (st : mem float * list Z * list float * list float)
  : option (mem float * list Z * list float * list float) :=
  let '(scales, zp_t, reciprocal_scale_t, zp_f_t) := st in
  '(scale_tt, zp_t) ←
    (if zero_points_null
     then Some (range2scale qbits (vmin_t !!! Z.to_nat i) (vmax_t !!! Z.to_nat i),
                zp_t)
     else '(scale, zp) ← range2scalezp qbits (vmin_t !!! Z.to_nat i)
                                              (vmax_t !!! Z.to_nat i);
          Some (scale, <[Z.to_nat i := zp]> zp_t));
  let scalef := scale_tt in
  Some (upd scales (scale_idx + i) scale_tt,
        zp_t,
        <[Z.to_nat i := if truthy scalef then div one scalef else zero]>
          reciprocal_scale_t,
        <[Z.to_nat i := of_Z (zp_t !!! Z.to_nat i)]> zp_f_t).

(** [static_cast<uint8_t>(std::clamp(std::roundf(v * reciprocal_scale) + zp_f,
    0.0f, kMaxFp))] *)
Definition quant (reciprocal_scale zp_f v : float) : option Z :=
  to_uint8 (clamp (add (roundf (mul v reciprocal_scale)) zp_f)
                  zero (BitsTraits.kMaxFp qbits)).

(** One row of a stride: [out_t] is filled and packed into one byte of
    [dst]. *)
Definition quant_row (src : mem float) (reciprocal_scale_t zp_f_t : list float)
    (input_idx_t : Z) (dst : mem Z) : option (mem Z) :=
  out_t ← mapM (fun i => quant (reciprocal_scale_t !!! Z.to_nat i)
                               (zp_f_t !!! Z.to_nat i)
                               (src (input_idx_t + i)))
               (zrange 0 pack_size_ 1);
  Some (upd dst (Z.shiftr input_idx_t shift_bit_) (Pack out_t)).

(** The body of the loop over the strides of a thread block; the state is
    [(scale_idx, buffers)]. *)
Definition stride_step (src : mem float) (row_size columns : Z)
    (input_idx : Z) (st : Z * qdq_bufs) : option (Z * qdq_bufs) :=
  let '(scale_idx, b) := st in
  let n := Z.to_nat pack_size_ in
  let zp_t := replicate n (BitsTraits.kMid qbits) in
  let vmin_t := replicate n FLT_MAX in
  let vmax_t := replicate n FLT_LOWEST in
  let '(vmin_t, vmax_t) :=
    fold_left (minmax_step src) (row_offsets input_idx row_size columns)
              (vmin_t, vmax_t) in
  let zero_points_null := match d_zero_points b with None => true | _ => false end in
  '(scales, zp_t, reciprocal_scale_t, zp_f_t) ←
    foldM (scale_step zero_points_null vmin_t vmax_t scale_idx)
          (zrange 0 pack_size_ 1)
          (d_scales b, zp_t, replicate n zero, replicate n zero);
  let zero_points :=
    match d_zero_points b with
    | Some zps => Some (upd zps (Z.shiftr scale_idx shift_bit_) (Pack zp_t))
    | None => None
    end in
  dst ← foldM (quant_row src reciprocal_scale_t zp_f_t)
              (row_offsets input_idx row_size columns) (d_dst b);
  Some (scale_idx + pack_size_,
        {| d_scales := scales; d_zero_points := zero_points; d_dst := dst |}).

(** The body run for one thread block. The header of the loop over the
    strides reads
    [for (input_idx + pack_size_ < input_end_idx;
          input_idx += pack_size_, scale_idx += pack_size_)]:
    the comparison is the condition of the loop and the two additions are
    its step, so the strides visited start at the offsets [input_idx] with
    [input_idx + pack_size_ < input_end_idx]. *)
Definition quantize_tile (src : mem float)
    (rows columns quant_block_size : Z) (thr_blk_idx : Z) (b : qdq_bufs)
  : option qdq_bufs :=
  let thr_blk_size := 16 in
  let num_col_thr_blk := Z.quot (columns + thr_blk_size - 1) thr_blk_size in
  let row_quant_blk_idx := Z.quot thr_blk_idx num_col_thr_blk in
  let col_thr_blk_idx := Z.rem thr_blk_idx num_col_thr_blk in
  let row_idx := row_quant_blk_idx * quant_block_size in
  let col_idx := col_thr_blk_idx * thr_blk_size in
  let row_size := Z.min quant_block_size (rows - row_idx) in
  let col_size := Z.min thr_blk_size (columns - col_idx) in
  let input_idx := row_idx * columns + col_idx in
  let scale_idx := row_quant_blk_idx * columns + col_idx in
  let input_end_idx := input_idx + col_size in
  st ← foldM (stride_step src row_size columns)
             (zrange input_idx (input_end_idx - pack_size_) pack_size_)
             (scale_idx, b);
  Some (snd st).

(** What a call of [quantizeColumnWise] comes to: the [ORT_ENFORCE] on the
    column count throws, or the buffers are returned. *)
Inductive outcome : Type :=
| EnforceFailed
| Quantized (b : qdq_bufs).

(** [quantizeColumnWise] *)
Definition quantizeColumnWise (src : mem float) (scales : mem float)
    (zero_points : option (mem Z)) (dst : mem Z)
    (rows columns quant_block_size : Z) : option outcome :=
  if negb (Z.rem columns pack_size_ =? 0) then Some EnforceFailed
  else
    let thr_blk_size := 16 in
    let num_row_thr_blk := Z.quot (rows + quant_block_size - 1) quant_block_size in
    let num_col_thr_blk := Z.quot (columns + thr_blk_size - 1) thr_blk_size in
    let num_thr_blk := num_row_thr_blk * num_col_thr_blk in
    b ← foldM (quantize_tile src rows columns quant_block_size)
              (zrange 0 num_thr_blk 1)
              {| d_scales := scales; d_zero_points := zero_points; d_dst := dst |};
    Some (Quantized b).

End QDQ.
End BlockwiseQDQQuantizer.

(** ** Vocabulary of the statements *)

(** The rounded-up quotient [⌈a / b⌉] of the specification. *)
Definition ceil_div (a b : Z) : Z := - ((- a) / b).

(** [INT_MAX] *)
Definition INT_MAX : Z := 2 ^ 31 - 1.

(** The enumerators and a quantization type used in the examples. *)
Definition example_enum : QuantTypeEnum :=
  {| BlkQ4Sym := 0; BlkQ4Sym64 := 2; BlkQ4Sym128 := 4 |}.

(** The stored zero point: the three branches of the clamping. *)
Definition clamp_zp (zp_max : Z) (zero_point_fp : float) : option Z :=
  if ltb zero_point_fp zero then Some 0
  else if ltb (of_Z zp_max) zero_point_fp then Some zp_max
  else to_uint8 (roundf zero_point_fp).

(** The nibble of the element [p] of a block: within each stride of 32
    elements, the byte [l] holds the element [l] in its low half and the
    element [l + 16] in its high half. *)
Definition nibble_at (data : mem Z) (p : Z) : Z :=
  let byte := data (16 * (p / 32) + p mod 16) in
  if p mod 32 <? 16 then Z.land byte 15 else Z.shiftr byte 4.

(** The number of 32-element strides the packers visit for [klen] values. *)
Definition stride_count (klen : Z) : Z := (klen + 31) / 32.

(** The reciprocal scale of a block, [scale ? 1.0f / scale : 0.0f]. *)
Definition reciprocal_of (scale : float) : float :=
  if truthy scale then div one scale else zero.

(** The value [range2scale] divides by [-mid]. *)
Definition range2scale_m (min max : float) : float :=
  if ltb (fabsf min) (fabsf max) then max else min.

(** The values of a block, in scan order. *)
Definition block_values (src : mem float) (ldb klen : Z) : list float :=
  map (fun l => src (ldb * l)) (zrange 0 klen 1).

Definition sym_step (st : float * float) (v : float) : float * float :=
  if ltb (fst st) (fabsf v) then (fabsf v, v) else st.

(** The invariant of the symmetric scan over the values seen so far. *)
Definition sym_inv (st : float * float) (seen : list float) : Prop :=
  fst st = fabsf (snd st)
  /\ (forall v, v ∈ seen -> ltb (fst st) (fabsf v) = false)
  /\ (snd st = zero
      \/ exists i : nat,
           seen !! i = Some (snd st)
           /\ forall (j : nat) w, (j < i)%nat -> seen !! j = Some w ->
                leb (fabsf (snd st)) (fabsf w) = false).

Definition asym_step (st : float * float) (v : float) : float * float :=
  (if ltb v (fst st) then v else fst st, if ltb (snd st) v then v else snd st).

(** The value a packer quantizes for the position [p] of a block of [klen]
    values read through [g]: the positions past [klen] are given the
    literal 0. *)
Definition elem (g : Z -> float) (klen : Z) (p : Z) : float :=
  if p <? klen then g p else of_Z 0.

(** The payload loops of the two packers, over the quantizer [q] and the
    value [g p] it is given for the element [p]. *)
Definition gen_emit_byte (q : float -> option Z) (g : Z -> float)
    (kk kklen doff l : Z) (data : mem Z) : option (mem Z) :=
  vi0 ← q (if l <? kklen then g (kk + l) else of_Z 0);
  vi1 ← q (if l + 16 <? kklen then g (kk + (l + 16)) else of_Z 0);
  Some (upd data (doff + l) (pack_nibbles vi0 vi1)).

Definition gen_emit_stride (q : float -> option Z) (g : Z -> float) (klen : Z)
    (kk : Z) (st : mem Z * Z) : option (mem Z * Z) :=
  let kklen := Z.min 32 (klen - kk) in
  data ← foldM (gen_emit_byte q g kk kklen (snd st)) (zrange 0 16 1) (fst st);
  Some (data, snd st + 16).

(** The byte that holds the positions [kk + l] and [kk + l + 16]. *)
Definition byte_value (q : float -> option Z) (g : Z -> float) (klen : Z)
    (kk l : Z) : option Z :=
  vi0 ← q (elem g klen (kk + l));
  vi1 ← q (elem g klen (kk + (l + 16)));
  Some (pack_nibbles vi0 vi1).

(** The number of blocks of a column of [K] values. *)
Definition KBlocks (T : Q4Type) (K : Z) : Z := MlasDivRoundup K (BlkLen T).

(** The block [kb] of the column [n] of a matrix: where it is read, its
    length, and the offset of its blob. *)
Definition block_src (T : Q4Type) (FpData : mem float) (ldb : Z) (n kb : Z)
  : mem float :=
  fun i => FpData (n + ldb * (BlkLen T * kb) + i).

Definition block_len (T : Q4Type) (K : Z) (kb : Z) : Z :=
  Z.min (BlkLen T) (K - BlkLen T * kb).

Definition blob_offset (T : Q4Type) (K : Z) (n kb : Z) : Z :=
  BlobSize T * (n * KBlocks T K + kb).

(** The value an unpacker decodes for the position [p] of a block, with the
    decoders [deq0] and [deq1] of the low and the high nibble. *)
Definition unpacked_value (deq0 deq1 : Z -> float) (data : mem Z) (p : Z) : float :=
  let vi := data (16 * (p / 32) + p mod 16) in
  if p mod 32 <? 16 then deq0 vi else deq1 vi.

(** What a loop of the unpacker does to the offset [x], the element [p]
    being stored at [dest + ldb * p]: either no position it covers is stored
    at [x], and [x] is untouched, or [x] holds the decoded value of the
    position stored there. *)
Definition unpack_effect (deq0 deq1 : Z -> float) (data : mem Z) (ldb dest : Z)
    (covers : Z -> Prop) (F F' : mem float) : Prop :=
  forall x,
    ((forall p, covers p -> x <> dest + ldb * p) /\ F' x = F x)
    \/ (exists p, covers p /\ x = dest + ldb * p
                  /\ F' x = unpacked_value deq0 deq1 data p).

(** A two-element block used in the examples. *)
Definition two_values (a b : float) : mem float :=
  fun i => if i =? 0 then a else b.

Definition three_values (a b c : float) : mem float :=
  fun i => if i =? 0 then a else if i =? 1 then b else c.

(** The blob the examples start from, and one whose payload is all ones. *)
Definition blob_init : blob :=
  {| blk_scale := zero; blk_zp := 0; blk_data := fun _ => 0 |}.

Definition blob_ones : blob :=
  {| blk_scale := zero; blk_zp := 0; blk_data := fun _ => 255 |}.

(** A source of 16 columns whose entry [i] is [i + 1]. *)
Definition ramp : mem float := fun i => of_Z (i + 1).

(** ** File names and name tables

    The utilities of the [Dml] namespace that close the file. Characters
    are code units ([char] or [wchar_t], the two overloads of each function
    have the same body) and strings are lists of code units. *)

Module Dml.

(** The cases of the [switch (c)] of [GetSanitizedFileName]: backslash,
    slash, double quote, bar, the two angle brackets, colon, question mark
    and asterisk. *)
Definition reserved_char (c : Z) : bool :=
  (c =? 92) || (c =? 47) || (c =? 34) || (c =? 124) || (c =? 60)
  || (c =? 62) || (c =? 58) || (c =? 63) || (c =? 42).

(** The code units of the underscore and of the dot. *)
Definition underscore : Z := 95.
Definition dot : Z := 46.

(** [GetSanitizedFileName] *)
Definition GetSanitizedFileName (name : list Z) : list Z :=
  map (fun c => if reserved_char c then underscore else c) name.

(** [std::basic_string::find_last_of(ch)]: the largest position that holds
    [ch]; [None] is [npos]. *)
Fixpoint find_last_of (s : list Z) (ch : Z) : option nat :=
  match s with
  | [] => None
  | c :: s' =>
      match find_last_of s' ch with
      | Some i => Some (S i)
      | None => if c =? ch then Some 0%nat else None
      end
  end.

(** [GetModelName]; the argument is [modelPath.GetComponents()], the only
    use the function makes of the path. *)
Definition GetModelName (components : list (list Z)) : list Z :=
  match last components with
  | None => []
  | Some pathString =>
      match find_last_of pathString dot with
      | None => []
      | Some dotPosition => take dotPosition pathString
      end
  end.

Module StringUtil.

(** [NameAndIndex] and [WideNameAndIndex]: [name] holds the code units that
    precede the terminating null of the C string. *)
Record NameAndIndex : Type := { name : list Z; index : Z }.

(** [strncmp(s1, s2, n) == 0] for a null-terminated [s1] and the [n] code
    units [s2] of a string view: the comparison stops at the first
    difference, at a null held by both, or after [n] code units. *)
Fixpoint strncmp_is_0 (s1 s2 : list Z) {struct s2} : bool :=
  match s2 with
  | [] => true
  | c2 :: s2' =>
      match s1 with
      | [] => c2 =? 0
      | c1 :: s1' =>
          if c1 =? c2 then (if c1 =? 0 then true else strncmp_is_0 s1' s2')
          else false
      end
  end.

(** [MapToIndex] *)
Fixpoint MapToIndex (mode : list Z) (nameAndIndexList : list NameAndIndex)
  : option Z :=
  match nameAndIndexList with
  | [] => None
  | nameAndIndex :: rest =>
      if strncmp_is_0 (name nameAndIndex) mode then Some (index nameAndIndex)
      else MapToIndex mode rest
  end.

End StringUtil.
End Dml.

(** The element [idx] of a packed byte: its bits [idx * qbits] to
    [idx * qbits + qbits - 1]. *)
Definition GetElem (qbits : Z) (byte idx : Z) : Z :=
  Z.land (Z.shiftr byte (idx * qbits)) (BlockwiseQDQQuantizer.mask_ qbits).

(** A byte built by [SetElem] from the elements of [vals], the first of
    them at the index [idx]. *)
Fixpoint set_elems (qbits : Z) (vals : list Z) (idx : Z) (dst : Z) : Z :=
  match vals with
  | [] => dst
  | v :: vals' =>
      set_elems qbits vals' (idx + 1) (BlockwiseQDQQuantizer.SetElem qbits v idx dst)
  end.

(** Every integer of [0 .. n - 1] passes the test [P]. *)
Definition all_below (n : nat) (P : Z -> bool) : bool :=
  forallb P (map Z.of_nat (seq 0 n)).

(** What a loop does to a buffer: the offsets of [cover] hold the value [v]
    gives them, the other offsets are untouched. *)
Definition writes_to {A : Type} (cover : Z -> Prop) (v : Z -> A)
    (F F' : mem A) : Prop :=
  forall x, (cover x /\ F' x = v x) \/ (~ cover x /\ F' x = F x).

(** The block type a [switch (QType)] selects. *)
Definition q4_type (c : q4_case) : Q4Type :=
  match c with
  | CaseBlk0 => MLAS_Q4TYPE_BLK0
  | CaseBlk2 => MLAS_Q4TYPE_BLK2
  | CaseBlk4 => MLAS_Q4TYPE_BLK4
  | CaseDefault => MLAS_Q4TYPE_BLK1
  end.

(** The value the unpackers subtract from a nibble: the zero point byte of
    the blob for the asymmetric block type, 8 for the symmetric ones. *)
Definition q4_zero (c : q4_case) (b : blob) : Z :=
  match c with CaseDefault => blk_zp b | _ => 8 end.

(** The value an unpacker stores at the offset [x = ldb * k + n] of the
    matrix: the row [k] of the column [n] is the element [k mod BlkLen] of
    the block [k / BlkLen] of that column. *)
Definition unpacked_at (T : Q4Type) (d0 d1 : blob -> Z -> float)
    (PackedBuf : mem blob) (K ldb : Z) (x : Z) : float :=
  let k := x / ldb in
  let n := x mod ldb in
  let b := PackedBuf (blob_offset T K n (k / BlkLen T)) in
  unpacked_value (d0 b) (d1 b) (blk_data b) (k mod BlkLen T).

(** The block of the column [n] that holds the row [k], as the packers
    read it. *)
Definition row_block (T : Q4Type) (FpData : mem float) (ldb n k : Z) : mem float :=
  block_src T FpData ldb n (k / BlkLen T).

Definition row_block_len (T : Q4Type) (K k : Z) : Z :=
  block_len T K (k / BlkLen T).

(** The half [h] of a byte: its low nibble for [h = 0], its high nibble
    otherwise. *)
Definition nib (h byte : Z) : Z :=
  if h =? 0 then Z.land byte 15 else Z.shiftr byte 4.

(** The value [dequantize] gives the element of the row [i] and the column
    [j]: [(w - zp) * scale] for the nibble [w] of the element, and the zero
    point and the scale of its quantization block. *)
Definition dequantized_elem (block_size : Z) (Columnwise : bool)
    (weights : mem Z) (scales : mem float) (zero_points : option (mem Z))
    (rows columns : Z) (i j : Z) : float :=
  let QB := BlockwiseQuantizer.QuantBlk block_size Columnwise in
  let meta_row := i / kRow QB in
  let meta_col := j / kColumn QB in
  let row_blks := (rows + kRow QB - 1) / kRow QB in
  let q_rows :=
    fst (BlockwiseQuantizer.quantizedShape block_size Columnwise rows columns) in
  let zp :=
    match zero_points with
    | None => 8
    | Some zps =>
        nib (meta_row mod 2) (zps (meta_col * ((row_blks + 1) / 2) + meta_row / 2))
    end in
  let w := nib (i mod 2) (weights (j * q_rows + i / 2)) in
  mul (sub (of_Z w) (of_Z zp)) (scales (meta_col * row_blks + meta_row)).

(** What a loop that may be undefined does to a buffer: the offsets of
    [cover] hold the value [v] defines for them, the other offsets are
    untouched. *)
Definition writes_some {A : Type} (cover : Z -> Prop) (v : Z -> option A)
    (F F' : mem A) : Prop :=
  forall x, (cover x /\ v x = Some (F' x)) \/ (~ cover x /\ F' x = F x).

(** The same for a buffer that may be absent. *)
Definition opt_writes {A : Type} (cover : Z -> Prop) (v : Z -> option A)
    (F F' : option (mem A)) : Prop :=
  match F, F' with
  | Some f, Some f' => writes_some cover v f f'
  | None, None => True
  | _, _ => False
  end.

Definition zp_is_null (zero_points : option (mem Z)) : bool :=
  match zero_points with None => true | _ => false end.

(** The three buffers of the blockwise quantizer. *)
Definition bufs_writes (cD cS cZ : Z -> Prop) (vD : Z -> option Z)
    (vS : Z -> option float) (vZ : Z -> option Z)
    (b b' : BlockwiseQuantizer.qbufs) : Prop :=
  writes_some cD vD (BlockwiseQuantizer.q_dst b) (BlockwiseQuantizer.q_dst b')
  /\ writes_some cS vS (BlockwiseQuantizer.q_scales b)
       (BlockwiseQuantizer.q_scales b')
  /\ opt_writes cZ vZ (BlockwiseQuantizer.q_zero_points b)
       (BlockwiseQuantizer.q_zero_points b').

(** The byte [(lo & 0xf) | (hi << 4)]. *)
Definition pack_pair (lo hi : Z) : Z := pack_nibbles (Z.land lo 15) hi.

(** The range of the quantization block [(mr, mc)] of a matrix: the scan of
    the rows [mr * kRow ..] and the columns [mc * kColumn ..] of the block
    that lie in the matrix. *)
Definition block_range (block_size : Z) (Columnwise : bool) (src : mem float)
    (leadingDimension rows columns : Z) (mr mc : Z) : float * float :=
  let QB := BlockwiseQuantizer.QuantBlk block_size Columnwise in
  BlockwiseQuantizer.scan_block src leadingDimension
    (mr * kRow QB) (Z.min (mr * kRow QB + kRow QB) rows)
    (mc * kColumn QB) (Z.min (mc * kColumn QB + kColumn QB) columns).

(** The scale and the zero point of a block: [range2scale] and the implicit
    zero point 8 without zero points, [range2scalezp] with them. *)
Definition block_params (zero_points_null : bool) (block_size : Z)
    (Columnwise : bool) (src : mem float) (leadingDimension rows columns : Z)
    (mr mc : Z) : option (float * Z) :=
  let r := block_range block_size Columnwise src leadingDimension rows columns
             mr mc in
  if zero_points_null
  then Some (range2scale BlockwiseQuantizer.qbits (fst r) (snd r), 8)
  else range2scalezp BlockwiseQuantizer.qbits (fst r) (snd r).

(** The quantized value of the element of the row [i] and the column [j]:
    the element times the reciprocal of the scale of its block, plus the
    zero point of the block, rounded and clamped. *)
Definition quantized_elem (zero_points_null : bool) (block_size : Z)
    (Columnwise : bool) (src : mem float) (leadingDimension rows columns : Z)
    (i j : Z) : option Z :=
  let QB := BlockwiseQuantizer.QuantBlk block_size Columnwise in
  p ← block_params zero_points_null block_size Columnwise src
        leadingDimension rows columns (i / kRow QB) (j / kColumn QB);
  BlockwiseQuantizer.quant (BlockwiseQuantizer.reciprocal (fst p)) (snd p)
    (src (i * leadingDimension + j)).

(** The byte of the rows [i] and [i + 1] of the column [j]; the high half
    is the zero point of the block when the row [i] is the last one. *)
Definition quantized_pair (zero_points_null : bool) (block_size : Z)
    (Columnwise : bool) (src : mem float) (leadingDimension rows columns : Z)
    (i j : Z) : option Z :=
  let QB := BlockwiseQuantizer.QuantBlk block_size Columnwise in
  vi0 ← quantized_elem zero_points_null block_size Columnwise src
          leadingDimension rows columns i j;
  vi1 ← (if i + 1 <? rows
         then quantized_elem zero_points_null block_size Columnwise src
                leadingDimension rows columns (i + 1) j
         else snd <$> block_params zero_points_null block_size Columnwise src
                        leadingDimension rows columns
                        (i / kRow QB) (j / kColumn QB));
  Some (pack_pair vi0 vi1).

(** The byte of the zero points of the blocks [2 * rt] and [2 * rt + 1] of
    the block column [mc]; the high half is 8 when the second block lies
    outside the matrix. *)
Definition zero_point_pair (zero_points_null : bool) (block_size : Z)
    (Columnwise : bool) (src : mem float) (leadingDimension rows columns : Z)
    (rt mc : Z) : option Z :=
  let QB := BlockwiseQuantizer.QuantBlk block_size Columnwise in
  z0 ← snd <$> block_params zero_points_null block_size Columnwise src
                 leadingDimension rows columns (2 * rt) mc;
  z1 ← (if (2 * rt + 1) * kRow QB <? rows
        then snd <$> block_params zero_points_null block_size Columnwise src
                       leadingDimension rows columns (2 * rt + 1) mc
        else Some 8);
  Some (pack_pair z0 z1).

(** The contents of the three buffers by offset: the quantized weights are
    column major with [q_rows] bytes a column, the scales with [row_blks]
    scales a column, the zero points with [(row_blks + 1) / 2] bytes a
    column. *)
Definition dst_byte_at (zero_points_null : bool) (block_size : Z)
    (Columnwise : bool) (src : mem float) (leadingDimension rows columns : Z)
    (x : Z) : option Z :=
  let q_rows :=
    fst (BlockwiseQuantizer.quantizedShape block_size Columnwise rows columns) in
  quantized_pair zero_points_null block_size Columnwise src leadingDimension
    rows columns (2 * (x mod q_rows)) (x / q_rows).

Definition scale_at (zero_points_null : bool) (block_size : Z)
    (Columnwise : bool) (src : mem float) (leadingDimension rows columns : Z)
    (x : Z) : option float :=
  let QB := BlockwiseQuantizer.QuantBlk block_size Columnwise in
  let row_blks := (rows + kRow QB - 1) / kRow QB in
  fst <$> block_params zero_points_null block_size Columnwise src
            leadingDimension rows columns (x mod row_blks) (x / row_blks).

Definition zp_byte_at (zero_points_null : bool) (block_size : Z)
    (Columnwise : bool) (src : mem float) (leadingDimension rows columns : Z)
    (x : Z) : option Z :=
  let QB := BlockwiseQuantizer.QuantBlk block_size Columnwise in
  let row_blks := (rows + kRow QB - 1) / kRow QB in
  let zp_rows := (row_blks + 1) / 2 in
  zero_point_pair zero_points_null block_size Columnwise src leadingDimension
    rows columns (x mod zp_rows) (x / zp_rows).

(** The buffers [b'] of a quantized matrix, from the buffers [b] it was
    written to: a byte for each pair of rows of a column, a scale for each
    block, a zero point byte for each pair of blocks of a block column, and
    the rest as it was. *)
Definition quantized_bufs (zero_points_null : bool) (block_size : Z)
    (Columnwise : bool) (src : mem float) (leadingDimension rows columns : Z)
    (b b' : BlockwiseQuantizer.qbufs) : Prop :=
  let QB := BlockwiseQuantizer.QuantBlk block_size Columnwise in
  let row_blks := (rows + kRow QB - 1) / kRow QB in
  let q_rows :=
    fst (BlockwiseQuantizer.quantizedShape block_size Columnwise rows columns) in
  bufs_writes
    (fun x => exists i j,
       0 <= i < rows /\ 0 <= j < columns /\ x = j * q_rows + i / 2)
    (fun x => exists mr mc,
       (0 <= mr /\ mr * kRow QB < rows)
       /\ (0 <= mc /\ mc * kColumn QB < columns)
       /\ x = mc * row_blks + mr)
    (fun x => exists rt mc,
       (0 <= rt /\ 2 * rt * kRow QB < rows)
       /\ (0 <= mc /\ mc * kColumn QB < columns)
       /\ x = mc * ((row_blks + 1) / 2) + rt)
    (dst_byte_at zero_points_null block_size Columnwise src leadingDimension
       rows columns)
    (scale_at zero_points_null block_size Columnwise src leadingDimension
       rows columns)
    (zp_byte_at zero_points_null block_size Columnwise src leadingDimension
       rows columns)
    b b'.

(** The buffers of the QDQ quantizer, seen as those of the blockwise
    quantizer. *)
Definition qdq_view (b : BlockwiseQDQQuantizer.qdq_bufs)
  : BlockwiseQuantizer.qbufs :=
  {| BlockwiseQuantizer.q_dst := BlockwiseQDQQuantizer.d_dst b;
     BlockwiseQuantizer.q_scales := BlockwiseQDQQuantizer.d_scales b;
     BlockwiseQuantizer.q_zero_points := BlockwiseQDQQuantizer.d_zero_points b |}.

(** The minimum and the maximum of the values at the offsets [off + i],
    for the offsets [off] of the rows of a block. *)
Definition qdq_scan (src : mem float) (offs : list Z) (i : Z) : float * float :=
  fold_left
    (fun (st : float * float) off =>
       let v := src (off + i) in (fmin (fst st) v, fmax (snd st) v))
    offs (FLT_MAX, FLT_LOWEST).

(** The range of the column [c] in the row block [rb] of a matrix
    quantized in blocks of [quant_block_size] rows. *)
Definition qdq_column_range (src : mem float)
    (rows columns quant_block_size : Z) (rb c : Z) : float * float :=
  qdq_scan src
    (BlockwiseQDQQuantizer.row_offsets (rb * quant_block_size * columns)
       (Z.min quant_block_size (rows - rb * quant_block_size)) columns)
    c.

(** The scale and the zero point of that column block: [range2scale] and
    the implicit zero point [kMid] without zero points, [range2scalezp] with
    them. *)
Definition qdq_params (zero_points_null : bool) (qbits : Z) (src : mem float)
    (rows columns quant_block_size : Z) (rb c : Z) : option (float * Z) :=
  let r := qdq_column_range src rows columns quant_block_size rb c in
  if zero_points_null
  then Some (range2scale qbits (fst r) (snd r), BitsTraits.kMid qbits)
  else range2scalezp qbits (fst r) (snd r).

(** The quantized value of the element of the row [r] and the column
    [c]. *)
Definition qdq_elem (zero_points_null : bool) (qbits : Z) (src : mem float)
    (rows columns quant_block_size : Z) (r c : Z) : option Z :=
  p ← qdq_params zero_points_null qbits src rows columns quant_block_size
        (r / quant_block_size) c;
  BlockwiseQDQQuantizer.quant qbits (BlockwiseQuantizer.reciprocal (fst p))
    (of_Z (snd p)) (src (r * columns + c)).

(** The contents of the three buffers by offset: a byte of the weights
    packs [pack_size_] consecutive elements of a row, a byte of the zero
    points those of [pack_size_] consecutive columns of a row of blocks. *)
Definition qdq_dst_byte_at (zero_points_null : bool) (qbits : Z)
    (src : mem float) (rows columns quant_block_size : Z) (x : Z) : option Z :=
  let o := x * BlockwiseQDQQuantizer.pack_size_ qbits in
  out ← mapM (fun i => qdq_elem zero_points_null qbits src rows columns
                         quant_block_size (o / columns) (o mod columns + i))
             (zrange 0 (BlockwiseQDQQuantizer.pack_size_ qbits) 1);
  Some (BlockwiseQDQQuantizer.Pack qbits out).

Definition qdq_scale_at (zero_points_null : bool) (qbits : Z)
    (src : mem float) (rows columns quant_block_size : Z) (x : Z)
  : option float :=
  fst <$> qdq_params zero_points_null qbits src rows columns quant_block_size
            (x / columns) (x mod columns).

Definition qdq_zp_byte_at (zero_points_null : bool) (qbits : Z)
    (src : mem float) (rows columns quant_block_size : Z) (x : Z) : option Z :=
  let o := x * BlockwiseQDQQuantizer.pack_size_ qbits in
  zs ← mapM (fun i => snd <$> qdq_params zero_points_null qbits src rows
                                columns quant_block_size
                                (o / columns) (o mod columns + i))
            (zrange 0 (BlockwiseQDQQuantizer.pack_size_ qbits) 1);
  Some (BlockwiseQDQQuantizer.Pack qbits zs).

(** The columns the loop over the strides of a thread block reaches: the
    stride of the column, which starts at [c / pack_size_ * pack_size_], is
    not the last one of its thread block of 16 columns. *)
Definition qdq_visited (qbits columns c : Z) : Prop :=
  let pack := BlockwiseQDQQuantizer.pack_size_ qbits in
  0 <= c /\ c / pack * pack + pack < Z.min (c / 16 * 16 + 16) columns.

(** The first column of a stride the loop reaches. *)
Definition qdq_stride (qbits columns c : Z) : Prop :=
  let pack := BlockwiseQDQQuantizer.pack_size_ qbits in
  0 <= c /\ c mod pack = 0 /\ c + pack < Z.min (c / 16 * 16 + 16) columns.

(** The buffers [b'] of a matrix quantized column-wise, from the buffers
    [b] it was written to: the strides the loop reaches are written, the
    rest is as it was. *)
Definition qdq_quantized (zero_points_null : bool) (qbits : Z) (src : mem float)
    (rows columns quant_block_size : Z)
    (b b' : BlockwiseQDQQuantizer.qdq_bufs) : Prop :=
  let pack := BlockwiseQDQQuantizer.pack_size_ qbits in
  bufs_writes
    (fun x => exists r c,
       0 <= r < rows /\ qdq_stride qbits columns c
       /\ x = (r * columns + c) / pack)
    (fun x => exists rb c i,
       (0 <= rb /\ rb * quant_block_size < rows)
       /\ qdq_stride qbits columns c /\ 0 <= i < pack
       /\ x = rb * columns + c + i)
    (fun x => exists rb c,
       (0 <= rb /\ rb * quant_block_size < rows)
       /\ qdq_stride qbits columns c
       /\ x = (rb * columns + c) / pack)
    (qdq_dst_byte_at zero_points_null qbits src rows columns quant_block_size)
    (qdq_scale_at zero_points_null qbits src rows columns quant_block_size)
    (qdq_zp_byte_at zero_points_null qbits src rows columns quant_block_size)
    (qdq_view b) (qdq_view b').

(** * Properties *)

(** ** Facts on binary32 arithmetic *)

Module F32Facts.

Lemma digits2_pos_bound (p : positive) :
  Z.pos p < 2 ^ Z.pos (digits2_pos p).
Proof.
  induction p as [p IH | p IH |]; cbn [digits2_pos];
    rewrite ?Pos2Z.inj_succ, ?Z.pow_succ_r by lia; lia.
Qed.

Lemma Zdigits2_bound (m : Z) : 0 <= m -> m < 2 ^ Zdigits2 m.
Proof.
  destruct m as [| p | p]; cbn [Zdigits2]; intros H; try lia.
  apply digits2_pos_bound.
Qed.

Lemma shr_1_m (mrs : shr_record) :
  0 <= shr_m mrs -> shr_m (shr_1 mrs) = shr_m mrs / 2.
Proof.
  destruct mrs as [m r s]; cbn [shr_m]; intros H.
  destruct m as [| [p | p |] | p]; cbn; try reflexivity; try lia.
  - rewrite Pos2Z.inj_xI. apply Z.div_unique with (r := 1); lia.
  - rewrite Pos2Z.inj_xO. apply Z.div_unique with (r := 0); lia.
Qed.

Lemma iter_shr_1_m (p : positive) : forall mrs,
  0 <= shr_m mrs ->
  shr_m (SpecFloat.iter_pos shr_1 p mrs) = shr_m mrs / 2 ^ Z.pos p.
Proof.
  induction p as [p IH | p IH |]; intros mrs H; cbn [SpecFloat.iter_pos].
  - assert (H1 : 0 <= shr_m (shr_1 mrs))
      by (rewrite shr_1_m by lia; apply Z.div_pos; lia).
    assert (H2 : 0 <= shr_m (SpecFloat.iter_pos shr_1 p (shr_1 mrs)))
      by (rewrite IH by lia; apply Z.div_pos; lia).
    rewrite IH, IH, shr_1_m by lia.
    assert (E : 2 ^ Z.pos p~1 = 2 * (2 ^ Z.pos p * 2 ^ Z.pos p)).
    { replace (Z.pos p~1) with (1 + (Z.pos p + Z.pos p)) by lia.
      rewrite !Z.pow_add_r by lia. reflexivity. }
    rewrite E, !Z.div_div by lia. reflexivity.
  - assert (H2 : 0 <= shr_m (SpecFloat.iter_pos shr_1 p mrs))
      by (rewrite IH by lia; apply Z.div_pos; lia).
    rewrite IH, IH by lia.
    assert (E : 2 ^ Z.pos p~0 = 2 ^ Z.pos p * 2 ^ Z.pos p).
    { replace (Z.pos p~0) with (Z.pos p + Z.pos p) by lia.
      rewrite Z.pow_add_r by lia. reflexivity. }
    rewrite E, Z.div_div by lia. reflexivity.
  - rewrite shr_1_m by lia. reflexivity.
Qed.

Lemma shr_record_of_loc_m (m : Z) (l : location) :
  shr_m (shr_record_of_loc m l) = m.
Proof. destruct l as [| []]; reflexivity. Qed.

(** After [shr_fexp] the mantissa fits the precision. *)
Lemma shr_fexp_bound (m e : Z) (l : location) :
  0 <= m ->
  0 <= shr_m (fst (shr_fexp prec emax m e l)) < 2 ^ prec.
Proof.
  intros Hm. unfold shr_fexp, shr.
  pose proof (Zdigits2_bound m Hm) as Hd.
  assert (Hd0 : 0 <= Zdigits2 m) by (destruct m; cbn; lia).
  set (d := Zdigits2 m) in *.
  assert (Hn : d - prec <= fexp prec emax (d + e) - e)
    by (unfold fexp; lia).
  destruct (fexp prec emax (d + e) - e) as [| n | n] eqn:En;
    cbn [fst]; rewrite ?shr_record_of_loc_m.
  - split; [lia |].
    apply Z.lt_le_trans with (1 := Hd). apply Z.pow_le_mono_r; lia.
  - rewrite iter_shr_1_m by (rewrite shr_record_of_loc_m; lia).
    rewrite shr_record_of_loc_m.
    split; [apply Z.div_pos; lia |].
    apply Z.div_lt_upper_bound; [lia |].
    rewrite <- Z.pow_add_r by (unfold prec; lia).
    apply Z.lt_le_trans with (1 := Hd). apply Z.pow_le_mono_r; lia.
  - split; [lia |].
    apply Z.lt_le_trans with (1 := Hd). apply Z.pow_le_mono_r; lia.
Qed.

Lemma round_nearest_even_nonneg (m : Z) (l : location) :
  0 <= m -> 0 <= round_nearest_even m l.
Proof.
  intros H. destruct l as [| []]; cbn [round_nearest_even]; try lia.
  destruct (Z.even m); lia.
Qed.

(** What rounding returns: a zero, an infinity or a finite float of the
    requested sign, whose mantissa fits the precision. *)
Lemma binary_round_aux_cases (s : bool) (m e : Z) (l : location) :
  0 <= m ->
  has_sign s (binary_round_aux prec emax s m e l)
  /\ wf (binary_round_aux prec emax s m e l) = true.
Proof.
  intros Hm. unfold binary_round_aux.
  pose proof (shr_fexp_bound m e l Hm) as H1.
  destruct (shr_fexp prec emax m e l) as [mrs' e'] eqn:E1. cbn [fst] in H1.
  pose proof (shr_fexp_bound
                (round_nearest_even (shr_m mrs') (loc_of_shr_record mrs'))
                e' loc_Exact
                (round_nearest_even_nonneg _ _ (proj1 H1))) as H2.
  destruct (shr_fexp prec emax _ e' loc_Exact) as [mrs'' e''] eqn:E2.
  cbn [fst] in H2.
  destruct (shr_m mrs'') as [| p | p] eqn:Em; cbn [has_sign wf].
  - split; reflexivity.
  - destruct (e'' <=? emax - prec); cbn [has_sign wf]; split; try reflexivity.
    apply Z.ltb_lt. lia.
  - lia.
Qed.

Lemma binary_round_cases (s : bool) (m : positive) (e : Z) :
  has_sign s (binary_round prec emax s m e)
  /\ wf (binary_round prec emax s m e) = true.
Proof.
  unfold binary_round.
  destruct (shl_align m e _) as [mz ez].
  apply binary_round_aux_cases. lia.
Qed.

Lemma mkf_wf (m e : Z) : wf (mkf m e) = true.
Proof.
  unfold mkf, binary_normalize.
  destruct m; [reflexivity | apply binary_round_cases ..].
Qed.

Lemma div_core_nonneg (m1 : positive) (e1 : Z) (m2 : positive) (e2 : Z) :
  0 <= fst (fst (SFdiv_core_binary prec emax (Z.pos m1) e1 (Z.pos m2) e2)).
Proof.
  unfold SFdiv_core_binary.
  set (s := _ - _ - Z.min _ _).
  set (m' := match s with Z.pos _ => _ | _ => _ end).
  assert (Hm' : 0 <= m').
  { subst m'. destruct s; try lia. apply Z.shiftl_nonneg. lia. }
  pose proof (Z_div_mod m' (Z.pos m2) ltac:(lia)) as H.
  destruct (Z.div_eucl m' (Z.pos m2)) as [q r]. cbn [fst].
  destruct H as [H1 H2]. nia.
Qed.

Lemma mul_wf (x y : float) : wf (mul x y) = true.
Proof.
  destruct x as [sx | sx | | sx mx ex], y as [sy | sy | | sy my ey];
    try reflexivity.
  apply binary_round_aux_cases. lia.
Qed.

Lemma div_wf (x y : float) : wf (div x y) = true.
Proof.
  destruct x as [sx | sx | | sx mx ex], y as [sy | sy | | sy my ey];
    try reflexivity.
  unfold div, SFdiv.
  pose proof (div_core_nonneg mx ex my ey) as H.
  destruct (SFdiv_core_binary _ _ _ _ _ _) as [[mz ez] lz]. cbn [fst] in H.
  apply binary_round_aux_cases. exact H.
Qed.

Lemma binary_normalize_wf (m e : Z) (sz : bool) :
  wf (binary_normalize prec emax m e sz) = true.
Proof.
  unfold binary_normalize.
  destruct m; [reflexivity | apply binary_round_cases ..].
Qed.

Lemma add_wf (x y : float) :
  wf x = true -> wf y = true -> wf (add x y) = true.
Proof.
  intros Hx Hy.
  destruct x as [sx | sx | | sx mx ex], y as [sy | sy | | sy my ey];
    try reflexivity; try assumption.
  - destruct sx, sy; reflexivity.
  - destruct sx, sy; reflexivity.
  - apply binary_normalize_wf.
Qed.

Lemma sub_wf (x y : float) :
  wf x = true -> wf y = true -> wf (sub x y) = true.
Proof.
  intros Hx Hy.
  destruct x as [sx | sx | | sx mx ex], y as [sy | sy | | sy my ey];
    try reflexivity; try assumption.
  - destruct sx, sy; reflexivity.
  - destruct sx, sy; reflexivity.
  - apply binary_normalize_wf.
Qed.

Lemma has_sign_nonneg (x : float) : has_sign false x -> is_nonneg x = true.
Proof. destruct x; cbn; intros H; subst; try reflexivity; contradiction. Qed.

Lemma has_sign_nonpos (x : float) : has_sign true x -> is_nonpos x = true.
Proof. destruct x; cbn; intros H; subst; try reflexivity; contradiction. Qed.

Lemma is_nonneg_leb (x : float) : is_nonneg x = true <-> leb zero x = true.
Proof. destruct x as [[] | [] | | [] m e]; cbn; intuition congruence. Qed.

Lemma is_nonpos_leb (x : float) : is_nonpos x = true <-> leb x zero = true.
Proof. destruct x as [[] | [] | | [] m e]; cbn; intuition congruence. Qed.

Lemma is_nonneg_ltb (x : float) :
  is_nan x = false -> ltb x zero = false -> is_nonneg x = true.
Proof. destruct x as [[] | [] | | [] m e]; cbn; congruence. Qed.

Lemma is_nonpos_ltb (x : float) :
  is_nan x = false -> ltb zero x = false -> is_nonpos x = true.
Proof. destruct x as [[] | [] | | [] m e]; cbn; congruence. Qed.

Lemma fmin_zero_nonpos (x : float) :
  is_nan x = false -> is_nonpos (fmin x zero) = true.
Proof.
  intros H. unfold fmin. destruct (ltb zero x) eqn:E; [reflexivity |].
  apply is_nonpos_ltb; assumption.
Qed.

Lemma fmax_zero_nonneg (x : float) :
  is_nan x = false -> is_nonneg (fmax x zero) = true.
Proof.
  intros H. unfold fmax. destruct (ltb x zero) eqn:E; [reflexivity |].
  apply is_nonneg_ltb; assumption.
Qed.

(** [a - b >= 0] when [a >= 0 >= b]. *)
Lemma sub_nonneg_nonpos (a b : float) :
  is_nonneg a = true -> is_nonpos b = true -> is_nonneg (sub a b) = true.
Proof.
  destruct a as [sa | sa | | sa ma ea], b as [sb | sb | | sb mb eb];
    cbn [is_nonneg is_nonpos]; intros Ha Hb; try discriminate;
    try (destruct sa; try discriminate); try (destruct sb; try discriminate);
    try reflexivity.
  unfold sub, SFsub, cond_Zopp.
  destruct (shl_align ma ea _) as [ma' ea'], (shl_align mb eb _) as [mb' eb'].
  cbn [fst]. rewrite Z.sub_opp_r. cbn [Z.add binary_normalize].
  apply has_sign_nonneg, binary_round_cases.
Qed.

(** The sign of a quotient by a finite divisor. *)
Lemma div_finite_sign (x : float) (sy : bool) (my : positive) (ey : Z) :
  is_nan x = false ->
  has_sign (xorb (is_nonpos x && negb (is_nonneg x)) sy)
           (div x (S754_finite sy my ey))
  \/ is_zero x = true.
Proof.
  destruct x as [sx | sx | | sx mx ex]; cbn [is_nan is_zero];
    intros H; try discriminate; [right; reflexivity | left .. ].
  - destruct sx; reflexivity.
  - unfold div, SFdiv.
    pose proof (div_core_nonneg mx ex my ey) as H0.
    destruct (SFdiv_core_binary _ _ _ _ _ _) as [[mz ez] lz]. cbn [fst] in H0.
    replace (is_nonpos _ && negb _) with sx by (destruct sx; reflexivity).
    apply binary_round_aux_cases. exact H0.
Qed.

Lemma div_nonneg_pos (x : float) (my : positive) (ey : Z) :
  is_nonneg x = true -> is_nonneg (div x (S754_finite false my ey)) = true.
Proof.
  intros H.
  destruct (div_finite_sign x false my ey) as [Hs | Hz].
  - destruct x; cbn in *; congruence.
  - replace (is_nonpos x && negb (is_nonneg x)) with false in Hs
      by (destruct x as [? | [] | | [] ? ?]; cbn in *; congruence).
    apply has_sign_nonneg. exact Hs.
  - destruct x; try discriminate. reflexivity.
Qed.

Lemma div_nonneg_neg (x : float) (my : positive) (ey : Z) :
  is_nonneg x = true -> is_nonpos (div x (S754_finite true my ey)) = true.
Proof.
  intros H.
  destruct (div_finite_sign x true my ey) as [Hs | Hz].
  - destruct x; cbn in *; congruence.
  - replace (is_nonpos x && negb (is_nonneg x)) with false in Hs
      by (destruct x as [? | [] | | [] ? ?]; cbn in *; congruence).
    apply has_sign_nonpos. exact Hs.
  - destruct x; try discriminate. reflexivity.
Qed.

Lemma div_nonpos_neg (x : float) (my : positive) (ey : Z) :
  is_nonpos x = true -> is_nonneg (div x (S754_finite true my ey)) = true.
Proof.
  intros H.
  destruct x as [sx | sx | | sx mx ex]; try discriminate; try reflexivity.
  - cbn in H. subst sx. reflexivity.
  - destruct (div_finite_sign (S754_finite sx mx ex) true my ey) as [Hs | Hz];
      [reflexivity | | discriminate].
    cbn in H. subst sx. apply has_sign_nonneg. exact Hs.
Qed.

(** *** Comparisons *)

Ltac cmp_cases :=
  repeat match goal with
    | H : context [Z.compare ?a ?b] |- _ => destruct (Z.compare_spec a b)
    | |- context [Z.compare ?a ?b] => destruct (Z.compare_spec a b)
    | H : context [Pos.compare_cont Eq ?a ?b] |- _ =>
        change (Pos.compare_cont Eq a b) with (Pos.compare a b) in *;
        destruct (Pos.compare_spec a b)
    | |- context [Pos.compare_cont Eq ?a ?b] =>
        change (Pos.compare_cont Eq a b) with (Pos.compare a b) in *;
        destruct (Pos.compare_spec a b)
    end; subst; cbn in *; try discriminate; try reflexivity; try lia.

Lemma ltb_trans (a b c : float) :
  ltb a b = true -> ltb b c = true -> ltb a c = true.
Proof.
  unfold ltb, SFltb, SFcompare.
  destruct a as [[] | [] | | [] ma ea], b as [[] | [] | | [] mb eb],
    c as [[] | [] | | [] mc ec]; intros H1 H2; try discriminate;
    try reflexivity; cmp_cases.
Qed.

Lemma leb_ltb_trans (a v w : float) :
  leb v w = true -> ltb a v = true -> ltb a w = true.
Proof.
  unfold ltb, leb, SFltb, SFleb, SFcompare.
  destruct a as [[] | [] | | [] ma ea], v as [[] | [] | | [] mb eb],
    w as [[] | [] | | [] mc ec]; intros H1 H2; try discriminate;
    try reflexivity; cmp_cases.
Qed.

Lemma ltb_nan_l (a b : float) : ltb a b = true -> is_nan a = false.
Proof. destruct a; [reflexivity .. | discriminate | reflexivity]. Qed.

Lemma ltb_nan_r (a b : float) : ltb a b = true -> is_nan b = false.
Proof. destruct a, b; try reflexivity; discriminate. Qed.

Lemma eqb_refl (x : float) : is_nan x = false -> eqb x x = true.
Proof.
  unfold eqb, SFeqb, SFcompare.
  destruct x as [[] | [] | | [] m e]; intros H; try discriminate;
    try reflexivity; rewrite Z.compare_refl;
    change (Pos.compare_cont Eq m m) with (Pos.compare m m);
    rewrite Pos.compare_refl; reflexivity.
Qed.

(** A finite float not above the float [mk * 2^ek]. *)
Lemma not_above_finite (mk : positive) (ek : Z) (m : positive) (e : Z) :
  ltb (S754_finite false mk ek) (S754_finite false m e) = false ->
  e < ek \/ (e = ek /\ (m <= mk)%positive).
Proof.
  unfold ltb, SFltb, SFcompare. intros H. cmp_cases.
Qed.

(** *** Rounding to an integer and the cast to [uint8_t] *)

Lemma round_half_away_le (m d K : Z) :
  0 < d -> 0 <= m <= K * d -> 0 <= (2 * m + d) / (2 * d) <= K.
Proof.
  intros Hd Hm. split.
  - apply Z.div_pos; lia.
  - apply Z.lt_succ_r. apply Z.div_lt_upper_bound; nia.
Qed.

Lemma trunc_le (m d K : Z) :
  0 < d -> 0 <= m <= K * d -> 0 <= m / d <= K.
Proof.
  intros Hd Hm. split.
  - apply Z.div_pos; lia.
  - apply Z.lt_succ_r. apply Z.div_lt_upper_bound; nia.
Qed.

(** The magnitude of a float below a normalized bound [K = mk * 2^ek]:
    [m * 2^e <= K], written without fractions. *)
Lemma magnitude_le (K : Z) (mk : positive) (ek : Z) (m : positive) (e : Z) :
  ek < 0 -> Z.pos mk = K * 2 ^ (- ek) -> 2 ^ (prec - 1) <= Z.pos mk ->
  Z.pos m < 2 ^ prec ->
  ltb (S754_finite false mk ek) (S754_finite false m e) = false ->
  e < 0 /\ 0 <= Z.pos m <= K * 2 ^ (- e).
Proof.
  intros Hek Hmk Hn Hm Hle.
  apply not_above_finite in Hle.
  assert (HK : 0 < K) by (pose proof (Z.pow_pos_nonneg 2 (- ek)); nia).
  destruct Hle as [Hlt | [-> Hle]].
  - split; [lia |]. split; [lia |].
    replace (- e) with ((- ek) + (ek - e)) by lia.
    rewrite Z.pow_add_r by lia.
    assert (H2 : 2 <= 2 ^ (ek - e)).
    { change 2 with (2 ^ 1) at 1. apply Z.pow_le_mono_r; lia. }
    replace (2 ^ prec) with (2 * 2 ^ (prec - 1)) in Hm by reflexivity.
    pose proof (Z.pow_pos_nonneg 2 (- ek)). nia.
  - split; [lia |]. lia.
Qed.

(** Case analysis on an integer known to lie in [0, 15]. *)
Lemma small_nat (n : Z) :
  0 <= n <= 15 -> exists k : nat, n = Z.of_nat k /\ (k < 16)%nat.
Proof. intros H. exists (Z.to_nat n). lia. Qed.

Ltac peel_nat k Hk :=
  destruct k as [| k]; [| first [exfalso; clear - Hk; lia | peel_nat k Hk]].

Ltac small_cases n H :=
  let k := fresh "k" in
  let Hk := fresh "Hk" in
  destruct (small_nat n H) as (k & -> & Hk); peel_nat k Hk.

Lemma to_uint8_of_Z_small (n : Z) :
  0 <= n <= 15 -> to_uint8 (of_Z n) = Some n /\ roundf (of_Z n) = of_Z n.
Proof.
  intros H. small_cases n H; split; reflexivity.
Qed.

(** A float in [0, K] casts to an integer in [0, K]. *)
Lemma to_uint8_bounded (K : Z) (mk : positive) (ek : Z) (x : float) :
  ek < 0 -> Z.pos mk = K * 2 ^ (- ek) -> 2 ^ (prec - 1) <= Z.pos mk ->
  K <= 255 ->
  wf x = true -> is_nonneg x = true ->
  ltb (S754_finite false mk ek) x = false ->
  exists n, to_uint8 x = Some n /\ 0 <= n <= K.
Proof.
  intros Hek Hmk Hn HK Hwf Hpos Hle.
  assert (HK0 : 0 < K) by (pose proof (Z.pow_pos_nonneg 2 (- ek)); nia).
  destruct x as [sx | [] | | [] m e]; try discriminate.
  - exists 0. split; [reflexivity | lia].
  - cbn [wf] in Hwf. apply Z.ltb_lt in Hwf.
    destruct (magnitude_le K mk ek m e Hek Hmk Hn Hwf Hle) as [He Hm].
    pose proof (trunc_le (Z.pos m) (2 ^ (- e)) K
                  ltac:(apply Z.pow_pos_nonneg; lia) Hm) as Ht.
    cbn [to_uint8]. unfold trunc_mag.
    destruct (Z.leb_spec 0 e); [lia |].
    exists (Z.pos m / 2 ^ (- e)). split; [| lia].
    destruct (Z.leb_spec 0 (Z.pos m / 2 ^ (- e))); [| lia].
    destruct (Z.leb_spec (Z.pos m / 2 ^ (- e)) 255); [| lia].
    reflexivity.
Qed.

(** A float in [0, K], [K <= 15], rounds to an integer in [0, K]. *)
Lemma roundf_to_uint8_bounded (K : Z) (mk : positive) (ek : Z) (x : float) :
  ek < 0 -> Z.pos mk = K * 2 ^ (- ek) -> 2 ^ (prec - 1) <= Z.pos mk ->
  K <= 15 ->
  wf x = true -> is_nonneg x = true ->
  ltb (S754_finite false mk ek) x = false ->
  exists n, to_uint8 (roundf x) = Some n /\ 0 <= n <= K.
Proof.
  intros Hek Hmk Hn HK Hwf Hpos Hle.
  destruct x as [sx | [] | | [] m e]; try discriminate.
  - exists 0. split; [reflexivity | ].
    pose proof (Z.pow_pos_nonneg 2 (- ek)); nia.
  - cbn [wf] in Hwf. apply Z.ltb_lt in Hwf.
    destruct (magnitude_le K mk ek m e Hek Hmk Hn Hwf Hle) as [He Hm].
    pose proof (round_half_away_le (Z.pos m) (2 ^ (- e)) K
                  ltac:(apply Z.pow_pos_nonneg; lia) Hm) as Ht.
    cbn [roundf]. unfold round_half_away.
    destruct (Z.leb_spec 0 e); [lia |].
    set (n := (2 * Z.pos m + 2 ^ (- e)) / (2 * 2 ^ (- e))) in *.
    destruct (Z.eqb_spec n 0) as [E0 | E0].
    + exists 0. split; [reflexivity | lia].
    + exists n. split; [| lia]. apply to_uint8_of_Z_small. lia.
Qed.

Lemma roundf_wf (x : float) : wf x = true -> wf (roundf x) = true.
Proof.
  destruct x as [sx | sx | | sx m e]; try (intros; reflexivity).
  intros H. cbn [roundf].
  destruct (0 <=? e); [exact H |].
  destruct (_ =? 0); [reflexivity | apply mkf_wf].
Qed.

Lemma ltb_asym (a b : float) : ltb a b = true -> ltb b a = false.
Proof.
  unfold ltb, SFltb, SFcompare.
  destruct a as [[] | [] | | [] ma ea], b as [[] | [] | | [] mb eb];
    intros H; try discriminate; try reflexivity; cmp_cases.
Qed.

(** Adding a finite float never returns the other operand unrounded. *)
Lemma add_finite_wf (v : float) (s : bool) (m : positive) (e : Z) :
  wf (S754_finite s m e) = true -> wf (add v (S754_finite s m e)) = true.
Proof.
  intros H. destruct v as [sv | sv | | sv mv ev]; try reflexivity.
  - exact H.
  - apply binary_normalize_wf.
Qed.

(** [(uint8_t)std::min(15.0f, std::max(0.0f, y))] is defined for every
    rounded [y], and lies in [0, 15]. *)
Lemma clamp15_total (y : float) :
  wf y = true ->
  exists n, to_uint8 (fmin (of_Z 15) (fmax zero y)) = Some n /\ 0 <= n <= 15.
Proof.
  intros Hwf. unfold fmax.
  destruct (ltb zero y) eqn:E0.
  - unfold fmin. destruct (ltb y (of_Z 15)) eqn:E1.
    + apply (to_uint8_bounded 15 15728640 (-20)); try assumption;
        try reflexivity; try lia; try (vm_compute; discriminate).
      * destruct y as [? | [] | | [] ? ?]; try discriminate; reflexivity.
      * apply ltb_asym. exact E1.
    + exists 15. split; [reflexivity | lia].
  - unfold fmin. change (ltb zero (of_Z 15)) with true. cbn iota.
    exists 0. split; [reflexivity | lia].
Qed.

End F32Facts.

(** ** Sizes *)

Lemma ceil_div_roundup (a b : Z) : 0 < b -> (a + b - 1) / b = ceil_div a b.
Proof.
  intros Hb. unfold ceil_div.
  pose proof (Z.div_mod (a + b - 1) b ltac:(lia)) as H1.
  pose proof (Z.mod_pos_bound (a + b - 1) b Hb) as H2.
  pose proof (Z.div_mod (- a) b ltac:(lia)) as H3.
  pose proof (Z.mod_pos_bound (- a) b Hb) as H4.
  nia.
Qed.

Lemma quot_roundup (a b : Z) :
  0 <= a -> 0 < b -> Z.quot (a + b - 1) b = ceil_div a b.
Proof.
  intros Ha Hb. rewrite Z.quot_div_nonneg by lia. apply ceil_div_roundup, Hb.
Qed.

Lemma ceil_div_bounds (a b : Z) :
  0 <= a -> 0 < b -> 0 <= ceil_div a b <= a /\ a <= ceil_div a b * b < a + b.
Proof.
  intros Ha Hb. rewrite <- ceil_div_roundup by lia.
  pose proof (Z.div_mod (a + b - 1) b ltac:(lia)) as H1.
  pose proof (Z.mod_pos_bound (a + b - 1) b Hb) as H2.
  assert (0 <= (a + b - 1) / b) by (apply Z.div_pos; lia).
  nia.
Qed.

Lemma supported_block_size_cases (B : Z) :
  supported_block_size B = true ->
  B = 16 \/ B = 32 \/ B = 64 \/ B = 128 \/ B = 256.
Proof.
  unfold supported_block_size. rewrite !orb_true_iff, !Z.eqb_eq. tauto.
Qed.

(** C7: [MlasQ4GemmPackBSize] returns 0 for every [(QType, N, K)] when the
    platform has no [FpQ4GemmDispatch]; otherwise, for sizes that fit
    [size_t], it returns [N * ⌈K / BlkLen⌉ * BlobSize] for the selected block
    type: [BlobSize] 20 (SYM, [BlkLen] 32), 36 (SYM64, [BlkLen] 64), 68
    (SYM128, [BlkLen] 128) and 21 for every other type (ASYM, [BlkLen] 32). *)
Theorem MlasQ4GemmPackBSize_spec (E : QuantTypeEnum) (QType N K : Z) :
  MlasQ4GemmPackBSize E false QType N K = 0
  /\ (BlkQ4Sym E <> BlkQ4Sym64 E -> BlkQ4Sym E <> BlkQ4Sym128 E ->
      BlkQ4Sym64 E <> BlkQ4Sym128 E ->
      0 <= N -> 0 <= K ->
      (QType = BlkQ4Sym E -> N * ceil_div K 32 * 20 < 2 ^ 64 ->
       MlasQ4GemmPackBSize E true QType N K = N * ceil_div K 32 * 20)
      /\ (QType = BlkQ4Sym64 E -> N * ceil_div K 64 * 36 < 2 ^ 64 ->
          MlasQ4GemmPackBSize E true QType N K = N * ceil_div K 64 * 36)
      /\ (QType = BlkQ4Sym128 E -> N * ceil_div K 128 * 68 < 2 ^ 64 ->
          MlasQ4GemmPackBSize E true QType N K = N * ceil_div K 128 * 68)
      /\ (QType <> BlkQ4Sym E -> QType <> BlkQ4Sym64 E ->
          QType <> BlkQ4Sym128 E -> N * ceil_div K 32 * 21 < 2 ^ 64 ->
          MlasQ4GemmPackBSize E true QType N K = N * ceil_div K 32 * 21)).
Proof.
  split; [reflexivity |].
  intros D1 D2 D3 HN HK.
  assert (Hsize : forall T, 0 < BlkLen T -> 0 < BlobSize T ->
            N * ceil_div K (BlkLen T) * BlobSize T < 2 ^ 64 ->
            BlkQ4BufSize T N K = N * ceil_div K (BlkLen T) * BlobSize T).
  { intros T HL HS Hfit. unfold BlkQ4BufSize, MlasDivRoundup, size_wrap.
    rewrite ceil_div_roundup by lia.
    pose proof (ceil_div_bounds K (BlkLen T) HK HL) as [[Hc _] _].
    assert (0 <= N * ceil_div K (BlkLen T)) by nia.
    rewrite (Z.mod_small (N * _)) by nia.
    apply Z.mod_small. nia. }
  unfold MlasQ4GemmPackBSize, q4_switch. cbn [negb].
  repeat split.
  - intros -> Hfit. rewrite Z.eqb_refl. apply (Hsize MLAS_Q4TYPE_BLK0); cbn; lia.
  - intros -> Hfit.
    destruct (Z.eqb_spec (BlkQ4Sym64 E) (BlkQ4Sym E)); [congruence |].
    rewrite Z.eqb_refl. apply (Hsize MLAS_Q4TYPE_BLK2); cbn; lia.
  - intros -> Hfit.
    destruct (Z.eqb_spec (BlkQ4Sym128 E) (BlkQ4Sym E)); [congruence |].
    destruct (Z.eqb_spec (BlkQ4Sym128 E) (BlkQ4Sym64 E)); [congruence |].
    rewrite Z.eqb_refl. apply (Hsize MLAS_Q4TYPE_BLK4); cbn; lia.
  - intros N1 N2 N3 Hfit.
    destruct (Z.eqb_spec QType (BlkQ4Sym E)); [congruence |].
    destruct (Z.eqb_spec QType (BlkQ4Sym64 E)); [congruence |].
    destruct (Z.eqb_spec QType (BlkQ4Sym128 E)); [congruence |].
    apply (Hsize MLAS_Q4TYPE_BLK1); cbn; lia.
Qed.

Lemma MlasQ4GemmPackBSize_spec_witness :
  MlasQ4GemmPackBSize example_enum true 2 3 65 = 3 * ceil_div 65 64 * 36.
Proof.
  apply (proj2 (MlasQ4GemmPackBSize_spec example_enum 2 3 65));
    cbn; try discriminate; try reflexivity.
Defined.

(** C10: a [QType] that is none of [BlkQ4Sym], [BlkQ4Sym64] and
    [BlkQ4Sym128], whatever its value, takes the default branch of the three
    entry points: the asymmetric BLK1 variant ([BlkLen] 32, [BlobSize] 21);
    none of them rejects a type. *)
Theorem q4_entry_points_default (E : QuantTypeEnum) (QType : Z) :
  QType <> BlkQ4Sym E -> QType <> BlkQ4Sym64 E -> QType <> BlkQ4Sym128 E ->
  (forall N K, MlasQ4GemmPackBSize E true QType N K
               = BlkQ4BufSize MLAS_Q4TYPE_BLK1 N K)
  /\ (forall PackedBuf FpData N K ldb,
        MlasQ4GemmPackB E QType PackedBuf FpData N K ldb
        = MlasQ4GemmPackBImpl_BLK1 PackedBuf FpData N K ldb)
  /\ (forall FpData PackedBuf N K ldb,
        MlasQ4GemmUnPackB E QType FpData PackedBuf N K ldb
        = MlasQ4GemmUnPackBImpl_BLK1 FpData PackedBuf N K ldb)
  /\ BlkLen MLAS_Q4TYPE_BLK1 = 32 /\ BlobSize MLAS_Q4TYPE_BLK1 = 21.
Proof.
  intros N1 N2 N3.
  assert (Hsw : q4_switch E QType = CaseDefault).
  { unfold q4_switch.
    destruct (Z.eqb_spec QType (BlkQ4Sym E)); [congruence |].
    destruct (Z.eqb_spec QType (BlkQ4Sym64 E)); [congruence |].
    destruct (Z.eqb_spec QType (BlkQ4Sym128 E)); [congruence |].
    reflexivity. }
  unfold MlasQ4GemmPackBSize, MlasQ4GemmPackB, MlasQ4GemmUnPackB.
  rewrite Hsw. repeat split.
Qed.

Lemma q4_entry_points_default_witness :
  (forall N K, MlasQ4GemmPackBSize example_enum true 7 N K
               = BlkQ4BufSize MLAS_Q4TYPE_BLK1 N K)
  /\ (forall PackedBuf FpData N K ldb,
        MlasQ4GemmPackB example_enum 7 PackedBuf FpData N K ldb
        = MlasQ4GemmPackBImpl_BLK1 PackedBuf FpData N K ldb)
  /\ (forall FpData PackedBuf N K ldb,
        MlasQ4GemmUnPackB example_enum 7 FpData PackedBuf N K ldb
        = MlasQ4GemmUnPackBImpl_BLK1 FpData PackedBuf N K ldb)
  /\ BlkLen MLAS_Q4TYPE_BLK1 = 32 /\ BlobSize MLAS_Q4TYPE_BLK1 = 21.
Proof.
  apply (q4_entry_points_default example_enum 7); cbn; discriminate.
Defined.



(** ** Asymmetric range reduction *)

Import F32Facts.

Lemma neqb_zero (x : float) : neqb x zero = negb (is_zero x).
Proof. destruct x as [[] | [] | | [] m e]; reflexivity. Qed.

(** The float [zero_point_fp] is negative, or it is a rounded float that is
    not negative. *)
Lemma zero_point_fp_cases (min' scale : float) :
  is_nonpos min' = true -> min' <> S754_infinity true ->
  is_nonneg scale = true ->
  let zero_point_fp :=
    if neqb scale zero then sub zero (div min' scale) else min' in
  ltb zero_point_fp zero = true
  \/ (is_nonneg zero_point_fp = true /\ wf zero_point_fp = true).
Proof.
  intros Hmin Hinf Hscale. rewrite neqb_zero.
  destruct scale as [ss | ss | | ss ms es]; try discriminate; cbn [is_zero negb].
  - destruct min' as [sm | sm | | sm mm em]; try discriminate.
    + right. split; reflexivity.
    + cbn in Hmin. subst sm. left. reflexivity.
    + cbn in Hmin. subst sm. left. reflexivity.
  - cbn in Hscale. destruct ss; try discriminate.
    destruct min' as [sm | sm | | sm mm em]; try discriminate.
    + right. destruct sm; split; reflexivity.
    + cbn in Hmin. subst sm. congruence.
    + right. destruct sm; split; reflexivity.
  - cbn in Hscale. destruct ss; try discriminate.
    destruct min' as [sm | sm | | sm mm em]; try discriminate.
    + right. destruct sm; split; reflexivity.
    + cbn in Hmin. subst sm. congruence.
    + cbn in Hmin. subst sm. right.
      pose proof (div_wf (S754_finite true mm em) (S754_finite false ms es)) as Hwf.
      destruct (div_finite_sign (S754_finite true mm em) false ms es eq_refl)
        as [Hs | Hz]; [| discriminate].
      cbn [is_nonpos is_nonneg negb andb xorb] in Hs.
      destruct (div _ _) as [sq | sq | | sq mq eq]; cbn in Hs; try contradiction;
        subst sq; split; try reflexivity.
      exact Hwf.
Qed.

Lemma sub_zero_opp (x : float) :
  is_nan x = false -> eqb (sub zero x) (SFopp x) = true.
Proof.
  intros H. destruct x as [[] | [] | | s m e]; try discriminate; try reflexivity.
  apply (eqb_refl (S754_finite (negb s) m e)). reflexivity.
Qed.

Lemma div_min_scale_not_nan (min' scale : float) :
  is_nonpos min' = true -> min' <> S754_infinity true ->
  is_nonneg scale = true -> is_zero scale = false ->
  is_nan (div min' scale) = false.
Proof.
  intros Hmin Hinf Hscale Hz.
  destruct scale as [ss | ss | | ss ms es]; try discriminate;
    destruct min' as [sm | sm | | sm mm em]; try discriminate; try reflexivity.
  - cbn in Hscale, Hmin. destruct ss, sm; try discriminate. congruence.
  - pose proof (div_finite_sign (S754_finite sm mm em) ss ms es eq_refl)
      as [Hs | Hz']; [| discriminate].
    destruct (div _ _); try reflexivity. contradiction.
Qed.

(** [0 - min / scale] is [- min / scale]. *)
Lemma zero_point_fp_opp (min' scale : float) :
  is_nonpos min' = true -> min' <> S754_infinity true ->
  is_nonneg scale = true ->
  eqb (if is_zero scale then min' else sub zero (div min' scale))
      (if is_zero scale then min' else SFopp (div min' scale)) = true.
Proof.
  intros Hmin Hinf Hscale.
  destruct (is_zero scale) eqn:Ez.
  - apply eqb_refl. destruct min'; try discriminate; reflexivity.
  - apply sub_zero_opp, div_min_scale_not_nan; assumption.
Qed.

Lemma clamp_zp_defined (qbits : Z) (zero_point_fp : float) :
  qbits = 2 \/ qbits = 4 ->
  ltb zero_point_fp zero = true
  \/ (is_nonneg zero_point_fp = true /\ wf zero_point_fp = true) ->
  exists zp, clamp_zp (BitsTraits.kMax qbits) zero_point_fp = Some zp
             /\ 0 <= zp <= BitsTraits.kMax qbits.
Proof.
  intros Hq H. unfold clamp_zp.
  assert (HK : 0 <= BitsTraits.kMax qbits) by (destruct Hq as [-> | ->]; vm_compute; discriminate).
  destruct H as [-> | [Hpos Hwf]]; [exists 0; split; [reflexivity | lia] |].
  destruct (ltb zero_point_fp zero) eqn:E0; [exists 0; split; [reflexivity | lia] |].
  destruct (ltb _ zero_point_fp) eqn:E1; [eexists; split; [reflexivity | lia] |].
  destruct Hq as [-> | ->].
  - apply (roundf_to_uint8_bounded 3 12582912 (-22)); try assumption;
      try reflexivity; try lia; vm_compute; discriminate.
  - apply (roundf_to_uint8_bounded 15 15728640 (-20)); try assumption;
      try reflexivity; try lia; vm_compute; discriminate.
Qed.

Lemma fmin_zero_neg_inf (min : float) :
  min <> S754_infinity true -> fmin min zero <> S754_infinity true.
Proof. unfold fmin. destruct (ltb zero min); [discriminate | auto]. Qed.

Lemma of_Z_kMax_pos (qbits : Z) :
  qbits = 2 \/ qbits = 4 ->
  exists m e, of_Z (BitsTraits.kMax qbits) = S754_finite false m e.
Proof. intros [-> | ->]; eexists _, _; reflexivity. Qed.



(** ** Loops that write a buffer *)

Lemma zrange_unfold (lo hi step : Z) :
  zrange lo hi step
  = map (fun n : nat => lo + Z.of_nat n * step)
        (seq 0 (Z.to_nat ((hi - lo + step - 1) / step))).
Proof. reflexivity. Qed.

Lemma zrange_1 (lo hi : Z) :
  zrange lo hi 1 = map (fun n : nat => lo + Z.of_nat n) (seq 0 (Z.to_nat (hi - lo))).
Proof.
  unfold zrange. replace (hi - lo + 1 - 1) with (hi - lo) by lia.
  rewrite Z.div_1_r. apply map_ext. intros n. lia.
Qed.

Lemma elem_of_zrange_1 (lo hi i : Z) : i ∈ zrange lo hi 1 <-> lo <= i < hi.
Proof.
  rewrite zrange_1, list_elem_of_fmap. split.
  - intros (n & -> & Hn). apply elem_of_seq in Hn. lia.
  - intros H. exists (Z.to_nat (i - lo)). split; [lia |].
    apply elem_of_seq. lia.
Qed.

Lemma NoDup_zrange_1 (lo hi : Z) : NoDup (zrange lo hi 1).
Proof.
  rewrite zrange_1. apply NoDup_fmap_2; [| apply NoDup_seq].
  intros n m H. lia.
Qed.

(** A loop whose step [l] stores the value [f l] at the offset [g l]: it is
    defined when every value is, every visited offset holds its value, and
    the other offsets are untouched. *)
Lemma foldM_writes {A : Type} (f : Z -> option A) (g : Z -> Z) (ls : list Z) :
  forall data : mem A,
  (forall l, l ∈ ls -> is_Some (f l)) ->
  (forall l l', l ∈ ls -> l' ∈ ls -> g l = g l' -> l = l') ->
  NoDup ls ->
  exists data',
    foldM (fun l d => v ← f l; Some (upd d (g l) v)) ls data = Some data'
    /\ (forall l, l ∈ ls -> f l = Some (data' (g l)))
    /\ (forall i, (forall l, l ∈ ls -> i <> g l) -> data' i = data i).
Proof.
  induction ls as [| l ls IH]; intros data Hf Hg Hnd.
  - exists data. split; [reflexivity |]. split; [| reflexivity].
    intros l Hl. inversion Hl.
  - apply NoDup_cons in Hnd as [Hl Hnd].
    destruct (Hf l ltac:(left)) as [v Hv].
    destruct (IH (upd data (g l) v)) as (data' & Hrun & Hval & Hout).
    { intros l' Hl'. apply Hf. right. exact Hl'. }
    { intros l1 l2 H1 H2. apply Hg; right; assumption. }
    { exact Hnd. }
    exists data'. split; [cbn [foldM]; rewrite Hv; exact Hrun |]. split.
    + intros l' Hl'. apply elem_of_cons in Hl' as [-> | Hl'].
      * rewrite Hv. f_equal. rewrite Hout.
        -- unfold upd. rewrite Z.eqb_refl. reflexivity.
        -- intros l' Hl' E. apply Hl.
           rewrite (Hg l l' ltac:(left) ltac:(right; exact Hl') E). exact Hl'.
      * apply Hval. exact Hl'.
    + intros i Hi. rewrite Hout.
      * unfold upd. destruct (Z.eqb_spec i (g l)) as [E | E]; [| reflexivity].
        exfalso. apply (Hi l); [left | exact E].
      * intros l' Hl'. apply Hi. right. exact Hl'.
Qed.

Lemma foldM_ext {A S : Type} (f g : A -> S -> option S) (ls : list A) (s : S) :
  (forall x s, x ∈ ls -> f x s = g x s) -> foldM f ls s = foldM g ls s.
Proof.
  revert s. induction ls as [| x ls IH]; intros s H; [reflexivity |].
  cbn [foldM]. rewrite H by left.
  destruct (g x s); [| reflexivity].
  apply IH. intros y s' Hy. apply H. right. exact Hy.
Qed.

(** ** The payload of a packed Q4 block *)

Lemma pack_nibbles_halves (a b : Z) :
  0 <= a <= 15 -> 0 <= b <= 15 ->
  Z.land (pack_nibbles a b) 15 = a /\ Z.shiftr (pack_nibbles a b) 4 = b.
Proof.
  intros Ha Hb. small_cases a Ha; small_cases b Hb; split; reflexivity.
Qed.

Section Payload.

(** The quantizer of a packer and the value it is given for the element
    [p] of the block. *)
Variable q : float -> option Z.
Variable g : Z -> float.
Variable klen : Z.
Hypothesis q_total : forall v, exists n, q v = Some n /\ 0 <= n <= 15.

Lemma gen_emit_byte_value (kk doff l : Z) (data : mem Z) :
  0 <= l < 16 ->
  gen_emit_byte q g kk (Z.min 32 (klen - kk)) doff l data
  = (v ← byte_value q g klen kk l; Some (upd data (doff + l) v)).
Proof.
  intros Hl. unfold gen_emit_byte, byte_value, elem.
  replace (l <? Z.min 32 (klen - kk)) with (kk + l <? klen) by lia.
  replace (l + 16 <? Z.min 32 (klen - kk)) with (kk + (l + 16) <? klen) by lia.
  destruct (q _); destruct (q _); reflexivity.
Qed.

(** One stride: the 16 bytes at [doff] hold the 32 nibbles of the
    positions [kk .. kk + 31]. *)
Lemma gen_emit_stride_spec (a : Z) (data : mem Z) :
  exists data',
    gen_emit_stride q g klen (32 * a) (data, 16 * a) = Some (data', 16 * (a + 1))
    /\ (forall p, 32 * a <= p < 32 * (a + 1) ->
                  q (elem g klen p) = Some (nibble_at data' p))
    /\ (forall i, ~ (16 * a <= i < 16 * (a + 1)) -> data' i = data i).
Proof.
  unfold gen_emit_stride. cbn [fst snd].
  destruct (foldM_writes (byte_value q g klen (32 * a)) (fun l => 16 * a + l)
              (zrange 0 16 1) data) as (data' & Hrun & Hval & Hout).
  { intros l Hl. unfold byte_value.
    destruct (q_total (elem g klen (32 * a + l))) as (n0 & -> & _).
    destruct (q_total (elem g klen (32 * a + (l + 16)))) as (n1 & -> & _).
    eexists. reflexivity. }
  { intros l l' _ _ E. lia. }
  { apply NoDup_zrange_1. }
  exists data'. split; [| split].
  - erewrite foldM_ext.
    + rewrite Hrun. cbn. do 2 f_equal. lia.
    + intros l d Hl. apply elem_of_zrange_1 in Hl.
      apply gen_emit_byte_value. lia.
  - intros p Hp.
    set (l := p mod 16).
    assert (Hl : 0 <= l < 16) by (apply Z.mod_pos_bound; lia).
    assert (Hin : l ∈ zrange 0 16 1) by (apply elem_of_zrange_1; lia).
    pose proof (Hval l Hin) as Hb. unfold byte_value in Hb.
    destruct (q_total (elem g klen (32 * a + l))) as (n0 & E0 & H0).
    destruct (q_total (elem g klen (32 * a + (l + 16)))) as (n1 & E1 & H1).
    rewrite E0, E1 in Hb. cbn in Hb. injection Hb as Hb.
    destruct (pack_nibbles_halves n0 n1 H0 H1) as [Hlo Hhi].
    unfold nibble_at.
    assert (Ediv : p / 32 = a) by (symmetry; apply Z.div_unique with (r := p - 32 * a); lia).
    rewrite Ediv. fold l. rewrite <- Hb.
    assert (Hcase : p = 32 * a + l \/ p = 32 * a + (l + 16)).
    { subst l. pose proof (Z.div_mod p 16 ltac:(lia)) as Hd.
      pose proof (Z.mod_pos_bound p 16 ltac:(lia)).
      assert (p / 16 = 2 * a \/ p / 16 = 2 * a + 1) by lia. lia. }
    destruct Hcase as [Ep | Ep].
    + replace (p mod 32) with l
        by (apply Z.mod_unique with (q := a); lia).
      destruct (Z.ltb_spec l 16); [| lia].
      rewrite Hlo, Ep. exact E0.
    + replace (p mod 32) with (l + 16)
        by (apply Z.mod_unique with (q := a); lia).
      destruct (Z.ltb_spec (l + 16) 16); [lia |].
      rewrite Hhi, Ep. exact E1.
  - intros i Hi. apply Hout. intros l Hl E.
    apply elem_of_zrange_1 in Hl. lia.
Qed.

(** The strides [a .. a + cnt - 1] of a block. *)
Lemma gen_emit_strides_spec (cnt : nat) : forall (a : Z) (data : mem Z),
  0 <= a ->
  exists data',
    foldM (gen_emit_stride q g klen)
          (map (fun n : nat => 0 + Z.of_nat n * 32) (seq (Z.to_nat a) cnt))
          (data, 16 * a)
    = Some (data', 16 * (a + Z.of_nat cnt))
    /\ (forall p, 32 * a <= p < 32 * (a + Z.of_nat cnt) ->
                  q (elem g klen p) = Some (nibble_at data' p))
    /\ (forall i, ~ (16 * a <= i < 16 * (a + Z.of_nat cnt)) -> data' i = data i).
Proof.
  induction cnt as [| cnt IH]; intros a data Ha.
  - exists data. split; [cbn; do 2 f_equal; lia |].
    split; [intros p Hp; lia | reflexivity].
  - destruct (gen_emit_stride_spec a data) as (data1 & Hrun1 & Hval1 & Hout1).
    destruct (IH (a + 1) data1 ltac:(lia)) as (data' & Hrun & Hval & Hout).
    exists data'. split; [| split].
    + cbn [seq map foldM].
      replace (0 + Z.of_nat (Z.to_nat a) * 32) with (32 * a) by lia.
      rewrite Hrun1. cbn [mbind option_bind].
      replace (S (Z.to_nat a)) with (Z.to_nat (a + 1)) by lia.
      rewrite Hrun. do 2 f_equal. lia.
    + intros p Hp.
      destruct (Z.lt_ge_cases p (32 * (a + 1))) as [Hlt | Hge].
      * rewrite Hval1 by lia. f_equal. unfold nibble_at.
        rewrite Hout; [reflexivity |].
        pose proof (Z.mod_pos_bound p 16 ltac:(lia)).
        assert (p / 32 = a)
          by (symmetry; apply Z.div_unique with (r := p - 32 * a); lia).
        lia.
      * apply Hval. lia.
    + intros i Hi. rewrite Hout by lia. apply Hout1. lia.
Qed.

(** The payload loop of a block of [klen] values: every position of a
    visited stride holds the quantized value of its element, and the bytes
    of the strides that are not visited are left as they were. *)
Lemma gen_payload_spec (data : mem Z) :
  0 <= klen ->
  exists data',
    foldM (gen_emit_stride q g klen) (zrange 0 klen 32) (data, 0)
    = Some (data', 16 * stride_count klen)
    /\ (forall p, 0 <= p < 32 * stride_count klen ->
                  q (elem g klen p) = Some (nibble_at data' p))
    /\ (forall i, ~ (0 <= i < 16 * stride_count klen) -> data' i = data i).
Proof.
  intros Hk.
  assert (Hc : 0 <= stride_count klen) by (apply Z.div_pos; lia).
  destruct (gen_emit_strides_spec (Z.to_nat (stride_count klen)) 0 data ltac:(lia))
    as (data' & Hrun & Hval & Hout).
  rewrite Z2Nat.id in * by lia.
  exists data'. split; [| split].
  - unfold zrange. replace (klen - 0 + 32 - 1) with (klen + 31) by lia.
    exact Hrun.
  - intros p Hp. apply Hval. lia.
  - intros i Hi. apply Hout. lia.
Qed.

End Payload.

(** ** The quantizers of the Q4 packers are total *)

Lemma Q4Sym_quant_total (v : float) :
  exists n, Q4Sym.quant v = Some n /\ 0 <= n <= 15.
Proof.
  unfold Q4Sym.quant. apply clamp15_total.
  apply (add_finite_wf v false 8912896 (-20)). reflexivity.
Qed.

Lemma Q4Asym_quant_total (reciprocal_scale : float) (zp : Z) (v : float) :
  exists n, Q4Asym.quant reciprocal_scale zp v = Some n /\ 0 <= n <= 15.
Proof.
  unfold Q4Asym.quant. apply clamp15_total.
  apply roundf_wf, add_wf; [apply mul_wf | apply mkf_wf].
Qed.

(** ** The packed blocks *)

(** The symmetric block: scale, untouched zero point byte, payload. *)
Lemma Q4Sym_pack_block_spec (src : mem float) (ldb klen : Z) (b0 : blob) :
  0 <= klen ->
  let m := snd (Q4Sym.scan src ldb klen) in
  let scale := div m lit_m8 in
  exists b,
    Q4Sym.pack_block src ldb klen b0 = Some b
    /\ blk_scale b = scale
    /\ blk_zp b = blk_zp b0
    /\ (forall p, 0 <= p < 32 * stride_count klen ->
          Q4Sym.quant (if p <? klen
                       then mul (src (ldb * p)) (reciprocal_of scale)
                       else of_Z 0)
          = Some (nibble_at (blk_data b) p))
    /\ (forall i, ~ (0 <= i < 16 * stride_count klen) ->
          blk_data b i = blk_data b0 i).
Proof.
  intros Hk m scale.
  destruct (gen_payload_spec Q4Sym.quant
              (fun p => mul (src (ldb * p)) (reciprocal_of scale)) klen
              Q4Sym_quant_total (blk_data b0) Hk)
    as (data' & Hrun & Hval & Hout).
  eexists. split; [| split; [| split; [| split]]].
  - unfold Q4Sym.pack_block. fold m. fold scale.
    change (if truthy scale then div one scale else zero) with (reciprocal_of scale).
    change (Q4Sym.emit_stride src ldb (reciprocal_of scale) klen)
      with (gen_emit_stride Q4Sym.quant
              (fun p => mul (src (ldb * p)) (reciprocal_of scale)) klen).
    rewrite Hrun. reflexivity.
  - reflexivity.
  - reflexivity.
  - exact Hval.
  - exact Hout.
Qed.

(** The asymmetric block. *)
Lemma Q4Asym_pack_block_spec (src : mem float) (ldb klen : Z) (b0 : blob)
    (scale : float) (zp : Z) :
  0 <= klen ->
  Q4Asym.scale_zp (fst (Q4Asym.scan src ldb klen)) (snd (Q4Asym.scan src ldb klen))
  = Some (scale, zp) ->
  exists b,
    Q4Asym.pack_block src ldb klen b0 = Some b
    /\ blk_scale b = scale
    /\ blk_zp b = zp
    /\ (forall p, 0 <= p < 32 * stride_count klen ->
          Q4Asym.quant (reciprocal_of scale) zp
                       (if p <? klen then src (ldb * p) else of_Z 0)
          = Some (nibble_at (blk_data b) p))
    /\ (forall i, ~ (0 <= i < 16 * stride_count klen) ->
          blk_data b i = blk_data b0 i).
Proof.
  intros Hk Hsz.
  destruct (gen_payload_spec (Q4Asym.quant (reciprocal_of scale) zp)
              (fun p => src (ldb * p)) klen
              (Q4Asym_quant_total (reciprocal_of scale) zp) (blk_data b0) Hk)
    as (data' & Hrun & Hval & Hout).
  eexists. split; [| split; [| split; [| split]]].
  - unfold Q4Asym.pack_block.
    destruct (Q4Asym.scan src ldb klen) as [min max]. cbn [fst snd] in Hsz.
    rewrite Hsz. cbn [mbind option_bind].
    change (if truthy scale then div one scale else zero) with (reciprocal_of scale).
    change (Q4Asym.emit_stride src ldb (reciprocal_of scale) zp klen)
      with (gen_emit_stride (Q4Asym.quant (reciprocal_of scale) zp)
              (fun p => src (ldb * p)) klen).
    rewrite Hrun. reflexivity.
  - reflexivity.
  - reflexivity.
  - exact Hval.
  - exact Hout.
Qed.

(** ** The blobs of a packed matrix *)

Section PackLoops.

Variable T : Q4Type.
Variable block : mem float -> Z -> Z -> blob -> option blob.
Variable FpData : mem float.
Variables K ldb : Z.
Hypothesis BlkLen_pos : 0 < BlkLen T.
Hypothesis BlobSize_pos : 0 < BlobSize T.
Hypothesis K_nonneg : 0 <= K.
Hypothesis block_total :
  forall off klen b0, 0 <= klen ->
    is_Some (block (fun i => FpData (off + i)) ldb klen b0).

Lemma KBlocks_bounds : 0 <= (KBlocks T K) /\ forall kb, 0 <= kb < (KBlocks T K) -> BlkLen T * kb < K.
Proof.
  unfold KBlocks, MlasDivRoundup.
  pose proof (Z.div_mod (K + BlkLen T - 1) (BlkLen T) ltac:(lia)) as H1.
  pose proof (Z.mod_pos_bound (K + BlkLen T - 1) (BlkLen T) ltac:(lia)) as H2.
  split; [apply Z.div_pos; lia |]. intros kb Hkb. nia.
Qed.

Lemma pack_k_step_eq (dst src k : Z) (buf : mem blob) :
  pack_k_step T block FpData K ldb k (dst, src, buf)
  = (b ← block (fun i => FpData (src + i)) ldb (Z.min (BlkLen T) (K - k)) (buf dst);
     Some (dst + BlobSize T, src + ldb * Z.min (BlkLen T) (K - k), upd buf dst b)).
Proof. reflexivity. Qed.

(** The blocks [a .. a + cnt - 1] of the column [n]. *)
Lemma pack_k_loop (n : Z) (cnt : nat) : forall (a : Z) (buf : mem blob),
  0 <= a -> a + Z.of_nat cnt <= (KBlocks T K) ->
  exists buf' src',
    foldM (pack_k_step T block FpData K ldb)
          (map (fun k : nat => 0 + Z.of_nat k * BlkLen T) (seq (Z.to_nat a) cnt))
          (blob_offset T K n a, n + ldb * (BlkLen T * a), buf)
    = Some (blob_offset T K n (a + Z.of_nat cnt), src', buf')
    /\ (cnt <> 0%nat \/ src' = n + ldb * (BlkLen T * a))
    /\ (forall kb, a <= kb < a + Z.of_nat cnt ->
          block (block_src T FpData ldb n kb) ldb (block_len T K kb) (buf (blob_offset T K n kb))
          = Some (buf' (blob_offset T K n kb)))
    /\ (forall x, (forall kb, a <= kb < a + Z.of_nat cnt -> x <> blob_offset T K n kb) ->
          buf' x = buf x).
Proof.
  induction cnt as [| cnt IH]; intros a buf Ha Hcnt.
  - exists buf, (n + ldb * (BlkLen T * a)).
    split; [cbn [seq map foldM Z.of_nat]; rewrite Z.add_0_r; reflexivity |].
    split; [right; reflexivity |].
    split; [intros kb Hkb; lia | reflexivity].
  - cbn [seq map foldM].
    replace (0 + Z.of_nat (Z.to_nat a) * BlkLen T) with (BlkLen T * a) by lia.
    rewrite pack_k_step_eq.
    change (Z.min (BlkLen T) (K - BlkLen T * a)) with (block_len T K a).
    change (fun i => FpData (n + ldb * (BlkLen T * a) + i)) with (block_src T FpData ldb n a).
    destruct KBlocks_bounds as [_ Hlt].
    pose proof (Hlt a ltac:(lia)) as Ha_lt.
    destruct (block_total (n + ldb * (BlkLen T * a)) (block_len T K a)
                (buf (blob_offset T K n a))) as [b Hb].
    { unfold block_len. lia. }
    change (fun i => FpData (n + ldb * (BlkLen T * a) + i)) with (block_src T FpData ldb n a) in Hb.
    rewrite Hb. cbn [mbind option_bind].
    replace (S (Z.to_nat a)) with (Z.to_nat (a + 1)) by lia.
    replace (blob_offset T K n a + BlobSize T) with (blob_offset T K n (a + 1))
      by (unfold blob_offset; lia).
    destruct cnt as [| cnt'].
    + exists (upd buf (blob_offset T K n a) b), (n + ldb * (BlkLen T * a) + ldb * block_len T K a).
      split; [cbn [seq map foldM]; replace (a + Z.of_nat 1) with (a + 1) by lia;
              reflexivity |].
      split; [left; discriminate |].
      split.
      * intros kb Hkb. assert (kb = a) by lia. subst kb.
        unfold upd. rewrite Z.eqb_refl. exact Hb.
      * intros x Hx. unfold upd.
        destruct (Z.eqb_spec x (blob_offset T K n a)) as [E | E]; [| reflexivity].
        exfalso. apply (Hx a); [lia | exact E].
    + assert (Hfull : block_len T K a = BlkLen T).
      { unfold block_len. pose proof (Hlt (a + 1) ltac:(lia)). lia. }
      replace (n + ldb * (BlkLen T * a) + ldb * block_len T K a)
        with (n + ldb * (BlkLen T * (a + 1))) by (rewrite Hfull; lia).
      destruct (IH (a + 1) (upd buf (blob_offset T K n a) b) ltac:(lia) ltac:(lia))
        as (buf' & src' & Hrun & _ & Hval & Hout).
      exists buf', src'.
      split; [replace (a + Z.of_nat (S (S cnt'))) with (a + 1 + Z.of_nat (S cnt'))
                by lia; exact Hrun |].
      split; [left; discriminate |].
      assert (Hinj : forall kb, kb <> a -> blob_offset T K n kb <> blob_offset T K n a)
        by (intros kb Hne; unfold blob_offset; nia).
      split.
      * intros kb Hkb. destruct (Z.eq_dec kb a) as [-> | Hne].
        -- rewrite Hout by (intros kb Hkb' E; apply (Hinj kb); [lia | congruence]).
           unfold upd. rewrite Z.eqb_refl. exact Hb.
        -- rewrite <- Hval by lia. unfold upd.
           rewrite (proj2 (Z.eqb_neq _ _) (Hinj kb Hne)). reflexivity.
      * intros x Hx. rewrite Hout by (intros kb Hkb; apply Hx; lia).
        unfold upd. destruct (Z.eqb_spec x (blob_offset T K n a)) as [E | E];
          [| reflexivity].
        exfalso. apply (Hx a); [lia | exact E].
Qed.

(** One column. *)
Lemma pack_n_step_spec (n : Z) (buf : mem blob) :
  exists buf',
    pack_n_step T block FpData K ldb n (blob_offset T K n 0, buf)
    = Some (blob_offset T K (n + 1) 0, buf')
    /\ (forall kb, 0 <= kb < (KBlocks T K) ->
          block (block_src T FpData ldb n kb) ldb (block_len T K kb) (buf (blob_offset T K n kb))
          = Some (buf' (blob_offset T K n kb)))
    /\ (forall x, (forall kb, 0 <= kb < (KBlocks T K) -> x <> blob_offset T K n kb) ->
          buf' x = buf x).
Proof.
  destruct KBlocks_bounds as [Hkb _].
  destruct (pack_k_loop n (Z.to_nat (KBlocks T K)) 0 buf ltac:(lia) ltac:(lia))
    as (buf' & src' & Hrun & _ & Hval & Hout).
  exists buf'. split; [| split].
  - unfold pack_n_step. cbn [fst snd]. unfold zrange.
    replace ((K - 0 + BlkLen T - 1) / BlkLen T) with (KBlocks T K)
      by (unfold KBlocks, MlasDivRoundup; f_equal; lia).
    replace (n + ldb * (BlkLen T * 0)) with n in Hrun by lia.
    change (Z.to_nat 0) with 0%nat in Hrun. rewrite Z2Nat.id in Hrun by lia.
    rewrite Hrun. cbn [mbind option_bind fst snd].
    replace (blob_offset T K n (0 + (KBlocks T K))) with (blob_offset T K (n + 1) 0)
      by (unfold blob_offset; lia).
    reflexivity.
  - intros kb Hkb'. apply Hval. lia.
  - intros x Hx. apply Hout. intros kb Hkb'. apply Hx. lia.
Qed.

(** The columns [a .. a + cnt - 1]. *)
Lemma pack_n_loop (cnt : nat) : forall (a : Z) (buf : mem blob),
  0 <= a ->
  exists buf',
    foldM (pack_n_step T block FpData K ldb)
          (map (fun k : nat => 0 + Z.of_nat k * 1) (seq (Z.to_nat a) cnt))
          (blob_offset T K a 0, buf)
    = Some (blob_offset T K (a + Z.of_nat cnt) 0, buf')
    /\ (forall n kb, a <= n < a + Z.of_nat cnt -> 0 <= kb < (KBlocks T K) ->
          block (block_src T FpData ldb n kb) ldb (block_len T K kb) (buf (blob_offset T K n kb))
          = Some (buf' (blob_offset T K n kb)))
    /\ (forall x, (forall n kb, a <= n < a + Z.of_nat cnt -> 0 <= kb < (KBlocks T K) ->
                     x <> blob_offset T K n kb) ->
          buf' x = buf x).
Proof.
  induction cnt as [| cnt IH]; intros a buf Ha.
  - exists buf.
    split; [cbn [seq map foldM Z.of_nat]; rewrite Z.add_0_r; reflexivity |].
    split; [intros n kb Hn; lia | reflexivity].
  - cbn [seq map foldM].
    replace (0 + Z.of_nat (Z.to_nat a) * 1) with a by lia.
    destruct (pack_n_step_spec a buf) as (buf1 & Hrun1 & Hval1 & Hout1).
    rewrite Hrun1. cbn [mbind option_bind].
    replace (S (Z.to_nat a)) with (Z.to_nat (a + 1)) by lia.
    destruct (IH (a + 1) buf1 ltac:(lia)) as (buf' & Hrun & Hval & Hout).
    exists buf'.
    split; [replace (a + Z.of_nat (S cnt)) with (a + 1 + Z.of_nat cnt) by lia;
            exact Hrun |].
    assert (Hinj : forall n kb n' kb',
              0 <= kb < (KBlocks T K) -> 0 <= kb' < (KBlocks T K) -> n <> n' ->
              blob_offset T K n kb <> blob_offset T K n' kb').
    { intros n kb n' kb' H1 H2 Hne E. unfold blob_offset in E.
      apply Z.mul_cancel_l in E; [| lia].
      assert (n < n' \/ n' < n) as [H | H] by lia.
      - assert (n * (KBlocks T K) + (KBlocks T K) <= n' * (KBlocks T K)) by nia. lia.
      - assert (n' * (KBlocks T K) + (KBlocks T K) <= n * (KBlocks T K)) by nia. lia. }
    split.
    + intros n kb Hn Hkb. destruct (Z.eq_dec n a) as [-> | Hne].
      * rewrite Hout
          by (intros n' kb' Hn' Hkb'; apply Hinj; [assumption .. | lia]).
        apply Hval1. exact Hkb.
      * rewrite <- Hval by lia. f_equal. symmetry. apply Hout1.
        intros kb' Hkb'. apply Hinj; assumption.
    + intros x Hx. rewrite Hout by (intros n kb Hn Hkb; apply Hx; lia).
      apply Hout1. intros kb Hkb. apply Hx; lia.
Qed.

(** The packed matrix: the blob of the block [kb] of the column [n] is at
    the offset [BlobSize * (n * (KBlocks T K) + kb)], and it is the block packed
    from the former contents of that blob; nothing else is written. *)
Lemma pack_loops_spec (PackedBuf : mem blob) (N : Z) :
  0 <= N ->
  exists buf',
    pack_loops T block PackedBuf FpData N K ldb = Some buf'
    /\ (forall n kb, 0 <= n < N -> 0 <= kb < (KBlocks T K) ->
          block (block_src T FpData ldb n kb) ldb (block_len T K kb) (PackedBuf (blob_offset T K n kb))
          = Some (buf' (blob_offset T K n kb)))
    /\ (forall x, (forall n kb, 0 <= n < N -> 0 <= kb < (KBlocks T K) ->
                     x <> blob_offset T K n kb) ->
          buf' x = PackedBuf x).
Proof.
  intros HN.
  destruct (pack_n_loop (Z.to_nat N) 0 PackedBuf ltac:(lia))
    as (buf' & Hrun & Hval & Hout).
  exists buf'. split; [| split].
  - unfold pack_loops, zrange.
    replace ((N - 0 + 1 - 1) / 1) with N by (rewrite Z.div_1_r; lia).
    replace (blob_offset T K 0 0) with 0 in Hrun by (unfold blob_offset; lia).
    change (Z.to_nat 0) with 0%nat in Hrun.
    rewrite Hrun. reflexivity.
  - intros n kb Hn Hkb. apply Hval; lia.
  - intros x Hx. apply Hout. intros n kb Hn Hkb. apply Hx; lia.
Qed.

End PackLoops.

(** ** The scans of the Q4 packers *)

Lemma block_values_lookup (src : mem float) (ldb klen : Z) (i : nat) :
  Z.of_nat i < klen ->
  block_values src ldb klen !! i = Some (src (ldb * Z.of_nat i)).
Proof.
  intros H. unfold block_values. rewrite zrange_1, list_lookup_fmap, list_lookup_fmap.
  rewrite lookup_seq_lt by lia. cbn. do 2 f_equal. all: lia.
Qed.

Lemma block_values_length (src : mem float) (ldb klen : Z) :
  length (block_values src ldb klen) = Z.to_nat klen.
Proof.
  unfold block_values. rewrite zrange_1, !length_map, length_seq. lia.
Qed.

Lemma elem_of_block_values (src : mem float) (ldb klen : Z) (v : float) :
  v ∈ block_values src ldb klen <-> exists l, 0 <= l < klen /\ v = src (ldb * l).
Proof.
  unfold block_values. rewrite list_elem_of_fmap. split.
  - intros (l & -> & Hl). apply elem_of_zrange_1 in Hl. eauto.
  - intros (l & Hl & ->). exists l. split; [reflexivity |].
    apply elem_of_zrange_1. exact Hl.
Qed.

Lemma fold_left_fmap {A B S : Type} (f : S -> B -> S) (g : A -> B) (l : list A) :
  forall s, fold_left f (map g l) s = fold_left (fun s x => f s (g x)) l s.
Proof. induction l as [| x l IH]; intros s; [reflexivity | apply IH]. Qed.

Lemma Q4Sym_scan_values (src : mem float) (ldb klen : Z) :
  Q4Sym.scan src ldb klen
  = fold_left sym_step (block_values src ldb klen) (zero, zero).
Proof.
  unfold Q4Sym.scan, block_values. rewrite fold_left_fmap. reflexivity.
Qed.

Lemma ltb_irrefl (x : float) : ltb x x = false.
Proof.
  destruct (ltb x x) eqn:E; [| reflexivity].
  pose proof (ltb_asym x x E). congruence.
Qed.

Lemma sym_step_inv (st : float * float) (seen : list float) (v : float) :
  sym_inv st seen -> sym_inv (sym_step st v) (seen ++ [v]).
Proof.
  intros (Habs & Hmax & Hfirst). unfold sym_step.
  destruct (ltb (fst st) (fabsf v)) eqn:E.
  - split; [reflexivity |]. cbn [fst snd]. split.
    + intros w Hw. apply elem_of_app in Hw as [Hw | Hw].
      * destruct (ltb (fabsf v) (fabsf w)) eqn:E2; [| reflexivity].
        rewrite <- (Hmax w Hw). symmetry. eapply ltb_trans; eassumption.
      * apply list_elem_of_singleton in Hw as ->. apply ltb_irrefl.
    + right. exists (length seen). split.
      * rewrite lookup_app_r by lia. rewrite Nat.sub_diag. reflexivity.
      * intros j w Hj Hw. rewrite lookup_app_l in Hw by lia.
        destruct (leb (fabsf v) (fabsf w)) eqn:E2; [| reflexivity].
        rewrite <- (Hmax w); [| eapply list_elem_of_lookup_2; exact Hw].
        symmetry. eapply leb_ltb_trans; eassumption.
  - split; [exact Habs |]. split.
    + intros w Hw. apply elem_of_app in Hw as [Hw | Hw]; [auto |].
      apply list_elem_of_singleton in Hw as ->. exact E.
    + destruct Hfirst as [Hz | (i & Hi & Hbefore)]; [left; exact Hz |].
      right. exists i. split.
      * apply lookup_app_l_Some. exact Hi.
      * intros j w Hj Hw. apply (Hbefore j w Hj).
        apply lookup_lt_Some in Hi.
        rewrite lookup_app_l in Hw by lia. exact Hw.
Qed.

Lemma sym_scan_inv (vs : list float) : forall st seen,
  sym_inv st seen -> sym_inv (fold_left sym_step vs st) (seen ++ vs).
Proof.
  induction vs as [| v vs IH]; intros st seen H.
  - rewrite app_nil_r. exact H.
  - cbn [fold_left]. replace (seen ++ v :: vs) with ((seen ++ [v]) ++ vs)
      by (rewrite <- app_assoc; reflexivity).
    apply IH, sym_step_inv, H.
Qed.

(** The value [m] the symmetric scan keeps: no value of the block has a
    larger magnitude, and [m] is either the initial 0 or the first value
    of the block that reaches its magnitude. *)
Lemma Q4Sym_scan_spec (src : mem float) (ldb klen : Z) :
  let m := snd (Q4Sym.scan src ldb klen) in
  (forall l, 0 <= l < klen -> ltb (fabsf m) (fabsf (src (ldb * l))) = false)
  /\ (m = zero
      \/ exists l0, 0 <= l0 < klen /\ m = src (ldb * l0)
           /\ forall l, 0 <= l < l0 ->
                leb (fabsf m) (fabsf (src (ldb * l))) = false).
Proof.
  intros m.
  assert (H : sym_inv (Q4Sym.scan src ldb klen) (block_values src ldb klen)).
  { rewrite Q4Sym_scan_values.
    apply (sym_scan_inv _ (zero, zero) []).
    split; [reflexivity |]. split; [| left; reflexivity].
    intros v Hv. inversion Hv. }
  destruct H as (Habs & Hmax & Hfirst). fold m in Habs, Hfirst.
  split.
  - intros l Hl. rewrite <- Habs. apply Hmax.
    apply elem_of_block_values. eauto.
  - destruct Hfirst as [Hz | (i & Hi & Hbefore)]; [left; exact Hz | right].
    pose proof (lookup_lt_Some _ _ _ Hi) as Hlt.
    rewrite block_values_length in Hlt.
    rewrite block_values_lookup in Hi by lia. injection Hi as Hi.
    exists (Z.of_nat i). split; [lia |]. split; [congruence |].
    intros l Hl. apply (Hbefore (Z.to_nat l)); [lia |].
    rewrite block_values_lookup by lia. rewrite Z2Nat.id by lia. reflexivity.
Qed.

(** A block of zeros leaves the symmetric scan at its initial state. *)
Lemma Q4Sym_scan_zeros (src : mem float) (ldb klen : Z) :
  (forall l, 0 <= l < klen -> is_zero (src (ldb * l)) = true) ->
  Q4Sym.scan src ldb klen = (zero, zero).
Proof.
  intros Hz. rewrite Q4Sym_scan_values.
  assert (H : forall v, v ∈ block_values src ldb klen -> is_zero v = true).
  { intros v Hv. apply elem_of_block_values in Hv as (l & Hl & ->). auto. }
  induction (block_values src ldb klen) as [| v vs IH]; [reflexivity |].
  cbn [fold_left]. unfold sym_step at 2. cbn [fst].
  pose proof (H v ltac:(left)) as Hv.
  destruct v; try discriminate. cbn.
  apply IH. intros w Hw. apply H. right. exact Hw.
Qed.

Lemma Q4Asym_scan_values (src : mem float) (ldb klen : Z) :
  Q4Asym.scan src ldb klen
  = fold_left asym_step (block_values src ldb klen) (FLT_MAX, SFopp FLT_MAX).
Proof.
  unfold Q4Asym.scan, block_values. rewrite fold_left_fmap. reflexivity.
Qed.

(** The range the asymmetric scan returns is free of NaN, whatever the
    block; it is free of minus infinity when the block is. *)
Lemma Q4Asym_scan_spec (src : mem float) (ldb klen : Z) :
  let r := Q4Asym.scan src ldb klen in
  is_nan (fst r) = false /\ is_nan (snd r) = false
  /\ ((forall l, 0 <= l < klen -> src (ldb * l) <> S754_infinity true) ->
      fst r <> S754_infinity true).
Proof.
  cbv zeta. rewrite Q4Asym_scan_values.
  assert (H : forall vs st,
            is_nan (fst st) = false -> is_nan (snd st) = false ->
            is_nan (fst (fold_left asym_step vs st)) = false
            /\ is_nan (snd (fold_left asym_step vs st)) = false
            /\ ((forall v, v ∈ vs -> v <> S754_infinity true) ->
                fst st <> S754_infinity true ->
                fst (fold_left asym_step vs st) <> S754_infinity true)).
  { induction vs as [| v vs IH]; intros st H1 H2; [cbn; auto |].
    cbn [fold_left].
    destruct (IH (asym_step st v)) as (I1 & I2 & I3).
    - unfold asym_step. cbn [fst].
      destruct (ltb v (fst st)) eqn:E; [| exact H1].
      eapply ltb_nan_l. exact E.
    - unfold asym_step. cbn [snd].
      destruct (ltb (snd st) v) eqn:E; [| exact H2].
      eapply ltb_nan_r. exact E.
    - split; [exact I1 |]. split; [exact I2 |].
      intros Hv Hst. apply I3.
      + intros w Hw. apply Hv. right. exact Hw.
      + unfold asym_step. cbn [fst].
        destruct (ltb v (fst st)); [apply Hv; left | exact Hst]. }
  destruct (H (block_values src ldb klen) (FLT_MAX, SFopp FLT_MAX) eq_refl eq_refl)
    as (H1 & H2 & H3).
  split; [exact H1 |]. split; [exact H2 |].
  intros Hinf. apply H3; [| discriminate].
  intros v Hv. apply elem_of_block_values in Hv as (l & Hl & ->). auto.
Qed.

(** A non-empty block of zeros: the range is a pair of zeros. *)
Lemma Q4Asym_scan_zeros (src : mem float) (ldb klen : Z) :
  0 < klen ->
  (forall l, 0 <= l < klen -> is_zero (src (ldb * l)) = true) ->
  is_zero (fst (Q4Asym.scan src ldb klen)) = true
  /\ is_zero (snd (Q4Asym.scan src ldb klen)) = true.
Proof.
  intros Hk Hz. rewrite Q4Asym_scan_values.
  assert (H : forall v, v ∈ block_values src ldb klen -> is_zero v = true).
  { intros v Hv. apply elem_of_block_values in Hv as (l & Hl & ->). auto. }
  pose proof (block_values_length src ldb klen) as Hlen.
  destruct (block_values src ldb klen) as [| v vs]; [cbn in Hlen; lia |].
  cbn [fold_left].
  assert (H0 : is_zero (fst (asym_step (FLT_MAX, SFopp FLT_MAX) v)) = true
               /\ is_zero (snd (asym_step (FLT_MAX, SFopp FLT_MAX) v)) = true).
  { pose proof (H v ltac:(left)) as Hv. destruct v as [[] | | |]; try discriminate;
      split; reflexivity. }
  assert (Hvs : forall w, w ∈ vs -> is_zero w = true)
    by (intros w Hw; apply H; right; exact Hw).
  clear H Hlen. revert H0 Hvs.
  generalize (asym_step (FLT_MAX, SFopp FLT_MAX) v). clear v.
  induction vs as [| w vs IH]; intros st H0 Hvs; [exact H0 |].
  cbn [fold_left]. apply IH.
  - pose proof (Hvs w ltac:(left)) as Hw. destruct H0 as [H1 H2].
    destruct st as [a b]. cbn [fst snd] in *.
    destruct w, a, b; try discriminate; split; reflexivity.
  - intros x Hx. apply Hvs. right. exact Hx.
Qed.

Lemma range2scalezp_defined (qbits : Z) (min max : float) :
  qbits = 2 \/ qbits = 4 ->
  is_nan min = false -> is_nan max = false -> min <> S754_infinity true ->
  exists s zp, range2scalezp qbits min max = Some (s, zp)
               /\ 0 <= zp <= BitsTraits.kMax qbits.
Proof.
  intros Hq Hmin Hmax Hinf.
  pose proof (fmin_zero_nonpos min Hmin) as Hmin'.
  pose proof (fmax_zero_nonneg max Hmax) as Hmax'.
  pose proof (fmin_zero_neg_inf min Hinf) as Hinf'.
  set (scale := div (sub (fmax max zero) (fmin min zero))
                    (of_Z (BitsTraits.kMax qbits))).
  assert (Hscale : is_nonneg scale = true).
  { subst scale. destruct (of_Z_kMax_pos qbits Hq) as (mk & ek & ->).
    apply div_nonneg_pos, sub_nonneg_nonpos; assumption. }
  pose proof (zero_point_fp_cases (fmin min zero) scale Hmin' Hinf' Hscale) as Hc.
  destruct (clamp_zp_defined qbits _ Hq Hc) as (zp & Hzp & Hrange).
  exists scale, zp. split; [| exact Hrange].
  unfold range2scalezp. fold scale. unfold BitsTraits.kMaxFp.
  unfold clamp_zp in Hzp. rewrite Hzp. reflexivity.
Qed.

(** ** The packers, block by block *)

(** The symmetric packer is defined on every matrix; the blob of each block
    is the block packed by the body of its loop over [k]. *)
Lemma MlasQ4GemmPackBImpl_blocks (T : Q4Type) (PackedBuf : mem blob)
    (FpData : mem float) (N K ldb : Z) :
  0 < BlkLen T -> 0 < BlobSize T -> 0 <= N -> 0 <= K ->
  exists buf',
    MlasQ4GemmPackBImpl T PackedBuf FpData N K ldb = Some buf'
    /\ (forall n kb, 0 <= n < N -> 0 <= kb < KBlocks T K ->
          Q4Sym.pack_block (block_src T FpData ldb n kb) ldb (block_len T K kb)
                           (PackedBuf (blob_offset T K n kb))
          = Some (buf' (blob_offset T K n kb)))
    /\ (forall x, (forall n kb, 0 <= n < N -> 0 <= kb < KBlocks T K ->
                     x <> blob_offset T K n kb) ->
          buf' x = PackedBuf x).
Proof.
  intros HL HS HN HK. apply pack_loops_spec; try assumption.
  intros off klen b0 Hklen.
  destruct (Q4Sym_pack_block_spec (fun i => FpData (off + i)) ldb klen b0 Hklen)
    as (b & Hb & _).
  exists b. exact Hb.
Qed.

(** The asymmetric packer is defined on every matrix free of minus
    infinity. *)
Lemma MlasQ4GemmPackBImpl_BLK1_blocks (PackedBuf : mem blob)
    (FpData : mem float) (N K ldb : Z) :
  0 <= N -> 0 <= K ->
  (forall i, FpData i <> S754_infinity true) ->
  exists buf',
    MlasQ4GemmPackBImpl_BLK1 PackedBuf FpData N K ldb = Some buf'
    /\ (forall n kb, 0 <= n < N -> 0 <= kb < KBlocks MLAS_Q4TYPE_BLK1 K ->
          Q4Asym.pack_block (block_src MLAS_Q4TYPE_BLK1 FpData ldb n kb) ldb
                            (block_len MLAS_Q4TYPE_BLK1 K kb)
                            (PackedBuf (blob_offset MLAS_Q4TYPE_BLK1 K n kb))
          = Some (buf' (blob_offset MLAS_Q4TYPE_BLK1 K n kb)))
    /\ (forall x, (forall n kb, 0 <= n < N -> 0 <= kb < KBlocks MLAS_Q4TYPE_BLK1 K ->
                     x <> blob_offset MLAS_Q4TYPE_BLK1 K n kb) ->
          buf' x = PackedBuf x).
Proof.
  intros HN HK Hinf. apply pack_loops_spec; try assumption; try (cbn; lia).
  intros off klen b0 Hklen.
  destruct (Q4Asym_scan_spec (fun i => FpData (off + i)) ldb klen) as (H1 & H2 & H3).
  destruct (range2scalezp_defined 4 _ _ ltac:(right; reflexivity) H1 H2
              (H3 (fun l _ => Hinf _))) as (s & zp & Hsz & _).
  destruct (Q4Asym_pack_block_spec (fun i => FpData (off + i)) ldb klen b0 s zp
              Hklen Hsz) as (b & Hb & _).
  exists b. exact Hb.
Qed.

(** ** Symmetric range reduction *)

(** C3, as stated, fails: on a tie of the magnitudes [range2scale] keeps
    [min], not [max] (here [min = -2], [max = 2] and the scale is [-2 / -8],
    not [2 / -8]), and the symmetric Q4 scan keeps the first value that
    reaches the largest magnitude. *)
Lemma range2scale_tie_keeps_min :
  eqb (fabsf (of_Z (-2))) (fabsf (of_Z 2)) = true
  /\ range2scale 4 (of_Z (-2)) (of_Z 2) = div (of_Z (-2)) (of_Z (-8))
  /\ range2scale 4 (of_Z (-2)) (of_Z 2) <> div (of_Z 2) (of_Z (-8))
  /\ snd (Q4Sym.scan (two_values (of_Z (-2)) (of_Z 2)) 1 2) = of_Z (-2)
  /\ snd (Q4Sym.scan (two_values (of_Z (-2)) (of_Z 2)) 1 2) <> of_Z 2.
Proof. vm_compute. repeat split; discriminate. Qed.

Lemma eqb_not_ltb (a b : float) : eqb a b = true -> ltb a b = false.
Proof.
  unfold eqb, ltb, SFeqb, SFltb. destruct (SFcompare a b) as [[] |]; congruence.
Qed.

(** C3 (amended): [range2scale] divides by [-mid] the one of [min] and [max]
    that has the larger magnitude, keeping [min] when the magnitudes are
    equal; the symmetric Q4 packer stores [m / -8] where [m] is the first
    value of the block, in scan order, that reaches the largest magnitude
    (and 0 when no value has a magnitude above 0). *)
Theorem symmetric_range_reduction :
  (forall (qbits : Z) (min max : float),
     exists m,
       range2scale qbits min max = div m (of_Z (- 2 ^ (qbits - 1)))
       /\ (m = min \/ m = max)
       /\ ltb (fabsf m) (fabsf min) = false
       /\ ltb (fabsf m) (fabsf max) = false
       /\ (eqb (fabsf min) (fabsf max) = true -> m = min))
  /\ (forall (src : mem float) (ldb klen : Z) (b0 : blob),
        0 <= klen ->
        exists m b,
          Q4Sym.pack_block src ldb klen b0 = Some b
          /\ blk_scale b = div m (of_Z (-8))
          /\ (forall l, 0 <= l < klen ->
                ltb (fabsf m) (fabsf (src (ldb * l))) = false)
          /\ (m = zero
              \/ exists l0, 0 <= l0 < klen /\ m = src (ldb * l0)
                   /\ forall l, 0 <= l < l0 ->
                        leb (fabsf m) (fabsf (src (ldb * l))) = false)).
Proof.
  split.
  - intros qbits min max.
    exists (if ltb (fabsf min) (fabsf max) then max else min).
    split.
    { unfold range2scale, BitsTraits.kMid. rewrite Z.shiftl_1_l. reflexivity. }
    destruct (ltb (fabsf min) (fabsf max)) eqn:E.
    + split; [right; reflexivity |]. split; [apply ltb_asym, E |].
      split; [apply ltb_irrefl |].
      intros Heq. apply eqb_not_ltb in Heq. congruence.
    + split; [left; reflexivity |]. split; [apply ltb_irrefl |].
      split; [exact E | reflexivity].
  - intros src ldb klen b0 Hk.
    destruct (Q4Sym_pack_block_spec src ldb klen b0 Hk) as (b & Hb & Hs & _).
    destruct (Q4Sym_scan_spec src ldb klen) as [Hmax Hfirst].
    exists (snd (Q4Sym.scan src ldb klen)), b.
    split; [exact Hb |]. split; [exact Hs |]. split; assumption.
Qed.

Lemma symmetric_range_reduction_witness :
  exists m b,
    Q4Sym.pack_block (two_values (of_Z 3) (of_Z (-5))) 1 2
                     {| blk_scale := zero; blk_zp := 0; blk_data := fun _ => 0 |}
    = Some b
    /\ blk_scale b = div m (of_Z (-8)).
Proof.
  destruct (proj2 symmetric_range_reduction (two_values (of_Z 3) (of_Z (-5))) 1 2
              {| blk_scale := zero; blk_zp := 0; blk_data := fun _ => 0 |})
    as (m & b & H1 & H2 & _); [lia |].
  exists m, b. split; assumption.
Defined.

(** ** The sign of the scales *)


Lemma range2scalezp_scale (qbits : Z) (min max s : float) (zp : Z) :
  range2scalezp qbits min max = Some (s, zp) ->
  s = div (sub (fmax max zero) (fmin min zero)) (of_Z (BitsTraits.kMax qbits)).
Proof.
  unfold range2scalezp. intros H.
  destruct (if ltb _ zero then _ else _) as [z |]; cbn in H; congruence.
Qed.

Lemma range2scalezp_scale_nonneg (qbits : Z) (min max s : float) (zp : Z) :
  qbits = 2 \/ qbits = 4 ->
  is_nan min = false -> is_nan max = false ->
  range2scalezp qbits min max = Some (s, zp) -> is_nonneg s = true.
Proof.
  intros Hq Hmin Hmax H. apply range2scalezp_scale in H. subst s.
  destruct (of_Z_kMax_pos qbits Hq) as (mk & ek & ->).
  apply div_nonneg_pos, sub_nonneg_nonpos;
    [apply fmax_zero_nonneg | apply fmin_zero_nonpos]; assumption.
Qed.

Lemma Q4Asym_pack_block_inv (src : mem float) (ldb klen : Z) (b0 b : blob) :
  Q4Asym.pack_block src ldb klen b0 = Some b ->
  Q4Asym.scale_zp (fst (Q4Asym.scan src ldb klen)) (snd (Q4Asym.scan src ldb klen))
  = Some (blk_scale b, blk_zp b).
Proof.
  unfold Q4Asym.pack_block.
  destruct (Q4Asym.scan src ldb klen) as [min max]. cbn [fst snd].
  destruct (Q4Asym.scale_zp min max) as [[scale zp] |]; [| discriminate].
  cbn [mbind option_bind].
  destruct (foldM _ _ _) as [st |]; [| discriminate].
  cbn. intros H. injection H as <-. reflexivity.
Qed.

Lemma of_Z_neg_kMid (qbits : Z) :
  qbits = 2 \/ qbits = 4 ->
  exists m e, of_Z (- BitsTraits.kMid qbits) = S754_finite true m e.
Proof. intros [-> | ->]; eexists _, _; reflexivity. Qed.



(** ** Tails and zero elements of packed Q4 blocks *)

(** The asymmetric packer is defined on every block free of minus
    infinity, and its zero point lies in [0, 15]. *)
Lemma Q4Asym_pack_block_defined (src : mem float) (ldb klen : Z) (b0 : blob) :
  0 <= klen ->
  (forall l, 0 <= l < klen -> src (ldb * l) <> S754_infinity true) ->
  exists b,
    Q4Asym.pack_block src ldb klen b0 = Some b
    /\ 0 <= blk_zp b <= 15
    /\ (forall p, 0 <= p < 32 * stride_count klen ->
          Q4Asym.quant (reciprocal_of (blk_scale b)) (blk_zp b)
                       (if p <? klen then src (ldb * p) else of_Z 0)
          = Some (nibble_at (blk_data b) p))
    /\ (forall i, ~ (0 <= i < 16 * stride_count klen) ->
          blk_data b i = blk_data b0 i).
Proof.
  intros Hk Hinf.
  destruct (Q4Asym_scan_spec src ldb klen) as (H1 & H2 & H3).
  destruct (range2scalezp_defined 4 _ _ ltac:(right; reflexivity) H1 H2 (H3 Hinf))
    as (s & zp & Hsz & Hzp).
  destruct (Q4Asym_pack_block_spec src ldb klen b0 s zp Hk Hsz)
    as (b & Hb & Hs & Hz & Hval & Hout).
  exists b. rewrite Hs, Hz. repeat split; try assumption; apply Hzp.
Qed.

(** A zero element, and the literal 0 of a tail position, are quantized to
    the zero point when the reciprocal scale is finite. *)
Lemma Q4Asym_quant_zero (reciprocal_scale : float) (zp : Z) (v : float) :
  is_zero v = true -> is_finite reciprocal_scale = true -> 0 <= zp <= 15 ->
  Q4Asym.quant reciprocal_scale zp v = Some zp.
Proof.
  intros Hv Hr Hzp.
  destruct v as [[] | | |]; try discriminate;
    destruct reciprocal_scale as [[] | | | [] mr er]; try discriminate;
    small_cases zp Hzp; reflexivity.
Qed.

Lemma Q4Sym_quant_zero_block (v : float) :
  is_zero v = true ->
  Q4Sym.quant (mul v (reciprocal_of (div zero lit_m8))) = Some 8.
Proof. destruct v as [[] | | |]; try discriminate; reflexivity. Qed.

(** C4, as stated, fails: the symmetric packer writes the nibble 8, not 0,
    at the tail positions of a ragged block and at every position of a block
    of zeros; a 32-element stride that holds no value of the block
    (block lengths 64 and 128) is not written at all; and the asymmetric
    packer writes the nibble 0 at the tail, with the zero point 8, when the
    reciprocal of the scale overflows. *)
Lemma symmetric_tail_nibble_is_8 :
  (fun b => nibble_at (blk_data b) 2)
    <$> Q4Sym.pack_block (two_values (of_Z 1) (of_Z 2)) 1 2 blob_init = Some 8
  /\ (fun b => nibble_at (blk_data b) 0)
       <$> Q4Sym.pack_block (two_values zero zero) 1 2 blob_init = Some 8
  /\ (fun b => nibble_at (blk_data b) 40)
       <$> Q4Sym.pack_block (two_values (of_Z 1) (of_Z 2)) 1
             (Z.min (BlkLen MLAS_Q4TYPE_BLK2) 2) blob_init = Some 0
  /\ (fun b => nibble_at (blk_data b) 40)
       <$> Q4Sym.pack_block (two_values (of_Z 1) (of_Z 2)) 1
             (Z.min (BlkLen MLAS_Q4TYPE_BLK2) 2) blob_ones = Some 15
  /\ (fun b => (blk_scale b, reciprocal_of (blk_scale b), blk_zp b,
                nibble_at (blk_data b) 1))
       <$> Q4Asym.pack_block (fun _ => mkf (-1) (-146)) 1 1 blob_init
     = Some (mkf 1 (-149), S754_infinity false, 8, 0).
Proof. vm_compute. repeat split. Qed.

Lemma stride_count_one (klen : Z) : 0 < klen <= 32 -> stride_count klen = 1.
Proof.
  intros H. unfold stride_count. symmetry.
  apply Z.div_unique with (r := klen - 1); lia.
Qed.

Lemma Q4Asym_zero_block (src : mem float) (ldb klen : Z) (b0 b : blob) :
  0 < klen ->
  (forall l, 0 <= l < klen -> is_zero (src (ldb * l)) = true) ->
  Q4Asym.pack_block src ldb klen b0 = Some b ->
  is_zero (blk_scale b) = true /\ blk_zp b = 0.
Proof.
  intros Hk Hz Hb. apply Q4Asym_pack_block_inv in Hb.
  destruct (Q4Asym_scan_zeros src ldb klen Hk Hz) as [H1 H2].
  destruct b as [s z d]. cbn [blk_scale blk_zp] in *.
  destruct (fst _) as [[] | | |], (snd _) as [[] | | |]; try discriminate;
    vm_compute in Hb; injection Hb as <- <-; split; reflexivity.
Qed.

(** C4 (amended): the positions of a visited 32-element stride that lie
    past the end of a ragged block receive the nibble 8 in the symmetric
    packer and the nibble [zp] in the asymmetric packer (when the reciprocal
    scale is finite); the bytes of a stride that holds no value of the block
    keep their former contents; in a block of zeros every nibble of a
    visited stride is 8 (symmetric) or [zp = 0] (asymmetric), and the scale
    is 0. *)
Theorem q4_tail_and_zero_block_nibbles :
  (forall src ldb klen b0,
     0 <= klen ->
     exists b,
       Q4Sym.pack_block src ldb klen b0 = Some b
       /\ (forall p, klen <= p < 32 * stride_count klen ->
             nibble_at (blk_data b) p = 8)
       /\ (forall i, ~ (0 <= i < 16 * stride_count klen) ->
             blk_data b i = blk_data b0 i)
       /\ ((forall l, 0 <= l < klen -> is_zero (src (ldb * l)) = true) ->
           is_zero (blk_scale b) = true
           /\ forall p, 0 <= p < 32 * stride_count klen ->
                nibble_at (blk_data b) p = 8))
  /\ (forall src ldb klen b0,
        0 <= klen ->
        (forall l, 0 <= l < klen -> src (ldb * l) <> S754_infinity true) ->
        exists b,
          Q4Asym.pack_block src ldb klen b0 = Some b
          /\ 0 <= blk_zp b <= 15
          /\ (is_finite (reciprocal_of (blk_scale b)) = true ->
              forall p, klen <= p < 32 * stride_count klen ->
                nibble_at (blk_data b) p = blk_zp b)
          /\ (forall i, ~ (0 <= i < 16 * stride_count klen) ->
                blk_data b i = blk_data b0 i)
          /\ (0 < klen ->
              (forall l, 0 <= l < klen -> is_zero (src (ldb * l)) = true) ->
              is_zero (blk_scale b) = true /\ blk_zp b = 0
              /\ forall p, 0 <= p < 32 * stride_count klen ->
                   nibble_at (blk_data b) p = blk_zp b)).
Proof.
  split.
  - intros src ldb klen b0 Hk.
    destruct (Q4Sym_pack_block_spec src ldb klen b0 Hk)
      as (b & Hb & Hs & _ & Hval & Hout).
    exists b. split; [exact Hb |]. split; [| split; [exact Hout |]].
    + intros p Hp. pose proof (Hval p ltac:(lia)) as H.
      destruct (Z.ltb_spec p klen); [lia |].
      change (Q4Sym.quant (of_Z 0)) with (Some 8) in H. congruence.
    + intros Hz. rewrite Hs, (Q4Sym_scan_zeros src ldb klen Hz).
      split; [reflexivity |].
      intros p Hp. pose proof (Hval p Hp) as H.
      rewrite (Q4Sym_scan_zeros src ldb klen Hz) in H. cbn [snd] in H.
      destruct (Z.ltb_spec p klen).
      * rewrite Q4Sym_quant_zero_block in H by (apply Hz; lia). congruence.
      * change (Q4Sym.quant (of_Z 0)) with (Some 8) in H. congruence.
  - intros src ldb klen b0 Hk Hinf.
    destruct (Q4Asym_pack_block_defined src ldb klen b0 Hk Hinf)
      as (b & Hb & Hzp & Hval & Hout).
    exists b. split; [exact Hb |]. split; [exact Hzp |].
    split; [| split; [exact Hout |]].
    + intros Hr p Hp. pose proof (Hval p ltac:(lia)) as H.
      destruct (Z.ltb_spec p klen); [lia |].
      rewrite Q4Asym_quant_zero in H by (try reflexivity; assumption).
      congruence.
    + intros Hk0 Hz.
      destruct (Q4Asym_zero_block src ldb klen b0 b Hk0 Hz Hb) as [Hs0 Hz0].
      split; [exact Hs0 |]. split; [exact Hz0 |].
      intros p Hp. pose proof (Hval p Hp) as H.
      rewrite Q4Asym_quant_zero in H; [congruence | | | exact Hzp].
      * destruct (Z.ltb_spec p klen); [apply Hz; lia | reflexivity].
      * unfold reciprocal_of. destruct (blk_scale b); try discriminate.
        reflexivity.
Qed.

Lemma q4_tail_and_zero_block_nibbles_witness :
  exists b,
    Q4Sym.pack_block (two_values (of_Z 1) (of_Z 2)) 1 2 blob_init = Some b
    /\ (forall p, 2 <= p < 32 * stride_count 2 -> nibble_at (blk_data b) p = 8).
Proof.
  destruct (proj1 q4_tail_and_zero_block_nibbles
              (two_values (of_Z 1) (of_Z 2)) 1 2 blob_init)
    as (b & H1 & H2 & _); [lia |].
  exists b. split; assumption.
Defined.

(** ** The unpacked block *)

Section UnpackBlock.

(** The two nibble decoders of an unpacker, the payload, and where the
    block goes: the element [p] is stored at [dest + ldb * p]. *)
Variables deq0 deq1 : Z -> float.
Variable data : mem Z.
Variables ldb dest CountK : Z.
Hypothesis ldb_nonzero : ldb <> 0.

Lemma unpack_effect_at (covers : Z -> Prop) (F F' : mem float) (p : Z) :
  unpack_effect deq0 deq1 data ldb dest covers F F' -> covers p ->
  F' (dest + ldb * p) = unpacked_value deq0 deq1 data p.
Proof.
  intros H Hp. destruct (H (dest + ldb * p)) as [[Hno _] | (p' & _ & E & Hv)].
  - exfalso. apply (Hno p Hp). reflexivity.
  - assert (p = p') by nia. subst p'. exact Hv.
Qed.

Lemma unpack_effect_trans (c1 c2 c : Z -> Prop) (F0 F1 F2 : mem float) :
  (forall p, c p <-> c1 p \/ c2 p) ->
  unpack_effect deq0 deq1 data ldb dest c1 F0 F1 -> unpack_effect deq0 deq1 data ldb dest c2 F1 F2 -> unpack_effect deq0 deq1 data ldb dest c F0 F2.
Proof.
  intros Hc H1 H2 x.
  destruct (H2 x) as [[Hno2 E2] | (p & Hp & Ex & Hv)].
  - destruct (H1 x) as [[Hno1 E1] | (p & Hp & Ex & Hv)].
    + left. split; [| congruence].
      intros p Hp. apply Hc in Hp as [Hp | Hp]; auto.
    + right. exists p. split; [apply Hc; left; exact Hp |].
      split; [exact Ex | congruence].
  - right. exists p. split; [apply Hc; right; exact Hp |]. split; assumption.
Qed.

(** One byte of the stride [a]: the positions [32a + l] and
    [32a + l + 16], when they are below [CountK]. *)
Lemma unpack_byte_effect (a l : Z) (F : mem float) :
  0 <= a -> 0 <= l < 16 ->
  unpack_effect deq0 deq1 data ldb dest
    (fun p => (p = 32 * a + l \/ p = 32 * a + l + 16) /\ p < CountK)
    F
    (Q4Unpack.unpack_byte deq0 deq1 data (16 * a) ldb dest (32 * a)
       (Z.min 32 (CountK - 32 * a)) F l).
Proof.
  intros Ha Hl x. unfold Q4Unpack.unpack_byte.
  assert (E0 : unpacked_value deq0 deq1 data (32 * a + l) = deq0 (data (16 * a + l))).
  { unfold unpacked_value.
    replace ((32 * a + l) / 32) with a
      by (apply Z.div_unique with (r := l); lia).
    replace ((32 * a + l) mod 16) with l
      by (apply Z.mod_unique with (q := 2 * a); lia).
    replace ((32 * a + l) mod 32) with l
      by (apply Z.mod_unique with (q := a); lia).
    destruct (Z.ltb_spec l 16); [reflexivity | lia]. }
  assert (E1 : unpacked_value deq0 deq1 data (32 * a + l + 16) = deq1 (data (16 * a + l))).
  { unfold unpacked_value.
    replace ((32 * a + l + 16) / 32) with a
      by (apply Z.div_unique with (r := l + 16); lia).
    replace ((32 * a + l + 16) mod 16) with l
      by (apply Z.mod_unique with (q := 2 * a + 1); lia).
    replace ((32 * a + l + 16) mod 32) with (l + 16)
      by (apply Z.mod_unique with (q := a); lia).
    destruct (Z.ltb_spec (l + 16) 16); [lia | reflexivity]. }
  destruct (Z.ltb_spec (l + 16) (Z.min 32 (CountK - 32 * a))) as [H1 | H1];
    destruct (Z.ltb_spec l (Z.min 32 (CountK - 32 * a))) as [H0 | H0];
    try lia; unfold upd.
  - destruct (Z.eqb_spec x (dest + ldb * (32 * a + (l + 16)))) as [Ex | Ex].
    + right. exists (32 * a + l + 16). split; [lia |].
      split; [rewrite Ex; f_equal; lia | exact (eq_sym E1)].
    + destruct (Z.eqb_spec x (dest + ldb * (32 * a + l))) as [Ey | Ey].
      * right. exists (32 * a + l). split; [lia |].
        split; [exact Ey | exact (eq_sym E0)].
      * left. split; [| reflexivity].
        intros p [[-> | ->] _] E; [apply Ey | apply Ex]; rewrite E; f_equal; lia.
  - destruct (Z.eqb_spec x (dest + ldb * (32 * a + l))) as [Ey | Ey].
    + right. exists (32 * a + l). split; [lia |].
      split; [exact Ey | exact (eq_sym E0)].
    + left. split; [| reflexivity].
      intros p [[-> | ->] Hp] E; [apply Ey; exact E | lia].
  - left. split; [| reflexivity]. intros p [[-> | ->] Hp] E; lia.
Qed.

(** The bytes [l0 .. l0 + n - 1] of the stride [a]. *)
Lemma unpack_bytes_effect (a : Z) (n : nat) : forall (l0 : Z) (F : mem float),
  0 <= a -> 0 <= l0 -> l0 + Z.of_nat n <= 16 ->
  unpack_effect deq0 deq1 data ldb dest
    (fun p => (exists l, l0 <= l < l0 + Z.of_nat n
                         /\ (p = 32 * a + l \/ p = 32 * a + l + 16))
              /\ p < CountK)
    F
    (fold_left (Q4Unpack.unpack_byte deq0 deq1 data (16 * a) ldb dest (32 * a)
                  (Z.min 32 (CountK - 32 * a)))
               (map (fun k : nat => l0 + Z.of_nat k) (seq 0 n)) F).
Proof.
  induction n as [| n IH]; intros l0 F Ha Hl0 Hn.
  - intros x. left. split; [| reflexivity]. intros p [(l & Hl & _) _]. lia.
  - cbn [seq map fold_left]. rewrite <- seq_shift, map_map.
    replace (l0 + Z.of_nat 0) with l0 by lia.
    set (F1 := Q4Unpack.unpack_byte deq0 deq1 data (16 * a) ldb dest (32 * a)
                 (Z.min 32 (CountK - 32 * a)) F l0).
    assert (Hmap : map (fun k : nat => l0 + Z.of_nat (S k)) (seq 0 n)
                   = map (fun k : nat => l0 + 1 + Z.of_nat k) (seq 0 n))
      by (apply map_ext; intros k; lia).
    rewrite Hmap.
    pose proof (unpack_byte_effect a l0 F Ha ltac:(lia)) as H1. fold F1 in H1.
    pose proof (IH (l0 + 1) F1 Ha ltac:(lia) ltac:(lia)) as H2.
    eapply unpack_effect_trans; [| exact H1 | exact H2].
    intros p. split.
    + intros [(l & Hl & Hp) Hc].
      destruct (Z.eq_dec l l0) as [-> | Hne].
      * left. split; [exact Hp | exact Hc].
      * right. split; [| exact Hc]. exists l. split; [lia | exact Hp].
    + intros [[Hp Hc] | [(l & Hl & Hp) Hc]].
      * split; [| exact Hc]. exists l0. split; [lia | exact Hp].
      * split; [| exact Hc]. exists l. split; [lia | exact Hp].
Qed.

(** One stride. *)
Lemma unpack_stride_effect (a : Z) (F : mem float) :
  0 <= a ->
  unpack_effect deq0 deq1 data ldb dest
    (fun p => 32 * a <= p < 32 * (a + 1) /\ p < CountK)
    F
    (fst (Q4Unpack.unpack_stride deq0 deq1 data ldb dest CountK (F, 16 * a)
            (32 * a)))
  /\ snd (Q4Unpack.unpack_stride deq0 deq1 data ldb dest CountK (F, 16 * a)
            (32 * a)) = 16 * (a + 1).
Proof.
  intros Ha. unfold Q4Unpack.unpack_stride. cbn [fst snd]. split; [| lia].
  rewrite zrange_1.
  pose proof (unpack_bytes_effect a (Z.to_nat (16 - 0)) 0 F Ha ltac:(lia)
                ltac:(lia)) as H.
  intros x. destruct (H x) as [[Hno E] | (p & [(l & Hl & Hp) Hc] & Ex & Hv)].
  - left. split; [| exact E].
    intros p [Hp Hc]. apply Hno. split; [| exact Hc].
    destruct (Z.lt_ge_cases p (32 * a + 16)).
    + exists (p - 32 * a). lia.
    + exists (p - 32 * a - 16). lia.
  - right. exists p. split; [| split; assumption]. lia.
Qed.

(** The strides [a .. a + n - 1]. *)
Lemma unpack_strides_effect (n : nat) : forall (a : Z) (F : mem float),
  0 <= a ->
  let st := fold_left (Q4Unpack.unpack_stride deq0 deq1 data ldb dest CountK)
                      (map (fun k : nat => 0 + Z.of_nat k * 32)
                           (seq (Z.to_nat a) n))
                      (F, 16 * a) in
  unpack_effect deq0 deq1 data ldb dest
    (fun p => 32 * a <= p < 32 * (a + Z.of_nat n) /\ p < CountK) F (fst st)
  /\ snd st = 16 * (a + Z.of_nat n).
Proof.
  induction n as [| n IH]; intros a F Ha.
  - cbn. split; [| lia]. intros x. left. split; [| reflexivity].
    intros p Hp. lia.
  - cbn [seq map fold_left].
    replace (0 + Z.of_nat (Z.to_nat a) * 32) with (32 * a) by lia.
    destruct (unpack_stride_effect a F Ha) as [H1 E1].
    destruct (Q4Unpack.unpack_stride deq0 deq1 data ldb dest CountK (F, 16 * a)
                (32 * a)) as [F1 d1].
    cbn [fst snd] in H1, E1. subst d1.
    replace (S (Z.to_nat a)) with (Z.to_nat (a + 1)) by lia.
    destruct (IH (a + 1) F1 ltac:(lia)) as [H2 E2].
    cbv zeta. split; [| rewrite E2; lia].
    eapply unpack_effect_trans; [| exact H1 | exact H2].
    intros p. lia.
Qed.

(** The block: the element [p < CountK] is stored at [dest + ldb * p] as
    the decoded value of its nibble. *)
Lemma unpack_block_at (b : blob) (F : mem float) (p : Z) :
  blk_data b = data -> 0 <= p < CountK ->
  Q4Unpack.unpack_block deq0 deq1 b ldb dest CountK F (dest + ldb * p)
  = unpacked_value deq0 deq1 data p.
Proof.
  intros Hd Hp. unfold Q4Unpack.unpack_block. rewrite Hd.
  assert (Hc : 0 <= (CountK - 0 + 32 - 1) / 32) by (apply Z.div_pos; lia).
  destruct (unpack_strides_effect (Z.to_nat ((CountK - 0 + 32 - 1) / 32)) 0 F
              ltac:(lia)) as [H _].
  apply (unpack_effect_at _ _ _ p H).
  split; [| lia]. rewrite Z2Nat.id by lia.
  pose proof (Z.div_mod (CountK - 0 + 32 - 1) 32 ltac:(lia)).
  pose proof (Z.mod_pos_bound (CountK - 0 + 32 - 1) 32 ltac:(lia)). lia.
Qed.

End UnpackBlock.

(** ** Zero elements of asymmetric blocks *)

(** C6, as stated, fails: when the scale is so small that its reciprocal
    overflows, a zero element is quantized to the nibble 0 while the zero
    point is 8, and is unpacked to [-8 * scale]; when [max - min] overflows
    the scale is infinite and a zero element is unpacked to a NaN. *)
Lemma zero_lost_for_extreme_scales :
  is_zero (two_values (mkf (-1) (-146)) zero 1) = true
  /\ (fun b => (blk_scale b, reciprocal_of (blk_scale b), blk_zp b,
                nibble_at (blk_data b) 1,
                Q4Unpack.asym_block b 1 0 2 (fun _ => one) 1))
       <$> Q4Asym.pack_block (two_values (mkf (-1) (-146)) zero) 1 2 blob_init
     = Some (mkf 1 (-149), S754_infinity false, 8, 0, mkf (-1) (-146))
  /\ is_zero (mkf (-1) (-146)) = false
  /\ is_zero (three_values FLT_LOWEST FLT_MAX zero 2) = true
  /\ (fun b => (blk_scale b, blk_zp b, nibble_at (blk_data b) 2,
                Q4Unpack.asym_block b 1 0 3 (fun _ => one) 2))
       <$> Q4Asym.pack_block (three_values FLT_LOWEST FLT_MAX zero) 1 3 blob_init
     = Some (S754_infinity false, 0, 0, S754_nan).
Proof. vm_compute. repeat split. Qed.

(** C6 (amended): in an asymmetric block whose scale and reciprocal scale
    are both finite, every element that is exactly 0 is quantized to the
    stored [zp], and the asymmetric unpacker, which stores
    [(nibble - zp) * scale] at the place of the element, stores exactly 0
    there. *)
Theorem asymmetric_zero_roundtrip (src : mem float) (ldb klen : Z) (b0 : blob) :
  0 <= klen -> ldb <> 0 ->
  (forall l, 0 <= l < klen -> src (ldb * l) <> S754_infinity true) ->
  exists b,
    Q4Asym.pack_block src ldb klen b0 = Some b
    /\ (is_finite (blk_scale b) = true ->
        is_finite (reciprocal_of (blk_scale b)) = true ->
        forall p, 0 <= p < klen -> is_zero (src (ldb * p)) = true ->
          nibble_at (blk_data b) p = blk_zp b
          /\ forall FpData dest,
               is_zero (Q4Unpack.asym_block b ldb dest klen FpData
                          (dest + ldb * p)) = true).
Proof.
  intros Hk Hldb Hinf.
  destruct (Q4Asym_pack_block_defined src ldb klen b0 Hk Hinf)
    as (b & Hb & Hzp & Hval & Hout).
  exists b. split; [exact Hb |].
  intros Hs Hr p Hp Hz.
  assert (Hn : nibble_at (blk_data b) p = blk_zp b).
  { assert (Hc : 0 <= p < 32 * stride_count klen).
    { unfold stride_count.
      pose proof (Z.div_mod (klen + 31) 32 ltac:(lia)).
      pose proof (Z.mod_pos_bound (klen + 31) 32 ltac:(lia)). lia. }
    pose proof (Hval p Hc) as H.
    destruct (Z.ltb_spec p klen); [| lia].
    rewrite Q4Asym_quant_zero in H by assumption. congruence. }
  split; [exact Hn |].
  intros FpData dest. unfold Q4Unpack.asym_block.
  rewrite (unpack_block_at _ _ (blk_data b) ldb dest klen Hldb b FpData p eq_refl Hp).
  unfold unpacked_value, Q4Unpack.asym_lo, Q4Unpack.asym_hi.
  unfold nibble_at in Hn. cbv zeta in Hn.
  destruct (p mod 32 <? 16); rewrite Hn, Z.sub_diag;
    destruct (blk_scale b) as [[] | | | [] ms es]; try discriminate; reflexivity.
Qed.

Lemma asymmetric_zero_roundtrip_witness :
  exists b,
    Q4Asym.pack_block (two_values (of_Z (-3)) zero) 1 2 blob_init = Some b
    /\ nibble_at (blk_data b) 1 = blk_zp b
    /\ is_zero (Q4Unpack.asym_block b 1 0 2 (fun _ => one) (0 + 1 * 1)) = true.
Proof.
  destruct (asymmetric_zero_roundtrip (two_values (of_Z (-3)) zero) 1 2 blob_init)
    as (b & Hb & H); [lia | lia | intros l Hl; unfold two_values;
                                  destruct (_ =? 0); discriminate |].
  exists b. split; [exact Hb |].
  assert (E : Q4Asym.pack_block (two_values (of_Z (-3)) zero) 1 2 blob_init
              = Some b) by exact Hb.
  apply Q4Asym_pack_block_inv in E.
  assert (Es : blk_scale b = div (of_Z 3) (of_Z 15))
    by (destruct b; cbn [blk_scale blk_zp] in *; vm_compute in E;
        injection E as <- <-; reflexivity).
  destruct (H ltac:(rewrite Es; reflexivity) ltac:(rewrite Es; reflexivity)
              1 ltac:(lia) eq_refl) as [H1 H2].
  split; [exact H1 | apply H2].
Defined.

(** ** The implicit zero point of the blockwise quantizer *)

Lemma land_1_cases (x : Z) : Z.land x 1 = 0 \/ Z.land x 1 = 1.
Proof.
  assert (E : Z.land x 1 = x mod 2) by exact (Z.land_ones x 1 ltac:(lia)).
  rewrite E. pose proof (Z.mod_pos_bound x 2 ltac:(lia)). lia.
Qed.

Lemma zp_bytes_8 (x : Z) : [8; 8] !!! Z.to_nat (Z.land x 1) = 8.
Proof. destruct (land_1_cases x) as [-> | ->]; reflexivity. Qed.

(** With a null [zero_points] the loop over [kpack] stores scales only. *)
Lemma scale_phase_null (block_size : Z) (Columnwise : bool) (src : mem float)
    (leadingDimension row_blks r r_end c c_end meta_row meta_col : Z)
    (scales : mem float) :
  exists scales',
    foldM (BlockwiseQuantizer.scale_step block_size Columnwise true src
             leadingDimension row_blks r r_end c c_end meta_row meta_col)
          (zrange 0 (BitsTraits.kPackSize BlockwiseQuantizer.qbits) 1)
          (scales, replicate (Z.to_nat (BitsTraits.kPackSize BlockwiseQuantizer.qbits)) 8)
    = Some (scales', [8; 8]).
Proof.
  change (zrange 0 (BitsTraits.kPackSize BlockwiseQuantizer.qbits) 1) with [0; 1].
  change (replicate _ 8) with [8; 8].
  cbn [foldM]. unfold BlockwiseQuantizer.scale_step at 2.
  destruct (BlockwiseQuantizer.scan_block _ _ _ _ _ _) as [min0 max0].
  destruct (_ <? _); cbn [mbind option_bind];
    unfold BlockwiseQuantizer.scale_step;
    destruct (BlockwiseQuantizer.scan_block _ _ _ _ _ _) as [min1 max1];
    destruct (_ <? _); eexists; reflexivity.
Qed.



(** ** The strides of the QDQ quantizer *)

Lemma foldM_invariant {A S : Type} (P : S -> Prop) (body : A -> S -> option S)
    (ls : list A) : forall s s',
  (forall x s s', x ∈ ls -> body x s = Some s' -> P s -> P s') ->
  foldM body ls s = Some s' -> P s -> P s'.
Proof.
  induction ls as [| x ls IH]; intros s s' Hbody Hrun Hs.
  - cbn in Hrun. injection Hrun as <-. exact Hs.
  - cbn [foldM] in Hrun. destruct (body x s) as [s1 |] eqn:E; [| discriminate].
    cbn [mbind option_bind] in Hrun.
    apply (IH s1 s'); [| exact Hrun |].
    + intros y t t' Hy. apply Hbody. right. exact Hy.
    + apply (Hbody x s s1); [left | exact E | exact Hs].
Qed.

Section QDQFrame.

Variable qbits : Z.
Hypothesis qbits_supported : qbits = 2 \/ qbits = 4.

Lemma pack_size_ge_2 : 2 <= BlockwiseQDQQuantizer.pack_size_ qbits.
Proof. destruct qbits_supported as [-> | ->]; vm_compute; discriminate. Qed.

(** One stride stores scales at [scale_idx .. scale_idx + pack_size_ - 1]
    only, and advances [scale_idx] by [pack_size_]. *)
Lemma stride_step_frame (src : mem float) (row_size columns input_idx : Z)
    (scale_idx : Z) (b : BlockwiseQDQQuantizer.qdq_bufs)
    (scale_idx' : Z) (b' : BlockwiseQDQQuantizer.qdq_bufs) (x : Z) :
  BlockwiseQDQQuantizer.stride_step qbits src row_size columns input_idx
    (scale_idx, b) = Some (scale_idx', b') ->
  ~ (scale_idx <= x < scale_idx + BlockwiseQDQQuantizer.pack_size_ qbits) ->
  scale_idx' = scale_idx + BlockwiseQDQQuantizer.pack_size_ qbits
  /\ BlockwiseQDQQuantizer.d_scales b' x = BlockwiseQDQQuantizer.d_scales b x.
Proof.
  intros H Hx. unfold BlockwiseQDQQuantizer.stride_step in H.
  destruct (fold_left _ _ _) as [vmin_t vmax_t].
  destruct (foldM _ _ (BlockwiseQDQQuantizer.d_scales b, _, _, _))
    as [[[[scales zp_t] rs_t] zf_t] |] eqn:Es; [| discriminate].
  cbn [mbind option_bind] in H.
  destruct (foldM _ _ (BlockwiseQDQQuantizer.d_dst b)) as [dst |]; [| discriminate].
  cbn in H. injection H as <- <-. split; [reflexivity |].
  cbn [BlockwiseQDQQuantizer.d_scales].
  refine (foldM_invariant
            (fun st : mem float * list Z * list float * list float =>
               fst (fst (fst st)) x = BlockwiseQDQQuantizer.d_scales b x)
            _ _ _ _ _ Es eq_refl).
  intros i [[[sc z] r] f] st' Hi Hstep Hinv. cbn [fst] in Hinv.
  apply elem_of_zrange_1 in Hi.
  unfold BlockwiseQDQQuantizer.scale_step in Hstep.
  destruct (if _ : bool then _ else _) as [[scale_tt zp'] |]; [| discriminate].
  cbn in Hstep. injection Hstep as <-. cbn [fst]. unfold upd.
  destruct (Z.eqb_spec x (scale_idx + i)); [lia | exact Hinv].
Qed.

(** The strides [0 .. cnt - 1] of a thread block. *)
Lemma stride_loop_frame (src : mem float) (row_size columns : Z) (x : Z)
    (cnt : nat) : forall (input_idx scale_idx : Z) b st',
  foldM (BlockwiseQDQQuantizer.stride_step qbits src row_size columns)
        (map (fun n : nat => input_idx
                             + Z.of_nat n * BlockwiseQDQQuantizer.pack_size_ qbits)
             (seq 0 cnt))
        (scale_idx, b) = Some st' ->
  ~ (scale_idx <= x
     < scale_idx + Z.of_nat cnt * BlockwiseQDQQuantizer.pack_size_ qbits) ->
  BlockwiseQDQQuantizer.d_scales (snd st') x = BlockwiseQDQQuantizer.d_scales b x.
Proof.
  pose proof pack_size_ge_2 as Hp.
  induction cnt as [| cnt IH]; intros input_idx scale_idx b st' Hrun Hx.
  - cbn in Hrun. injection Hrun as <-. reflexivity.
  - cbn [seq map foldM] in Hrun.
    destruct (BlockwiseQDQQuantizer.stride_step _ _ _ _ _ _) as [[s1 b1] |] eqn:E;
      [| discriminate].
    cbn [mbind option_bind] in Hrun.
    destruct (stride_step_frame _ _ _ _ _ _ _ _ x E ltac:(nia)) as [-> Hb1].
    rewrite <- seq_shift, map_map in Hrun.
    erewrite map_ext in Hrun;
      [apply (IH (input_idx + BlockwiseQDQQuantizer.pack_size_ qbits)) in Hrun |].
    + rewrite Hrun. exact Hb1.
    + nia.
    + intros n. cbn beta. lia.
Qed.

(** A thread block leaves alone every scale outside the columns
    [col_idx .. col_idx + col_size - 2] of its row of blocks. *)
Lemma quantize_tile_frame (src : mem float) (rows columns quant_block_size : Z)
    (thr_blk_idx : Z) (b b' : BlockwiseQDQQuantizer.qdq_bufs) (x : Z) :
  BlockwiseQDQQuantizer.quantize_tile qbits src rows columns quant_block_size
    thr_blk_idx b = Some b' ->
  let num_col_thr_blk := Z.quot (columns + 16 - 1) 16 in
  let scale_idx := Z.quot thr_blk_idx num_col_thr_blk * columns
                   + Z.rem thr_blk_idx num_col_thr_blk * 16 in
  let col_size := Z.min 16 (columns - Z.rem thr_blk_idx num_col_thr_blk * 16) in
  ~ (scale_idx <= x <= scale_idx + col_size - 2) ->
  BlockwiseQDQQuantizer.d_scales b' x = BlockwiseQDQQuantizer.d_scales b x.
Proof.
  pose proof pack_size_ge_2 as Hp.
  intros H ncol scale_idx col_size Hx.
  unfold BlockwiseQDQQuantizer.quantize_tile in H. cbv zeta in H.
  fold ncol in H. fold scale_idx in H. fold col_size in H.
  destruct (foldM _ _ (scale_idx, b)) as [st |] eqn:E; [| discriminate].
  cbn in H. injection H as <-.
  unfold zrange in E.
  apply (stride_loop_frame _ _ _ x) in E; [exact E |].
  set (pack := BlockwiseQDQQuantizer.pack_size_ qbits) in *.
  set (q := (_ - pack - _ + pack - 1) / pack).
  assert (Hq : q = (col_size - 1) / pack) by (subst q; f_equal; lia).
  destruct (Z.le_gt_cases q 0) as [Hle | Hgt].
  - replace (Z.to_nat q) with 0%nat by lia. lia.
  - rewrite Z2Nat.id by lia.
    pose proof (Z.mul_div_le (col_size - 1) pack ltac:(lia)) as Hd.
    rewrite <- Hq in Hd. nia.
Qed.

End QDQFrame.



(** ** File names *)

Lemma reserved_char_underscore : Dml.reserved_char Dml.underscore = false.
Proof. reflexivity. Qed.

(** X1: a sanitized file name has the length of the name and holds no
    reserved character; the characters that are not reserved stay where
    they are; sanitizing twice is sanitizing once, and a name is left as it
    is exactly when it holds no reserved character. *)
Theorem GetSanitizedFileName_spec (name : list Z) :
  length (Dml.GetSanitizedFileName name) = length name
  /\ (forall c, c ∈ Dml.GetSanitizedFileName name -> Dml.reserved_char c = false)
  /\ (forall (i : nat) c, name !! i = Some c ->
        Dml.GetSanitizedFileName name !! i
        = Some (if Dml.reserved_char c then Dml.underscore else c))
  /\ Dml.GetSanitizedFileName (Dml.GetSanitizedFileName name)
     = Dml.GetSanitizedFileName name
  /\ (Dml.GetSanitizedFileName name = name
      <-> forall c, c ∈ name -> Dml.reserved_char c = false).
Proof.
  unfold Dml.GetSanitizedFileName.
  split; [apply length_map |].
  split.
  { intros c Hc. apply list_elem_of_fmap in Hc as (d & -> & _).
    destruct (Dml.reserved_char d) eqn:E; [reflexivity | exact E]. }
  split.
  { intros i c Hi. rewrite list_lookup_fmap, Hi. reflexivity. }
  split.
  { rewrite map_map. apply map_ext. intros c.
    destruct (Dml.reserved_char c) eqn:E; [reflexivity | rewrite E; reflexivity]. }
  induction name as [| c name IH]; cbn [map].
  - split; [intros _ c Hc; inversion Hc | reflexivity].
  - split.
    + intros H. injection H as Hc Hrest. intros d Hd.
      apply elem_of_cons in Hd as [-> | Hd].
      * destruct (Dml.reserved_char c) eqn:E; [| reflexivity].
        subst c. discriminate.
      * apply IH; assumption.
    + intros H. rewrite (H c) by left. f_equal.
      apply IH. intros d Hd. apply H. right. exact Hd.
Qed.

(** ** Model names *)

Lemma find_last_of_None (s : list Z) (ch : Z) :
  Dml.find_last_of s ch = None <-> ch ∉ s.
Proof.
  induction s as [| c s IH]; cbn [Dml.find_last_of].
  - split; [intros _ H; inversion H | reflexivity].
  - destruct (Dml.find_last_of s ch) as [i |].
    + split; [discriminate |]. intros H. exfalso.
      assert (Hs : ch ∉ s) by (intros Hin; apply H; right; exact Hin).
      apply IH in Hs. discriminate.
    + destruct (Z.eqb_spec c ch) as [-> | Hne].
      * split; [discriminate |]. intros H. exfalso. apply H. left.
      * split; [| reflexivity]. intros _ H.
        apply elem_of_cons in H as [-> | H]; [congruence |].
        apply (proj1 IH eq_refl H).
Qed.

Lemma find_last_of_app (stem ext : list Z) (ch : Z) :
  ch ∉ ext ->
  Dml.find_last_of (stem ++ ch :: ext) ch = Some (length stem).
Proof.
  intros H. induction stem as [| c stem IH].
  - cbn [app Dml.find_last_of length].
    rewrite (proj2 (find_last_of_None ext ch) H), Z.eqb_refl. reflexivity.
  - cbn [app Dml.find_last_of length]. rewrite IH. reflexivity.
Qed.

(** X2: the model name is the last component of the path up to its last
    dot: the stem of [stem.ext] when [ext] holds no dot. It is empty for a
    path without components and for a last component without a dot. *)
Theorem GetModelName_spec :
  Dml.GetModelName [] = []
  /\ (forall components stem ext,
        Dml.dot ∉ ext ->
        Dml.GetModelName (components ++ [stem ++ Dml.dot :: ext]) = stem)
  /\ (forall components pathString,
        Dml.dot ∉ pathString ->
        Dml.GetModelName (components ++ [pathString]) = []).
Proof.
  split; [reflexivity |]. split.
  - intros components stem ext H. unfold Dml.GetModelName.
    rewrite last_snoc, (find_last_of_app stem ext Dml.dot H).
    apply take_app_length.
  - intros components pathString H. unfold Dml.GetModelName.
    rewrite last_snoc, (proj2 (find_last_of_None pathString Dml.dot) H).
    reflexivity.
Qed.

Lemma GetModelName_spec_witness :
  Dml.GetModelName [[100; 105; 114]; [109; 46; 118; 49; 46; 111; 110; 110; 120]]
  = [109; 46; 118; 49]
  /\ Dml.GetModelName [[100; 105; 114]; [109]] = [].
Proof.
  split.
  - apply (proj1 (proj2 GetModelName_spec) [[100; 105; 114]] [109; 46; 118; 49]
             [111; 110; 110; 120]).
    intros H. repeat (apply elem_of_cons in H as [H | H]; [discriminate |]).
    inversion H.
  - apply (proj2 (proj2 GetModelName_spec) [[100; 105; 114]] [109]).
    intros H. repeat (apply elem_of_cons in H as [H | H]; [discriminate |]).
    inversion H.
Defined.

(** ** Name tables *)

Lemma strncmp_is_0_prefix (s1 s2 : list Z) :
  0 ∉ s2 -> Dml.StringUtil.strncmp_is_0 s1 s2 = true <-> s2 `prefix_of` s1.
Proof.
  revert s1. induction s2 as [| c2 s2 IH]; intros s1 H0.
  - split; [intros _; apply prefix_nil | reflexivity].
  - assert (Hc2 : c2 <> 0) by (intros ->; apply H0; left).
    assert (H0' : 0 ∉ s2) by (intros H; apply H0; right; exact H).
    destruct s1 as [| c1 s1]; cbn [Dml.StringUtil.strncmp_is_0].
    + split.
      * intros H. apply Z.eqb_eq in H. contradiction.
      * intros H. apply prefix_nil_inv in H. discriminate.
    + destruct (Z.eqb_spec c1 c2) as [-> | Hne].
      * destruct (Z.eqb_spec c2 0); [contradiction |].
        rewrite (IH s1 H0'). split.
        -- apply prefix_cons.
        -- apply prefix_cons_inv_2.
      * split; [discriminate |]. intros H.
        apply prefix_cons_inv_1 in H. congruence.
Qed.

(** X3: for a [mode] without null code unit, [MapToIndex] returns the index
    of the first entry whose name starts with [mode] (the comparison is
    over [mode.size()] code units, so a name that merely begins with [mode]
    matches), and nothing when no name starts with [mode]. *)
Theorem MapToIndex_spec (mode : list Z)
    (nameAndIndexList : list Dml.StringUtil.NameAndIndex) :
  0 ∉ mode ->
  (forall idx,
     Dml.StringUtil.MapToIndex mode nameAndIndexList = Some idx
     <-> exists (i : nat) e,
           nameAndIndexList !! i = Some e
           /\ Dml.StringUtil.index e = idx
           /\ mode `prefix_of` Dml.StringUtil.name e
           /\ forall (j : nat) e', (j < i)%nat ->
                nameAndIndexList !! j = Some e' ->
                ~ mode `prefix_of` Dml.StringUtil.name e')
  /\ (Dml.StringUtil.MapToIndex mode nameAndIndexList = None
      <-> forall e, e ∈ nameAndIndexList ->
            ~ mode `prefix_of` Dml.StringUtil.name e).
Proof.
  intros H0.
  induction nameAndIndexList as [| e l [IH1 IH2]];
    cbn [Dml.StringUtil.MapToIndex].
  - split.
    + intros idx. split; [discriminate |].
      intros (i & e & Hi & _). rewrite lookup_nil in Hi. discriminate.
    + split; [intros _ e He; inversion He | reflexivity].
  - pose proof (strncmp_is_0_prefix (Dml.StringUtil.name e) mode H0) as Hp.
    destruct (Dml.StringUtil.strncmp_is_0 (Dml.StringUtil.name e) mode).
    + assert (Hpre : mode `prefix_of` Dml.StringUtil.name e)
        by (apply Hp; reflexivity).
      split.
      * intros idx. split.
        -- intros H. injection H as <-. exists 0%nat, e.
           split; [reflexivity |]. split; [reflexivity |].
           split; [exact Hpre |]. intros j e' Hj. lia.
        -- intros (i & e' & Hi & <- & _ & Hfirst).
           destruct i as [| i].
           ++ cbn in Hi. injection Hi as <-. reflexivity.
           ++ exfalso. apply (Hfirst 0%nat e); [lia | reflexivity | exact Hpre].
      * split; [discriminate |]. intros H. exfalso.
        apply (H e); [left | exact Hpre].
    + assert (Hnot : ~ mode `prefix_of` Dml.StringUtil.name e)
        by (intros H; apply Hp in H; discriminate).
      split.
      * intros idx. rewrite IH1. split.
        -- intros (i & e' & Hi & Hidx & Hpre & Hfirst).
           exists (S i), e'. split; [exact Hi |]. split; [exact Hidx |].
           split; [exact Hpre |].
           intros j e'' Hj Hl. destruct j as [| j].
           ++ cbn in Hl. injection Hl as <-. exact Hnot.
           ++ apply (Hfirst j e''); [lia | exact Hl].
        -- intros (i & e' & Hi & Hidx & Hpre & Hfirst).
           destruct i as [| i].
           ++ cbn in Hi. injection Hi as <-. contradiction.
           ++ exists i, e'. split; [exact Hi |]. split; [exact Hidx |].
              split; [exact Hpre |].
              intros j e'' Hj Hl. apply (Hfirst (S j) e''); [lia | exact Hl].
      * rewrite IH2. split.
        -- intros H e' He'. apply elem_of_cons in He' as [-> | He'];
             [exact Hnot | apply H; exact He'].
        -- intros H e' He'. apply H. right. exact He'.
Qed.

Lemma MapToIndex_spec_witness :
  Dml.StringUtil.MapToIndex [108; 105]
    [ {| Dml.StringUtil.name := [110; 111]; Dml.StringUtil.index := 0 |};
      {| Dml.StringUtil.name := [108; 105; 110]; Dml.StringUtil.index := 7 |} ]
  = Some 7.
Proof.
  apply (proj1 (MapToIndex_spec [108; 105] _
                  ltac:(intros H; repeat (apply elem_of_cons in H as [H | H];
                                          [discriminate |]); inversion H))).
  exists 1%nat, {| Dml.StringUtil.name := [108; 105; 110];
                   Dml.StringUtil.index := 7 |}.
  split; [reflexivity |]. split; [reflexivity |].
  split; [exists [110]; reflexivity |].
  intros j e' Hj Hl. destruct j as [| j]; [| lia].
  cbn in Hl. injection Hl as <-. cbn. intros (k & Hk). discriminate.
Defined.

Lemma all_below_spec (n : nat) (P : Z -> bool) :
  all_below n P = true -> forall z, 0 <= z < Z.of_nat n -> P z = true.
Proof.
  unfold all_below. intros H z Hz.
  rewrite forallb_forall in H. apply H.
  apply in_map_iff. exists (Z.to_nat z). split; [lia |].
  apply in_seq. lia.
Qed.

Lemma land_mask_bounds (qbits v : Z) :
  qbits = 2 \/ qbits = 4 ->
  0 <= Z.land v (BlockwiseQDQQuantizer.mask_ qbits)
       < 2 ^ qbits.
Proof.
  intros [-> | ->].
  - change (BlockwiseQDQQuantizer.mask_ 2) with (Z.ones 2).
    rewrite Z.land_ones by lia. apply Z.mod_pos_bound. reflexivity.
  - change (BlockwiseQDQQuantizer.mask_ 4) with (Z.ones 4).
    rewrite Z.land_ones by lia. apply Z.mod_pos_bound. reflexivity.
Qed.

Lemma SetElem_land (qbits val idx dst : Z) :
  BlockwiseQDQQuantizer.SetElem qbits val idx dst
  = BlockwiseQDQQuantizer.SetElem qbits
      (Z.land val (BlockwiseQDQQuantizer.mask_ qbits)) idx dst.
Proof.
  unfold BlockwiseQDQQuantizer.SetElem. cbv zeta.
  rewrite <- (Z.land_assoc val), Z.land_diag. reflexivity.
Qed.

(** X4: [SetElem] stores the low [qbits] bits of [val] as the element [idx]
    of the byte and keeps the other elements of [dst]; the result is a
    byte. *)
Theorem SetElem_spec (qbits val idx dst : Z) :
  qbits = 2 \/ qbits = 4 ->
  0 <= dst < 256 ->
  0 <= idx < BlockwiseQDQQuantizer.pack_size_ qbits ->
  0 <= BlockwiseQDQQuantizer.SetElem qbits val idx dst < 256
  /\ GetElem qbits (BlockwiseQDQQuantizer.SetElem qbits val idx dst) idx
     = Z.land val (BlockwiseQDQQuantizer.mask_ qbits)
  /\ forall idx', 0 <= idx' < BlockwiseQDQQuantizer.pack_size_ qbits ->
       idx' <> idx ->
       GetElem qbits (BlockwiseQDQQuantizer.SetElem qbits val idx dst) idx'
       = GetElem qbits dst idx'.
Proof.
  intros Hq Hdst Hidx.
  rewrite (SetElem_land qbits val).
  pose proof (land_mask_bounds qbits val Hq) as Hv.
  generalize dependent (Z.land val (BlockwiseQDQQuantizer.mask_ qbits)).
  intros v Hv.
  pose (check := fun q v i d =>
    let r := BlockwiseQDQQuantizer.SetElem q v i d in
    (0 <=? r) && (r <? 256) && (GetElem q r i =? v)
    && all_below 4 (fun i' =>
         (i' =? i) || (GetElem q r i' =? GetElem q d i'))).
  assert (Hall : forall q, q = 2 \/ q = 4 ->
            all_below (Z.to_nat (2 ^ q)) (fun v => all_below 256 (fun d =>
              all_below (Z.to_nat (BlockwiseQDQQuantizer.pack_size_ q))
                (fun i => check q v i d))) = true).
  { intros q [-> | ->]; vm_compute; reflexivity. }
  assert (Hpow : 0 < 2 ^ qbits) by (destruct Hq as [-> | ->]; reflexivity).
  pose proof (all_below_spec _ _ (Hall qbits Hq) v ltac:(lia)) as H1.
  cbv beta in H1.
  pose proof (all_below_spec _ _ H1 dst ltac:(lia)) as H2. cbv beta in H2.
  pose proof (all_below_spec _ _ H2 idx ltac:(lia)) as H3. cbv beta in H3.
  unfold check in H3. cbv zeta in H3.
  apply andb_prop in H3 as [H3 H4]. apply andb_prop in H3 as [H3 H5].
  apply andb_prop in H3 as [H3 H6].
  split; [lia |]. split; [lia |].
  intros idx' Hidx' Hne.
  assert (Hp : BlockwiseQDQQuantizer.pack_size_ qbits <= 4)
    by (destruct Hq as [-> | ->]; vm_compute; discriminate).
  pose proof (all_below_spec _ _ H4 idx' ltac:(lia)) as H7. cbv beta in H7.
  apply orb_prop in H7 as [H7 | H7]; lia.
Qed.

Lemma SetElem_spec_witness :
  0 <= BlockwiseQDQQuantizer.SetElem 4 9 1 3 < 256
  /\ GetElem 4 (BlockwiseQDQQuantizer.SetElem 4 9 1 3) 1 = 9
  /\ GetElem 4 (BlockwiseQDQQuantizer.SetElem 4 9 1 3) 0 = 3.
Proof.
  destruct (SetElem_spec 4 9 1 3) as (H1 & H2 & H3);
    [right; reflexivity | lia
    | change (BlockwiseQDQQuantizer.pack_size_ 4) with 2; lia |].
  split; [exact H1 |]. split; [exact H2 |].
  apply (H3 0); [change (BlockwiseQDQQuantizer.pack_size_ 4) with 2; lia | lia].
Defined.

Lemma Pack_2_small (a b c d : Z) :
  0 <= a < 4 -> 0 <= b < 4 -> 0 <= c < 4 -> 0 <= d < 4 ->
  let p := BlockwiseQDQQuantizer.Pack 2 [a; b; c; d] in
  0 <= p < 256 /\ p = set_elems 2 [a; b; c; d] 0 0
  /\ GetElem 2 p 0 = a /\ GetElem 2 p 1 = b
  /\ GetElem 2 p 2 = c /\ GetElem 2 p 3 = d.
Proof.
  intros Ha Hb Hc Hd.
  assert (Hall : all_below 4 (fun a => all_below 4 (fun b =>
            all_below 4 (fun c => all_below 4 (fun d =>
              let p := BlockwiseQDQQuantizer.Pack 2 [a; b; c; d] in
              (0 <=? p) && (p <? 256) && (p =? set_elems 2 [a; b; c; d] 0 0)
              && (GetElem 2 p 0 =? a) && (GetElem 2 p 1 =? b)
              && (GetElem 2 p 2 =? c) && (GetElem 2 p 3 =? d))))) = true)
    by (vm_compute; reflexivity).
  pose proof (all_below_spec _ _ Hall a ltac:(lia)) as H1. cbv beta in H1.
  pose proof (all_below_spec _ _ H1 b ltac:(lia)) as H2. cbv beta in H2.
  pose proof (all_below_spec _ _ H2 c ltac:(lia)) as H3. cbv beta in H3.
  pose proof (all_below_spec _ _ H3 d ltac:(lia)) as H4. cbv beta in H4.
  cbv zeta in H4 |- *.
  repeat (apply andb_prop in H4 as [H4 ?]). lia.
Qed.

Lemma Pack_4_small (a b : Z) :
  0 <= a < 16 -> 0 <= b < 16 ->
  let p := BlockwiseQDQQuantizer.Pack 4 [a; b] in
  0 <= p < 256 /\ p = set_elems 4 [a; b] 0 0
  /\ GetElem 4 p 0 = a /\ GetElem 4 p 1 = b.
Proof.
  intros Ha Hb.
  assert (Hall : all_below 16 (fun a => all_below 16 (fun b =>
              let p := BlockwiseQDQQuantizer.Pack 4 [a; b] in
              (0 <=? p) && (p <? 256) && (p =? set_elems 4 [a; b] 0 0)
              && (GetElem 4 p 0 =? a) && (GetElem 4 p 1 =? b))) = true)
    by (vm_compute; reflexivity).
  pose proof (all_below_spec _ _ Hall a ltac:(lia)) as H1. cbv beta in H1.
  pose proof (all_below_spec _ _ H1 b ltac:(lia)) as H2. cbv beta in H2.
  cbv zeta in H2 |- *.
  repeat (apply andb_prop in H2 as [H2 ?]). lia.
Qed.

(** X5: [Pack] puts the low [qbits] bits of the element [i] of [vals] at the
    index [i] of the byte: it is the byte [SetElem] builds from 0, element
    by element, and [GetElem] reads the elements back. *)
Theorem Pack_spec (qbits : Z) (vals : list Z) :
  qbits = 2 \/ qbits = 4 ->
  length vals = Z.to_nat (BlockwiseQDQQuantizer.pack_size_ qbits) ->
  0 <= BlockwiseQDQQuantizer.Pack qbits vals < 256
  /\ BlockwiseQDQQuantizer.Pack qbits vals = set_elems qbits vals 0 0
  /\ forall (i : nat) v, vals !! i = Some v ->
       GetElem qbits (BlockwiseQDQQuantizer.Pack qbits vals) (Z.of_nat i)
       = Z.land v (BlockwiseQDQQuantizer.mask_ qbits).
Proof.
  intros Hq Hlen.
  destruct Hq as [-> | ->].
  - change (Z.to_nat (BlockwiseQDQQuantizer.pack_size_ 2)) with 4%nat in Hlen.
    destruct vals as [| a [| b [| c [| d [| ? ?]]]]]; try discriminate.
    pose proof (land_mask_bounds 2 a ltac:(left; reflexivity)) as Ha.
    pose proof (land_mask_bounds 2 b ltac:(left; reflexivity)) as Hb.
    pose proof (land_mask_bounds 2 c ltac:(left; reflexivity)) as Hc.
    pose proof (land_mask_bounds 2 d ltac:(left; reflexivity)) as Hd.
    assert (E : BlockwiseQDQQuantizer.Pack 2 [a; b; c; d]
                = BlockwiseQDQQuantizer.Pack 2
                    [Z.land a (BlockwiseQDQQuantizer.mask_ 2);
                     Z.land b (BlockwiseQDQQuantizer.mask_ 2);
                     Z.land c (BlockwiseQDQQuantizer.mask_ 2);
                     Z.land d (BlockwiseQDQQuantizer.mask_ 2)]).
    { unfold BlockwiseQDQQuantizer.Pack.
      change (2 =? 4) with false. change (2 =? 2) with true. cbv iota.
      change (BlockwiseQDQQuantizer.mask_ 2) with 3.
      cbn [lookup_total list_lookup_total].
      rewrite <- !Z.land_assoc. reflexivity. }
    assert (E2 : set_elems 2 [a; b; c; d] 0 0
                 = set_elems 2
                     [Z.land a (BlockwiseQDQQuantizer.mask_ 2);
                      Z.land b (BlockwiseQDQQuantizer.mask_ 2);
                      Z.land c (BlockwiseQDQQuantizer.mask_ 2);
                      Z.land d (BlockwiseQDQQuantizer.mask_ 2)] 0 0).
    { cbn [set_elems].
      rewrite (SetElem_land 2 a), (SetElem_land 2 b), (SetElem_land 2 c),
        (SetElem_land 2 d). reflexivity. }
    rewrite E, E2.
    destruct (Pack_2_small _ _ _ _ Ha Hb Hc Hd) as (H1 & H2 & G0 & G1 & G2 & G3).
    split; [exact H1 |]. split; [exact H2 |].
    intros i v Hi.
    destruct i as [| [| [| [| i]]]]; cbn in Hi; try discriminate;
      injection Hi as <-; assumption.
  - change (Z.to_nat (BlockwiseQDQQuantizer.pack_size_ 4)) with 2%nat in Hlen.
    destruct vals as [| a [| b [| ? ?]]]; try discriminate.
    pose proof (land_mask_bounds 4 a ltac:(right; reflexivity)) as Ha.
    pose proof (land_mask_bounds 4 b ltac:(right; reflexivity)) as Hb.
    assert (E : BlockwiseQDQQuantizer.Pack 4 [a; b]
                = BlockwiseQDQQuantizer.Pack 4
                    [Z.land a (BlockwiseQDQQuantizer.mask_ 4);
                     Z.land b (BlockwiseQDQQuantizer.mask_ 4)]).
    { unfold BlockwiseQDQQuantizer.Pack.
      change (4 =? 4) with true. cbv iota.
      change (BlockwiseQDQQuantizer.mask_ 4) with 15.
      cbn [lookup_total list_lookup_total].
      rewrite <- !Z.land_assoc. reflexivity. }
    assert (E2 : set_elems 4 [a; b] 0 0
                 = set_elems 4
                     [Z.land a (BlockwiseQDQQuantizer.mask_ 4);
                      Z.land b (BlockwiseQDQQuantizer.mask_ 4)] 0 0).
    { cbn [set_elems].
      rewrite (SetElem_land 4 a), (SetElem_land 4 b). reflexivity. }
    rewrite E, E2.
    destruct (Pack_4_small _ _ Ha Hb) as (H1 & H2 & G0 & G1).
    split; [exact H1 |]. split; [exact H2 |].
    intros i v Hi.
    destruct i as [| [| i]]; cbn in Hi; try discriminate;
      injection Hi as <-; assumption.
Qed.

Lemma Pack_spec_witness :
  BlockwiseQDQQuantizer.Pack 4 [3; 9] = set_elems 4 [3; 9] 0 0
  /\ GetElem 4 (BlockwiseQDQQuantizer.Pack 4 [3; 9]) 1 = 9.
Proof.
  destruct (Pack_spec 4 [3; 9]) as (_ & H2 & H3);
    [right; reflexivity | reflexivity |].
  split; [exact H2 | exact (H3 1%nat 9 eq_refl)].
Defined.

(** ** The casts of the quantizers *)

(** [(uint8_t)std::clamp(y, 0.0f, K)] is defined for every rounded [y] but
    a NaN, and lies in [0, K]. *)
Lemma clamp_cast_total (K : Z) (mk : positive) (ek : Z) (y : float) :
  ek < 0 -> Z.pos mk = K * 2 ^ (- ek) -> 2 ^ (prec - 1) <= Z.pos mk ->
  K <= 255 ->
  wf y = true -> is_nan y = false ->
  exists n, to_uint8 (clamp y zero (S754_finite false mk ek)) = Some n
            /\ 0 <= n <= K.
Proof.
  intros Hek Hmk Hn HK Hwf Hnan.
  assert (HK0 : 0 < K) by (pose proof (Z.pow_pos_nonneg 2 (- ek)); nia).
  unfold clamp. destruct (ltb y zero) eqn:E0.
  - exists 0. split; [reflexivity | lia].
  - destruct (ltb (S754_finite false mk ek) y) eqn:E1.
    + exists K. split; [| lia].
      cbn [to_uint8]. unfold trunc_mag.
      destruct (Z.leb_spec 0 ek); [lia |].
      rewrite Hmk, Z.div_mul by (pose proof (Z.pow_pos_nonneg 2 (- ek)); lia).
      destruct (Z.leb_spec 0 K); [| lia].
      destruct (Z.leb_spec K 255); [| lia]. reflexivity.
    + apply (to_uint8_bounded K mk ek); try assumption.
      apply is_nonneg_ltb; assumption.
Qed.

Lemma has_sign_not_nan (s : bool) (x : float) : has_sign s x -> is_nan x = false.
Proof. destruct x; [reflexivity .. | contradiction | reflexivity]. Qed.

Lemma mkf_not_nan (m e : Z) : is_nan (mkf m e) = false.
Proof.
  unfold mkf, binary_normalize. destruct m as [| p | p]; [reflexivity | |].
  - exact (has_sign_not_nan _ _ (proj1 (binary_round_cases false p e))).
  - exact (has_sign_not_nan _ _ (proj1 (binary_round_cases true p e))).
Qed.

Lemma roundf_nan (x : float) : is_nan (roundf x) = is_nan x.
Proof.
  destruct x as [s | s | | s m e]; try reflexivity.
  cbn [roundf]. destruct (0 <=? e); [reflexivity |].
  destruct (_ =? 0); [reflexivity |]. apply mkf_not_nan.
Qed.

Lemma to_uint8_nan (x : float) : is_nan x = true -> to_uint8 x = None.
Proof. destruct x; try discriminate. reflexivity. Qed.

Lemma clamp_of_nan (x lo hi : float) :
  is_nan x = true -> is_nan (clamp x lo hi) = true.
Proof.
  intros H. unfold clamp.
  destruct (ltb x lo) eqn:E1; [apply ltb_nan_l in E1; congruence |].
  destruct (ltb hi x) eqn:E2; [apply ltb_nan_r in E2; congruence |].
  exact H.
Qed.

Lemma blockwise_cast_cases (x : float) :
  wf x = true ->
  (is_nan x = true ->
   to_uint8 (clamp (roundf x) zero (BitsTraits.kMaxFp 4)) = None)
  /\ (is_nan x = false ->
      exists n, to_uint8 (clamp (roundf x) zero (BitsTraits.kMaxFp 4)) = Some n
                /\ 0 <= n <= 15).
Proof.
  intros Hwf. split.
  - intros Hn. apply to_uint8_nan, clamp_of_nan. rewrite roundf_nan. exact Hn.
  - intros Hn.
    apply (clamp_cast_total 15 15728640 (-20));
      [reflexivity | reflexivity | vm_compute; discriminate | lia
      | apply roundf_wf, Hwf | rewrite roundf_nan; exact Hn].
Qed.

Lemma blockwise_quant_range (reciprocal_scale : float) (zp : Z) (v : float)
    (n : Z) :
  BlockwiseQuantizer.quant reciprocal_scale zp v = Some n -> 0 <= n <= 15.
Proof.
  unfold BlockwiseQuantizer.quant.
  set (x := add (mul v reciprocal_scale) (of_Z zp)).
  assert (Hwf : wf x = true) by (apply add_wf; [apply mul_wf | apply mkf_wf]).
  destruct (blockwise_cast_cases x Hwf) as [H1 H2].
  change (BitsTraits.kMaxFp BlockwiseQuantizer.qbits) with (BitsTraits.kMaxFp 4).
  intros Hn. destruct (is_nan x) eqn:E.
  - rewrite (H1 eq_refl) in Hn. discriminate.
  - destruct (H2 eq_refl) as (n' & Hn' & Hr). congruence.
Qed.

(** X6: the quantizing cast of the blockwise quantizer,
    [(uint8_t)std::clamp(roundf(v * reciprocal_scale + zp), 0.0f, 15.0f)],
    is undefined exactly when [v * reciprocal_scale + zp] is a NaN
    ([std::clamp] passes a NaN on to the cast); it returns a value of
    [0 .. 15] otherwise. A NaN value, and a zero value under an infinite
    reciprocal scale, are undefined. *)
Theorem blockwise_quant_undefined_iff_nan (reciprocal_scale : float) (zp : Z)
    (v : float) :
  (BlockwiseQuantizer.quant reciprocal_scale zp v = None
   <-> is_nan (add (mul v reciprocal_scale) (of_Z zp)) = true)
  /\ (forall n, BlockwiseQuantizer.quant reciprocal_scale zp v = Some n ->
        0 <= n <= 15)
  /\ (is_nan v = true -> BlockwiseQuantizer.quant reciprocal_scale zp v = None)
  /\ (is_zero v = true -> is_finite reciprocal_scale = false ->
      BlockwiseQuantizer.quant reciprocal_scale zp v = None).
Proof.
  pose proof blockwise_cast_cases as Hmain.
  set (x := add (mul v reciprocal_scale) (of_Z zp)).
  assert (Hwf : wf x = true) by (apply add_wf; [apply mul_wf | apply mkf_wf]).
  destruct (Hmain x Hwf) as [H1 H2].
  change (BlockwiseQuantizer.quant reciprocal_scale zp v)
    with (to_uint8 (clamp (roundf x) zero (BitsTraits.kMaxFp 4))).
  assert (Hiff : to_uint8 (clamp (roundf x) zero (BitsTraits.kMaxFp 4)) = None
                 <-> is_nan x = true).
  { split; [| exact H1]. intros HN.
    destruct (is_nan x) eqn:E; [reflexivity |].
    destruct (H2 eq_refl) as (n & Hn & _). congruence. }
  split; [exact Hiff |]. split; [| split].
  - intros n Hn. destruct (is_nan x) eqn:E.
    + rewrite (H1 eq_refl) in Hn. discriminate.
    + destruct (H2 eq_refl) as (n' & Hn' & Hr). congruence.
  - intros Hv. apply Hiff. subst x. destruct v; try discriminate. reflexivity.
  - intros Hv Hr. apply Hiff. subst x.
    destruct v as [sv | | |]; try discriminate.
    destruct reciprocal_scale as [| sr | |]; try discriminate; reflexivity.
Qed.

Lemma blockwise_quant_undefined_iff_nan_witness :
  BlockwiseQuantizer.quant (S754_infinity false) 8 zero = None
  /\ BlockwiseQuantizer.quant one 8 S754_nan = None.
Proof.
  split.
  - apply (proj2 (proj2 (proj2
             (blockwise_quant_undefined_iff_nan (S754_infinity false) 8 zero))));
      reflexivity.
  - apply (proj1 (proj2 (proj2
             (blockwise_quant_undefined_iff_nan one 8 S754_nan)))).
    reflexivity.
Defined.

Lemma qdq_cast_total (qbits : Z) (x : float) :
  qbits = 2 \/ qbits = 4 -> wf x = true -> is_nan x = false ->
  exists n, to_uint8 (clamp x zero (BitsTraits.kMaxFp qbits)) = Some n
            /\ 0 <= n <= BitsTraits.kMax qbits.
Proof.
  intros Hq Hwf Hn. destruct Hq as [-> | ->].
  - apply (clamp_cast_total 3 12582912 (-22));
      [reflexivity | reflexivity | vm_compute; discriminate | lia
      | exact Hwf | exact Hn].
  - apply (clamp_cast_total 15 15728640 (-20));
      [reflexivity | reflexivity | vm_compute; discriminate | lia
      | exact Hwf | exact Hn].
Qed.

Lemma qdq_quant_cases (qbits : Z) (reciprocal_scale zp_f v : float) :
  qbits = 2 \/ qbits = 4 -> wf zp_f = true ->
  match BlockwiseQDQQuantizer.quant qbits reciprocal_scale zp_f v with
  | Some n => 0 <= n <= BitsTraits.kMax qbits
  | None => is_nan (add (roundf (mul v reciprocal_scale)) zp_f) = true
  end.
Proof.
  intros Hq Hzp. unfold BlockwiseQDQQuantizer.quant.
  set (x := add (roundf (mul v reciprocal_scale)) zp_f).
  assert (Hwf : wf x = true) by (apply add_wf; [apply roundf_wf, mul_wf | exact Hzp]).
  destruct (is_nan x) eqn:E.
  - rewrite (to_uint8_nan _ (clamp_of_nan _ _ _ E)). reflexivity.
  - destruct (qdq_cast_total qbits x Hq Hwf E) as (n & -> & Hr). exact Hr.
Qed.

(** X7: the quantizing cast of the QDQ quantizer,
    [static_cast<uint8_t>(std::clamp(roundf(v * reciprocal_scale) + zp_f,
    0.0f, kMaxFp))], is undefined exactly when
    [roundf(v * reciprocal_scale) + zp_f] is a NaN, and returns a value of
    [0 .. kMax] otherwise. *)
Theorem qdq_quant_undefined_iff_nan (qbits : Z) (reciprocal_scale zp_f v : float) :
  qbits = 2 \/ qbits = 4 -> wf zp_f = true ->
  (BlockwiseQDQQuantizer.quant qbits reciprocal_scale zp_f v = None
   <-> is_nan (add (roundf (mul v reciprocal_scale)) zp_f) = true)
  /\ (forall n, BlockwiseQDQQuantizer.quant qbits reciprocal_scale zp_f v = Some n ->
        0 <= n <= BitsTraits.kMax qbits).
Proof.
  intros Hq Hzp.
  set (x := add (roundf (mul v reciprocal_scale)) zp_f).
  assert (Hwf : wf x = true) by (apply add_wf; [apply roundf_wf, mul_wf | exact Hzp]).
  change (BlockwiseQDQQuantizer.quant qbits reciprocal_scale zp_f v)
    with (to_uint8 (clamp x zero (BitsTraits.kMaxFp qbits))).
  pose proof (qdq_cast_total qbits x Hq Hwf) as H2.
  split.
  - split.
    + intros HN. destruct (is_nan x) eqn:E; [reflexivity |].
      destruct (H2 eq_refl) as (n & Hn & _). congruence.
    + intros Hn. apply to_uint8_nan, clamp_of_nan, Hn.
  - intros n Hn. destruct (is_nan x) eqn:E.
    + rewrite (to_uint8_nan _ (clamp_of_nan _ _ _ E)) in Hn. discriminate.
    + destruct (H2 eq_refl) as (n' & Hn' & Hr). congruence.
Qed.

Lemma qdq_quant_undefined_iff_nan_witness :
  BlockwiseQDQQuantizer.quant 4 one (of_Z 8) S754_nan = None.
Proof.
  apply (proj1 (qdq_quant_undefined_iff_nan 4 one (of_Z 8) S754_nan
                  ltac:(right; reflexivity) ltac:(reflexivity))).
  reflexivity.
Defined.

(** ** Where the range reduction is undefined *)

Lemma fmin_nan_l (b : float) : fmin S754_nan b = S754_nan.
Proof.
  unfold fmin. destruct (ltb b S754_nan) eqn:E; [| reflexivity].
  apply ltb_nan_r in E. discriminate.
Qed.

Lemma fmax_nan_l (b : float) : fmax S754_nan b = S754_nan.
Proof.
  unfold fmax. destruct (ltb S754_nan b) eqn:E; [| reflexivity].
  apply ltb_nan_l in E. discriminate.
Qed.

Lemma sub_nan_l (y : float) : sub S754_nan y = S754_nan.
Proof. reflexivity. Qed.

Lemma sub_nan_r (x : float) : sub x S754_nan = S754_nan.
Proof. destruct x; reflexivity. Qed.

Lemma div_nan_l (y : float) : div S754_nan y = S754_nan.
Proof. reflexivity. Qed.

Lemma div_nan_r (x : float) : div x S754_nan = S754_nan.
Proof. destruct x; reflexivity. Qed.

(** The clamping of a NaN zero point reaches the cast. *)
Lemma clamp_zp_nan (zp_max : Z) : clamp_zp zp_max S754_nan = None.
Proof.
  unfold clamp_zp.
  destruct (ltb S754_nan zero) eqn:E1; [apply ltb_nan_l in E1; discriminate |].
  destruct (ltb (of_Z zp_max) S754_nan) eqn:E2;
    [apply ltb_nan_r in E2; discriminate |].
  reflexivity.
Qed.

Lemma range2scalezp_clamp (qbits : Z) (min max : float) :
  range2scalezp qbits min max
  = (let scale_f := div (sub (fmax max zero) (fmin min zero))
                        (of_Z (BitsTraits.kMax qbits)) in
     zp ← clamp_zp (BitsTraits.kMax qbits)
            (if neqb scale_f zero then sub zero (div (fmin min zero) scale_f)
             else fmin min zero);
     Some (scale_f, zp)).
Proof. reflexivity. Qed.

Lemma range2scalezp_bad_range (qbits : Z) (min max : float) :
  qbits = 2 \/ qbits = 4 ->
  is_nan min = true \/ is_nan max = true \/ min = S754_infinity true ->
  range2scalezp qbits min max = None.
Proof.
  intros Hq. rewrite range2scalezp_clamp. cbv zeta.
  destruct (of_Z_kMax_pos qbits Hq) as (mk & ek & Ek). rewrite Ek.
  intros [H | [H | H]].
  - destruct min; try discriminate.
    rewrite fmin_nan_l, sub_nan_r, div_nan_l.
    change (neqb S754_nan zero) with true. cbv iota.
    rewrite div_nan_l, sub_nan_r, clamp_zp_nan. reflexivity.
  - destruct max; try discriminate.
    rewrite fmax_nan_l, sub_nan_l, div_nan_l.
    change (neqb S754_nan zero) with true. cbv iota.
    rewrite div_nan_r, sub_nan_r, clamp_zp_nan. reflexivity.
  - subst min. change (fmin (S754_infinity true) zero) with (S754_infinity true).
    destruct (is_nan max) eqn:E2.
    + destruct max; try discriminate.
      rewrite fmax_nan_l, sub_nan_l, div_nan_l.
      change (neqb S754_nan zero) with true. cbv iota.
      rewrite div_nan_r, sub_nan_r, clamp_zp_nan. reflexivity.
    + pose proof (fmax_zero_nonneg max E2) as Hmax.
      assert (Es : sub (fmax max zero) (S754_infinity true) = S754_infinity false).
      { destruct (fmax max zero) as [? | [] | | [] ? ?]; try discriminate;
          reflexivity. }
      rewrite Es.
      change (div (S754_infinity false) (S754_finite false mk ek))
        with (S754_infinity false).
      change (neqb (S754_infinity false) zero) with true. cbv iota.
      change (div (S754_infinity true) (S754_infinity false)) with S754_nan.
      rewrite sub_nan_r, clamp_zp_nan. reflexivity.
Qed.

Lemma range2scalezp_zp_range (qbits : Z) (min max : float) (s : float) (zp : Z) :
  qbits = 2 \/ qbits = 4 ->
  range2scalezp qbits min max = Some (s, zp) -> 0 <= zp <= BitsTraits.kMax qbits.
Proof.
  intros Hq H.
  destruct (is_nan min) eqn:E1;
    [rewrite range2scalezp_bad_range in H by auto; discriminate |].
  destruct (is_nan max) eqn:E2;
    [rewrite range2scalezp_bad_range in H by auto; discriminate |].
  destruct (range2scalezp_defined qbits min max Hq E1 E2) as (s' & zp' & Hd & Hr).
  - intros ->. rewrite range2scalezp_bad_range in H by auto. discriminate.
  - congruence.
Qed.

(** X8: [range2scalezp] reaches an undefined cast exactly when [min] or
    [max] is a NaN or [min] is minus infinity: the zero point is then a NaN
    that both clamping tests let through. Plus infinity is accepted. *)
Theorem range2scalezp_undefined_iff (qbits : Z) (min max : float) :
  qbits = 2 \/ qbits = 4 ->
  range2scalezp qbits min max = None
  <-> is_nan min = true \/ is_nan max = true \/ min = S754_infinity true.
Proof.
  intros Hq. split.
  - intros HN.
    destruct (is_nan min) eqn:E1; [left; reflexivity |].
    destruct (is_nan max) eqn:E2; [right; left; reflexivity |].
    right. right.
    destruct min as [s | [] | | s m e]; try reflexivity; exfalso;
      match goal with
      | H : range2scalezp _ ?a _ = None |- _ =>
          destruct (range2scalezp_defined qbits a max Hq E1 E2 ltac:(discriminate))
            as (sc & zp & Hd & _); congruence
      end.
  - apply range2scalezp_bad_range. exact Hq.
Qed.

Lemma range2scalezp_undefined_iff_witness :
  range2scalezp 4 (S754_infinity true) one = None.
Proof.
  apply (proj2 (range2scalezp_undefined_iff 4 (S754_infinity true) one
                  ltac:(right; reflexivity))).
  right. right. reflexivity.
Defined.

(** X9: a range that does not reach below zero has the zero point 0: the
    scale is [max / kMax] for the rectified [max]. *)
Theorem range2scalezp_nonneg_range (qbits : Z) (min max : float) :
  qbits = 2 \/ qbits = 4 ->
  is_nan min = false -> is_nan max = false -> ltb min zero = false ->
  range2scalezp qbits min max
  = Some (div (sub (fmax max zero) (fmin min zero)) (of_Z (BitsTraits.kMax qbits)), 0)
  /\ is_zero (fmin min zero) = true.
Proof.
  intros Hq Hmin Hmax Hlt.
  assert (Hz : is_zero (fmin min zero) = true).
  { unfold fmin. destruct (ltb zero min) eqn:E; [reflexivity |].
    destruct min as [? | [] | | [] ? ?]; try discriminate; reflexivity. }
  split; [| exact Hz].
  rewrite range2scalezp_clamp. cbv zeta.
  pose proof (fmax_zero_nonneg max Hmax) as Hmax'.
  set (scale := div (sub (fmax max zero) (fmin min zero))
                    (of_Z (BitsTraits.kMax qbits))).
  assert (Hscale : is_nonneg scale = true).
  { subst scale. destruct (of_Z_kMax_pos qbits Hq) as (mk & ek & ->).
    apply div_nonneg_pos, sub_nonneg_nonpos; [exact Hmax' |].
    destruct (fmin min zero); try discriminate; reflexivity. }
  assert (Hzp : clamp_zp (BitsTraits.kMax qbits)
                  (if neqb scale zero then sub zero (div (fmin min zero) scale)
                   else fmin min zero) = Some 0).
  { destruct (fmin min zero) as [sm | | |]; try discriminate.
    destruct scale as [ss | [] | | [] ms es]; try discriminate;
      destruct sm; destruct Hq as [-> | ->]; reflexivity. }
  rewrite Hzp. reflexivity.
Qed.

Lemma range2scalezp_nonneg_range_witness :
  range2scalezp 4 one (of_Z 4)
  = Some (div (sub (fmax (of_Z 4) zero) (fmin one zero)) (of_Z (BitsTraits.kMax 4)), 0).
Proof.
  apply (range2scalezp_nonneg_range 4 one (of_Z 4)); try reflexivity.
  right. reflexivity.
Defined.

(** ** Where the asymmetric packer is undefined *)

Lemma Q4Asym_scale_zp_range2scalezp (min max : float) :
  Q4Asym.scale_zp min max = range2scalezp 4 min max.
Proof. reflexivity. Qed.

(** The minimum of the asymmetric scan is minus infinity exactly when the
    block holds a minus infinity. *)
Lemma asym_scan_neg_inf (vs : list float) : forall st,
  is_nan (fst st) = false ->
  fst (fold_left asym_step vs st) = S754_infinity true
  <-> fst st = S754_infinity true \/ S754_infinity true ∈ vs.
Proof.
  induction vs as [| v vs IH]; intros st Hst.
  - cbn [fold_left]. split; [intros H; left; exact H |].
    intros [H | H]; [exact H | inversion H].
  - cbn [fold_left].
    assert (Hst' : is_nan (fst (asym_step st v)) = false).
    { unfold asym_step. cbn [fst].
      destruct (ltb v (fst st)) eqn:E; [| exact Hst].
      eapply ltb_nan_l. exact E. }
    rewrite (IH _ Hst'). unfold asym_step. cbn [fst].
    split.
    + intros [H | H]; [| right; right; exact H].
      destruct (ltb v (fst st)); [right; rewrite H; left | left; exact H].
    + intros [H | H].
      * left. rewrite H.
        destruct (ltb v (S754_infinity true)) eqn:E; [| reflexivity].
        destruct v as [? | [] | | [] ? ?]; discriminate.
      * apply elem_of_cons in H as [<- | H]; [| right; exact H].
        left. destruct (fst st) as [? | [] | | [] ? ?]; try discriminate;
          reflexivity.
Qed.

(** X10: the asymmetric Q4 packer reaches an undefined cast on a block
    exactly when the block holds a minus infinity; NaN and plus infinity
    are accepted. *)
Theorem Q4Asym_pack_block_undefined_iff (src : mem float) (ldb klen : Z)
    (b0 : blob) :
  0 <= klen ->
  Q4Asym.pack_block src ldb klen b0 = None
  <-> exists l, 0 <= l < klen /\ src (ldb * l) = S754_infinity true.
Proof.
  intros Hk.
  destruct (Q4Asym_scan_spec src ldb klen) as (H1 & H2 & _).
  assert (Hinf : fst (Q4Asym.scan src ldb klen) = S754_infinity true
                 <-> exists l, 0 <= l < klen /\ src (ldb * l) = S754_infinity true).
  { rewrite Q4Asym_scan_values, asym_scan_neg_inf by reflexivity.
    rewrite elem_of_block_values. split.
    - intros [H | (l & Hl & E)]; [discriminate | eauto].
    - intros (l & Hl & E). right. eauto. }
  rewrite <- Hinf.
  pose proof (range2scalezp_undefined_iff 4 (fst (Q4Asym.scan src ldb klen))
                (snd (Q4Asym.scan src ldb klen)) ltac:(right; reflexivity)) as Hz.
  rewrite H1, H2 in Hz. split.
  - intros HN.
    destruct (Q4Asym.scale_zp (fst (Q4Asym.scan src ldb klen))
                (snd (Q4Asym.scan src ldb klen))) as [[scale zp] |] eqn:E.
    + destruct (Q4Asym_pack_block_spec src ldb klen b0 scale zp Hk E)
        as (b & Hb & _). congruence.
    + rewrite Q4Asym_scale_zp_range2scalezp in E. apply Hz in E.
      destruct E as [E | [E | E]]; [discriminate | discriminate | exact E].
  - intros E.
    assert (HN : Q4Asym.scale_zp (fst (Q4Asym.scan src ldb klen))
                   (snd (Q4Asym.scan src ldb klen)) = None).
    { rewrite Q4Asym_scale_zp_range2scalezp. apply Hz. right. right. exact E. }
    unfold Q4Asym.pack_block.
    destruct (Q4Asym.scan src ldb klen) as [min max]. cbn [fst snd] in HN.
    rewrite HN. reflexivity.
Qed.

Lemma Q4Asym_pack_block_undefined_iff_witness :
  Q4Asym.pack_block (two_values one (S754_infinity true)) 1 2 blob_init = None.
Proof.
  apply (proj2 (Q4Asym_pack_block_undefined_iff
                  (two_values one (S754_infinity true)) 1 2 blob_init
                  ltac:(lia))).
  exists 1. split; [lia | reflexivity].
Defined.

(** ** Block sizes the dispatch layer does not know *)

(** X11: for a block size other than 16, 32, 64, 128 and 256 the entry
    points of the blockwise quantizer do nothing: the shapes and the sizes
    are 0 and the buffers come back as they were, without a report. The
    sizes are 0 as well for [qbits] other than 4. *)
Theorem unsupported_block_size_is_silent (qbits block_size : Z)
    (columnwise : bool) (rows columns leading_dimension : Z) :
  supported_block_size block_size = false \/ qbits <> 4 ->
  (forall zp, MlasBlockwiseQuantizedBufferSizes qbits block_size columnwise rows
                columns zp
              = (0, 0, if zp then Some 0 else None))
  /\ (supported_block_size block_size = false ->
      MlasBlockwiseQuantMetaShape block_size columnwise rows columns = (0, 0)
      /\ MlasBlockwiseQuantizedShape block_size columnwise rows columns = (0, 0)
      /\ (forall dst scales zero_points src,
            MlasQuantizeBlockwise dst scales zero_points src block_size
              columnwise rows columns leading_dimension
            = Some {| BlockwiseQuantizer.q_dst := dst;
                      BlockwiseQuantizer.q_scales := scales;
                      BlockwiseQuantizer.q_zero_points := zero_points |})
      /\ (forall dst src scales zero_points,
            MlasDequantizeBlockwise dst src scales zero_points block_size
              columnwise rows columns = dst)).
Proof.
  intros H. split.
  - intros zp. unfold MlasBlockwiseQuantizedBufferSizes.
    destruct H as [-> | H]; [rewrite andb_false_r; reflexivity |].
    destruct (Z.eqb_spec qbits 4); [contradiction | reflexivity].
  - intros Hb.
    unfold MlasBlockwiseQuantMetaShape, MlasBlockwiseQuantizedShape,
      MlasQuantizeBlockwise, MlasDequantizeBlockwise.
    rewrite Hb. repeat split.
Qed.

Lemma unsupported_block_size_is_silent_witness :
  MlasBlockwiseQuantizedBufferSizes 4 48 true 100 7 true = (0, 0, Some 0)
  /\ MlasBlockwiseQuantizedBufferSizes 8 32 true 100 7 false = (0, 0, None).
Proof.
  split.
  - apply (proj1 (unsupported_block_size_is_silent 4 48 true 100 7 7
                    ltac:(left; reflexivity)) true).
  - apply (proj1 (unsupported_block_size_is_silent 8 32 true 100 7 7
                    ltac:(right; discriminate)) false).
Defined.

(** ** Loops that write a matrix *)

Lemma writes_to_nothing {A : Type} (v : Z -> A) (F : mem A) :
  writes_to (fun _ => False) v F F.
Proof. intros x. right. split; [tauto | reflexivity]. Qed.

Lemma writes_to_trans {A : Type} (c1 c2 : Z -> Prop) (v : Z -> A)
    (F0 F1 F2 : mem A) :
  writes_to c1 v F0 F1 -> writes_to c2 v F1 F2 ->
  writes_to (fun x => c1 x \/ c2 x) v F0 F2.
Proof.
  intros H1 H2 x.
  destruct (H2 x) as [[Hc E] | [Hc E]]; [left; split; [right; exact Hc | exact E] |].
  destruct (H1 x) as [[Hc1 E1] | [Hc1 E1]].
  - left. split; [left; exact Hc1 | congruence].
  - right. split; [tauto | congruence].
Qed.

Lemma writes_to_cover {A : Type} (c c' : Z -> Prop) (v : Z -> A) (F F' : mem A) :
  (forall x, c x <-> c' x) -> writes_to c v F F' -> writes_to c' v F F'.
Proof.
  intros Hc H x. destruct (H x) as [[Hx E] | [Hx E]].
  - left. split; [apply Hc; exact Hx | exact E].
  - right. split; [rewrite <- Hc; exact Hx | exact E].
Qed.

(** ** The unpacked matrix *)

Lemma KBlocks_rows (T : Q4Type) (K kb : Z) :
  0 < BlkLen T -> 0 <= kb < KBlocks T K -> BlkLen T * kb < K.
Proof.
  unfold KBlocks, MlasDivRoundup. intros HL Hkb.
  pose proof (Z.div_mod (K + BlkLen T - 1) (BlkLen T) ltac:(lia)) as H1.
  pose proof (Z.mod_pos_bound (K + BlkLen T - 1) (BlkLen T) ltac:(lia)) as H2.
  nia.
Qed.

Lemma KBlocks_cover (T : Q4Type) (K k : Z) :
  0 < BlkLen T -> 0 <= k < K -> k < BlkLen T * KBlocks T K.
Proof.
  unfold KBlocks, MlasDivRoundup. intros HL Hk.
  pose proof (Z.div_mod (K + BlkLen T - 1) (BlkLen T) ltac:(lia)) as H1.
  pose proof (Z.mod_pos_bound (K + BlkLen T - 1) (BlkLen T) ltac:(lia)) as H2.
  nia.
Qed.

Section UnpackLoops.

Variable T : Q4Type.
Variables d0 d1 : blob -> Z -> float.
Variable PackedBuf : mem blob.
Variables K ldb N : Z.
Hypothesis BlkLen_pos : 0 < BlkLen T.
Hypothesis K_nonneg : 0 <= K.
Hypothesis ldb_pos : 0 < ldb.
Hypothesis N_le_ldb : N <= ldb.

Let block (b : blob) := Q4Unpack.unpack_block (d0 b) (d1 b) b.
Let v := unpacked_at T d0 d1 PackedBuf K ldb.

(** One block: the rows [BlkLen * kb .. BlkLen * kb + CountK - 1] of the
    column [n]. *)
Lemma unpack_block_writes (n kb : Z) (F : mem float) :
  0 <= n < N -> 0 <= kb -> BlkLen T * kb < K ->
  writes_to
    (fun x => exists k, BlkLen T * kb <= k < BlkLen T * (kb + 1) /\ k < K
                        /\ x = ldb * k + n)
    v F
    (block (PackedBuf (blob_offset T K n kb)) ldb (ldb * (BlkLen T * kb) + n)
       (Z.min (K - BlkLen T * kb) (BlkLen T)) F).
Proof.
  intros Hn Hkb Hlt.
  set (b := PackedBuf (blob_offset T K n kb)).
  set (dest := ldb * (BlkLen T * kb) + n).
  set (CountK := Z.min (K - BlkLen T * kb) (BlkLen T)).
  assert (HC : 0 < CountK <= BlkLen T /\ CountK <= K - BlkLen T * kb)
    by (subst CountK; lia).
  assert (Hc : 0 <= (CountK - 0 + 32 - 1) / 32) by (apply Z.div_pos; lia).
  pose proof (unpack_strides_effect (d0 b) (d1 b) (blk_data b) ldb dest CountK
                ltac:(lia) (Z.to_nat ((CountK - 0 + 32 - 1) / 32)) 0 F
                ltac:(lia)) as H.
  cbv zeta in H. destruct H as [H _].
  assert (H' : unpack_effect (d0 b) (d1 b) (blk_data b) ldb dest
                 (fun p => 32 * 0 <= p
                           < 32 * (0 + Z.of_nat (Z.to_nat ((CountK - 0 + 32 - 1) / 32)))
                           /\ p < CountK)
                 F (block b ldb dest CountK F)) by exact H.
  clear H. rewrite Z2Nat.id in H' by lia.
  pose proof (Z.div_mod (CountK - 0 + 32 - 1) 32 ltac:(lia)) as Hd.
  pose proof (Z.mod_pos_bound (CountK - 0 + 32 - 1) 32 ltac:(lia)) as Hm.
  intros x. destruct (H' x) as [[Hno E] | (p & [Hp Hp'] & Ex & Hv)].
  - right. split; [| exact E].
    intros (k & Hk1 & Hk2 & Ek). apply (Hno (k - BlkLen T * kb)).
    + split; lia.
    + subst dest. lia.
  - left. split.
    + exists (BlkLen T * kb + p). subst dest. split; [lia |]. split; lia.
    + rewrite Hv. subst v. unfold unpacked_at. cbv zeta.
      assert (Ex' : x = n + (BlkLen T * kb + p) * ldb) by (subst dest; lia).
      assert (Ek : x / ldb = BlkLen T * kb + p).
      { symmetry. apply Z.div_unique with (r := n); lia. }
      assert (En : x mod ldb = n).
      { symmetry. apply Z.mod_unique with (q := BlkLen T * kb + p); lia. }
      rewrite Ek, En.
      assert (Hp2 : 0 <= p < BlkLen T) by lia.
      replace ((BlkLen T * kb + p) / BlkLen T) with kb
        by (apply Z.div_unique with (r := p); lia).
      replace ((BlkLen T * kb + p) mod BlkLen T) with p
        by (apply Z.mod_unique with (q := kb); lia).
      reflexivity.
Qed.

Lemma unpack_k_step_eq (n off k : Z) (F : mem float) :
  unpack_k_step T block PackedBuf K ldb n (off, F) k
  = (off + BlobSize T,
     block (PackedBuf off) ldb (ldb * k + n) (Z.min (K - k) (BlkLen T)) F).
Proof. reflexivity. Qed.

(** The blocks [a .. a + cnt - 1] of the column [n]. *)
Lemma unpack_k_loop (n : Z) (cnt : nat) : forall (a : Z) (F : mem float),
  0 <= n < N -> 0 <= a -> a + Z.of_nat cnt <= KBlocks T K ->
  let st := fold_left (unpack_k_step T block PackedBuf K ldb n)
              (map (fun k : nat => 0 + Z.of_nat k * BlkLen T)
                   (seq (Z.to_nat a) cnt))
              (blob_offset T K n a, F) in
  fst st = blob_offset T K n (a + Z.of_nat cnt)
  /\ writes_to
       (fun x => exists k, BlkLen T * a <= k < BlkLen T * (a + Z.of_nat cnt)
                           /\ k < K /\ x = ldb * k + n)
       v F (snd st).
Proof.
  induction cnt as [| cnt IH]; intros a F Hn Ha Hcnt.
  - cbn [seq map fold_left fst snd]. split; [f_equal; lia |].
    eapply writes_to_cover; [| apply writes_to_nothing].
    intros x. split; [tauto |]. intros (k & Hk & _). lia.
  - cbn [seq map fold_left].
    replace (0 + Z.of_nat (Z.to_nat a) * BlkLen T) with (BlkLen T * a) by lia.
    rewrite unpack_k_step_eq.
    replace (blob_offset T K n a + BlobSize T) with (blob_offset T K n (a + 1))
      by (unfold blob_offset; lia).
    replace (S (Z.to_nat a)) with (Z.to_nat (a + 1)) by lia.
    pose proof (unpack_block_writes n a F Hn Ha (KBlocks_rows T K a BlkLen_pos ltac:(lia))) as H1.
    set (F1 := block (PackedBuf (blob_offset T K n a)) ldb (ldb * (BlkLen T * a) + n)
                 (Z.min (K - BlkLen T * a) (BlkLen T)) F) in *.
    destruct (IH (a + 1) F1 Hn ltac:(lia) ltac:(lia)) as [E H2].
    cbv zeta. split; [rewrite E; f_equal; lia |].
    eapply writes_to_cover; [| exact (writes_to_trans _ _ _ _ _ _ H1 H2)].
    intros x. split.
    + intros [(k & Hk) | (k & Hk)]; exists k; lia.
    + intros (k & Hk).
      destruct (Z.lt_ge_cases k (BlkLen T * (a + 1))); [left | right];
        exists k; lia.
Qed.

(** The columns [a .. a + cnt - 1]. *)
Lemma unpack_n_loop (cnt : nat) : forall (a : Z) (F : mem float),
  0 <= a -> a + Z.of_nat cnt <= N ->
  let st := fold_left
              (fun st n =>
                 fold_left (unpack_k_step T block PackedBuf K ldb n)
                           (zrange 0 K (BlkLen T)) st)
              (map (fun k : nat => 0 + Z.of_nat k * 1) (seq (Z.to_nat a) cnt))
              (blob_offset T K a 0, F) in
  fst st = blob_offset T K (a + Z.of_nat cnt) 0
  /\ writes_to
       (fun x => exists n k, a <= n < a + Z.of_nat cnt /\ 0 <= k < K
                             /\ x = ldb * k + n)
       v F (snd st).
Proof.
  assert (HKB : 0 <= KBlocks T K)
    by (unfold KBlocks, MlasDivRoundup; apply Z.div_pos; lia).
  assert (Ez : zrange 0 K (BlkLen T)
               = map (fun k : nat => 0 + Z.of_nat k * BlkLen T)
                     (seq 0 (Z.to_nat (KBlocks T K)))).
  { unfold zrange, KBlocks, MlasDivRoundup.
    replace (K - 0 + BlkLen T - 1) with (K + BlkLen T - 1) by lia.
    reflexivity. }
  rewrite Ez.
  induction cnt as [| cnt IH]; intros a F Ha Hcnt.
  - cbn [seq map fold_left fst snd]. split; [f_equal; lia |].
    eapply writes_to_cover; [| apply writes_to_nothing].
    intros x. split; [tauto |]. intros (n & k & Hn & _). lia.
  - cbn [seq map fold_left].
    replace (0 + Z.of_nat (Z.to_nat a) * 1) with a by lia.
    pose proof (unpack_k_loop a (Z.to_nat (KBlocks T K)) 0 F ltac:(lia)
                  ltac:(lia) ltac:(lia)) as H1.
    cbv zeta in H1. rewrite Z2Nat.id in H1 by lia.
    change (Z.to_nat 0) with 0%nat in H1.
    destruct (fold_left (unpack_k_step T block PackedBuf K ldb a) _
                (blob_offset T K a 0, F)) as [off1 F1].
    cbn [fst snd] in H1. destruct H1 as [E1 H1]. subst off1.
    replace (blob_offset T K a (0 + KBlocks T K)) with (blob_offset T K (a + 1) 0)
      by (unfold blob_offset; lia).
    replace (S (Z.to_nat a)) with (Z.to_nat (a + 1)) by lia.
    destruct (IH (a + 1) F1 ltac:(lia) ltac:(lia)) as [E H2].
    cbv zeta. split; [rewrite E; f_equal; lia |].
    eapply writes_to_cover; [| exact (writes_to_trans _ _ _ _ _ _ H1 H2)].
    intros x. split.
    + intros [(k & Hk) | (n & k & Hk)].
      * exists a, k. lia.
      * exists n, k. lia.
    + intros (n & k & Hn & Hk & Ex).
      destruct (Z.eq_dec n a) as [-> | Hne].
      * left. exists k. pose proof (KBlocks_cover T K k BlkLen_pos Hk). lia.
      * right. exists n, k. lia.
Qed.

(** The whole matrix. *)
Lemma unpack_loops_writes (FpData : mem float) :
  0 <= N ->
  writes_to (fun x => exists n k, 0 <= n < N /\ 0 <= k < K /\ x = ldb * k + n)
    v FpData (unpack_loops T block FpData PackedBuf N K ldb).
Proof.
  intros HN.
  pose proof (unpack_n_loop (Z.to_nat N) 0 FpData ltac:(lia) ltac:(lia)) as H.
  cbv zeta in H. destruct H as [_ H].
  rewrite Z2Nat.id in H by lia.
  unfold unpack_loops.
  assert (Ez : zrange 0 N 1
               = map (fun k : nat => 0 + Z.of_nat k * 1) (seq (Z.to_nat 0) (Z.to_nat N))).
  { unfold zrange. do 3 f_equal. rewrite Z.div_1_r. lia. }
  rewrite Ez.
  replace (blob_offset T K 0 0) with 0 in H by (unfold blob_offset; lia).
  eapply writes_to_cover; [| exact H].
  intros x. split; intros (n & k & Hk); exists n, k; lia.
Qed.

End UnpackLoops.

Lemma unpacked_value_sym (scale : float) (data : mem Z) (p : Z) :
  unpacked_value (Q4Unpack.sym_lo scale) (Q4Unpack.sym_hi scale) data p
  = mul (of_Z (nibble_at data p - 8)) scale.
Proof.
  unfold unpacked_value, nibble_at, Q4Unpack.sym_lo, Q4Unpack.sym_hi.
  cbv zeta. destruct (p mod 32 <? 16); reflexivity.
Qed.

Lemma unpacked_value_asym (s : float) (z : Z) (data : mem Z) (p : Z) :
  unpacked_value (Q4Unpack.asym_lo s z) (Q4Unpack.asym_hi s z) data p
  = mul (of_Z (nibble_at data p - z)) s.
Proof.
  unfold unpacked_value, nibble_at, Q4Unpack.asym_lo, Q4Unpack.asym_hi.
  cbv zeta. destruct (p mod 32 <? 16); reflexivity.
Qed.

Lemma q4_type_BlkLen_pos (c : q4_case) : 0 < BlkLen (q4_type c).
Proof. destruct c; reflexivity. Qed.

Lemma q4_type_BlobSize_pos (c : q4_case) : 0 < BlobSize (q4_type c).
Proof. destruct c; reflexivity. Qed.

(** The unpacker of each case of the switch, as a loop of [unpack_loops]. *)
Lemma MlasQ4GemmUnPackB_loops (E : QuantTypeEnum) (QType : Z)
    (FpData : mem float) (PackedBuf : mem blob) (N K ldb : Z) :
  MlasQ4GemmUnPackB E QType FpData PackedBuf N K ldb
  = unpack_loops (q4_type (q4_switch E QType))
      (fun b => Q4Unpack.unpack_block
                  (fun vi => mul (of_Z (Z.land vi 15 - q4_zero (q4_switch E QType) b))
                                 (blk_scale b))
                  (fun vi => mul (of_Z (Z.shiftr vi 4 - q4_zero (q4_switch E QType) b))
                                 (blk_scale b))
                  b)
      FpData PackedBuf N K ldb.
Proof.
  unfold MlasQ4GemmUnPackB. destruct (q4_switch E QType); reflexivity.
Qed.

(** X12: [MlasQ4GemmUnPackB] writes the [N * K] elements [FpData[ldb * k + n]]
    of the matrix and nothing else. The row [k] of the column [n] is the
    element [k mod BlkLen] of the blob [n * KBlocks + k / BlkLen]: it
    receives [(nibble - z) * scale], where [z] is 8 for the symmetric block
    types and the zero point of the blob for the asymmetric one. *)
Theorem MlasQ4GemmUnPackB_spec (E : QuantTypeEnum) (QType : Z)
    (FpData : mem float) (PackedBuf : mem blob) (N K ldb : Z) :
  0 <= K -> 0 < ldb -> 0 <= N <= ldb ->
  let c := q4_switch E QType in
  let T := q4_type c in
  let F' := MlasQ4GemmUnPackB E QType FpData PackedBuf N K ldb in
  (forall n k, 0 <= n < N -> 0 <= k < K ->
     let b := PackedBuf (blob_offset T K n (k / BlkLen T)) in
     F' (ldb * k + n)
     = mul (of_Z (nibble_at (blk_data b) (k mod BlkLen T) - q4_zero c b))
           (blk_scale b))
  /\ (forall x, (forall n k, 0 <= n < N -> 0 <= k < K -> x <> ldb * k + n) ->
        F' x = FpData x).
Proof.
  intros HK Hldb HN c T F'.
  pose proof (unpack_loops_writes T
                (fun b vi => mul (of_Z (Z.land vi 15 - q4_zero c b)) (blk_scale b))
                (fun b vi => mul (of_Z (Z.shiftr vi 4 - q4_zero c b)) (blk_scale b))
                PackedBuf K ldb N (q4_type_BlkLen_pos c) HK Hldb (proj2 HN)
                FpData (proj1 HN)) as H.
  assert (H' : writes_to
                 (fun x => exists n k, 0 <= n < N /\ 0 <= k < K /\ x = ldb * k + n)
                 (unpacked_at T
                    (fun b vi => mul (of_Z (Z.land vi 15 - q4_zero c b)) (blk_scale b))
                    (fun b vi => mul (of_Z (Z.shiftr vi 4 - q4_zero c b)) (blk_scale b))
                    PackedBuf K ldb)
                 FpData F')
    by (unfold F'; rewrite MlasQ4GemmUnPackB_loops; exact H).
  clear H. rename H' into H. split.
  - intros n k Hn Hk b.
    destruct (H (ldb * k + n)) as [[_ Ev] | [Hno _]].
    + rewrite Ev. unfold unpacked_at. cbv zeta.
      replace ((ldb * k + n) / ldb) with k
        by (apply Z.div_unique with (r := n); lia).
      replace ((ldb * k + n) mod ldb) with n
        by (apply Z.mod_unique with (q := k); lia).
      fold b. unfold unpacked_value, nibble_at. cbv zeta.
      destruct (k mod BlkLen T mod 32 <? 16); reflexivity.
    + exfalso. apply Hno. exists n, k. lia.
  - intros x Hx. destruct (H x) as [[(n & k & Hn & Hk & Ex) _] | [_ Ev]].
    + exfalso. apply (Hx n k Hn Hk Ex).
    + exact Ev.
Qed.

Lemma MlasQ4GemmUnPackB_spec_witness :
  MlasQ4GemmUnPackB example_enum 0 (fun _ => zero)
    (fun _ => {| blk_scale := one; blk_zp := 0; blk_data := fun _ => 165 |})
    2 40 2 (2 * 17 + 1)
  = mul (of_Z (10 - 8)) one.
Proof.
  apply (proj1 (MlasQ4GemmUnPackB_spec example_enum 0 (fun _ => zero)
                  (fun _ => {| blk_scale := one; blk_zp := 0;
                               blk_data := fun _ => 165 |})
                  2 40 2 ltac:(lia) ltac:(lia) ltac:(lia)) 1 17);
    lia.
Defined.

(** ** The packed buffer and its size *)

Lemma blob_offset_within (T : Q4Type) (N K n kb : Z) :
  0 < BlobSize T -> 0 <= n < N -> 0 <= kb < KBlocks T K ->
  0 <= blob_offset T K n kb
  /\ blob_offset T K n kb + BlobSize T <= N * KBlocks T K * BlobSize T.
Proof.
  intros HS Hn Hkb. unfold blob_offset.
  assert (0 <= n * KBlocks T K + kb) by nia.
  assert (n * KBlocks T K + kb + 1 <= N * KBlocks T K) by nia.
  nia.
Qed.

Lemma BlkQ4BufSize_exact (T : Q4Type) (N K : Z) :
  0 < BlkLen T -> 0 < BlobSize T -> 0 <= N -> 0 <= K ->
  N * KBlocks T K * BlobSize T < 2 ^ 64 ->
  BlkQ4BufSize T N K = N * KBlocks T K * BlobSize T.
Proof.
  intros HL HS HN HK Hfit. unfold BlkQ4BufSize, size_wrap. cbv zeta.
  fold (KBlocks T K).
  assert (HKB : 0 <= KBlocks T K)
    by (unfold KBlocks, MlasDivRoundup; apply Z.div_pos; lia).
  assert (0 <= N * KBlocks T K) by nia.
  assert (N * KBlocks T K <= N * KBlocks T K * BlobSize T) by nia.
  rewrite (Z.mod_small (N * KBlocks T K)) by lia.
  apply Z.mod_small. nia.
Qed.

(** X13: [MlasQ4GemmPackB] stays inside the buffer [MlasQ4GemmPackBSize]
    sizes: when the size fits [size_t], the packer returns and every blob it
    writes lies at an offset [x] with [0 <= x] and
    [x + BlobSize <= MlasQ4GemmPackBSize]; the rest of the buffer is
    untouched. The symmetric block types accept every matrix; the
    asymmetric one a matrix without minus infinity. *)
Theorem MlasQ4GemmPackB_within_size (E : QuantTypeEnum) (QType : Z)
    (PackedBuf : mem blob) (FpData : mem float) (N K ldb : Z) :
  let c := q4_switch E QType in
  let T := q4_type c in
  0 <= N -> 0 <= K -> N * KBlocks T K * BlobSize T < 2 ^ 64 ->
  (c = CaseDefault -> forall i, FpData i <> S754_infinity true) ->
  exists buf',
    MlasQ4GemmPackB E QType PackedBuf FpData N K ldb = Some buf'
    /\ forall x,
         ~ (0 <= x /\ x + BlobSize T <= MlasQ4GemmPackBSize E true QType N K) ->
         buf' x = PackedBuf x.
Proof.
  intros c T HN HK Hfit Hinf.
  assert (Hsize : MlasQ4GemmPackBSize E true QType N K = N * KBlocks T K * BlobSize T).
  { unfold MlasQ4GemmPackBSize. cbn [negb]. fold c.
    rewrite <- (BlkQ4BufSize_exact T N K (q4_type_BlkLen_pos c)
                  (q4_type_BlobSize_pos c) HN HK Hfit).
    subst T. destruct c; reflexivity. }
  rewrite Hsize.
  assert (Hblocks : exists buf',
            MlasQ4GemmPackB E QType PackedBuf FpData N K ldb = Some buf'
            /\ forall x, (forall n kb, 0 <= n < N -> 0 <= kb < KBlocks T K ->
                            x <> blob_offset T K n kb) ->
                 buf' x = PackedBuf x).
  { unfold MlasQ4GemmPackB. fold c. subst T. destruct c eqn:Ec; cbn [q4_type].
    - destruct (MlasQ4GemmPackBImpl_blocks MLAS_Q4TYPE_BLK0 PackedBuf FpData N K ldb
                  ltac:(reflexivity) ltac:(reflexivity) HN HK)
        as (buf' & Hb & _ & Hout). eauto.
    - destruct (MlasQ4GemmPackBImpl_blocks MLAS_Q4TYPE_BLK2 PackedBuf FpData N K ldb
                  ltac:(reflexivity) ltac:(reflexivity) HN HK)
        as (buf' & Hb & _ & Hout). eauto.
    - destruct (MlasQ4GemmPackBImpl_blocks MLAS_Q4TYPE_BLK4 PackedBuf FpData N K ldb
                  ltac:(reflexivity) ltac:(reflexivity) HN HK)
        as (buf' & Hb & _ & Hout). eauto.
    - destruct (MlasQ4GemmPackBImpl_BLK1_blocks PackedBuf FpData N K ldb HN HK
                  (Hinf eq_refl))
        as (buf' & Hb & _ & Hout). eauto. }
  destruct Hblocks as (buf' & Hb & Hout).
  exists buf'. split; [exact Hb |].
  intros x Hx. apply Hout. intros n kb Hn Hkb ->. apply Hx.
  apply blob_offset_within; [apply q4_type_BlobSize_pos | assumption ..].
Qed.

Lemma MlasQ4GemmPackB_within_size_witness :
  exists buf',
    MlasQ4GemmPackB example_enum 0 (fun _ => blob_init)
      (two_values (of_Z (-3)) one) 2 40 2 = Some buf'
    /\ buf' 80 = blob_init.
Proof.
  destruct (MlasQ4GemmPackB_within_size example_enum 0 (fun _ => blob_init)
              (two_values (of_Z (-3)) one) 2 40 2 ltac:(lia) ltac:(lia)
              ltac:(reflexivity) ltac:(discriminate)) as (buf' & Hb & Hout).
  exists buf'. split; [exact Hb |].
  apply (Hout 80). vm_compute. intros [_ H]. apply H. reflexivity.
Defined.

(** ** Packing, then unpacking *)

Lemma row_in_block (T : Q4Type) (K k : Z) :
  0 < BlkLen T -> 0 <= k < K ->
  0 <= k / BlkLen T < KBlocks T K
  /\ 0 <= k mod BlkLen T < row_block_len T K k
  /\ k = BlkLen T * (k / BlkLen T) + k mod BlkLen T.
Proof.
  intros HL Hk. unfold row_block_len, block_len.
  pose proof (Z.div_mod k (BlkLen T) ltac:(lia)) as H1.
  pose proof (Z.mod_pos_bound k (BlkLen T) ltac:(lia)) as H2.
  pose proof (KBlocks_cover T K k HL Hk) as H3.
  assert (0 <= k / BlkLen T) by (apply Z.div_pos; lia).
  split; [split; [assumption | nia] |].
  split; [| exact H1]. lia.
Qed.

Lemma within_strides (klen p : Z) : 0 <= p < klen -> 0 <= p < 32 * stride_count klen.
Proof.
  intros H. unfold stride_count.
  pose proof (Z.div_mod (klen + 31) 32 ltac:(lia)).
  pose proof (Z.mod_pos_bound (klen + 31) 32 ltac:(lia)). lia.
Qed.

Lemma Q4Sym_quant_zero (v reciprocal_scale : float) :
  is_zero v = true -> is_finite reciprocal_scale = true ->
  Q4Sym.quant (mul v reciprocal_scale) = Some 8.
Proof.
  intros Hv Hr. destruct v as [[] | | |]; try discriminate;
    destruct reciprocal_scale as [[] | | | [] mr er]; try discriminate;
    reflexivity.
Qed.

Lemma mul_zero_finite (scale : float) :
  is_finite scale = true -> is_zero (mul (of_Z 0) scale) = true.
Proof. destruct scale as [[] | | | [] ms es]; try discriminate; reflexivity. Qed.

(** X14: a matrix packed by the symmetric packer and unpacked again. The
    packer returns on every matrix; the element of the row [k] and the
    column [n] comes back as [(q - 8) * scale], where [scale = m / -8] for
    the value [m] the scan of its block keeps and [q], in [0 .. 15], is the
    quantized [FpData[ldb * k + n] * (1 / scale)]; the unpacker reads each
    blob where the packer put it. An element that is exactly 0 comes back
    as 0 when the scale and its reciprocal are finite. *)
Theorem q4_symmetric_pack_unpack (T : Q4Type) (PackedBuf : mem blob)
    (FpData Out : mem float) (N K ldb : Z) :
  0 < BlkLen T -> 0 < BlobSize T -> 0 <= K -> 0 < ldb -> 0 <= N <= ldb ->
  exists buf',
    MlasQ4GemmPackBImpl T PackedBuf FpData N K ldb = Some buf'
    /\ forall n k, 0 <= n < N -> 0 <= k < K ->
         let m := snd (Q4Sym.scan (row_block T FpData ldb n k) ldb
                         (row_block_len T K k)) in
         let scale := div m lit_m8 in
         let out := MlasQ4GemmUnPackBImpl T Out buf' N K ldb (ldb * k + n) in
         (exists q,
            Q4Sym.quant (mul (FpData (ldb * k + n)) (reciprocal_of scale)) = Some q
            /\ 0 <= q <= 15
            /\ out = mul (of_Z (q - 8)) scale)
         /\ (is_zero (FpData (ldb * k + n)) = true ->
             is_finite scale = true -> is_finite (reciprocal_of scale) = true ->
             is_zero out = true).
Proof.
  intros HL HS HK Hldb HN.
  destruct (MlasQ4GemmPackBImpl_blocks T PackedBuf FpData N K ldb HL HS
              (proj1 HN) HK) as (buf' & Hb & Hval & _).
  exists buf'. split; [exact Hb |].
  intros n k Hn Hk m scale out.
  destruct (row_in_block T K k HL Hk) as (Hkb & Hp & Ek).
  unfold row_block, row_block_len in *.
  set (kb := k / BlkLen T) in *. set (p := k mod BlkLen T) in *.
  pose proof (Hval n kb Hn Hkb) as Hblk.
  destruct (Q4Sym_pack_block_spec (block_src T FpData ldb n kb) ldb
              (block_len T K kb) (PackedBuf (blob_offset T K n kb))
              ltac:(lia))
    as (b & Hb' & Hs & _ & Hnib & _).
  rewrite Hb' in Hblk. injection Hblk as Hblk.
  pose proof (Hnib p (within_strides _ p Hp)) as Hq.
  destruct (Z.ltb_spec p (block_len T K kb)); [| lia].
  assert (Esrc : block_src T FpData ldb n kb (ldb * p) = FpData (ldb * k + n)).
  { unfold block_src. f_equal. lia. }
  rewrite Esrc in Hq.
  assert (Eout : out = mul (of_Z (nibble_at (blk_data b) p - 8)) (blk_scale b)).
  { subst out. unfold MlasQ4GemmUnPackBImpl.
    destruct (unpack_loops_writes T
                (fun b => Q4Unpack.sym_lo (blk_scale b))
                (fun b => Q4Unpack.sym_hi (blk_scale b))
                buf' K ldb N HL HK Hldb (proj2 HN) Out (proj1 HN) (ldb * k + n))
      as [[_ Ev] | [Hno _]].
    - change (unpack_loops T Q4Unpack.sym_block Out buf' N K ldb (ldb * k + n)
              = mul (of_Z (nibble_at (blk_data b) p - 8)) (blk_scale b)).
      etransitivity; [exact Ev |].
      unfold unpacked_at. cbv zeta.
      replace ((ldb * k + n) / ldb) with k
        by (apply Z.div_unique with (r := n); lia).
      replace ((ldb * k + n) mod ldb) with n
        by (apply Z.mod_unique with (q := k); lia).
      fold kb. fold p. rewrite <- Hblk. apply unpacked_value_sym.
    - exfalso. apply Hno. exists n, k. lia. }
  assert (Escale : blk_scale b = scale) by exact Hs.
  rewrite Escale in Eout.
  destruct (Q4Sym_quant_total (mul (FpData (ldb * k + n)) (reciprocal_of scale)))
    as (q & Hq' & Hrange).
  assert (Eq : nibble_at (blk_data b) p = q).
  { change (Q4Sym.quant (mul (FpData (ldb * k + n)) (reciprocal_of scale))
            = Some (nibble_at (blk_data b) p)) in Hq.
    congruence. }
  split.
  - exists q. split; [exact Hq' |]. split; [exact Hrange |].
    rewrite Eout, Eq. reflexivity.
  - intros Hz Hfs Hfr.
    rewrite (Q4Sym_quant_zero _ _ Hz Hfr) in Hq'. injection Hq' as <-.
    rewrite Eout, Eq. apply mul_zero_finite. exact Hfs.
Qed.

Lemma q4_symmetric_pack_unpack_witness :
  exists buf',
    MlasQ4GemmPackBImpl MLAS_Q4TYPE_BLK0 (fun _ => blob_init) ramp 2 40 2
    = Some buf'
    /\ exists q,
         Q4Sym.quant
           (mul (ramp (2 * 17 + 1))
              (reciprocal_of
                 (div (snd (Q4Sym.scan (row_block MLAS_Q4TYPE_BLK0 ramp 2 1 17) 2
                              (row_block_len MLAS_Q4TYPE_BLK0 40 17)))
                      lit_m8)))
         = Some q
         /\ 0 <= q <= 15.
Proof.
  destruct (q4_symmetric_pack_unpack MLAS_Q4TYPE_BLK0 (fun _ => blob_init) ramp
              (fun _ => zero) 2 40 2 ltac:(reflexivity) ltac:(reflexivity)
              ltac:(lia) ltac:(lia) ltac:(lia)) as (buf' & Hb & H).
  exists buf'. split; [exact Hb |].
  destruct (H 1 17 ltac:(lia) ltac:(lia)) as [(q & Hq & Hr & _) _].
  exists q. split; [exact Hq | exact Hr].
Defined.

(** X15: a matrix without minus infinity packed by the asymmetric packer and
    unpacked again. The blob of a block holds the scale and the zero point
    of the range of the block; the element of the row [k] and the column
    [n] comes back as [(q - zp) * scale], where [q], in [0 .. 15], is the
    quantized element. An element that is exactly 0 comes back as 0 when the
    scale and its reciprocal are finite. *)
Theorem q4_asymmetric_pack_unpack (PackedBuf : mem blob)
    (FpData Out : mem float) (N K ldb : Z) :
  0 <= K -> 0 < ldb -> 0 <= N <= ldb ->
  (forall i, FpData i <> S754_infinity true) ->
  exists buf',
    MlasQ4GemmPackBImpl_BLK1 PackedBuf FpData N K ldb = Some buf'
    /\ forall n k, 0 <= n < N -> 0 <= k < K ->
         let T := MLAS_Q4TYPE_BLK1 in
         let r := Q4Asym.scan (row_block T FpData ldb n k) ldb (row_block_len T K k) in
         let b := buf' (blob_offset T K n (k / BlkLen T)) in
         let out := MlasQ4GemmUnPackBImpl_BLK1 Out buf' N K ldb (ldb * k + n) in
         Q4Asym.scale_zp (fst r) (snd r) = Some (blk_scale b, blk_zp b)
         /\ 0 <= blk_zp b <= 15
         /\ (exists q,
               Q4Asym.quant (reciprocal_of (blk_scale b)) (blk_zp b)
                 (FpData (ldb * k + n)) = Some q
               /\ 0 <= q <= 15
               /\ out = mul (of_Z (q - blk_zp b)) (blk_scale b))
         /\ (is_zero (FpData (ldb * k + n)) = true ->
             is_finite (blk_scale b) = true ->
             is_finite (reciprocal_of (blk_scale b)) = true ->
             is_zero out = true).
Proof.
  intros HK Hldb HN Hinf.
  destruct (MlasQ4GemmPackBImpl_BLK1_blocks PackedBuf FpData N K ldb
              (proj1 HN) HK Hinf) as (buf' & Hb & Hval & _).
  exists buf'. split; [exact Hb |].
  intros n k Hn Hk T r b out.
  assert (HL : 0 < BlkLen T) by reflexivity.
  destruct (row_in_block T K k HL Hk) as (Hkb & Hp & Ek).
  unfold row_block, row_block_len in *.
  set (kb := k / BlkLen T) in *. set (p := k mod BlkLen T) in *.
  pose proof (Hval n kb Hn Hkb) as Hblk. fold T in Hblk. fold b in Hblk.
  destruct (Q4Asym_pack_block_defined (block_src T FpData ldb n kb) ldb
              (block_len T K kb) (PackedBuf (blob_offset T K n kb))
              ltac:(lia) ltac:(intros l _; apply Hinf))
    as (b' & Hb' & Hzp & Hnib & _).
  assert (b' = b) by congruence. subst b'.
  pose proof (Q4Asym_pack_block_inv _ _ _ _ _ Hb') as Hsz.
  pose proof (Hnib p (within_strides _ p Hp)) as Hq.
  destruct (Z.ltb_spec p (block_len T K kb)); [| lia].
  assert (Esrc : block_src T FpData ldb n kb (ldb * p) = FpData (ldb * k + n)).
  { unfold block_src. f_equal. lia. }
  rewrite Esrc in Hq.
  assert (Eout : out = mul (of_Z (nibble_at (blk_data b) p - blk_zp b)) (blk_scale b)).
  { subst out. unfold MlasQ4GemmUnPackBImpl_BLK1.
    destruct (unpack_loops_writes T
                (fun b => Q4Unpack.asym_lo (blk_scale b) (blk_zp b))
                (fun b => Q4Unpack.asym_hi (blk_scale b) (blk_zp b))
                buf' K ldb N HL HK Hldb (proj2 HN) Out (proj1 HN) (ldb * k + n))
      as [[_ Ev] | [Hno _]].
    - change (unpack_loops T Q4Unpack.asym_block Out buf' N K ldb (ldb * k + n)
              = mul (of_Z (nibble_at (blk_data b) p - blk_zp b)) (blk_scale b)).
      etransitivity; [exact Ev |].
      unfold unpacked_at. cbv zeta.
      replace ((ldb * k + n) / ldb) with k
        by (apply Z.div_unique with (r := n); lia).
      replace ((ldb * k + n) mod ldb) with n
        by (apply Z.mod_unique with (q := k); lia).
      fold kb. fold p. fold b. apply unpacked_value_asym.
    - exfalso. apply Hno. exists n, k. lia. }
  destruct (Q4Asym_quant_total (reciprocal_of (blk_scale b)) (blk_zp b)
              (FpData (ldb * k + n))) as (q & Hq' & Hrange).
  assert (Eq : nibble_at (blk_data b) p = q) by congruence.
  split; [exact Hsz |]. split; [exact Hzp |]. split.
  - exists q. split; [exact Hq' |]. split; [exact Hrange |].
    rewrite Eout, Eq. reflexivity.
  - intros Hz Hfs Hfr.
    rewrite (Q4Asym_quant_zero _ _ _ Hz Hfr Hzp) in Hq'. injection Hq' as <-.
    rewrite Eout, Eq, Z.sub_diag. apply mul_zero_finite. exact Hfs.
Qed.

Lemma q4_asymmetric_pack_unpack_witness :
  exists buf',
    MlasQ4GemmPackBImpl_BLK1 (fun _ => blob_init) (two_values (of_Z (-3)) one)
      2 40 2 = Some buf'
    /\ 0 <= blk_zp (buf' (blob_offset MLAS_Q4TYPE_BLK1 40 1
                            (17 / BlkLen MLAS_Q4TYPE_BLK1))) <= 15.
Proof.
  destruct (q4_asymmetric_pack_unpack (fun _ => blob_init)
              (two_values (of_Z (-3)) one) (fun _ => zero)
              2 40 2 ltac:(lia) ltac:(lia) ltac:(lia)) as (buf' & Hb & H).
  { intros i. unfold two_values. destruct (i =? 0); discriminate. }
  exists buf'. split; [exact Hb |].
  destruct (H 1 17 ltac:(lia) ltac:(lia)) as (_ & Hzp & _).
  exact Hzp.
Defined.

(** ** Loops over lists of writes *)

Lemma fold_left_writes {A B : Type} (step : mem A -> B -> mem A)
    (cov : B -> Z -> Prop) (v : Z -> A) (l : list B) :
  (forall b F, b ∈ l -> writes_to (cov b) v F (step F b)) ->
  forall F, writes_to (fun x => exists b, b ∈ l /\ cov b x) v F (fold_left step l F).
Proof.
  induction l as [| b l IH]; intros Hstep F.
  - cbn [fold_left]. eapply writes_to_cover; [| apply writes_to_nothing].
    intros x. split; [tauto |]. intros (b & Hb & _). inversion Hb.
  - cbn [fold_left].
    eapply writes_to_cover;
      [| exact (writes_to_trans _ _ _ _ _ _ (Hstep b F ltac:(left))
                  (IH (fun b' F' Hb' => Hstep b' F' ltac:(right; exact Hb'))
                      (step F b)))].
    intros x. split.
    + intros [H | (b' & Hb' & H)]; [exists b; split; [left | exact H] |].
      exists b'. split; [right; exact Hb' | exact H].
    + intros (b' & Hb' & H). apply elem_of_cons in Hb' as [-> | Hb'].
      * left. exact H.
      * right. exists b'. split; assumption.
Qed.

Lemma elem_of_zrange (lo hi step x : Z) :
  0 < step ->
  x ∈ zrange lo hi step <-> exists n, 0 <= n /\ x = lo + n * step /\ x < hi.
Proof.
  intros Hs. unfold zrange. rewrite list_elem_of_fmap.
  pose proof (Z.div_mod (hi - lo + step - 1) step ltac:(lia)) as Hd.
  pose proof (Z.mod_pos_bound (hi - lo + step - 1) step ltac:(lia)) as Hm.
  split.
  - intros (n & -> & Hn). apply elem_of_seq in Hn.
    exists (Z.of_nat n). split; [lia |]. split; [reflexivity |].
    assert (Z.of_nat n < (hi - lo + step - 1) / step) by lia. nia.
  - intros (n & Hn & -> & Hlt). exists (Z.to_nat n).
    split; [lia |]. apply elem_of_seq.
    assert (n < (hi - lo + step - 1) / step) by nia. lia.
Qed.

(** ** The dequantized matrix *)

Lemma succ_even_div (i d : Z) :
  0 <= i -> i mod 2 = 0 -> 0 < d -> d mod 2 = 0 -> (i + 1) / d = i / d.
Proof.
  intros Hi Hev Hd Hdev.
  pose proof (Z.div_mod i d ltac:(lia)) as H1.
  pose proof (Z.mod_pos_bound i d ltac:(lia)) as H2.
  pose proof (Z.div_mod i 2 ltac:(lia)) as H3.
  pose proof (Z.div_mod d 2 ltac:(lia)) as H4.
  symmetry. apply Z.div_unique with (r := i mod d + 1); [| lia].
  set (Q := i / d) in *. set (a := i / 2) in *. set (h := d / 2) in *.
  assert (E : i mod d = 2 * (a - h * Q)) by nia.
  lia.
Qed.

Lemma land_1_mod (x : Z) : Z.land x 1 = x mod 2.
Proof. exact (Z.land_ones x 1 ltac:(lia)). Qed.

Lemma byte_high_nibble (x : Z) : 0 <= x < 256 -> Z.land (Z.shiftr x 4) 15 = Z.shiftr x 4.
Proof.
  intros H. rewrite Z.shiftr_div_pow2 by lia.
  change 15 with (Z.ones 4). rewrite Z.land_ones by lia.
  apply Z.mod_small. change (2 ^ 4) with 16.
  pose proof (Z.div_mod x 16 ltac:(lia)).
  pose proof (Z.mod_pos_bound x 16 ltac:(lia)). lia.
Qed.

Lemma QuantBlk_cases (block_size : Z) (Columnwise : bool) :
  (Columnwise = true
   /\ kRow (BlockwiseQuantizer.QuantBlk block_size Columnwise) = block_size
   /\ kColumn (BlockwiseQuantizer.QuantBlk block_size Columnwise) = 1)
  \/ (Columnwise = false
      /\ kRow (BlockwiseQuantizer.QuantBlk block_size Columnwise) = 1
      /\ kColumn (BlockwiseQuantizer.QuantBlk block_size Columnwise) = block_size).
Proof. destruct Columnwise; [left | right]; repeat split. Qed.

Lemma QuantBlk_pos (block_size : Z) (Columnwise : bool) :
  0 < block_size ->
  0 < kRow (BlockwiseQuantizer.QuantBlk block_size Columnwise)
  /\ 0 < kColumn (BlockwiseQuantizer.QuantBlk block_size Columnwise).
Proof.
  intros H.
  destruct (QuantBlk_cases block_size Columnwise) as [(_ & -> & ->) | (_ & -> & ->)];
    lia.
Qed.

Lemma ThreadBlk_shape (block_size : Z) (Columnwise : bool) :
  kRow (BlockwiseQuantizer.ThreadBlk block_size Columnwise)
  = 2 * kRow (BlockwiseQuantizer.QuantBlk block_size Columnwise)
  /\ kColumn (BlockwiseQuantizer.ThreadBlk block_size Columnwise)
     = kColumn (BlockwiseQuantizer.QuantBlk block_size Columnwise).
Proof.
  unfold BlockwiseQuantizer.ThreadBlk. cbn [kRow kColumn].
  change (BitsTraits.kPackSize BlockwiseQuantizer.qbits) with 2. lia.
Qed.

Section DequantizeSpec.

Variable block_size : Z.
Variable Columnwise : bool.
Hypothesis block_size_pos : 0 < block_size.
Hypothesis block_size_even : block_size mod 2 = 0.

Variable weights : mem Z.
Variable scales : mem float.
Variable zero_points : option (mem Z).
Variables rows columns : Z.
Hypothesis rows_pos : 0 < rows.
Hypothesis zero_points_bytes :
  forall zps, zero_points = Some zps -> forall x, 0 <= zps x < 256.

Let QB := BlockwiseQuantizer.QuantBlk block_size Columnwise.
Let TB := BlockwiseQuantizer.ThreadBlk block_size Columnwise.
Let row_blks := Z.quot (rows + kRow QB - 1) (kRow QB).
Let q_rows :=
  fst (BlockwiseQuantizer.quantizedShape block_size Columnwise rows columns).
Let v (x : Z) : float :=
  dequantized_elem block_size Columnwise weights scales zero_points rows columns
    (x mod rows) (x / rows).

Lemma v_at (i j : Z) :
  0 <= i < rows ->
  v (j * rows + i)
  = dequantized_elem block_size Columnwise weights scales zero_points rows columns i j.
Proof.
  intros Hi. subst v. cbv beta.
  replace ((j * rows + i) mod rows) with i
    by (apply Z.mod_unique with (q := j); lia).
  replace ((j * rows + i) / rows) with j
    by (apply Z.div_unique with (r := i); lia).
  reflexivity.
Qed.

(** The zero point the code reads for the element of an even row [i], and
    for the one of the row [i + 1]. *)
Lemma dequant_zp0_spec (j i : Z) :
  0 <= j -> 0 <= i ->
  BlockwiseQuantizer.dequant_zp0 zero_points row_blks
    (Z.quot j (kColumn QB)) (Z.quot i (kRow QB))
  = match zero_points with
    | None => 8
    | Some zps =>
        nib ((i / kRow QB) mod 2)
            (zps (j / kColumn QB * (((rows + kRow QB - 1) / kRow QB + 1) / 2)
                  + i / kRow QB / 2))
    end.
Proof.
  intros Hj Hi. destruct (QuantBlk_pos block_size Columnwise block_size_pos) as [HR HC].
  fold QB in HR, HC.
  unfold BlockwiseQuantizer.dequant_zp0, BlockwiseQuantizer.zp_pair. cbv zeta.
  subst row_blks.
  rewrite (Z.quot_div_nonneg j (kColumn QB)), (Z.quot_div_nonneg i (kRow QB)),
    (Z.quot_div_nonneg (rows + kRow QB - 1) (kRow QB)) by lia.
  assert (0 <= i / kRow QB) by (apply Z.div_pos; lia).
  assert (0 <= (rows + kRow QB - 1) / kRow QB) by (apply Z.div_pos; lia).
  rewrite (Z.quot_div_nonneg (i / kRow QB) 2),
    (Z.quot_div_nonneg ((rows + kRow QB - 1) / kRow QB + 1) 2) by lia.
  rewrite land_1_mod. unfold nib.
  destruct zero_points as [zps |]; [reflexivity |].
  destruct (_ =? 0); reflexivity.
Qed.

Lemma dequant_zp1_spec (j i : Z) :
  0 <= j -> 0 <= i -> i mod 2 = 0 ->
  BlockwiseQuantizer.dequant_zp1 block_size Columnwise zero_points row_blks
    (Z.quot j (kColumn QB)) (Z.quot i (kRow QB))
  = match zero_points with
    | None => 8
    | Some zps =>
        nib (((i + 1) / kRow QB) mod 2)
            (zps (j / kColumn QB * (((rows + kRow QB - 1) / kRow QB + 1) / 2)
                  + (i + 1) / kRow QB / 2))
    end.
Proof.
  intros Hj Hi Hev. unfold BlockwiseQuantizer.dequant_zp1. fold QB.
  destruct (QuantBlk_cases block_size Columnwise) as [(_ & ER & EC) | (_ & ER & EC)];
    fold QB in ER, EC.
  - assert (E1 : (kRow QB =? 1) = false)
      by (apply Z.eqb_neq; pose proof (Z.div_mod block_size 2 ltac:(lia)); lia).
    rewrite E1, (dequant_zp0_spec j i Hj Hi).
    rewrite (succ_even_div i (kRow QB) Hi Hev ltac:(lia)
               ltac:(rewrite ER; exact block_size_even)).
    reflexivity.
  - rewrite ER. cbn [Z.eqb Pos.eqb].
    unfold BlockwiseQuantizer.zp_pair. subst row_blks. rewrite ER.
    rewrite !Z.quot_1_r, !Z.div_1_r.
    rewrite (Z.quot_div_nonneg j (kColumn QB)), (Z.quot_div_nonneg i 2),
      (Z.quot_div_nonneg (rows + 1 - 1 + 1) 2) by lia.
    destruct zero_points as [zps |] eqn:Ez; [| reflexivity].
    replace ((i + 1) mod 2) with 1
      by (apply Z.mod_unique with (q := i / 2);
          [lia | pose proof (Z.div_mod i 2 ltac:(lia)); lia]).
    rewrite (succ_even_div i 2 Hi Hev ltac:(lia) eq_refl).
    unfold nib. cbn [Z.eqb]. apply byte_high_nibble.
    apply (zero_points_bytes zps eq_refl).
Qed.

Lemma dequant_value0 (j i : Z) :
  0 <= j -> 0 <= i < rows -> i mod 2 = 0 ->
  mul (sub (of_Z (Z.land (weights (j * q_rows + Z.quot i 2)) 15))
           (of_Z (BlockwiseQuantizer.dequant_zp0 zero_points row_blks
                    (Z.quot j (kColumn QB)) (Z.quot i (kRow QB)))))
      (scales (Z.quot j (kColumn QB) * row_blks + Z.quot i (kRow QB)))
  = v (j * rows + i).
Proof.
  intros Hj Hi Hev. destruct (QuantBlk_pos block_size Columnwise block_size_pos) as [HR HC].
  fold QB in HR, HC.
  rewrite (v_at i j Hi), (dequant_zp0_spec j i Hj ltac:(lia)).
  unfold dequantized_elem. fold QB. fold q_rows. cbv zeta.
  subst row_blks.
  rewrite (Z.quot_div_nonneg j (kColumn QB)), (Z.quot_div_nonneg i (kRow QB)),
    (Z.quot_div_nonneg (rows + kRow QB - 1) (kRow QB)),
    (Z.quot_div_nonneg i 2) by lia.
  rewrite Hev. reflexivity.
Qed.

Lemma dequant_value1 (j i : Z) :
  0 <= j -> 0 <= i -> i + 1 < rows -> i mod 2 = 0 ->
  mul (sub (of_Z (Z.shiftr (weights (j * q_rows + Z.quot i 2)) 4))
           (of_Z (BlockwiseQuantizer.dequant_zp1 block_size Columnwise
                    zero_points row_blks
                    (Z.quot j (kColumn QB)) (Z.quot i (kRow QB)))))
      (if kRow QB =? 1
       then scales (Z.quot j (kColumn QB) * row_blks + Z.quot i (kRow QB) + 1)
       else scales (Z.quot j (kColumn QB) * row_blks + Z.quot i (kRow QB)))
  = v (j * rows + (i + 1)).
Proof.
  intros Hj Hi Hi1 Hev. destruct (QuantBlk_pos block_size Columnwise block_size_pos) as [HR HC].
  fold QB in HR, HC.
  rewrite (v_at (i + 1) j ltac:(lia)), (dequant_zp1_spec j i Hj Hi Hev).
  unfold dequantized_elem. fold QB. fold q_rows. cbv zeta.
  subst row_blks.
  rewrite (Z.quot_div_nonneg j (kColumn QB)), (Z.quot_div_nonneg i (kRow QB)),
    (Z.quot_div_nonneg (rows + kRow QB - 1) (kRow QB)),
    (Z.quot_div_nonneg i 2) by lia.
  replace ((i + 1) mod 2) with 1
    by (apply Z.mod_unique with (q := i / 2);
        [lia | pose proof (Z.div_mod i 2 ltac:(lia)); lia]).
  rewrite (succ_even_div i 2 Hi Hev ltac:(lia) eq_refl).
  change (nib 1 ?b) with (Z.shiftr b 4).
  destruct (QuantBlk_cases block_size Columnwise) as [(_ & ER & EC) | (_ & ER & EC)];
    fold QB in ER, EC.
  - assert (E1 : (kRow QB =? 1) = false)
      by (apply Z.eqb_neq; pose proof (Z.div_mod block_size 2 ltac:(lia)); lia).
    rewrite E1.
    rewrite (succ_even_div i (kRow QB) Hi Hev ltac:(lia)
               ltac:(rewrite ER; exact block_size_even)).
    reflexivity.
  - rewrite ER. cbn [Z.eqb Pos.eqb]. rewrite !Z.div_1_r.
    do 2 f_equal. lia.
Qed.

(** The rows [i] and [i + 1] of the column [j]. *)
Lemma dequant_pair_writes (r_end j i : Z) (dst : mem float) :
  0 <= j -> 0 <= i -> i mod 2 = 0 -> i < r_end -> r_end <= rows ->
  writes_to
    (fun x => x = j * rows + i \/ (i + 1 < r_end /\ x = j * rows + (i + 1)))
    v dst
    (BlockwiseQuantizer.dequant_pair block_size Columnwise weights scales
       zero_points rows row_blks q_rows r_end j dst i).
Proof.
  intros Hj Hi Hev Hlt Hend.
  unfold BlockwiseQuantizer.dequant_pair. fold QB. cbv zeta.
  rewrite (dequant_value0 j i Hj ltac:(lia) Hev).
  intros x. destruct (Z.ltb_spec (i + 1) r_end) as [H1 | H1].
  - rewrite (dequant_value1 j i Hj Hi ltac:(lia) Hev). unfold upd.
    destruct (Z.eqb_spec x (j * rows + (i + 1))) as [-> | Hx1].
    + left. split; [right; split; [lia | reflexivity] | reflexivity].
    + destruct (Z.eqb_spec x (j * rows + i)) as [-> | Hx0].
      * left. split; [left; reflexivity | reflexivity].
      * right. split; [lia | reflexivity].
  - unfold upd. destruct (Z.eqb_spec x (j * rows + i)) as [-> | Hx0].
    + left. split; [left; reflexivity | reflexivity].
    + right. split; [lia | reflexivity].
Qed.

(** One thread block: the rows [r .. r_end - 1] of the columns
    [c .. c_end - 1]. *)
Lemma dequantize_tile_writes (block_idx : Z) (dst : mem float) :
  0 <= block_idx -> 0 < Z.quot (columns + kColumn TB - 1) (kColumn TB) ->
  let thrd_col_blks :=
    Z.quot (columns + kColumn TB - 1) (kColumn TB) in
  let r := Z.quot block_idx thrd_col_blks * kRow TB in
  let c := Z.rem block_idx thrd_col_blks * kColumn TB in
  writes_to
    (fun x => exists i j,
       r <= i < Z.min (r + kRow TB) rows
       /\ c <= j < Z.min (c + kColumn TB) columns
       /\ x = j * rows + i)
    v dst
    (BlockwiseQuantizer.dequantize_tile block_size Columnwise weights scales
       zero_points rows columns dst block_idx).
Proof.
  intros Hb Htcb tcb r c. fold tcb in Htcb.
  destruct (QuantBlk_pos block_size Columnwise block_size_pos) as [HR HC].
  fold QB in HR, HC. destruct (ThreadBlk_shape block_size Columnwise) as [ETR ETC].
  fold TB QB in ETR, ETC.
  assert (Hr : 0 <= r /\ r mod 2 = 0).
  { subst r. rewrite ETR.
    assert (0 <= Z.quot block_idx tcb) by (apply Z.quot_pos; lia).
    split; [nia |].
    replace (Z.quot block_idx tcb * (2 * kRow QB))
      with (Z.quot block_idx tcb * kRow QB * 2) by lia.
    apply Z.mod_mul. lia. }
  assert (Hc : 0 <= c).
  { subst c. pose proof (Z.rem_bound_pos block_idx tcb Hb ltac:(lia)). nia. }
  unfold BlockwiseQuantizer.dequantize_tile. fold TB QB. cbv zeta.
  fold tcb. fold r. fold c. fold row_blks. fold q_rows.
  eapply writes_to_cover;
    [| apply (fold_left_writes _
                (fun j x => exists i, r <= i < Z.min (r + kRow TB) rows
                                      /\ x = j * rows + i))].
  - intros x. split.
    + intros (j & Hj & i & Hi & Ex). apply elem_of_zrange_1 in Hj.
      exists i, j. split; [exact Hi |]. split; [lia | exact Ex].
    + intros (i & j & Hi & Hj & Ex). exists j.
      split; [apply elem_of_zrange_1; lia |]. exists i. split; assumption.
  - intros j F Hj. apply elem_of_zrange_1 in Hj.
    eapply writes_to_cover;
      [| apply (fold_left_writes _
                  (fun i x => x = j * rows + i
                              \/ (i + 1 < Z.min (r + kRow TB) rows
                                  /\ x = j * rows + (i + 1))))].
    + intros x. split.
      * intros (i & Hi & Hx). apply elem_of_zrange in Hi; [| lia].
        destruct Hi as (n & Hn & -> & Hlt).
        destruct Hx as [-> | [H1 ->]].
        -- exists (r + n * 2). split; [lia | reflexivity].
        -- exists (r + n * 2 + 1). split; [lia | reflexivity].
      * intros (i & Hi & ->).
        pose proof (Z.div_mod (i - r) 2 ltac:(lia)) as Hd.
        pose proof (Z.mod_pos_bound (i - r) 2 ltac:(lia)) as Hm.
        exists (r + (i - r) / 2 * 2). split.
        -- apply elem_of_zrange; [lia |]. exists ((i - r) / 2).
           split; [apply Z.div_pos; lia |]. split; [reflexivity | lia].
        -- assert ((i - r) mod 2 = 0 \/ (i - r) mod 2 = 1) as [E | E] by lia.
           ++ left. f_equal. lia.
           ++ right. split; [lia | f_equal; lia].
    + intros i F' Hi. apply elem_of_zrange in Hi; [| lia].
      destruct Hi as (n & Hn & -> & Hlt).
      apply dequant_pair_writes; try lia.
      destruct Hr as [_ Hr].
      rewrite Z.add_mod, Hr, Z.mod_mul by lia. reflexivity.
Qed.

(** The whole matrix. *)
Lemma dequantize_writes (dst : mem float) :
  0 <= columns ->
  writes_to
    (fun x => exists i j, 0 <= i < rows /\ 0 <= j < columns /\ x = j * rows + i)
    v dst
    (BlockwiseQuantizer.dequantize block_size Columnwise dst weights scales
       zero_points rows columns).
Proof.
  intros Hcols.
  destruct (QuantBlk_pos block_size Columnwise block_size_pos) as [HR HC].
  fold QB in HR, HC. destruct (ThreadBlk_shape block_size Columnwise) as [ETR ETC].
  fold TB QB in ETR, ETC.
  unfold BlockwiseQuantizer.dequantize. fold TB. cbv zeta.
  set (trb := Z.quot (rows + kRow TB - 1) (kRow TB)).
  set (tcb := Z.quot (columns + kColumn TB - 1) (kColumn TB)).
  assert (Etrb : trb = (rows + kRow TB - 1) / kRow TB)
    by (subst trb; apply Z.quot_div_nonneg; lia).
  assert (Etcb : tcb = (columns + kColumn TB - 1) / kColumn TB)
    by (subst tcb; apply Z.quot_div_nonneg; lia).
  pose proof (Z.div_mod (rows + kRow TB - 1) (kRow TB) ltac:(lia)) as Hd1.
  pose proof (Z.mod_pos_bound (rows + kRow TB - 1) (kRow TB) ltac:(lia)) as Hm1.
  pose proof (Z.div_mod (columns + kColumn TB - 1) (kColumn TB) ltac:(lia)) as Hd2.
  pose proof (Z.mod_pos_bound (columns + kColumn TB - 1) (kColumn TB) ltac:(lia)) as Hm2.
  rewrite <- Etrb in Hd1. rewrite <- Etcb in Hd2.
  eapply writes_to_cover;
    [| apply (fold_left_writes _
                (fun t x => exists i j,
                   Z.quot t tcb * kRow TB <= i
                     < Z.min (Z.quot t tcb * kRow TB + kRow TB) rows
                   /\ Z.rem t tcb * kColumn TB <= j
                      < Z.min (Z.rem t tcb * kColumn TB + kColumn TB) columns
                   /\ x = j * rows + i))].
  - intros x. split.
    + intros (t & Ht & i & j & Hi & Hj & Ex). apply elem_of_zrange_1 in Ht.
      assert (0 < tcb) by nia.
      pose proof (Z.quot_pos t tcb ltac:(lia) ltac:(lia)).
      pose proof (Z.rem_bound_pos t tcb ltac:(lia) ltac:(lia)).
      exists i, j. split; [nia |]. split; [nia | exact Ex].
    + intros (i & j & Hi & Hj & Ex).
      assert (Htcb : 0 < tcb) by nia.
      set (rb := i / kRow TB). set (cb := j / kColumn TB).
      pose proof (Z.div_mod i (kRow TB) ltac:(lia)) as Hdi.
      pose proof (Z.mod_pos_bound i (kRow TB) ltac:(lia)) as Hmi.
      pose proof (Z.div_mod j (kColumn TB) ltac:(lia)) as Hdj.
      pose proof (Z.mod_pos_bound j (kColumn TB) ltac:(lia)) as Hmj.
      fold rb in Hdi. fold cb in Hdj.
      assert (Hrb : 0 <= rb < trb).
      { split; [apply Z.div_pos; lia | nia]. }
      assert (Hcb : 0 <= cb < tcb).
      { split; [apply Z.div_pos; lia | nia]. }
      exists (rb * tcb + cb).
      assert (Eq : Z.quot (rb * tcb + cb) tcb = rb).
      { rewrite Z.quot_div_nonneg by nia.
        symmetry. apply Z.div_unique with (r := cb); lia. }
      assert (Er : Z.rem (rb * tcb + cb) tcb = cb).
      { rewrite Z.rem_mod_nonneg by nia.
        symmetry. apply Z.mod_unique with (q := rb); lia. }
      split; [apply elem_of_zrange_1; nia |].
      exists i, j. rewrite Eq, Er. split; [lia |]. split; [lia | exact Ex].
  - intros t F Ht. apply elem_of_zrange_1 in Ht.
    apply (dequantize_tile_writes t F ltac:(lia)). fold tcb. nia.
Qed.

End DequantizeSpec.

Lemma supported_block_size_even (block_size : Z) :
  supported_block_size block_size = true ->
  0 < block_size /\ block_size mod 2 = 0.
Proof.
  intros H. apply supported_block_size_cases in H.
  destruct H as [-> | [-> | [-> | [-> | ->]]]]; split; reflexivity.
Qed.



(** ** Thread blocks *)

(** The thread block of an element, and the elements of a thread block. *)
Lemma tile_of_element (kRT kCT rows columns i j : Z) :
  0 < kRT -> 0 < kCT -> 0 <= i < rows -> 0 <= j < columns ->
  let trb := Z.quot (rows + kRT - 1) kRT in
  let tcb := Z.quot (columns + kCT - 1) kCT in
  let t := i / kRT * tcb + j / kCT in
  0 <= t < trb * tcb /\ Z.quot t tcb = i / kRT /\ Z.rem t tcb = j / kCT.
Proof.
  intros HR HC Hi Hj trb tcb t.
  assert (Etrb : trb = (rows + kRT - 1) / kRT)
    by (subst trb; apply Z.quot_div_nonneg; lia).
  assert (Etcb : tcb = (columns + kCT - 1) / kCT)
    by (subst tcb; apply Z.quot_div_nonneg; lia).
  pose proof (Z.div_mod (rows + kRT - 1) kRT ltac:(lia)) as Hd1.
  pose proof (Z.mod_pos_bound (rows + kRT - 1) kRT ltac:(lia)) as Hm1.
  pose proof (Z.div_mod (columns + kCT - 1) kCT ltac:(lia)) as Hd2.
  pose proof (Z.mod_pos_bound (columns + kCT - 1) kCT ltac:(lia)) as Hm2.
  rewrite <- Etrb in Hd1. rewrite <- Etcb in Hd2.
  pose proof (Z.div_mod i kRT ltac:(lia)) as Hdi.
  pose proof (Z.mod_pos_bound i kRT ltac:(lia)) as Hmi.
  pose proof (Z.div_mod j kCT ltac:(lia)) as Hdj.
  pose proof (Z.mod_pos_bound j kCT ltac:(lia)) as Hmj.
  set (rb := i / kRT) in *. set (cb := j / kCT) in *.
  assert (Hrb : 0 <= rb < trb) by (split; [apply Z.div_pos; lia | nia]).
  assert (Hcb : 0 <= cb < tcb) by (split; [apply Z.div_pos; lia | nia]).
  subst t. split; [nia |]. split.
  - rewrite Z.quot_div_nonneg by nia.
    symmetry. apply Z.div_unique with (r := cb); lia.
  - rewrite Z.rem_mod_nonneg by nia.
    symmetry. apply Z.mod_unique with (q := rb); lia.
Qed.

Lemma foldM_None {A S : Type} (body : A -> S -> option S) (l : list A) (x : A) :
  x ∈ l -> (forall s, body x s = None) -> forall s, foldM body l s = None.
Proof.
  intros Hx Hbody. induction l as [| y l IH]; intros s; [inversion Hx |].
  cbn [foldM]. apply elem_of_cons in Hx as [<- | Hx].
  - rewrite Hbody. reflexivity.
  - destruct (body y s) as [s' |]; [| reflexivity]. apply IH. exact Hx.
Qed.

(** ** A NaN in the source of the blockwise quantizer *)

Lemma blockwise_quant_nan (reciprocal_scale : float) (zp : Z) (v : float) :
  is_nan v = true -> BlockwiseQuantizer.quant reciprocal_scale zp v = None.
Proof.
  intros Hv. unfold BlockwiseQuantizer.quant.
  apply to_uint8_nan, clamp_of_nan. rewrite roundf_nan.
  destruct v; try discriminate. reflexivity.
Qed.

Section QuantizeNaN.

Variable block_size : Z.
Variable Columnwise : bool.
Hypothesis block_size_pos : 0 < block_size.
Variable src : mem float.
Variables rows columns leadingDimension : Z.
Variables i j : Z.
Hypothesis i_range : 0 <= i < rows.
Hypothesis j_range : 0 <= j < columns.
Hypothesis src_nan : is_nan (src (i * leadingDimension + j)) = true.

(** The pair of rows that holds the row [i]. *)
Lemma quant_pair_nan (scales : mem float) (zp_bytes : list Z)
    (row_blks r_end i0 : Z) :
  (i = i0 \/ i = i0 + 1) -> i < r_end ->
  BlockwiseQuantizer.quant_pair block_size Columnwise src scales zp_bytes
    leadingDimension row_blks r_end j i0 = None.
Proof.
  intros Hi Hend. unfold BlockwiseQuantizer.quant_pair. cbv zeta.
  destruct Hi as [<- | ->].
  - rewrite (blockwise_quant_nan _ _ _ src_nan). reflexivity.
  - destruct (BlockwiseQuantizer.quant _ _ (src (i0 * leadingDimension + j)));
      [| reflexivity].
    cbn [mbind option_bind].
    destruct (Z.ltb_spec (i0 + 1) r_end); [| lia].
    rewrite (blockwise_quant_nan _ _ _ src_nan). reflexivity.
Qed.

Lemma quantizeAndTranspose_nan (dst : mem Z) (scales : mem float)
    (zero_points : option (mem Z)) :
  BlockwiseQuantizer.quantizeAndTranspose block_size Columnwise dst scales
    zero_points src rows columns leadingDimension = None.
Proof.
  unfold BlockwiseQuantizer.quantizeAndTranspose. cbv zeta.
  destruct (ThreadBlk_shape block_size Columnwise) as [ETR ETC].
  destruct (QuantBlk_pos block_size Columnwise block_size_pos) as [HR HC].
  set (TB := BlockwiseQuantizer.ThreadBlk block_size Columnwise) in *.
  set (QB := BlockwiseQuantizer.QuantBlk block_size Columnwise) in *.
  destruct (tile_of_element (kRow TB) (kColumn TB) rows columns i j
              ltac:(lia) ltac:(lia) i_range j_range) as (Ht & Eq & Er).
  set (tcb := Z.quot (columns + kColumn TB - 1) (kColumn TB)) in *.
  set (t := i / kRow TB * tcb + j / kColumn TB) in *.
  apply (foldM_None _ _ t); [apply elem_of_zrange_1; lia |].
  intros b. unfold BlockwiseQuantizer.quantize_tile. cbv zeta.
  fold TB QB tcb. rewrite Eq, Er.
  destruct (foldM _ _ (BlockwiseQuantizer.q_scales b, _)) as [[scales' zp_bytes] |];
    [| reflexivity].
  cbn [mbind option_bind].
  pose proof (Z.div_mod i (kRow TB) ltac:(lia)) as Hdi.
  pose proof (Z.mod_pos_bound i (kRow TB) ltac:(lia)) as Hmi.
  pose proof (Z.div_mod j (kColumn TB) ltac:(lia)) as Hdj.
  pose proof (Z.mod_pos_bound j (kColumn TB) ltac:(lia)) as Hmj.
  set (r := i / kRow TB * kRow TB) in *.
  set (c := j / kColumn TB * kColumn TB) in *.
  assert (Hr2 : r mod 2 = 0).
  { subst r. rewrite ETR.
    replace (i / (2 * kRow QB) * (2 * kRow QB))
      with (i / (2 * kRow QB) * kRow QB * 2) by lia.
    apply Z.mod_mul. lia. }
  pose proof (Z.div_mod r 2 ltac:(lia)) as Hdr.
  pose proof (Z.div_mod i 2 ltac:(lia)) as Hdi2.
  pose proof (Z.mod_pos_bound i 2 ltac:(lia)) as Hmi2.
  match goal with
  | |- (?m ≫= _) = None => assert (E : m = None); [| rewrite E; reflexivity]
  end.
  apply (foldM_None _ _ j); [apply elem_of_zrange_1; lia |].
  intros d.
  apply (foldM_None _ _ (i - i mod 2)).
  - apply elem_of_zrange; [lia |]. exists (i / 2 - r / 2).
    split; [lia |]. split; lia.
  - intros d'. rewrite (quant_pair_nan _ _ _ _ (i - i mod 2)); [reflexivity | lia | lia].
Qed.

End QuantizeNaN.

(** X17: a NaN anywhere in the source matrix makes [MlasQuantizeBlockwise]
    undefined: the scans skip the NaN, and the quantizing cast of the
    element then converts a NaN to [uint8_t]. *)
Theorem MlasQuantizeBlockwise_nan_undefined (dst : mem Z) (scales : mem float)
    (zero_points : option (mem Z)) (src : mem float) (block_size : Z)
    (columnwise : bool) (rows columns leading_dimension : Z) (i j : Z) :
  supported_block_size block_size = true ->
  0 <= i < rows -> 0 <= j < columns ->
  is_nan (src (i * leading_dimension + j)) = true ->
  MlasQuantizeBlockwise dst scales zero_points src block_size columnwise
    rows columns leading_dimension = None.
Proof.
  intros Hb Hi Hj Hnan. unfold MlasQuantizeBlockwise. rewrite Hb.
  destruct (supported_block_size_even block_size Hb) as [Hpos Hev].
  apply (quantizeAndTranspose_nan block_size columnwise Hpos src rows
           columns leading_dimension i j Hi Hj Hnan).
Qed.

Lemma MlasQuantizeBlockwise_nan_undefined_witness :
  MlasQuantizeBlockwise (fun _ => 0) (fun _ => zero) None
    (fun x => if x =? 7 then S754_nan else one) 16 true 4 3 3 = None.
Proof.
  apply (MlasQuantizeBlockwise_nan_undefined _ _ _ _ 16 true 4 3 3 2 1);
    [reflexivity | lia | lia | reflexivity].
Defined.

(** ** Loops of writes that may be undefined *)

Lemma writes_some_nothing {A : Type} (v : Z -> option A) (F : mem A) :
  writes_some (fun _ => False) v F F.
Proof. intros x. right. split; [tauto | reflexivity]. Qed.

Lemma writes_some_trans {A : Type} (c1 c2 : Z -> Prop) (v : Z -> option A)
    (F0 F1 F2 : mem A) :
  writes_some c1 v F0 F1 -> writes_some c2 v F1 F2 ->
  writes_some (fun x => c1 x \/ c2 x) v F0 F2.
Proof.
  intros H1 H2 x.
  destruct (H2 x) as [[Hc E] | [Hc E]]; [left; split; [right; exact Hc | exact E] |].
  destruct (H1 x) as [[Hc1 E1] | [Hc1 E1]].
  - left. split; [left; exact Hc1 | congruence].
  - right. split; [tauto | congruence].
Qed.

Lemma writes_some_cover {A : Type} (c c' : Z -> Prop) (v : Z -> option A)
    (F F' : mem A) :
  (forall x, c x <-> c' x) -> writes_some c v F F' -> writes_some c' v F F'.
Proof.
  intros Hc H x. destruct (H x) as [[Hx E] | [Hx E]].
  - left. split; [apply Hc; exact Hx | exact E].
  - right. split; [rewrite <- Hc; exact Hx | exact E].
Qed.

Lemma writes_some_upd {A : Type} (v : Z -> option A) (F : mem A) (i : Z) (a : A) :
  v i = Some a -> writes_some (fun x => x = i) v F (upd F i a).
Proof.
  intros H x. unfold upd. destruct (Z.eqb_spec x i) as [-> | Hne].
  - left. split; [reflexivity | exact H].
  - right. split; [exact Hne | reflexivity].
Qed.

(** A loop whose iterations either write what [v] defines or are undefined
    for a reason [bad]. *)
Lemma foldM_writes_cases {A B : Type} (body : B -> mem A -> option (mem A))
    (cov : B -> Z -> Prop) (v : Z -> option A) (bad : Prop) (l : list B) :
  (forall b F, b ∈ l ->
     match body b F with
     | Some F' => writes_some (cov b) v F F'
     | None => bad
     end) ->
  forall F,
    match foldM body l F with
    | Some F' => writes_some (fun x => exists b, b ∈ l /\ cov b x) v F F'
    | None => bad
    end.
Proof.
  induction l as [| b l IH]; intros Hstep F.
  - cbn [foldM]. eapply writes_some_cover; [| apply writes_some_nothing].
    intros x. split; [tauto |]. intros (b & Hb & _). inversion Hb.
  - cbn [foldM]. pose proof (Hstep b F ltac:(left)) as H1.
    destruct (body b F) as [F1 |]; cbn [mbind option_bind]; [| exact H1].
    pose proof (IH (fun b' G Hb' => Hstep b' G ltac:(right; exact Hb')) F1) as H2.
    destruct (foldM body l F1) as [F2 |]; [| exact H2].
    eapply writes_some_cover; [| exact (writes_some_trans _ _ _ _ _ _ H1 H2)].
    intros x. split.
    + intros [H | (b' & Hb' & H)]; [exists b; split; [left | exact H] |].
      exists b'. split; [right; exact Hb' | exact H].
    + intros (b' & Hb' & H). apply elem_of_cons in Hb' as [-> | Hb'].
      * left. exact H.
      * right. exists b'. split; assumption.
Qed.

Lemma opt_writes_null {A : Type} (c : Z -> Prop) (v : Z -> option A)
    (F F' : option (mem A)) :
  opt_writes c v F F' ->
  match F, F' with Some _, Some _ | None, None => True | _, _ => False end.
Proof. destruct F, F'; cbn; tauto. Qed.

Lemma bufs_writes_nothing (vD : Z -> option Z) (vS : Z -> option float)
    (vZ : Z -> option Z) (b : BlockwiseQuantizer.qbufs) :
  bufs_writes (fun _ => False) (fun _ => False) (fun _ => False) vD vS vZ b b.
Proof.
  split; [apply writes_some_nothing |]. split; [apply writes_some_nothing |].
  unfold opt_writes. destruct (BlockwiseQuantizer.q_zero_points b);
    [apply writes_some_nothing | exact I].
Qed.

Lemma bufs_writes_trans (cD1 cS1 cZ1 cD2 cS2 cZ2 : Z -> Prop)
    (vD : Z -> option Z) (vS : Z -> option float) (vZ : Z -> option Z)
    (b0 b1 b2 : BlockwiseQuantizer.qbufs) :
  bufs_writes cD1 cS1 cZ1 vD vS vZ b0 b1 ->
  bufs_writes cD2 cS2 cZ2 vD vS vZ b1 b2 ->
  bufs_writes (fun x => cD1 x \/ cD2 x) (fun x => cS1 x \/ cS2 x)
    (fun x => cZ1 x \/ cZ2 x) vD vS vZ b0 b2.
Proof.
  intros (HD1 & HS1 & HZ1) (HD2 & HS2 & HZ2).
  split; [exact (writes_some_trans _ _ _ _ _ _ HD1 HD2) |].
  split; [exact (writes_some_trans _ _ _ _ _ _ HS1 HS2) |].
  unfold opt_writes in *.
  destruct (BlockwiseQuantizer.q_zero_points b0),
    (BlockwiseQuantizer.q_zero_points b1),
    (BlockwiseQuantizer.q_zero_points b2); try tauto.
  exact (writes_some_trans _ _ _ _ _ _ HZ1 HZ2).
Qed.

Lemma bufs_writes_cover (cD cS cZ cD' cS' cZ' : Z -> Prop)
    (vD : Z -> option Z) (vS : Z -> option float) (vZ : Z -> option Z)
    (b b' : BlockwiseQuantizer.qbufs) :
  (forall x, cD x <-> cD' x) -> (forall x, cS x <-> cS' x) ->
  (forall x, cZ x <-> cZ' x) ->
  bufs_writes cD cS cZ vD vS vZ b b' -> bufs_writes cD' cS' cZ' vD vS vZ b b'.
Proof.
  intros ED ES EZ (HD & HS & HZ).
  split; [exact (writes_some_cover _ _ _ _ _ ED HD) |].
  split; [exact (writes_some_cover _ _ _ _ _ ES HS) |].
  unfold opt_writes in *.
  destruct (BlockwiseQuantizer.q_zero_points b),
    (BlockwiseQuantizer.q_zero_points b'); try tauto.
  exact (writes_some_cover _ _ _ _ _ EZ HZ).
Qed.

Lemma bufs_writes_null (cD cS cZ : Z -> Prop)
    (vD : Z -> option Z) (vS : Z -> option float) (vZ : Z -> option Z)
    (b b' : BlockwiseQuantizer.qbufs) :
  bufs_writes cD cS cZ vD vS vZ b b' ->
  zp_is_null (BlockwiseQuantizer.q_zero_points b')
  = zp_is_null (BlockwiseQuantizer.q_zero_points b).
Proof.
  intros (_ & _ & HZ). unfold opt_writes in HZ.
  destruct (BlockwiseQuantizer.q_zero_points b),
    (BlockwiseQuantizer.q_zero_points b'); try tauto; reflexivity.
Qed.

(** A loop over a state that holds the three buffers. *)
Lemma foldM_bufs_cases {B S : Type} (view : S -> BlockwiseQuantizer.qbufs)
    (body : B -> S -> option S)
    (cD cS cZ : B -> Z -> Prop) (vD : Z -> option Z) (vS : Z -> option float)
    (vZ : Z -> option Z) (null : bool) (bad : Prop) (l : list B) :
  (forall t s, t ∈ l ->
     zp_is_null (BlockwiseQuantizer.q_zero_points (view s)) = null ->
     match body t s with
     | Some s' => bufs_writes (cD t) (cS t) (cZ t) vD vS vZ (view s) (view s')
     | None => bad
     end) ->
  forall s, zp_is_null (BlockwiseQuantizer.q_zero_points (view s)) = null ->
    match foldM body l s with
    | Some s' =>
        bufs_writes (fun x => exists t, t ∈ l /\ cD t x)
          (fun x => exists t, t ∈ l /\ cS t x)
          (fun x => exists t, t ∈ l /\ cZ t x) vD vS vZ (view s) (view s')
    | None => bad
    end.
Proof.
  induction l as [| t l IH]; intros Hstep b Hnull.
  - cbn [foldM]. eapply bufs_writes_cover; [| | | apply bufs_writes_nothing];
      intros x; (split; [tauto |]); intros (t & Ht & _); inversion Ht.
  - cbn [foldM]. pose proof (Hstep t b ltac:(left) Hnull) as H1.
    destruct (body t b) as [b1 |]; cbn [mbind option_bind]; [| exact H1].
    pose proof (IH (fun t' G Ht' => Hstep t' G ltac:(right; exact Ht')) b1
                  ltac:(rewrite (bufs_writes_null _ _ _ _ _ _ _ _ H1); exact Hnull))
      as H2.
    destruct (foldM body l b1) as [b2 |]; [| exact H2].
    eapply bufs_writes_cover; [| | | exact (bufs_writes_trans _ _ _ _ _ _ _ _ _ _ _ _ H1 H2)];
      intros x; (split;
        [intros [H | (t' & Ht' & H)];
           [exists t; split; [left | exact H]
           | exists t'; split; [right; exact Ht' | exact H]]
        | intros (t' & Ht' & H); apply elem_of_cons in Ht' as [-> | Ht'];
           [left; exact H | right; exists t'; split; assumption]]).
Qed.

(** ** Offsets of the quantized buffers *)

Lemma offset_decode (w j i : Z) :
  0 <= i < w -> (j * w + i) / w = j /\ (j * w + i) mod w = i.
Proof.
  intros Hi. split.
  - symmetry. apply Z.div_unique with (r := i); lia.
  - symmetry. apply Z.mod_unique with (q := j); lia.
Qed.

Lemma pack_pair_nibbles (lo hi : Z) :
  0 <= lo <= 15 -> 0 <= hi <= 15 ->
  nib 0 (pack_pair lo hi) = lo /\ nib 1 (pack_pair lo hi) = hi
  /\ 0 <= pack_pair lo hi < 256.
Proof.
  intros Hlo Hhi. unfold pack_pair.
  replace (Z.land lo 15) with lo.
  2:{ symmetry. change 15 with (Z.ones 4). rewrite Z.land_ones by lia.
      apply Z.mod_small. change (2 ^ 4) with 16. lia. }
  destruct (pack_nibbles_halves lo hi Hlo Hhi) as [E0 E1].
  unfold nib. cbn [Z.eqb]. split; [exact E0 |]. split; [exact E1 |].
  unfold pack_nibbles. change 255 with (Z.ones 8). rewrite Z.land_ones by lia.
  apply Z.mod_pos_bound. reflexivity.
Qed.

(** ** The blockwise quantizer, thread block by thread block *)

Lemma q_rows_half (block_size : Z) (Columnwise : bool) (rows columns i : Z) :
  0 < block_size -> 0 <= i < rows ->
  0 <= i / 2
  < fst (BlockwiseQuantizer.quantizedShape block_size Columnwise rows columns).
Proof.
  intros Hb Hi.
  destruct (QuantBlk_pos block_size Columnwise Hb) as [HR HC].
  unfold BlockwiseQuantizer.quantizedShape, BlockwiseQuantizer.quantizeMetaShape.
  cbn [fst]. change BlockwiseQuantizer.qbits with 4.
  set (kR := kRow (BlockwiseQuantizer.QuantBlk block_size Columnwise)) in *.
  rewrite (Z.quot_div_nonneg (rows + kR - 1) kR) by lia.
  pose proof (Z.div_mod (rows + kR - 1) kR ltac:(lia)) as Hd.
  pose proof (Z.mod_pos_bound (rows + kR - 1) kR ltac:(lia)) as Hm.
  set (mrows := (rows + kR - 1) / kR) in *.
  assert (Hrows : rows <= mrows * kR) by lia.
  assert (0 <= mrows) by (apply Z.div_pos; lia).
  rewrite Z.quot_div_nonneg by nia.
  pose proof (Z.div_mod i 2 ltac:(lia)) as Hd2.
  pose proof (Z.mod_pos_bound i 2 ltac:(lia)) as Hm2.
  pose proof (Z.div_mod (mrows * kR * 4 + 7) 8 ltac:(lia)) as Hd3.
  pose proof (Z.mod_pos_bound (mrows * kR * 4 + 7) 8 ltac:(lia)) as Hm3.
  split; [apply Z.div_pos; lia |]. nia.
Qed.

Section QuantizeSpec.

Variable block_size : Z.
Variable Columnwise : bool.
Hypothesis block_size_pos : 0 < block_size.
Hypothesis block_size_even : block_size mod 2 = 0.

Variable null : bool.
Variable src : mem float.
Variables rows columns leadingDimension : Z.
Hypothesis rows_nonneg : 0 <= rows.

Local Abbreviation QB := (BlockwiseQuantizer.QuantBlk block_size Columnwise).
Local Abbreviation TB := (BlockwiseQuantizer.ThreadBlk block_size Columnwise).
Local Abbreviation row_blks := ((rows + kRow QB - 1) / kRow QB).
Local Abbreviation q_rows :=
  (fst (BlockwiseQuantizer.quantizedShape block_size Columnwise rows columns)).
Local Abbreviation params :=
  (block_params null block_size Columnwise src leadingDimension rows columns).
Local Abbreviation elem :=
  (quantized_elem null block_size Columnwise src leadingDimension rows columns).
Local Abbreviation pair :=
  (quantized_pair null block_size Columnwise src leadingDimension rows columns).
Local Abbreviation vD :=
  (dst_byte_at null block_size Columnwise src leadingDimension rows columns).
Local Abbreviation vS :=
  (scale_at null block_size Columnwise src leadingDimension rows columns).
Local Abbreviation vZ :=
  (zp_byte_at null block_size Columnwise src leadingDimension rows columns).

(** One iteration of the loop over [kpack] in the thread block [(rt, ct)]:
    the block [(2 * rt + kpack, ct)], when it has a row. *)
Lemma scale_step_eq (rt ct kpack : Z) (scales : mem float) (zp_bytes : list Z) :
  0 <= rt -> 0 <= ct -> kpack = 0 \/ kpack = 1 ->
  BlockwiseQuantizer.scale_step block_size Columnwise null src leadingDimension
    (Z.quot (rows + kRow QB - 1) (kRow QB))
    (rt * kRow TB) (Z.min (rt * kRow TB + kRow TB) rows)
    (ct * kColumn TB) (Z.min (ct * kColumn TB + kColumn TB) columns)
    (Z.quot (rt * kRow TB) (kRow QB)) (Z.quot (ct * kColumn TB) (kColumn QB))
    kpack (scales, zp_bytes)
  = if (2 * rt + kpack) * kRow QB <? rows then
      p ← params (2 * rt + kpack) ct;
      Some (upd scales (ct * row_blks + (2 * rt + kpack)) (fst p),
            if null then zp_bytes else <[Z.to_nat kpack := snd p]> zp_bytes)
    else Some (scales, zp_bytes).
Proof.
  intros Hrt Hct Hk.
  destruct (QuantBlk_pos block_size Columnwise block_size_pos) as [HR HC].
  destruct (ThreadBlk_shape block_size Columnwise) as [ETR ETC].
  unfold BlockwiseQuantizer.scale_step, block_params, block_range. cbv zeta.
  rewrite ETR, ETC.
  rewrite (Z.quot_div_nonneg (rows + kRow QB - 1) (kRow QB)) by lia.
  replace (rt * (2 * kRow QB)) with (2 * rt * kRow QB) by lia.
  rewrite !Z.quot_mul by lia.
  replace (2 * rt * kRow QB + kpack * kRow QB)
    with ((2 * rt + kpack) * kRow QB) by lia.
  replace (Z.min ((2 * rt + kpack) * kRow QB + kRow QB)
             (Z.min (2 * rt * kRow QB + 2 * kRow QB) rows))
    with (Z.min ((2 * rt + kpack) * kRow QB + kRow QB) rows) by lia.
  replace ((2 * rt + kpack) * kRow QB
           <? Z.min ((2 * rt + kpack) * kRow QB + kRow QB) rows)
    with ((2 * rt + kpack) * kRow QB <? rows)
    by (destruct (Z.ltb_spec ((2 * rt + kpack) * kRow QB) rows),
          (Z.ltb_spec ((2 * rt + kpack) * kRow QB)
             (Z.min ((2 * rt + kpack) * kRow QB + kRow QB) rows)); lia).
  replace (ct * row_blks + 2 * rt + kpack)
    with (ct * row_blks + (2 * rt + kpack)) by lia.
  destruct (BlockwiseQuantizer.scan_block _ _ _ _ _ _) as [mn mx].
  cbn [fst snd].
  destruct (_ <? rows); [| reflexivity].
  destruct null; [reflexivity |].
  destruct (range2scalezp _ mn mx) as [[s z] |]; reflexivity.
Qed.

(** The loop over [kpack]: the scales and the zero points of the two
    blocks of the thread block [(rt, ct)]. *)
Lemma scale_phase_spec (rt ct : Z) (scales : mem float) :
  0 <= rt -> 2 * rt * kRow QB < rows -> 0 <= ct ->
  match
    foldM (BlockwiseQuantizer.scale_step block_size Columnwise null src
             leadingDimension (Z.quot (rows + kRow QB - 1) (kRow QB))
             (rt * kRow TB) (Z.min (rt * kRow TB + kRow TB) rows)
             (ct * kColumn TB) (Z.min (ct * kColumn TB + kColumn TB) columns)
             (Z.quot (rt * kRow TB) (kRow QB))
             (Z.quot (ct * kColumn TB) (kColumn QB)))
          (zrange 0 (BitsTraits.kPackSize BlockwiseQuantizer.qbits) 1)
          (scales,
           replicate (Z.to_nat (BitsTraits.kPackSize BlockwiseQuantizer.qbits)) 8)
  with
  | Some (scales', zp_bytes) =>
      exists s0 z0 s1 z1,
        params (2 * rt) ct = Some (s0, z0)
        /\ zp_bytes = [z0; z1]
        /\ (if (2 * rt + 1) * kRow QB <? rows
            then params (2 * rt + 1) ct = Some (s1, z1)
                 /\ scales' = upd (upd scales (ct * row_blks + 2 * rt) s0)
                                 (ct * row_blks + (2 * rt + 1)) s1
            else z1 = 8 /\ scales' = upd scales (ct * row_blks + 2 * rt) s0)
  | None =>
      params (2 * rt) ct = None
      \/ ((2 * rt + 1) * kRow QB < rows /\ params (2 * rt + 1) ct = None)
  end.
Proof.
  intros Hrt Hrow Hct.
  change (zrange 0 (BitsTraits.kPackSize BlockwiseQuantizer.qbits) 1) with [0; 1].
  change (replicate _ 8) with [8; 8].
  cbn [foldM].
  rewrite (scale_step_eq rt ct 0 scales [8; 8] Hrt Hct ltac:(left; reflexivity)).
  rewrite Z.add_0_r.
  destruct (Z.ltb_spec (2 * rt * kRow QB) rows) as [_ | ?]; [| lia].
  assert (Hnull8 : forall p, null = true -> params p ct <> None /\
            forall s z, params p ct = Some (s, z) -> z = 8).
  { intros p ->. unfold block_params. split; [discriminate |].
    intros s z [= _ <-]. reflexivity. }
  destruct (params (2 * rt) ct) as [[s0 z0] |] eqn:E0;
    cbn [mbind option_bind fst snd]; [| left; reflexivity].
  rewrite (scale_step_eq rt ct 1 _ _ Hrt Hct ltac:(right; reflexivity)).
  destruct (Z.ltb_spec ((2 * rt + 1) * kRow QB) rows) as [H1 | H1].
  - destruct (params (2 * rt + 1) ct) as [[s1 z1] |] eqn:E1;
      cbn [mbind option_bind fst snd]; [| right; split; [exact H1 | reflexivity]].
    exists s0, z0, s1, z1. split; [reflexivity |]. split; [| split; reflexivity].
    destruct null eqn:En; [| reflexivity].
    destruct (Hnull8 (2 * rt) eq_refl) as [_ H8]. rewrite (H8 _ _ E0).
    destruct (Hnull8 (2 * rt + 1) eq_refl) as [_ H8']. rewrite (H8' _ _ E1).
    reflexivity.
  - exists s0, z0, s0, 8. split; [reflexivity |]. split; [| split; reflexivity].
    destruct null eqn:En; [| reflexivity].
    destruct (Hnull8 (2 * rt) eq_refl) as [_ H8]. rewrite (H8 _ _ E0).
    reflexivity.
Qed.

(** The byte of the rows [i] and [i + 1] of the column [j] in the thread
    block [(rt, ct)], once the scales and the zero points of its blocks are
    in place. *)
Lemma quant_pair_spec (rt ct : Z) (scales' : mem float) (zp_bytes : list Z)
    (j i : Z) :
  (forall mr, mr = 2 * rt \/ mr = 2 * rt + 1 -> mr * kRow QB < rows ->
     exists s z, params mr ct = Some (s, z)
                 /\ scales' (ct * row_blks + mr) = s
                 /\ zp_bytes !!! Z.to_nat (mr mod 2) = z) ->
  0 <= rt -> 0 <= ct ->
  rt * kRow TB <= i < Z.min (rt * kRow TB + kRow TB) rows -> i mod 2 = 0 ->
  ct * kColumn TB <= j < ct * kColumn TB + kColumn TB ->
  BlockwiseQuantizer.quant_pair block_size Columnwise src scales' zp_bytes
    leadingDimension (Z.quot (rows + kRow QB - 1) (kRow QB))
    (Z.min (rt * kRow TB + kRow TB) rows) j i
  = pair i j.
Proof.
  intros Hparams Hrt Hct Hi Hev Hj.
  destruct (QuantBlk_pos block_size Columnwise block_size_pos) as [HR HC].
  destruct (ThreadBlk_shape block_size Columnwise) as [ETR ETC].
  rewrite ETR in *. rewrite ETC in *.
  unfold BlockwiseQuantizer.quant_pair, quantized_pair, quantized_elem. cbv zeta.
  rewrite (Z.quot_div_nonneg (rows + kRow QB - 1) (kRow QB)) by lia.
  rewrite (Z.quot_div_nonneg j) by lia.
  rewrite (Z.quot_div_nonneg i) by lia.
  rewrite (Z.quot_div_nonneg (i + 1)) by lia.
  rewrite !land_1_mod.
  assert (Ej : j / kColumn QB = ct)
    by (symmetry; apply Z.div_unique with (r := j - ct * kColumn QB); lia).
  rewrite Ej.
  pose proof (Z.div_mod i (kRow QB) ltac:(lia)) as Hdi.
  pose proof (Z.mod_pos_bound i (kRow QB) ltac:(lia)) as Hmi.
  pose proof (Z.div_mod i 2 ltac:(lia)) as Hd2.
  set (mr := i / kRow QB) in *.
  assert (Hmr : mr = 2 * rt \/ mr = 2 * rt + 1) by nia.
  assert (Hpres : mr * kRow QB < rows) by lia.
  destruct (Hparams mr Hmr Hpres) as (s & z & Ep & Es & Ez).
  rewrite Ep, Es, Ez. cbn [mbind option_bind fst snd fmap option_fmap option_map].
  destruct (BlockwiseQuantizer.quant (BlockwiseQuantizer.reciprocal s) z
              (src (i * leadingDimension + j))) as [vi0 |]; [| reflexivity].
  cbn [mbind option_bind].
  replace (i + 1 <? Z.min (rt * (2 * kRow QB) + 2 * kRow QB) rows)
    with (i + 1 <? rows).
  2:{ pose proof (Z.div_mod (rt * (2 * kRow QB) + 2 * kRow QB) 2 ltac:(lia)) as Hd.
      replace (rt * (2 * kRow QB) + 2 * kRow QB)
        with ((rt * kRow QB + kRow QB) * 2) in * by lia.
      rewrite Z.mod_mul in Hd by lia.
      destruct (Z.ltb_spec (i + 1) rows),
        (Z.ltb_spec (i + 1) (Z.min ((rt * kRow QB + kRow QB) * 2) rows)); lia. }
  destruct (Z.ltb_spec (i + 1) rows) as [H1 | H1]; [| reflexivity].
  destruct (QuantBlk_cases block_size Columnwise)
    as [(_ & ER & _) | (_ & ER & _)].
  - assert (E1 : (kRow QB =? 1) = false).
    { apply Z.eqb_neq. rewrite ER. intros ->. discriminate. }
    rewrite E1.
    assert (Esucc : (i + 1) / kRow QB = mr).
    { apply succ_even_div; [lia | exact Hev | lia |].
      rewrite ER. exact block_size_even. }
    rewrite Esucc, Ep, Ez. reflexivity.
  - subst mr. rewrite ER in *. cbn [Z.eqb Pos.eqb].
    rewrite (Z.div_1_r i) in *. rewrite (Z.div_1_r (i + 1)).
    assert (Ei : i = 2 * rt) by lia.
    destruct (Hparams (i + 1) ltac:(lia) ltac:(lia)) as (s1 & z1 & Ep1 & Es1 & Ez1).
    rewrite Ep1. cbn [mbind option_bind fst snd].
    replace (ct * ((rows + 1 - 1) / 1) + i + 1)
      with (ct * ((rows + 1 - 1) / 1) + (i + 1)) by lia.
    rewrite Es1, Ez1. reflexivity.
Qed.

(** The contents of the three buffers at the offsets the quantizer
    writes. *)
Lemma row_blks_bound (mr : Z) :
  0 <= mr -> mr * kRow QB < rows -> mr < row_blks.
Proof.
  intros Hmr Hlt.
  destruct (QuantBlk_pos block_size Columnwise block_size_pos) as [HR HC].
  pose proof (Z.div_mod (rows + kRow QB - 1) (kRow QB) ltac:(lia)) as Hd.
  pose proof (Z.mod_pos_bound (rows + kRow QB - 1) (kRow QB) ltac:(lia)) as Hm.
  nia.
Qed.

Lemma vD_at (i j : Z) :
  0 <= i < rows -> i mod 2 = 0 -> vD (j * q_rows + i / 2) = pair i j.
Proof.
  intros Hi Hev. unfold dst_byte_at. cbv zeta.
  destruct (offset_decode q_rows j (i / 2)
              (q_rows_half block_size Columnwise rows columns i block_size_pos Hi))
    as [-> ->].
  pose proof (Z.div_mod i 2 ltac:(lia)) as Hd.
  replace (2 * (i / 2)) with i by lia. reflexivity.
Qed.

Lemma vS_at (mr mc : Z) :
  0 <= mr -> mr * kRow QB < rows ->
  vS (mc * row_blks + mr) = fst <$> params mr mc.
Proof.
  intros Hmr Hlt. unfold scale_at. cbv zeta.
  destruct (offset_decode row_blks mc mr
              ltac:(split; [exact Hmr | apply row_blks_bound; assumption]))
    as [-> ->].
  reflexivity.
Qed.

Lemma vZ_at (rt mc : Z) :
  0 <= rt -> 2 * rt * kRow QB < rows ->
  vZ (mc * ((row_blks + 1) / 2) + rt)
  = zero_point_pair null block_size Columnwise src leadingDimension rows columns
      rt mc.
Proof.
  intros Hrt Hlt. unfold zp_byte_at. cbv zeta.
  pose proof (row_blks_bound (2 * rt) ltac:(lia) Hlt) as Hb.
  pose proof (Z.div_mod (row_blks + 1) 2 ltac:(lia)) as Hd.
  pose proof (Z.mod_pos_bound (row_blks + 1) 2 ltac:(lia)) as Hm.
  destruct (offset_decode ((row_blks + 1) / 2) mc rt ltac:(lia)) as [-> ->].
  reflexivity.
Qed.

Lemma elem_of_block (mr mc : Z) :
  0 <= mr -> 0 <= mc -> params mr mc = None ->
  elem (mr * kRow QB) (mc * kColumn QB) = None.
Proof.
  intros Hmr Hmc E.
  destruct (QuantBlk_pos block_size Columnwise block_size_pos) as [HR HC].
  unfold quantized_elem. cbv zeta.
  rewrite !Z.div_mul by lia. rewrite E. reflexivity.
Qed.

Lemma pair_undefined (i j : Z) :
  pair i j = None ->
  elem i j = None \/ (i + 1 < rows /\ elem (i + 1) j = None).
Proof.
  unfold quantized_pair. cbv zeta. intros H.
  destruct (elem i j) as [vi0 |] eqn:E0; [| left; reflexivity].
  cbn [mbind option_bind] in H. right.
  destruct (Z.ltb_spec (i + 1) rows) as [H1 | H1].
  - destruct (elem (i + 1) j); [discriminate | split; [exact H1 | reflexivity]].
  - exfalso. unfold quantized_elem in E0. cbv zeta in E0.
    destruct (params _ _) as [p |]; [discriminate H | discriminate E0].
Qed.

(** One thread block: its two quantization blocks, the byte of their zero
    points, and the bytes of its rows, or an element whose quantization is
    undefined. *)
Lemma quantize_tile_spec (t : Z) (b : BlockwiseQuantizer.qbufs) :
  0 <= columns ->
  0 <= t < Z.quot (rows + kRow TB - 1) (kRow TB)
           * Z.quot (columns + kColumn TB - 1) (kColumn TB) ->
  zp_is_null (BlockwiseQuantizer.q_zero_points b) = null ->
  let tcb := Z.quot (columns + kColumn TB - 1) (kColumn TB) in
  let rt := Z.quot t tcb in
  let ct := Z.rem t tcb in
  match
    BlockwiseQuantizer.quantize_tile block_size Columnwise src rows columns
      leadingDimension t b
  with
  | Some b' =>
      bufs_writes
        (fun x => exists i j,
           rt * kRow TB <= i < Z.min (rt * kRow TB + kRow TB) rows
           /\ ct * kColumn TB <= j < Z.min (ct * kColumn TB + kColumn TB) columns
           /\ x = j * q_rows + i / 2)
        (fun x => exists mr,
           (mr = 2 * rt \/ mr = 2 * rt + 1) /\ mr * kRow QB < rows
           /\ x = ct * row_blks + mr)
        (fun x => x = ct * ((row_blks + 1) / 2) + rt)
        vD vS vZ b b'
  | None =>
      exists i j, 0 <= i < rows /\ 0 <= j < columns /\ elem i j = None
  end.
Proof.
  intros Hcols Ht Hnull tcb rt ct.
  destruct (QuantBlk_pos block_size Columnwise block_size_pos) as [HR HC].
  destruct (ThreadBlk_shape block_size Columnwise) as [ETR ETC].
  set (trb := Z.quot (rows + kRow TB - 1) (kRow TB)) in *.
  fold tcb in Ht.
  assert (Etrb : trb = (rows + kRow TB - 1) / kRow TB)
    by (subst trb; apply Z.quot_div_nonneg; lia).
  assert (Etcb : tcb = (columns + kColumn TB - 1) / kColumn TB)
    by (subst tcb; apply Z.quot_div_nonneg; lia).
  pose proof (Z.div_mod (rows + kRow TB - 1) (kRow TB) ltac:(lia)) as Hd1.
  pose proof (Z.mod_pos_bound (rows + kRow TB - 1) (kRow TB) ltac:(lia)) as Hm1.
  pose proof (Z.div_mod (columns + kColumn TB - 1) (kColumn TB) ltac:(lia)) as Hd2.
  pose proof (Z.mod_pos_bound (columns + kColumn TB - 1) (kColumn TB) ltac:(lia))
    as Hm2.
  rewrite <- Etrb in Hd1. rewrite <- Etcb in Hd2.
  assert (Htcb : 0 < tcb) by nia.
  assert (Hrt : 0 <= rt < trb).
  { subst rt. rewrite Z.quot_div_nonneg by lia.
    split; [apply Z.div_pos; lia | apply Z.div_lt_upper_bound; nia]. }
  assert (Hct : 0 <= ct < tcb)
    by (subst ct; apply Z.rem_bound_pos; lia).
  assert (Hrow : 2 * rt * kRow QB < rows) by nia.
  assert (Hcol : ct * kColumn QB < columns) by nia.
  unfold BlockwiseQuantizer.quantize_tile. cbv zeta.
  fold tcb. fold rt. fold ct.
  change (match BlockwiseQuantizer.q_zero_points b with
          | Some _ => false
          | None => true
          end) with (zp_is_null (BlockwiseQuantizer.q_zero_points b)).
  rewrite Hnull.
  pose proof (scale_phase_spec rt ct (BlockwiseQuantizer.q_scales b)
                ltac:(lia) Hrow ltac:(lia)) as H1.
  destruct (foldM _ _ (BlockwiseQuantizer.q_scales b, _))
    as [[scales' zp_bytes] |]; cbn [mbind option_bind].
  2:{ destruct H1 as [E | [Hp E]].
      - exists (2 * rt * kRow QB), (ct * kColumn QB).
        split; [nia |]. split; [nia |]. apply elem_of_block; [lia | lia | exact E].
      - exists ((2 * rt + 1) * kRow QB), (ct * kColumn QB).
        split; [nia |]. split; [nia |]. apply elem_of_block; [lia | lia | exact E]. }
  destruct H1 as (s0 & z0 & s1 & z1 & E0 & -> & Hrest).
  assert (Hparams : forall mr, mr = 2 * rt \/ mr = 2 * rt + 1 ->
            mr * kRow QB < rows ->
            exists s z, params mr ct = Some (s, z)
                        /\ scales' (ct * row_blks + mr) = s
                        /\ [z0; z1] !!! Z.to_nat (mr mod 2) = z).
  { intros mr [-> | ->] Hp.
    - exists s0, z0. split; [exact E0 |].
      replace ((2 * rt) mod 2) with 0
        by (symmetry; rewrite Z.mul_comm; apply Z.mod_mul; lia).
      split; [| reflexivity].
      destruct (_ <? rows); destruct Hrest as [_ ->]; unfold upd.
      + destruct (Z.eqb_spec (ct * row_blks + 2 * rt) (ct * row_blks + (2 * rt + 1)));
          [lia |]. rewrite Z.eqb_refl. reflexivity.
      + rewrite Z.eqb_refl. reflexivity.
    - destruct (Z.ltb_spec ((2 * rt + 1) * kRow QB) rows) as [_ | ?]; [| lia].
      destruct Hrest as [E1 ->]. exists s1, z1. split; [exact E1 |].
      replace ((2 * rt + 1) mod 2) with 1
        by (apply Z.mod_unique with (q := rt); lia).
      split; [| reflexivity]. unfold upd. rewrite Z.eqb_refl. reflexivity. }
  pose proof (foldM_writes_cases
    (fun j dst =>
       foldM (fun i dst =>
                byte ← BlockwiseQuantizer.quant_pair block_size Columnwise src
                         scales' [z0; z1] leadingDimension
                         (Z.quot (rows + kRow QB - 1) (kRow QB))
                         (Z.min (rt * kRow TB + kRow TB) rows) j i;
                Some (upd dst (j * q_rows + Z.quot i 2) byte))
             (zrange (rt * kRow TB) (Z.min (rt * kRow TB + kRow TB) rows) 2) dst)
    (fun j x => exists i,
       rt * kRow TB <= i < Z.min (rt * kRow TB + kRow TB) rows
       /\ x = j * q_rows + i / 2)
    vD
    (exists i j, 0 <= i < rows /\ 0 <= j < columns /\ elem i j = None)
    (zrange (ct * kColumn TB) (Z.min (ct * kColumn TB + kColumn TB) columns) 1))
    as HD.
  match type of HD with
  | ?P -> _ => assert (Hstep : P); [| specialize (HD Hstep (BlockwiseQuantizer.q_dst b))]
  end.
  { intros j F Hj. apply elem_of_zrange_1 in Hj.
    pose proof (foldM_writes_cases
      (fun i dst =>
         byte ← BlockwiseQuantizer.quant_pair block_size Columnwise src
                  scales' [z0; z1] leadingDimension
                  (Z.quot (rows + kRow QB - 1) (kRow QB))
                  (Z.min (rt * kRow TB + kRow TB) rows) j i;
         Some (upd dst (j * q_rows + Z.quot i 2) byte))
      (fun i x => x = j * q_rows + i / 2)
      vD
      (exists i j, 0 <= i < rows /\ 0 <= j < columns /\ elem i j = None)
      (zrange (rt * kRow TB) (Z.min (rt * kRow TB + kRow TB) rows) 2)) as HI.
    match type of HI with
    | ?P -> _ => assert (Hstep : P); [| specialize (HI Hstep F)]
    end.
    { intros i G Hi. apply elem_of_zrange in Hi; [| lia].
      destruct Hi as (n & Hn & -> & Hlt).
      assert (Hev : (rt * kRow TB + n * 2) mod 2 = 0).
      { rewrite ETR.
        replace (rt * (2 * kRow QB) + n * 2) with ((rt * kRow QB + n) * 2) by lia.
        apply Z.mod_mul. lia. }
      rewrite (quant_pair_spec rt ct scales' [z0; z1] j (rt * kRow TB + n * 2) Hparams
                 ltac:(lia) ltac:(lia) ltac:(lia) Hev ltac:(lia)).
      rewrite Z.quot_div_nonneg by nia.
      destruct (pair (rt * kRow TB + n * 2) j) as [byte |] eqn:Ep;
        cbn [mbind option_bind].
      - apply writes_some_upd. rewrite vD_at by (try exact Hev; nia). exact Ep.
      - apply pair_undefined in Ep. destruct Ep as [E | [H1 E]].
        + exists (rt * kRow TB + n * 2), j. split; [nia |]. split; [nia | exact E].
        + exists (rt * kRow TB + n * 2 + 1), j. split; [nia |].
          split; [nia | exact E]. }
    destruct (foldM _ _ F) as [F' |]; [| exact HI].
    eapply writes_some_cover; [| exact HI].
    intros x. split.
    - intros (i & Hi & ->). apply elem_of_zrange in Hi; [| lia].
      destruct Hi as (n & Hn & -> & Hlt).
      exists (rt * kRow TB + n * 2). split; [nia | reflexivity].
    - intros (i & Hi & ->).
      pose proof (Z.div_mod (i - rt * kRow TB) 2 ltac:(lia)) as Hd.
      pose proof (Z.mod_pos_bound (i - rt * kRow TB) 2 ltac:(lia)) as Hm.
      exists (rt * kRow TB + (i - rt * kRow TB) / 2 * 2). split.
      + apply elem_of_zrange; [lia |]. exists ((i - rt * kRow TB) / 2).
        split; [apply Z.div_pos; lia |]. split; [reflexivity | lia].
      + f_equal. rewrite ETR.
        replace (rt * (2 * kRow QB) + (i - rt * (2 * kRow QB)) / 2 * 2)
          with ((rt * kRow QB + (i - rt * (2 * kRow QB)) / 2) * 2) by lia.
        rewrite Z.div_mul by lia. rewrite ETR in Hd, Hm.
        symmetry. apply Z.div_unique with (r := (i - rt * (2 * kRow QB)) mod 2); lia. }
  destruct (foldM _ _ (BlockwiseQuantizer.q_dst b)) as [dst' |]; [| exact HD].
  cbn [mbind option_bind].
  split; [| split]; cbn [BlockwiseQuantizer.q_dst BlockwiseQuantizer.q_scales
                          BlockwiseQuantizer.q_zero_points].
  - eapply writes_some_cover; [| exact HD].
    intros x. split.
    + intros (j & Hj & i & Hi & ->). apply elem_of_zrange_1 in Hj.
      exists i, j. split; [exact Hi |]. split; [exact Hj | reflexivity].
    + intros (i & j & Hi & Hj & ->). exists j.
      split; [apply elem_of_zrange_1; exact Hj |]. exists i.
      split; [exact Hi | reflexivity].
  - destruct (Hparams (2 * rt) ltac:(left; reflexivity) Hrow)
      as (s & z & Ep & Es & _).
    destruct (Z.ltb_spec ((2 * rt + 1) * kRow QB) rows) as [Hp | Hp].
    + destruct Hrest as [E1 ->].
      eapply writes_some_cover;
        [| exact (writes_some_trans _ _ _ _ _ _
                    (writes_some_upd vS _ (ct * row_blks + 2 * rt) s0
                       ltac:(rewrite vS_at by lia; rewrite E0; reflexivity))
                    (writes_some_upd vS _ (ct * row_blks + (2 * rt + 1)) s1
                       ltac:(rewrite vS_at by lia; rewrite E1; reflexivity)))].
      intros x. split.
      * intros [-> | ->]; eexists; (split; [| split; [| reflexivity]]); lia.
      * intros (mr & [-> | ->] & _ & ->); [left | right]; reflexivity.
    + destruct Hrest as [_ ->].
      eapply writes_some_cover;
        [| exact (writes_some_upd vS _ (ct * row_blks + 2 * rt) s0
                    ltac:(rewrite vS_at by lia; rewrite E0; reflexivity))].
      intros x. split.
      * intros ->. exists (2 * rt). split; [left; reflexivity |].
        split; [lia | reflexivity].
      * intros (mr & [-> | ->] & Hlt & ->); [reflexivity | lia].
  - unfold opt_writes. destruct (BlockwiseQuantizer.q_zero_points b) as [zps |];
      [| exact I].
    rewrite ETR, ETC.
    replace (rt * (2 * kRow QB)) with (2 * rt * kRow QB) by lia.
    rewrite !Z.quot_mul by lia.
    rewrite (Z.quot_div_nonneg (rows + kRow QB - 1) (kRow QB)) by lia.
    assert (Hrb : 0 <= row_blks) by (apply Z.div_pos; lia).
    rewrite (Z.quot_div_nonneg (row_blks + 1) 2) by lia.
    replace (Z.quot (2 * rt) 2) with rt
      by (rewrite Z.mul_comm, Z.quot_mul by lia; reflexivity).
    apply writes_some_upd. rewrite vZ_at by lia.
    unfold zero_point_pair. cbv zeta. rewrite E0.
    cbn [fmap option_fmap option_map mbind option_bind snd].
    destruct (_ <? rows).
    + destruct Hrest as [E1 _]. rewrite E1. reflexivity.
    + destruct Hrest as [-> _]. reflexivity.
Qed.

(** The thread blocks of a matrix. *)
Lemma tile_bounds (t : Z) :
  0 <= columns ->
  0 <= t < Z.quot (rows + kRow TB - 1) (kRow TB)
           * Z.quot (columns + kColumn TB - 1) (kColumn TB) ->
  let tcb := Z.quot (columns + kColumn TB - 1) (kColumn TB) in
  0 <= Z.quot t tcb /\ Z.quot t tcb * kRow TB < rows
  /\ 0 <= Z.rem t tcb /\ Z.rem t tcb * kColumn TB < columns.
Proof.
  intros Hcols Ht tcb.
  destruct (QuantBlk_pos block_size Columnwise block_size_pos) as [HR HC].
  destruct (ThreadBlk_shape block_size Columnwise) as [ETR ETC].
  set (trb := Z.quot (rows + kRow TB - 1) (kRow TB)) in *.
  fold tcb in Ht.
  assert (Etrb : trb = (rows + kRow TB - 1) / kRow TB)
    by (subst trb; apply Z.quot_div_nonneg; lia).
  assert (Etcb : tcb = (columns + kColumn TB - 1) / kColumn TB)
    by (subst tcb; apply Z.quot_div_nonneg; lia).
  pose proof (Z.div_mod (rows + kRow TB - 1) (kRow TB) ltac:(lia)) as Hd1.
  pose proof (Z.mod_pos_bound (rows + kRow TB - 1) (kRow TB) ltac:(lia)) as Hm1.
  pose proof (Z.div_mod (columns + kColumn TB - 1) (kColumn TB) ltac:(lia)) as Hd2.
  pose proof (Z.mod_pos_bound (columns + kColumn TB - 1) (kColumn TB) ltac:(lia))
    as Hm2.
  rewrite <- Etrb in Hd1. rewrite <- Etcb in Hd2.
  assert (Htcb : 0 < tcb) by nia.
  assert (Hrt : 0 <= Z.quot t tcb < trb).
  { rewrite Z.quot_div_nonneg by lia.
    split; [apply Z.div_pos; lia | apply Z.div_lt_upper_bound; nia]. }
  pose proof (Z.rem_bound_pos t tcb ltac:(lia) Htcb) as Hct.
  split; [lia |]. split; [nia |]. split; [lia | nia].
Qed.

Lemma tile_of (i j : Z) :
  0 <= i < rows -> 0 <= j < columns ->
  let tcb := Z.quot (columns + kColumn TB - 1) (kColumn TB) in
  exists t,
    t ∈ zrange 0 (Z.quot (rows + kRow TB - 1) (kRow TB) * tcb) 1
    /\ Z.quot t tcb = i / (2 * kRow QB) /\ Z.rem t tcb = j / kColumn QB.
Proof.
  intros Hi Hj tcb.
  destruct (QuantBlk_pos block_size Columnwise block_size_pos) as [HR HC].
  destruct (ThreadBlk_shape block_size Columnwise) as [ETR ETC].
  destruct (tile_of_element (kRow TB) (kColumn TB) rows columns i j
              ltac:(lia) ltac:(lia) Hi Hj) as (Ht & Eq & Er).
  fold tcb in Ht, Eq, Er. rewrite ETR in Eq at 2. rewrite ETC in Er at 2.
  eexists. split; [apply elem_of_zrange_1; exact Ht |]. split; assumption.
Qed.

(** The whole matrix: the three buffers, or an element whose quantization
    is undefined. *)
Lemma quantizeAndTranspose_writes (dst : mem Z) (scales : mem float)
    (zero_points : option (mem Z)) :
  0 <= columns -> zp_is_null zero_points = null ->
  match
    BlockwiseQuantizer.quantizeAndTranspose block_size Columnwise dst scales
      zero_points src rows columns leadingDimension
  with
  | Some b' =>
      quantized_bufs null block_size Columnwise src leadingDimension rows columns
        {| BlockwiseQuantizer.q_dst := dst;
           BlockwiseQuantizer.q_scales := scales;
           BlockwiseQuantizer.q_zero_points := zero_points |}
        b'
  | None =>
      exists i j, 0 <= i < rows /\ 0 <= j < columns /\ elem i j = None
  end.
Proof.
  intros Hcols Hnull.
  destruct (QuantBlk_pos block_size Columnwise block_size_pos) as [HR HC].
  destruct (ThreadBlk_shape block_size Columnwise) as [ETR ETC].
  unfold BlockwiseQuantizer.quantizeAndTranspose. cbv zeta.
  set (tcb := Z.quot (columns + kColumn TB - 1) (kColumn TB)).
  set (total := Z.quot (rows + kRow TB - 1) (kRow TB) * tcb).
  pose proof (foldM_bufs_cases (fun b => b)
    (BlockwiseQuantizer.quantize_tile block_size Columnwise src rows columns
       leadingDimension)
    (fun t x => exists i j,
       Z.quot t tcb * kRow TB <= i < Z.min (Z.quot t tcb * kRow TB + kRow TB) rows
       /\ Z.rem t tcb * kColumn TB <= j
          < Z.min (Z.rem t tcb * kColumn TB + kColumn TB) columns
       /\ x = j * q_rows + i / 2)
    (fun t x => exists mr,
       (mr = 2 * Z.quot t tcb \/ mr = 2 * Z.quot t tcb + 1)
       /\ mr * kRow QB < rows /\ x = Z.rem t tcb * row_blks + mr)
    (fun t x => x = Z.rem t tcb * ((row_blks + 1) / 2) + Z.quot t tcb)
    vD vS vZ null
    (exists i j, 0 <= i < rows /\ 0 <= j < columns /\ elem i j = None)
    (zrange 0 total 1)) as H.
  match type of H with
  | ?P -> _ =>
      assert (Hstep : P);
      [| specialize (H Hstep
                       {| BlockwiseQuantizer.q_dst := dst;
                          BlockwiseQuantizer.q_scales := scales;
                          BlockwiseQuantizer.q_zero_points := zero_points |}
                       Hnull)]
  end.
  { intros t b Ht Hb. apply elem_of_zrange_1 in Ht.
    exact (quantize_tile_spec t b Hcols Ht Hb). }
  destruct (foldM _ _ _) as [b' |]; [| exact H].
  unfold quantized_bufs. cbv zeta.
  eapply bufs_writes_cover; [| | | exact H]; intros x; split.
  - intros (t & Ht & i & j & Hi & Hj & ->). apply elem_of_zrange_1 in Ht.
    destruct (tile_bounds t Hcols Ht) as (H1 & H2 & H3 & H4). fold tcb in H1, H2, H3, H4.
    exists i, j. split; [lia |]. split; [lia | reflexivity].
  - intros (i & j & Hi & Hj & ->).
    destruct (tile_of i j Hi Hj) as (t & Ht & Eq & Er). fold tcb in Ht, Eq, Er.
    exists t. split; [exact Ht |]. exists i, j. rewrite Eq, Er, ETR, ETC.
    pose proof (Z.div_mod i (2 * kRow QB) ltac:(lia)) as Hdi.
    pose proof (Z.mod_pos_bound i (2 * kRow QB) ltac:(lia)) as Hmi.
    pose proof (Z.div_mod j (kColumn QB) ltac:(lia)) as Hdj.
    pose proof (Z.mod_pos_bound j (kColumn QB) ltac:(lia)) as Hmj.
    split; [lia |]. split; [lia | reflexivity].
  - intros (t & Ht & mr & Hmr & Hlt & ->). apply elem_of_zrange_1 in Ht.
    destruct (tile_bounds t Hcols Ht) as (H1 & H2 & H3 & H4). fold tcb in H1, H2, H3, H4.
    exists mr, (Z.rem t tcb). split; [lia |]. split; [lia | reflexivity].
  - intros (mr & mc & Hmr & Hmc & ->).
    destruct (tile_of (mr * kRow QB) (mc * kColumn QB) ltac:(nia) ltac:(nia))
      as (t & Ht & Eq & Er). fold tcb in Ht, Eq, Er.
    rewrite Z.div_mul in Er by lia.
    replace (mr * kRow QB / (2 * kRow QB)) with (mr / 2) in Eq
      by (symmetry; apply Z.div_mul_cancel_r; lia).
    exists t. split; [exact Ht |]. exists mr. rewrite Eq, Er.
    pose proof (Z.div_mod mr 2 ltac:(lia)) as Hd.
    pose proof (Z.mod_pos_bound mr 2 ltac:(lia)) as Hm.
    split; [lia |]. split; [lia | reflexivity].
  - intros (t & Ht & ->). apply elem_of_zrange_1 in Ht.
    destruct (tile_bounds t Hcols Ht) as (H1 & H2 & H3 & H4). fold tcb in H1, H2, H3, H4.
    exists (Z.quot t tcb), (Z.rem t tcb). rewrite ETR in H2.
    split; [lia |]. split; [lia | reflexivity].
  - intros (rt & mc & Hrt & Hmc & ->).
    destruct (tile_of (2 * rt * kRow QB) (mc * kColumn QB) ltac:(nia) ltac:(nia))
      as (t & Ht & Eq & Er). fold tcb in Ht, Eq, Er.
    rewrite Z.div_mul in Er by lia.
    replace (2 * rt * kRow QB) with (rt * (2 * kRow QB)) in Eq by lia.
    rewrite Z.div_mul in Eq by lia.
    exists t. split; [exact Ht |]. rewrite Eq, Er. reflexivity.
Qed.

(** The nibbles of the bytes. *)
Lemma params_zp_range (mr mc : Z) (scale : float) (zp : Z) :
  params mr mc = Some (scale, zp) -> 0 <= zp <= 15.
Proof.
  unfold block_params. cbv zeta. destruct null.
  - intros [= _ <-]. lia.
  - intros H. exact (range2scalezp_zp_range 4 _ _ _ _ ltac:(right; reflexivity) H).
Qed.

Lemma elem_cases (i j : Z) (q : Z) :
  elem i j = Some q ->
  0 <= q <= 15
  /\ exists scale zp,
       params (i / kRow QB) (j / kColumn QB) = Some (scale, zp)
       /\ BlockwiseQuantizer.quant (BlockwiseQuantizer.reciprocal scale) zp
            (src (i * leadingDimension + j)) = Some q.
Proof.
  unfold quantized_elem. cbv zeta.
  destruct (params _ _) as [[scale zp] |]; [| discriminate].
  cbn [mbind option_bind fst snd]. intros H.
  split; [exact (blockwise_quant_range _ _ _ _ H) |].
  exists scale, zp. split; [reflexivity | exact H].
Qed.

Lemma pair_nibbles_spec (i j byte : Z) :
  pair i j = Some byte ->
  0 <= byte < 256
  /\ (exists q, elem i j = Some q /\ nib 0 byte = q)
  /\ (i + 1 < rows -> exists q, elem (i + 1) j = Some q /\ nib 1 byte = q)
  /\ (rows <= i + 1 ->
      exists scale zp,
        params (i / kRow QB) (j / kColumn QB) = Some (scale, zp)
        /\ nib 1 byte = zp).
Proof.
  unfold quantized_pair. cbv zeta.
  destruct (elem i j) as [vi0 |] eqn:E0; [| discriminate].
  cbn [mbind option_bind].
  destruct (elem_cases i j vi0 E0) as (R0 & scale & zp & Ep & _).
  pose proof (params_zp_range _ _ _ _ Ep) as Rz.
  destruct (Z.ltb_spec (i + 1) rows) as [H1 | H1].
  - destruct (elem (i + 1) j) as [vi1 |] eqn:E1; [| discriminate].
    cbn [mbind option_bind]. intros [= <-].
    destruct (elem_cases (i + 1) j vi1 E1) as (R1 & _).
    destruct (pack_pair_nibbles vi0 vi1 R0 R1) as (N0 & N1 & Hb).
    split; [exact Hb |]. split; [exists vi0; split; [reflexivity | exact N0] |].
    split; [intros _; exists vi1; split; [reflexivity | exact N1] | lia].
  - rewrite Ep. cbn [fmap option_fmap option_map mbind option_bind snd].
    intros [= <-].
    destruct (pack_pair_nibbles vi0 zp R0 Rz) as (N0 & N1 & Hb).
    split; [exact Hb |]. split; [exists vi0; split; [reflexivity | exact N0] |].
    split; [lia |]. intros _. exists scale, zp. split; [reflexivity | exact N1].
Qed.

Lemma zero_point_pair_spec (rt mc byte : Z) :
  zero_point_pair null block_size Columnwise src leadingDimension rows columns
    rt mc = Some byte ->
  0 <= byte < 256
  /\ (exists scale zp, params (2 * rt) mc = Some (scale, zp) /\ nib 0 byte = zp)
  /\ ((2 * rt + 1) * kRow QB < rows ->
      exists scale zp,
        params (2 * rt + 1) mc = Some (scale, zp) /\ nib 1 byte = zp)
  /\ (rows <= (2 * rt + 1) * kRow QB -> nib 1 byte = 8).
Proof.
  unfold zero_point_pair. cbv zeta.
  destruct (params (2 * rt) mc) as [[s0 z0] |] eqn:E0; [| discriminate].
  cbn [fmap option_fmap option_map mbind option_bind snd].
  pose proof (params_zp_range _ _ _ _ E0) as R0.
  destruct (Z.ltb_spec ((2 * rt + 1) * kRow QB) rows) as [H1 | H1].
  - destruct (params (2 * rt + 1) mc) as [[s1 z1] |] eqn:E1; [| discriminate].
    cbn [fmap option_fmap option_map mbind option_bind snd]. intros [= <-].
    pose proof (params_zp_range _ _ _ _ E1) as R1.
    destruct (pack_pair_nibbles z0 z1 R0 R1) as (N0 & N1 & Hb).
    split; [exact Hb |]. split; [exists s0, z0; split; [reflexivity | exact N0] |].
    split; [intros _; exists s1, z1; split; [reflexivity | exact N1] | lia].
  - cbn [mbind option_bind]. intros [= <-].
    destruct (pack_pair_nibbles z0 8 R0 ltac:(lia)) as (N0 & N1 & Hb).
    split; [exact Hb |]. split; [exists s0, z0; split; [reflexivity | exact N0] |].
    split; [lia | intros _; exact N1].
Qed.


(** The contents of the buffers of a quantized matrix, block by block and
    element by element. *)
Lemma quantized_block_values (b b' : BlockwiseQuantizer.qbufs) (mr mc : Z) :
  zp_is_null (BlockwiseQuantizer.q_zero_points b) = null ->
  quantized_bufs null block_size Columnwise src leadingDimension rows columns
    b b' ->
  0 <= mr -> mr * kRow QB < rows -> 0 <= mc -> mc * kColumn QB < columns ->
  exists scale zp,
    params mr mc = Some (scale, zp)
    /\ 0 <= zp <= 15
    /\ BlockwiseQuantizer.q_scales b' (mc * row_blks + mr) = scale
    /\ match BlockwiseQuantizer.q_zero_points b' with
       | Some zps' =>
           nib (mr mod 2) (zps' (mc * ((row_blks + 1) / 2) + mr / 2)) = zp
       | None => zp = 8
       end.
Proof.
  intros Hnull (_ & HS & HZ) Hmr Hlt Hmc Hlc.
  destruct (QuantBlk_pos block_size Columnwise block_size_pos) as [HR HC].
  destruct (HS (mc * row_blks + mr)) as [[_ Ev] | [Hno _]].
  2:{ exfalso. apply Hno. exists mr, mc.
      split; [lia |]. split; [lia | reflexivity]. }
  rewrite vS_at in Ev by lia.
  destruct (params mr mc) as [[scale zp] |] eqn:Ep; [| discriminate].
  cbn [fmap option_fmap option_map fst] in Ev. injection Ev as Ev.
  exists scale, zp. split; [reflexivity |].
  split; [exact (params_zp_range _ _ _ _ Ep) |]. split; [symmetry; exact Ev |].
  unfold opt_writes in HZ.
  destruct (BlockwiseQuantizer.q_zero_points b) as [zps |] eqn:Ezb,
    (BlockwiseQuantizer.q_zero_points b') as [zps' |]; try tauto.
  - pose proof (Z.div_mod mr 2 ltac:(lia)) as Hd.
    pose proof (Z.mod_pos_bound mr 2 ltac:(lia)) as Hm.
    destruct (HZ (mc * ((row_blks + 1) / 2) + mr / 2)) as [[_ Ez] | [Hno _]].
    2:{ exfalso. apply Hno. exists (mr / 2), mc.
        split; [nia |]. split; [lia | reflexivity]. }
    rewrite vZ_at in Ez by nia.
    destruct (zero_point_pair_spec _ _ _ Ez) as (_ & (s0 & z0 & E0 & N0) & H1 & _).
    assert (mr mod 2 = 0 \/ mr mod 2 = 1) as [Em | Em] by lia; rewrite Em.
    + replace (2 * (mr / 2)) with mr in E0 by lia. congruence.
    + replace (2 * (mr / 2) + 1) with mr in H1 by lia.
      destruct (H1 Hlt) as (s1 & z1 & E1 & N1). congruence.
  - cbn [zp_is_null] in Hnull. subst null.
    unfold block_params in Ep. injection Ep as _ <-. reflexivity.
Qed.

Lemma quantized_byte_values (b b' : BlockwiseQuantizer.qbufs) (i j : Z) :
  quantized_bufs null block_size Columnwise src leadingDimension rows columns
    b b' ->
  0 <= i < rows -> i mod 2 = 0 -> 0 <= j < columns ->
  pair i j = Some (BlockwiseQuantizer.q_dst b' (j * q_rows + i / 2)).
Proof.
  intros (HD & _ & _) Hi Hev Hj.
  destruct (HD (j * q_rows + i / 2)) as [[_ Ev] | [Hno _]].
  - rewrite vD_at in Ev by assumption. exact Ev.
  - exfalso. apply Hno. exists i, j. split; [exact Hi |].
    split; [exact Hj | reflexivity].
Qed.

Lemma quantized_elem_values (b b' : BlockwiseQuantizer.qbufs) (i j : Z) :
  quantized_bufs null block_size Columnwise src leadingDimension rows columns
    b b' ->
  0 <= i < rows -> 0 <= j < columns ->
  exists q,
    elem i j = Some q
    /\ nib (i mod 2) (BlockwiseQuantizer.q_dst b' (j * q_rows + i / 2)) = q.
Proof.
  intros Hb Hi Hj.
  pose proof (Z.div_mod i 2 ltac:(lia)) as Hd.
  pose proof (Z.mod_pos_bound i 2 ltac:(lia)) as Hm.
  assert (Hev : (i - i mod 2) mod 2 = 0).
  { replace (i - i mod 2) with (i / 2 * 2) by lia. apply Z.mod_mul. lia. }
  pose proof (quantized_byte_values b b' (i - i mod 2) j Hb ltac:(lia) Hev Hj)
    as Ep.
  replace ((i - i mod 2) / 2) with (i / 2) in Ep
    by (apply Z.div_unique with (r := 0); lia).
  destruct (pair_nibbles_spec _ _ _ Ep) as (_ & (q0 & E0 & N0) & H1 & _).
  assert (i mod 2 = 0 \/ i mod 2 = 1) as [Em | Em] by lia; rewrite Em in *.
  - rewrite Z.sub_0_r in E0. exists q0. split; assumption.
  - replace (i - 1 + 1) with i in H1 by lia. exact (H1 ltac:(lia)).
Qed.

Lemma quantized_zp_byte_values (b b' : BlockwiseQuantizer.qbufs)
    (zps' : mem Z) (rt mc : Z) :
  quantized_bufs null block_size Columnwise src leadingDimension rows columns
    b b' ->
  BlockwiseQuantizer.q_zero_points b' = Some zps' ->
  0 <= rt -> 2 * rt * kRow QB < rows -> 0 <= mc -> mc * kColumn QB < columns ->
  zero_point_pair null block_size Columnwise src leadingDimension rows columns
    rt mc
  = Some (zps' (mc * ((row_blks + 1) / 2) + rt)).
Proof.
  intros (_ & _ & HZ) Ez' Hrt Hlt Hmc Hlc.
  unfold opt_writes in HZ. rewrite Ez' in HZ.
  destruct (BlockwiseQuantizer.q_zero_points b) as [zps |]; [| tauto].
  destruct (HZ (mc * ((row_blks + 1) / 2) + rt)) as [[_ Ez] | [Hno _]].
  - rewrite vZ_at in Ez by lia. exact Ez.
  - exfalso. apply Hno. exists rt, mc. split; [lia |]. split; [lia | reflexivity].
Qed.

Lemma quantized_zp_bytes (b b' : BlockwiseQuantizer.qbufs) (zps' : mem Z) :
  quantized_bufs null block_size Columnwise src leadingDimension rows columns
    b b' ->
  BlockwiseQuantizer.q_zero_points b' = Some zps' ->
  (forall zps, BlockwiseQuantizer.q_zero_points b = Some zps ->
     forall x, 0 <= zps x < 256) ->
  forall x, 0 <= zps' x < 256.
Proof.
  intros Hb Ez' Hzps x. pose proof Hb as (_ & _ & HZ).
  unfold opt_writes in HZ. rewrite Ez' in HZ.
  destruct (BlockwiseQuantizer.q_zero_points b) as [zps |]; [| tauto].
  destruct (HZ x) as [[(rt & mc & Hrt & Hmc & ->) _] | [_ ->]];
    [| exact (Hzps zps eq_refl x)].
  pose proof (quantized_zp_byte_values b b' zps' rt mc Hb Ez'
                ltac:(lia) ltac:(lia) ltac:(lia) ltac:(lia)) as Ez.
  exact (proj1 (zero_point_pair_spec _ _ _ Ez)).
Qed.

End QuantizeSpec.

Lemma MlasQuantizeBlockwise_cases (dst : mem Z) (scales : mem float)
    (zero_points : option (mem Z)) (src : mem float) (block_size : Z)
    (columnwise : bool) (rows columns leading_dimension : Z) :
  supported_block_size block_size = true -> 0 <= rows -> 0 <= columns ->
  match
    MlasQuantizeBlockwise dst scales zero_points src block_size columnwise
      rows columns leading_dimension
  with
  | Some b' =>
      quantized_bufs (zp_is_null zero_points) block_size columnwise src
        leading_dimension rows columns
        {| BlockwiseQuantizer.q_dst := dst;
           BlockwiseQuantizer.q_scales := scales;
           BlockwiseQuantizer.q_zero_points := zero_points |}
        b'
  | None =>
      exists i j,
        0 <= i < rows /\ 0 <= j < columns
        /\ quantized_elem (zp_is_null zero_points) block_size columnwise src
             leading_dimension rows columns i j = None
  end.
Proof.
  intros Hb Hrows Hcols. unfold MlasQuantizeBlockwise. rewrite Hb.
  destruct (supported_block_size_even block_size Hb) as [Hpos Hev].
  exact (quantizeAndTranspose_writes block_size columnwise Hpos Hev
           (zp_is_null zero_points) src rows columns leading_dimension Hrows
           dst scales zero_points Hcols eq_refl).
Qed.



(** ** When the blockwise quantizer is undefined *)

Lemma fold_left_invariant {A B : Type} (P : A -> Prop) (f : A -> B -> A)
    (l : list B) :
  (forall a b, P a -> P (f a b)) -> forall a, P a -> P (fold_left f l a).
Proof.
  intros Hf. induction l as [| b l IH]; intros a Ha; [exact Ha |].
  cbn [fold_left]. apply IH, Hf, Ha.
Qed.

(** The scan of a block skips the NaNs. *)
Lemma scan_block_not_nan (src : mem float)
    (leadingDimension row_start row_end c c_end : Z) :
  is_nan (fst (BlockwiseQuantizer.scan_block src leadingDimension row_start
                 row_end c c_end)) = false
  /\ is_nan (snd (BlockwiseQuantizer.scan_block src leadingDimension row_start
                    row_end c c_end)) = false.
Proof.
  unfold BlockwiseQuantizer.scan_block.
  apply (fold_left_invariant
           (fun st : float * float =>
              is_nan (fst st) = false /\ is_nan (snd st) = false));
    [| split; reflexivity].
  intros st i Hst.
  apply (fold_left_invariant
           (fun st : float * float =>
              is_nan (fst st) = false /\ is_nan (snd st) = false));
    [| exact Hst].
  clear st Hst. intros [mn mx] j [Hmn Hmx]. cbn [fst snd] in *. split.
  - destruct (ltb _ mn) eqn:E; [exact (ltb_nan_l _ _ E) | exact Hmn].
  - destruct (ltb mx _) eqn:E; [exact (ltb_nan_r _ _ E) | exact Hmx].
Qed.

Lemma blockwise_quant_undefined (reciprocal_scale : float) (zp : Z) (v : float) :
  BlockwiseQuantizer.quant reciprocal_scale zp v = None
  <-> is_nan (add (mul v reciprocal_scale) (of_Z zp)) = true.
Proof.
  unfold BlockwiseQuantizer.quant.
  set (x := add (mul v reciprocal_scale) (of_Z zp)).
  assert (Hwf : wf x = true) by (apply add_wf; [apply mul_wf | apply mkf_wf]).
  destruct (blockwise_cast_cases x Hwf) as [H1 H2].
  change (BitsTraits.kMaxFp BlockwiseQuantizer.qbits) with (BitsTraits.kMaxFp 4).
  split; [| exact H1]. intros HN.
  destruct (is_nan x) eqn:E; [reflexivity |].
  destruct (H2 eq_refl) as (n & Hn & _). congruence.
Qed.

(** An element is not quantized in two cases: with zero points, when the
    minimum of its block is minus infinity; and when the element times the
    reciprocal of the scale, plus the zero point, is a NaN. *)
Lemma quantized_elem_undefined (null : bool) (block_size : Z)
    (Columnwise : bool) (src : mem float) (leadingDimension rows columns : Z)
    (i j : Z) :
  let QB := BlockwiseQuantizer.QuantBlk block_size Columnwise in
  quantized_elem null block_size Columnwise src leadingDimension rows columns
    i j = None
  <-> (null = false
       /\ fst (block_range block_size Columnwise src leadingDimension rows
                 columns (i / kRow QB) (j / kColumn QB)) = S754_infinity true)
      \/ (exists scale zp,
            block_params null block_size Columnwise src leadingDimension rows
              columns (i / kRow QB) (j / kColumn QB) = Some (scale, zp)
            /\ is_nan (add (mul (src (i * leadingDimension + j))
                              (BlockwiseQuantizer.reciprocal scale))
                         (of_Z zp)) = true).
Proof.
  intros QB. unfold quantized_elem, block_params. cbv zeta. fold QB.
  set (r := block_range block_size Columnwise src leadingDimension rows columns
              (i / kRow QB) (j / kColumn QB)).
  destruct (scan_block_not_nan src leadingDimension
              (i / kRow QB * kRow QB)
              (Z.min (i / kRow QB * kRow QB + kRow QB) rows)
              (j / kColumn QB * kColumn QB)
              (Z.min (j / kColumn QB * kColumn QB + kColumn QB) columns))
    as [Hmn Hmx].
  change (BlockwiseQuantizer.scan_block _ _ _ _ _ _) with r in Hmn, Hmx.
  destruct null.
  - cbn [mbind option_bind fst snd]. rewrite blockwise_quant_undefined. split.
    + intros H. right. eexists _, _. split; [reflexivity | exact H].
    + intros [[? _] | (scale & zp & [= <- <-] & H)]; [discriminate | exact H].
  - change BlockwiseQuantizer.qbits with 4.
    destruct (range2scalezp 4 (fst r) (snd r)) as [[scale zp] |] eqn:E;
      cbn [mbind option_bind fst snd].
    + rewrite blockwise_quant_undefined. split.
      * intros H. right. exists scale, zp. split; [reflexivity | exact H].
      * intros [[_ Hinf] | (scale' & zp' & [= <- <-] & H)]; [| exact H].
        rewrite range2scalezp_bad_range in E by auto. discriminate.
    + split; [| reflexivity]. intros _. left. split; [reflexivity |].
      assert (Hcase : fst r = S754_infinity true \/ fst r <> S754_infinity true)
        by (destruct (fst r) as [s | [] | | s m e];
            (left; reflexivity) || (right; discriminate)).
      destruct Hcase as [Hinf | Hinf]; [exact Hinf | exfalso].
      destruct (range2scalezp_defined 4 (fst r) (snd r) ltac:(right; reflexivity)
                  Hmn Hmx Hinf) as (sc & z & Hd & _).
      congruence.
Qed.



(** ** The buffers of the blockwise quantizer and their sizes *)

Lemma blockwise_sizes (block_size : Z) (columnwise : bool) (rows columns : Z) :
  supported_block_size block_size = true ->
  0 <= rows <= INT_MAX -> 0 <= columns <= INT_MAX ->
  let QB := BlockwiseQuantizer.QuantBlk block_size columnwise in
  let row_blks := (rows + kRow QB - 1) / kRow QB in
  let col_blks := (columns + kColumn QB - 1) / kColumn QB in
  let q_rows :=
    fst (BlockwiseQuantizer.quantizedShape block_size columnwise rows columns) in
  MlasBlockwiseQuantizedBufferSizes 4 block_size columnwise rows columns true
  = (q_rows * (col_blks * kColumn QB), row_blks * col_blks,
     Some ((row_blks + 1) / 2 * col_blks)).
Proof.
  intros Hb Hrows Hcols. cbv zeta.
  assert (Hsize : 16 <= block_size <= 256).
  { apply supported_block_size_cases in Hb.
    destruct Hb as [-> | [-> | [-> | [-> | ->]]]]; lia. }
  destruct (QuantBlk_pos block_size columnwise ltac:(lia)) as [HR HC].
  assert (HRC : kRow (BlockwiseQuantizer.QuantBlk block_size columnwise) <= 256
                /\ kColumn (BlockwiseQuantizer.QuantBlk block_size columnwise)
                   <= 256).
  { destruct (QuantBlk_cases block_size columnwise)
      as [(_ & -> & ->) | (_ & -> & ->)]; lia. }
  unfold MlasBlockwiseQuantizedBufferSizes. rewrite Hb. cbn [Z.eqb Pos.eqb andb].
  unfold BlockwiseQuantizer.quantizedBufferSizes,
    BlockwiseQuantizer.quantizedShape, BlockwiseQuantizer.quantizeMetaShape.
  cbn [fst]. change BlockwiseQuantizer.qbits with 4.
  set (QB := BlockwiseQuantizer.QuantBlk block_size columnwise) in *.
  unfold INT_MAX in *.
  rewrite (Z.quot_div_nonneg (rows + kRow QB - 1)) by lia.
  rewrite (Z.quot_div_nonneg (columns + kColumn QB - 1)) by lia.
  set (row_blks := (rows + kRow QB - 1) / kRow QB).
  set (col_blks := (columns + kColumn QB - 1) / kColumn QB).
  pose proof (Z.div_mod (rows + kRow QB - 1) (kRow QB) ltac:(lia)) as Hd1.
  pose proof (Z.mod_pos_bound (rows + kRow QB - 1) (kRow QB) ltac:(lia)) as Hm1.
  pose proof (Z.div_mod (columns + kColumn QB - 1) (kColumn QB) ltac:(lia)) as Hd2.
  pose proof (Z.mod_pos_bound (columns + kColumn QB - 1) (kColumn QB) ltac:(lia))
    as Hm2.
  fold row_blks in Hd1. fold col_blks in Hd2.
  assert (Hrb : 0 <= row_blks <= 2 ^ 31) by (split; nia).
  assert (Hcb : 0 <= col_blks <= 2 ^ 31) by (split; nia).
  assert (Hrk : 0 <= row_blks * kRow QB <= 2 ^ 31 + 256) by nia.
  assert (Hck : 0 <= col_blks * kColumn QB <= 2 ^ 31 + 256) by nia.
  rewrite (Z.quot_div_nonneg (row_blks * kRow QB * 4 + 7)) by lia.
  rewrite (Z.quot_div_nonneg (row_blks * 4 + 7)) by lia.
  pose proof (Z.div_mod (row_blks * kRow QB * 4 + 7) 8 ltac:(lia)) as Hd3.
  pose proof (Z.mod_pos_bound (row_blks * kRow QB * 4 + 7) 8 ltac:(lia)) as Hm3.
  pose proof (Z.div_mod (row_blks * 4 + 7) 8 ltac:(lia)) as Hd4.
  pose proof (Z.mod_pos_bound (row_blks * 4 + 7) 8 ltac:(lia)) as Hm4.
  pose proof (Z.div_mod (row_blks + 1) 2 ltac:(lia)) as Hd5.
  pose proof (Z.mod_pos_bound (row_blks + 1) 2 ltac:(lia)) as Hm5.
  assert (E45 : (row_blks * 4 + 7) / 8 = (row_blks + 1) / 2) by lia.
  rewrite E45.
  set (q := (row_blks * kRow QB * 4 + 7) / 8) in *.
  assert (Hq : 0 <= q <= 2 ^ 31) by lia.
  assert (H64 : 2 ^ 31 * (2 ^ 31 + 256) < 2 ^ 64) by reflexivity.
  unfold size_wrap.
  rewrite !Z.mod_small by nia. reflexivity.
Qed.



(** ** Quantizing and dequantizing *)

Lemma blockwise_quant_zero (reciprocal_scale : float) (zp : Z) (v : float) :
  is_zero v = true -> is_finite reciprocal_scale = true -> 0 <= zp <= 15 ->
  BlockwiseQuantizer.quant reciprocal_scale zp v = Some zp.
Proof.
  intros Hv Hr Hzp.
  destruct v as [[] | | |]; try discriminate;
    destruct reciprocal_scale as [[] | | | [] mr er]; try discriminate;
    small_cases zp Hzp; reflexivity.
Qed.

Lemma sub_self_zero (zp : Z) :
  0 <= zp <= 15 -> sub (of_Z zp) (of_Z zp) = of_Z 0.
Proof. intros Hzp. small_cases zp Hzp; reflexivity. Qed.



(** ** Lists of stores and of optional values *)

Lemma fold_upd_writes {A E : Type} (key : E -> Z) (val : E -> A)
    (v : Z -> option A) (l : list E) :
  (forall e, e ∈ l -> v (key e) = Some (val e)) ->
  forall F,
    writes_some (fun x => exists e, e ∈ l /\ x = key e) v F
      (fold_left (fun sc e => upd sc (key e) (val e)) l F).
Proof.
  induction l as [| e l IH]; intros Hv F.
  - cbn [fold_left]. eapply writes_some_cover; [| apply writes_some_nothing].
    intros x. split; [tauto |]. intros (e & He & _). inversion He.
  - cbn [fold_left].
    eapply writes_some_cover;
      [| exact (writes_some_trans _ _ _ _ _ _
                  (writes_some_upd v F (key e) (val e) (Hv e ltac:(left)))
                  (IH (fun e' He' => Hv e' ltac:(right; exact He')) _))].
    intros x. split.
    + intros [-> | (e' & He' & ->)]; [exists e; split; [left | reflexivity] |].
      exists e'. split; [right; exact He' | reflexivity].
    + intros (e' & He' & ->). apply elem_of_cons in He' as [-> | He'].
      * left. reflexivity.
      * right. exists e'. split; [exact He' | reflexivity].
Qed.

Lemma lookup_zrange_1 (n i : Z) :
  0 <= i < n -> zrange 0 n 1 !! Z.to_nat i = Some i.
Proof.
  intros Hi. rewrite zrange_1, list_lookup_fmap, lookup_seq_lt by lia.
  cbn. f_equal. lia.
Qed.

Lemma mapM_zrange_lookup {A : Type} `{Inhabited A} (f : Z -> option A)
    (n : Z) (k : list A) (i : Z) :
  mapM f (zrange 0 n 1) = Some k -> 0 <= i < n ->
  f i = Some (k !!! Z.to_nat i) /\ k !! Z.to_nat i = Some (k !!! Z.to_nat i).
Proof.
  intros Hk Hi. apply mapM_Some_1 in Hk.
  destruct (Forall2_lookup_l _ _ _ _ _ Hk (lookup_zrange_1 n i Hi))
    as (y & Hy & Hf).
  rewrite (list_lookup_total_correct _ _ _ Hy). split; [exact Hf | exact Hy].
Qed.

Lemma mapM_fmap_Some {A B C : Type} (f : A -> option B) (g : B -> C)
    (l : list A) (k : list B) :
  mapM f l = Some k -> mapM (fun x => g <$> f x) l = Some (map g k).
Proof.
  intros Hk. apply mapM_Some_1 in Hk. apply mapM_Some_2.
  induction Hk as [| x y l k Hxy Hk IH]; [constructor |].
  cbn [map]. constructor; [rewrite Hxy; reflexivity | exact IH].
Qed.

Lemma qdq_scan_shift (src : mem float) (columns base c n i : Z) :
  qdq_scan src (BlockwiseQDQQuantizer.row_offsets (base + c) n columns) i
  = qdq_scan src (BlockwiseQDQQuantizer.row_offsets base n columns) (c + i).
Proof.
  unfold qdq_scan, BlockwiseQDQQuantizer.row_offsets.
  generalize (FLT_MAX, FLT_LOWEST). generalize (zrange 0 n 1).
  intros l. induction l as [| j l IH]; intros st; [reflexivity |].
  cbn [map fold_left]. rewrite IH. cbv zeta.
  replace (base + c + j * columns + i) with (base + j * columns + (c + i)) by lia.
  reflexivity.
Qed.

(** ** The QDQ quantizer, stride by stride *)

Section QDQStride.

Variable qbits : Z.
Hypothesis qbits_supported : qbits = 2 \/ qbits = 4.
Variable src : mem float.

Local Abbreviation pack := (BlockwiseQDQQuantizer.pack_size_ qbits).
Local Abbreviation idxs := (zrange 0 (BlockwiseQDQQuantizer.pack_size_ qbits) 1).

(** The scan of the [pack_size_] columns of a stride, in lockstep. *)
Lemma minmax_step_map (g : Z -> float * float) (off : Z) :
  BlockwiseQDQQuantizer.minmax_step qbits src
    (map (fun i => fst (g i)) idxs, map (fun i => snd (g i)) idxs) off
  = (map (fun i => fmin (fst (g i)) (src (off + i))) idxs,
     map (fun i => fmax (snd (g i)) (src (off + i))) idxs).
Proof. destruct qbits_supported as [-> | ->]; reflexivity. Qed.

Lemma minmax_fold (offs : list Z) : forall g : Z -> float * float,
  fold_left (BlockwiseQDQQuantizer.minmax_step qbits src) offs
    (map (fun i => fst (g i)) idxs, map (fun i => snd (g i)) idxs)
  = (map (fun i =>
            fst (fold_left
                   (fun (st : float * float) off =>
                      let v := src (off + i) in (fmin (fst st) v, fmax (snd st) v))
                   offs (g i))) idxs,
     map (fun i =>
            snd (fold_left
                   (fun (st : float * float) off =>
                      let v := src (off + i) in (fmin (fst st) v, fmax (snd st) v))
                   offs (g i))) idxs).
Proof.
  induction offs as [| off offs IH]; intros g; [reflexivity |].
  cbn [fold_left]. rewrite minmax_step_map.
  exact (IH (fun i => (fmin (fst (g i)) (src (off + i)),
                       fmax (snd (g i)) (src (off + i))))).
Qed.

Lemma minmax_scan (offs : list Z) :
  fold_left (BlockwiseQDQQuantizer.minmax_step qbits src) offs
    (replicate (Z.to_nat pack) FLT_MAX, replicate (Z.to_nat pack) FLT_LOWEST)
  = (map (fun i => fst (qdq_scan src offs i)) idxs,
     map (fun i => snd (qdq_scan src offs i)) idxs).
Proof.
  etransitivity; [| exact (minmax_fold offs (fun _ => (FLT_MAX, FLT_LOWEST)))].
  destruct qbits_supported as [-> | ->]; reflexivity.
Qed.

(** The scales and the zero points of the columns of a stride. *)
Lemma scale_phase_closed (null : bool) (g : Z -> float * float)
    (scale_idx : Z) (scales : mem float) :
  foldM (BlockwiseQDQQuantizer.scale_step qbits null
           (map (fun i => fst (g i)) idxs) (map (fun i => snd (g i)) idxs)
           scale_idx)
        idxs
        (scales, replicate (Z.to_nat pack) (BitsTraits.kMid qbits),
         replicate (Z.to_nat pack) zero, replicate (Z.to_nat pack) zero)
  = ps ← mapM (fun i =>
                 if null
                 then Some (range2scale qbits (fst (g i)) (snd (g i)),
                            BitsTraits.kMid qbits)
                 else range2scalezp qbits (fst (g i)) (snd (g i)))
              idxs;
    Some (fold_left (fun sc (ip : Z * (float * Z)) =>
                       upd sc (scale_idx + fst ip) (fst (snd ip)))
                    (zip idxs ps) scales,
          map snd ps,
          map (fun p : float * Z => BlockwiseQuantizer.reciprocal (fst p)) ps,
          map (fun p : float * Z => of_Z (snd p)) ps).
Proof.
  destruct qbits_supported as [-> | ->];
    [change (zrange 0 (BlockwiseQDQQuantizer.pack_size_ 2) 1) with [0; 1; 2; 3];
     change (Z.to_nat (BlockwiseQDQQuantizer.pack_size_ 2)) with 4%nat
    |change (zrange 0 (BlockwiseQDQQuantizer.pack_size_ 4) 1) with [0; 1];
     change (Z.to_nat (BlockwiseQDQQuantizer.pack_size_ 4)) with 2%nat];
    destruct null;
    cbv -[range2scalezp range2scale upd Z.add BlockwiseQuantizer.reciprocal
          of_Z div truthy BitsTraits.kMid zero one];
    repeat (destruct (range2scalezp _ _ _) as [[? ?] |]; [| reflexivity]);
    reflexivity.
Qed.

End QDQStride.

(** The elements of a packed byte. *)
Lemma Pack_elems (qbits : Z) (f : Z -> option Z) (out : list Z) :
  qbits = 2 \/ qbits = 4 ->
  mapM f (zrange 0 (BlockwiseQDQQuantizer.pack_size_ qbits) 1) = Some out ->
  (forall i q, f i = Some q -> 0 <= q <= BitsTraits.kMax qbits) ->
  0 <= BlockwiseQDQQuantizer.Pack qbits out < 256
  /\ forall i, 0 <= i < BlockwiseQDQQuantizer.pack_size_ qbits ->
       exists q, f i = Some q
                 /\ GetElem qbits (BlockwiseQDQQuantizer.Pack qbits out) i = q.
Proof.
  intros Hq Hout Hrange. apply mapM_Some_1 in Hout. destruct Hq as [-> | ->].
  - change (zrange 0 (BlockwiseQDQQuantizer.pack_size_ 2) 1) with [0; 1; 2; 3]
      in Hout.
    change (BlockwiseQDQQuantizer.pack_size_ 2) with 4.
    change (BitsTraits.kMax 2) with 3 in Hrange.
    apply Forall2_cons_inv_l in Hout. destruct Hout as (a & k1 & Ha & Hout & ->).
    apply Forall2_cons_inv_l in Hout. destruct Hout as (b & k2 & Hb & Hout & ->).
    apply Forall2_cons_inv_l in Hout. destruct Hout as (c & k3 & Hc & Hout & ->).
    apply Forall2_cons_inv_l in Hout. destruct Hout as (d & k4 & Hd & Hout & ->).
    apply Forall2_nil_inv_l in Hout. subst k4.
    pose proof (Hrange _ _ Ha). pose proof (Hrange _ _ Hb).
    pose proof (Hrange _ _ Hc). pose proof (Hrange _ _ Hd).
    destruct (Pack_2_small a b c d ltac:(lia) ltac:(lia) ltac:(lia) ltac:(lia))
      as (Hp & _ & E0 & E1 & E2 & E3).
    split; [exact Hp |]. intros i Hi.
    assert (i = 0 \/ i = 1 \/ i = 2 \/ i = 3) as [-> | [-> | [-> | ->]]] by lia;
      eexists; (split; [eassumption | assumption]).
  - change (zrange 0 (BlockwiseQDQQuantizer.pack_size_ 4) 1) with [0; 1] in Hout.
    change (BlockwiseQDQQuantizer.pack_size_ 4) with 2.
    change (BitsTraits.kMax 4) with 15 in Hrange.
    apply Forall2_cons_inv_l in Hout. destruct Hout as (a & k1 & Ha & Hout & ->).
    apply Forall2_cons_inv_l in Hout. destruct Hout as (b & k2 & Hb & Hout & ->).
    apply Forall2_nil_inv_l in Hout. subst k2.
    pose proof (Hrange _ _ Ha). pose proof (Hrange _ _ Hb).
    destruct (Pack_4_small a b ltac:(lia) ltac:(lia)) as (Hp & _ & E0 & E1).
    split; [exact Hp |]. intros i Hi.
    assert (i = 0 \/ i = 1) as [-> | ->] by lia;
      eexists; (split; [eassumption | assumption]).
Qed.

(** The thread block of an index. *)
Lemma tile_of_bounds (kRT kCT rows columns t : Z) :
  0 < kRT -> 0 < kCT -> 0 <= rows -> 0 <= columns ->
  0 <= t < Z.quot (rows + kRT - 1) kRT * Z.quot (columns + kCT - 1) kCT ->
  let tcb := Z.quot (columns + kCT - 1) kCT in
  0 <= Z.quot t tcb /\ Z.quot t tcb * kRT < rows
  /\ 0 <= Z.rem t tcb /\ Z.rem t tcb * kCT < columns.
Proof.
  intros HR HC Hrows Hcols Ht tcb.
  set (trb := Z.quot (rows + kRT - 1) kRT) in *. fold tcb in Ht.
  assert (Etrb : trb = (rows + kRT - 1) / kRT)
    by (subst trb; apply Z.quot_div_nonneg; lia).
  assert (Etcb : tcb = (columns + kCT - 1) / kCT)
    by (subst tcb; apply Z.quot_div_nonneg; lia).
  pose proof (Z.div_mod (rows + kRT - 1) kRT ltac:(lia)) as Hd1.
  pose proof (Z.mod_pos_bound (rows + kRT - 1) kRT ltac:(lia)) as Hm1.
  pose proof (Z.div_mod (columns + kCT - 1) kCT ltac:(lia)) as Hd2.
  pose proof (Z.mod_pos_bound (columns + kCT - 1) kCT ltac:(lia)) as Hm2.
  rewrite <- Etrb in Hd1. rewrite <- Etcb in Hd2.
  assert (Htcb : 0 < tcb) by nia.
  assert (Hrt : 0 <= Z.quot t tcb < trb).
  { rewrite Z.quot_div_nonneg by lia.
    split; [apply Z.div_pos; lia | apply Z.div_lt_upper_bound; nia]. }
  pose proof (Z.rem_bound_pos t tcb ltac:(lia) Htcb) as Hct.
  split; [lia |]. split; [nia |]. split; [lia | nia].
Qed.

(** ** The QDQ quantizer, thread block by thread block *)

Lemma qdq_shift_div (qbits x : Z) :
  qbits = 2 \/ qbits = 4 ->
  Z.shiftr x (BlockwiseQDQQuantizer.shift_bit_ qbits)
  = x / BlockwiseQDQQuantizer.pack_size_ qbits.
Proof.
  intros [-> | ->]; rewrite Z.shiftr_div_pow2 by (vm_compute; discriminate);
    reflexivity.
Qed.

Section QDQSpec.

Variable qbits : Z.
Hypothesis qbits_supported : qbits = 2 \/ qbits = 4.
Variable null : bool.
Variable src : mem float.
Variables rows columns quant_block_size : Z.
Hypothesis block_pos : 0 < quant_block_size.
Hypothesis columns_packed :
  columns mod BlockwiseQDQQuantizer.pack_size_ qbits = 0.

Local Abbreviation pack := (BlockwiseQDQQuantizer.pack_size_ qbits).
Local Abbreviation idxs := (zrange 0 (BlockwiseQDQQuantizer.pack_size_ qbits) 1).
Local Abbreviation params :=
  (qdq_params null qbits src rows columns quant_block_size).
Local Abbreviation elem :=
  (qdq_elem null qbits src rows columns quant_block_size).
Local Abbreviation vD :=
  (qdq_dst_byte_at null qbits src rows columns quant_block_size).
Local Abbreviation vS :=
  (qdq_scale_at null qbits src rows columns quant_block_size).
Local Abbreviation vZ :=
  (qdq_zp_byte_at null qbits src rows columns quant_block_size).
Local Abbreviation bad :=
  (exists r c, 0 <= r < rows /\ c < columns /\ qdq_visited qbits columns c
               /\ qdq_elem null qbits src rows columns quant_block_size r c
                  = None).

Lemma pack_cases : (pack = 4 \/ pack = 2) /\ 16 mod pack = 0.
Proof. destruct qbits_supported as [-> | ->]; split; auto. Qed.

(** The offset of the first element of a stride, and what the buffers hold
    for it. *)
Lemma stride_offset (r c : Z) :
  0 <= c -> c + pack <= columns -> c mod pack = 0 ->
  let o := (r * columns + c) / pack * pack in
  o = r * columns + c /\ o / columns = r /\ o mod columns = c.
Proof.
  intros Hc Hle Hmod o. destruct pack_cases as [Hp _].
  assert (Hpos : 0 < pack) by lia.
  assert (Eo : o = r * columns + c).
  { subst o. pose proof (Z.div_mod (r * columns + c) pack ltac:(lia)) as Hd.
    assert (Hm : (r * columns + c) mod pack = 0).
    { rewrite Z.add_mod, Z.mul_mod, columns_packed, Z.mul_0_r, Hmod by lia.
      reflexivity. }
    lia. }
  split; [exact Eo |]. rewrite Eo. apply offset_decode. lia.
Qed.

Lemma qdq_vD_at (r c : Z) :
  0 <= c -> c + pack <= columns -> c mod pack = 0 ->
  vD ((r * columns + c) / pack)
  = out ← mapM (fun i => elem r (c + i)) idxs;
    Some (BlockwiseQDQQuantizer.Pack qbits out).
Proof.
  intros Hc Hle Hmod. unfold qdq_dst_byte_at. cbv zeta.
  destruct (stride_offset r c Hc Hle Hmod) as (_ & -> & ->). reflexivity.
Qed.

Lemma qdq_vZ_at (rb c : Z) :
  0 <= c -> c + pack <= columns -> c mod pack = 0 ->
  vZ ((rb * columns + c) / pack)
  = zs ← mapM (fun i => snd <$> params rb (c + i)) idxs;
    Some (BlockwiseQDQQuantizer.Pack qbits zs).
Proof.
  intros Hc Hle Hmod. unfold qdq_zp_byte_at. cbv zeta.
  destruct (stride_offset rb c Hc Hle Hmod) as (_ & -> & ->). reflexivity.
Qed.

Lemma qdq_vS_at (rb c : Z) :
  0 <= c < columns -> vS (rb * columns + c) = fst <$> params rb c.
Proof.
  intros Hc. unfold qdq_scale_at.
  destruct (offset_decode columns rb c Hc) as [-> ->]. reflexivity.
Qed.

(** The columns of a visited stride are visited. *)
Lemma visited_stride (c i : Z) :
  0 <= c -> c mod pack = 0 -> c + pack < Z.min (c / 16 * 16 + 16) columns ->
  0 <= i < pack -> qdq_visited qbits columns (c + i).
Proof.
  intros Hc Hmod Hv Hi. destruct pack_cases as [Hp H16].
  assert (Hpos : 0 < pack) by lia.
  unfold qdq_visited. cbv zeta. split; [lia |].
  pose proof (Z.div_mod c pack ltac:(lia)) as Hd.
  assert (E1 : (c + i) / pack = c / pack).
  { symmetry. apply Z.div_unique with (r := i); lia. }
  pose proof (Z.div_mod c 16 ltac:(lia)) as Hd16.
  pose proof (Z.mod_pos_bound c 16 ltac:(lia)) as Hm16.
  assert (E2 : (c + i) / 16 = c / 16).
  { symmetry. apply Z.div_unique with (r := c mod 16 + i); lia. }
  rewrite E1, E2. lia.
Qed.

(** One stride of a thread block: the [pack_size_] columns from [c] on, in
    the row block [rb]. *)
Lemma stride_step_cases (rb c : Z) (b : BlockwiseQDQQuantizer.qdq_bufs) :
  0 <= rb -> rb * quant_block_size < rows ->
  0 <= c -> c mod pack = 0 -> c + pack < Z.min (c / 16 * 16 + 16) columns ->
  zp_is_null (BlockwiseQDQQuantizer.d_zero_points b) = null ->
  match
    BlockwiseQDQQuantizer.stride_step qbits src
      (Z.min quant_block_size (rows - rb * quant_block_size)) columns
      (rb * quant_block_size * columns + c) (rb * columns + c, b)
  with
  | Some st' =>
      fst st' = rb * columns + c + pack
      /\ bufs_writes
           (fun x => exists r,
              rb * quant_block_size <= r
                < Z.min (rb * quant_block_size + quant_block_size) rows
              /\ x = (r * columns + c) / pack)
           (fun x => exists i, 0 <= i < pack /\ x = rb * columns + c + i)
           (fun x => x = (rb * columns + c) / pack)
           vD vS vZ (qdq_view b) (qdq_view (snd st'))
  | None => bad
  end.
Proof.
  intros Hrb Hrows Hc Hmod Hvis Hnull. destruct pack_cases as [Hp H16].
  assert (Hpos : 0 < pack) by lia.
  unfold BlockwiseQDQQuantizer.stride_step.
  rewrite (minmax_scan qbits qbits_supported).
  change (match BlockwiseQDQQuantizer.d_zero_points b with
          | Some _ => false
          | None => true
          end) with (zp_is_null (BlockwiseQDQQuantizer.d_zero_points b)).
  rewrite Hnull.
  rewrite (scale_phase_closed qbits qbits_supported).
  rewrite (mapM_ext _ (fun i => params rb (c + i)))
    by (intros i; unfold qdq_params, qdq_column_range; cbv zeta;
        rewrite qdq_scan_shift; reflexivity).
  destruct (mapM (fun i => params rb (c + i)) idxs) as [ps |] eqn:Eps;
    cbn [mbind option_bind].
  2:{ apply mapM_None_1, Exists_exists in Eps. destruct Eps as (i & Hi & Ei).
      apply elem_of_zrange_1 in Hi.
      exists (rb * quant_block_size), (c + i).
      split; [nia |]. split; [lia |].
      split; [apply visited_stride; assumption |].
      unfold qdq_elem. rewrite Z.div_mul by lia. rewrite Ei. reflexivity. }
  pose proof (foldM_writes_cases
    (BlockwiseQDQQuantizer.quant_row qbits src
       (map (fun p : float * Z => BlockwiseQuantizer.reciprocal (fst p)) ps)
       (map (fun p : float * Z => of_Z (snd p)) ps))
    (fun off x => x = off / pack) vD bad
    (BlockwiseQDQQuantizer.row_offsets (rb * quant_block_size * columns + c)
       (Z.min quant_block_size (rows - rb * quant_block_size)) columns)) as HD.
  match type of HD with
  | ?P -> _ =>
      assert (Hstep : P);
      [| specialize (HD Hstep (BlockwiseQDQQuantizer.d_dst b))]
  end.
  { intros off F Hoff. unfold BlockwiseQDQQuantizer.row_offsets in Hoff.
    apply list_elem_of_fmap in Hoff. destruct Hoff as (j & -> & Hj).
    apply elem_of_zrange_1 in Hj.
    unfold BlockwiseQDQQuantizer.quant_row.
    rewrite (qdq_shift_div qbits _ qbits_supported).
    replace (rb * quant_block_size * columns + c + j * columns)
      with ((rb * quant_block_size + j) * columns + c) by lia.
    set (r := rb * quant_block_size + j).
    assert (Er : r / quant_block_size = rb)
      by (symmetry; apply Z.div_unique with (r := j); lia).
    rewrite (Forall_mapM_ext _ (fun i => elem r (c + i))).
    2:{ apply Forall_forall. intros i Hi. apply elem_of_zrange_1 in Hi.
        destruct (mapM_zrange_lookup _ _ _ i Eps Hi) as [Ei El].
        pose proof (lookup_lt_Some _ _ _ El) as Hlen.
        unfold qdq_elem. rewrite Er, Ei. cbn [mbind option_bind].
        assert (E1 : map (fun p : float * Z =>
                           BlockwiseQuantizer.reciprocal (fst p)) ps
                     !!! Z.to_nat i
                     = BlockwiseQuantizer.reciprocal (fst (ps !!! Z.to_nat i)))
          by exact (list_lookup_total_fmap _ ps _ Hlen).
        assert (E2 : map (fun p : float * Z => of_Z (snd p)) ps !!! Z.to_nat i
                     = of_Z (snd (ps !!! Z.to_nat i)))
          by exact (list_lookup_total_fmap _ ps _ Hlen).
        rewrite E1, E2.
        replace (r * columns + c + i) with (r * columns + (c + i)) by lia.
        reflexivity. }
    destruct (mapM (fun i => elem r (c + i)) idxs) as [out |] eqn:Eout;
      cbn [mbind option_bind].
    - apply writes_some_upd. rewrite qdq_vD_at by lia. rewrite Eout. reflexivity.
    - apply mapM_None_1, Exists_exists in Eout. destruct Eout as (i & Hi & Ei).
      apply elem_of_zrange_1 in Hi. exists r, (c + i).
      split; [lia |]. split; [lia |].
      split; [apply visited_stride; assumption | exact Ei]. }
  destruct (foldM _ _ (BlockwiseQDQQuantizer.d_dst b)) as [dst' |]; [| exact HD].
  cbn [mbind option_bind fst snd]. split; [reflexivity |].
  split; [| split]; cbn [qdq_view BlockwiseQuantizer.q_dst
                          BlockwiseQuantizer.q_scales
                          BlockwiseQuantizer.q_zero_points
                          BlockwiseQDQQuantizer.d_dst
                          BlockwiseQDQQuantizer.d_scales
                          BlockwiseQDQQuantizer.d_zero_points].
  - eapply writes_some_cover; [| exact HD].
    intros x. unfold BlockwiseQDQQuantizer.row_offsets. split.
    + intros (off & Hoff & ->). apply list_elem_of_fmap in Hoff.
      destruct Hoff as (j & -> & Hj). apply elem_of_zrange_1 in Hj.
      exists (rb * quant_block_size + j). split; [lia |]. f_equal. lia.
    + intros (r & Hr & ->).
      exists (rb * quant_block_size * columns + c
              + (r - rb * quant_block_size) * columns).
      split; [| f_equal; lia].
      apply list_elem_of_fmap. exists (r - rb * quant_block_size).
      split; [reflexivity | apply elem_of_zrange_1; lia].
  - eapply writes_some_cover;
      [| apply (fold_upd_writes
                  (fun ip : Z * (float * Z) => rb * columns + c + fst ip)
                  (fun ip : Z * (float * Z) => fst (snd ip)) vS)].
    + intros x. split.
      * intros ([i p] & He & ->). cbn [fst].
        apply list_elem_of_lookup in He. destruct He as (n & Hn).
        apply lookup_zip_with_Some in Hn.
        destruct Hn as (i' & p' & [= -> ->] & Hi' & _).
        apply list_elem_of_lookup_2, elem_of_zrange_1 in Hi'.
        exists i'. split; [lia | reflexivity].
      * intros (i & Hi & ->).
        destruct (mapM_zrange_lookup _ _ _ i Eps Hi) as [_ El].
        exists (i, ps !!! Z.to_nat i). split; [| reflexivity].
        apply list_elem_of_lookup. exists (Z.to_nat i).
        apply lookup_zip_with_Some. eexists _, _.
        split; [reflexivity |]. split; [apply lookup_zrange_1; exact Hi | exact El].
    + intros [i p] He. cbn [fst snd].
      apply list_elem_of_lookup in He. destruct He as (n & Hn).
      apply lookup_zip_with_Some in Hn.
      destruct Hn as (i' & p' & [= -> ->] & Hi' & Hp').
      pose proof (Forall2_lookup_lr _ _ _ _ _ _ (mapM_Some_1 _ _ _ Eps) Hi' Hp')
        as Ei.
      apply list_elem_of_lookup_2, elem_of_zrange_1 in Hi'.
      replace (rb * columns + c + i') with (rb * columns + (c + i')) by lia.
      rewrite qdq_vS_at by lia. rewrite Ei. reflexivity.
  - unfold opt_writes.
    destruct (BlockwiseQDQQuantizer.d_zero_points b) as [zps |]; [| exact I].
    rewrite (qdq_shift_div qbits _ qbits_supported).
    apply writes_some_upd. rewrite qdq_vZ_at by lia.
    rewrite (mapM_fmap_Some _ snd _ _ Eps). reflexivity.
Qed.

(** The strides [k0 .. k0 + cnt - 1] of the thread block [(rb, cb)]. *)
Lemma stride_loop_cases (rb cb : Z) (cnt : nat) :
  0 <= rb -> rb * quant_block_size < rows -> 0 <= cb ->
  forall (k0 : nat) (b : BlockwiseQDQQuantizer.qdq_bufs),
  (forall n : nat, (k0 <= n < k0 + cnt)%nat ->
     cb * 16 + Z.of_nat n * pack + pack < Z.min (cb * 16 + 16) columns) ->
  zp_is_null (BlockwiseQDQQuantizer.d_zero_points b) = null ->
  match
    foldM (BlockwiseQDQQuantizer.stride_step qbits src
             (Z.min quant_block_size (rows - rb * quant_block_size)) columns)
          (map (fun n : nat =>
                  rb * quant_block_size * columns + cb * 16 + Z.of_nat n * pack)
               (seq k0 cnt))
          (rb * columns + cb * 16 + Z.of_nat k0 * pack, b)
  with
  | Some st' =>
      bufs_writes
        (fun x => exists (n : nat) r,
           (k0 <= n < k0 + cnt)%nat
           /\ rb * quant_block_size <= r
                < Z.min (rb * quant_block_size + quant_block_size) rows
           /\ x = (r * columns + (cb * 16 + Z.of_nat n * pack)) / pack)
        (fun x => exists (n : nat) i,
           (k0 <= n < k0 + cnt)%nat /\ 0 <= i < pack
           /\ x = rb * columns + (cb * 16 + Z.of_nat n * pack) + i)
        (fun x => exists n : nat,
           (k0 <= n < k0 + cnt)%nat
           /\ x = (rb * columns + (cb * 16 + Z.of_nat n * pack)) / pack)
        vD vS vZ (qdq_view b) (qdq_view (snd st'))
  | None => bad
  end.
Proof.
  intros Hrb Hrows Hcb. destruct pack_cases as [Hp H16].
  assert (Hpos : 0 < pack) by lia.
  induction cnt as [| cnt IH]; intros k0 b Hvis Hnull.
  - cbn [seq map foldM snd].
    eapply bufs_writes_cover; [| | | apply bufs_writes_nothing];
      intros x; (split; [tauto |]).
    + intros (n & r & Hn & _). lia.
    + intros (n & i & Hn & _). lia.
    + intros (n & Hn & _). lia.
  - cbn [seq map foldM].
    set (c := cb * 16 + Z.of_nat k0 * pack).
    pose proof (Hvis k0 ltac:(lia)) as Hv0. fold c in Hv0.
    assert (Hc16 : c / 16 = cb)
      by (symmetry; apply Z.div_unique with (r := Z.of_nat k0 * pack); lia).
    assert (Hcm : c mod pack = 0).
    { subst c. rewrite Z.add_mod, Z.mod_mul by lia.
      rewrite (Z.mul_comm cb), Z.mul_mod, H16 by lia. reflexivity. }
    pose proof (stride_step_cases rb c b Hrb Hrows ltac:(lia) Hcm
                  ltac:(rewrite Hc16; exact Hv0) Hnull) as H1.
    replace (rb * quant_block_size * columns + cb * 16 + Z.of_nat k0 * pack)
      with (rb * quant_block_size * columns + c) by lia.
    replace (rb * columns + cb * 16 + Z.of_nat k0 * pack)
      with (rb * columns + c) by lia.
    destruct (BlockwiseQDQQuantizer.stride_step _ _ _ _ _ _) as [[s1 b1] |];
      cbn [mbind option_bind]; [| exact H1].
    cbn [fst snd] in H1. destruct H1 as [-> H1].
    pose proof (IH (S k0) b1 ltac:(intros n Hn; apply Hvis; lia)
                  ltac:(rewrite <- Hnull;
                        exact (bufs_writes_null _ _ _ _ _ _ _ _ H1))) as H2.
    replace (rb * columns + cb * 16 + Z.of_nat (S k0) * pack)
      with (rb * columns + c + pack) in H2 by lia.
    destruct (foldM _ _ (rb * columns + c + pack, b1)) as [st' |]; [| exact H2].
    eapply bufs_writes_cover;
      [| | | exact (bufs_writes_trans _ _ _ _ _ _ _ _ _ _ _ _ H1 H2)];
      intros x; split.
    + intros [(r & Hr & ->) | (n & r & Hn & Hr & ->)].
      * exists k0, r. split; [lia |]. split; [exact Hr | reflexivity].
      * exists n, r. split; [lia |]. split; [exact Hr | reflexivity].
    + intros (n & r & Hn & Hr & ->).
      destruct (Nat.eq_dec n k0) as [-> | Hne].
      * left. exists r. split; [exact Hr | reflexivity].
      * right. exists n, r. split; [lia |]. split; [exact Hr | reflexivity].
    + intros [(i & Hi & ->) | (n & i & Hn & Hi & ->)].
      * exists k0, i. split; [lia |]. split; [exact Hi | reflexivity].
      * exists n, i. split; [lia |]. split; [exact Hi | reflexivity].
    + intros (n & i & Hn & Hi & ->).
      destruct (Nat.eq_dec n k0) as [-> | Hne].
      * left. exists i. split; [exact Hi | reflexivity].
      * right. exists n, i. split; [lia |]. split; [exact Hi | reflexivity].
    + intros [-> | (n & Hn & ->)].
      * exists k0. split; [lia | reflexivity].
      * exists n. split; [lia | reflexivity].
    + intros (n & Hn & ->).
      destruct (Nat.eq_dec n k0) as [-> | Hne].
      * left. reflexivity.
      * right. exists n. split; [lia | reflexivity].
Qed.

(** One thread block: the strides of the columns [cb * 16 ..] in the row
    block [rb], but for the last one. *)
Lemma qdq_tile_cases (t : Z) (b : BlockwiseQDQQuantizer.qdq_bufs) :
  0 <= rows -> 0 <= columns ->
  0 <= t < Z.quot (rows + quant_block_size - 1) quant_block_size
           * Z.quot (columns + 16 - 1) 16 ->
  zp_is_null (BlockwiseQDQQuantizer.d_zero_points b) = null ->
  let rb := Z.quot t (Z.quot (columns + 16 - 1) 16) in
  let cb := Z.rem t (Z.quot (columns + 16 - 1) 16) in
  match
    BlockwiseQDQQuantizer.quantize_tile qbits src rows columns quant_block_size
      t b
  with
  | Some b' =>
      bufs_writes
        (fun x => exists r c,
           rb * quant_block_size <= r
             < Z.min (rb * quant_block_size + quant_block_size) rows
           /\ (qdq_stride qbits columns c /\ c / 16 = cb)
           /\ x = (r * columns + c) / pack)
        (fun x => exists c i,
           (qdq_stride qbits columns c /\ c / 16 = cb) /\ 0 <= i < pack
           /\ x = rb * columns + c + i)
        (fun x => exists c,
           (qdq_stride qbits columns c /\ c / 16 = cb)
           /\ x = (rb * columns + c) / pack)
        vD vS vZ (qdq_view b) (qdq_view b')
  | None => bad
  end.
Proof.
  intros Hrows Hcols Ht Hnull rb cb. destruct pack_cases as [Hp H16].
  assert (Hpos : 0 < pack) by lia.
  destruct (tile_of_bounds quant_block_size 16 rows columns t block_pos
              ltac:(lia) Hrows Hcols Ht) as (Hrb & Hrbr & Hcb & Hcbc).
  fold rb in Hrb, Hrbr. fold cb in Hcb, Hcbc.
  unfold BlockwiseQDQQuantizer.quantize_tile. cbv zeta. fold rb. fold cb.
  rewrite zrange_unfold.
  set (col_size := Z.min 16 (columns - cb * 16)).
  replace (rb * quant_block_size * columns + cb * 16 + col_size - pack
           - (rb * quant_block_size * columns + cb * 16) + pack - 1)
    with (col_size - 1) by lia.
  set (cnt := Z.to_nat ((col_size - 1) / pack)).
  assert (Hcnt : forall n : nat,
            (n < cnt)%nat <-> Z.of_nat n * pack + pack < col_size).
  { intros n. subst cnt.
    pose proof (Z.div_mod (col_size - 1) pack ltac:(lia)) as Hd.
    pose proof (Z.mod_pos_bound (col_size - 1) pack ltac:(lia)) as Hm.
    assert (0 <= (col_size - 1) / pack) by (apply Z.div_pos; lia).
    split; intros Hn; [nia |].
    assert (Z.of_nat n + 1 <= (col_size - 1) / pack); [| lia].
    apply Z.div_le_lower_bound; lia. }
  pose proof (stride_loop_cases rb cb cnt Hrb Hrbr Hcb 0%nat b
                ltac:(intros n Hn;
                      pose proof (proj1 (Hcnt n) ltac:(lia)); lia)
                Hnull) as H.
  replace (rb * columns + cb * 16 + Z.of_nat 0 * pack)
    with (rb * columns + cb * 16) in H by lia.
  destruct (foldM _ _ (rb * columns + cb * 16, b)) as [st' |];
    cbn [mbind option_bind]; [| exact H].
  assert (Hbase : forall c,
            (qdq_stride qbits columns c /\ c / 16 = cb)
            <-> exists n : nat, (0 <= n < 0 + cnt)%nat
                                /\ c = cb * 16 + Z.of_nat n * pack).
  { intros c. unfold qdq_stride. cbv zeta. split.
    - intros ((Hc & Hm & Hv) & E16). rewrite E16 in Hv.
      pose proof (Z.div_mod c 16 ltac:(lia)) as Hd.
      pose proof (Z.mod_pos_bound c 16 ltac:(lia)) as Hm16.
      rewrite E16 in Hd.
      assert (Hmm : (c - cb * 16) mod pack = 0).
      { rewrite Zminus_mod, Hm, (Z.mul_comm cb), Z.mul_mod, H16 by lia.
        reflexivity. }
      pose proof (Z.div_mod (c - cb * 16) pack ltac:(lia)) as Hdn.
      rewrite Hmm in Hdn.
      assert (Hn0 : 0 <= (c - cb * 16) / pack) by (apply Z.div_pos; lia).
      exists (Z.to_nat ((c - cb * 16) / pack)).
      split; [| lia]. split; [lia |]. cbn [Nat.add].
      apply Hcnt. subst col_size. lia.
    - intros (n & [_ Hn] & ->). cbn [Nat.add] in Hn. apply Hcnt in Hn.
      subst col_size.
      assert (E16 : (cb * 16 + Z.of_nat n * pack) / 16 = cb)
        by (symmetry; apply Z.div_unique with (r := Z.of_nat n * pack); lia).
      rewrite E16. split; [| reflexivity].
      split; [lia |]. split; [| lia].
      rewrite Z.add_mod, Z.mod_mul by lia.
      rewrite (Z.mul_comm cb), Z.mul_mod, H16 by lia. reflexivity. }
  eapply bufs_writes_cover; [| | | exact H]; intros x; split.
  - intros (n & r & Hn & Hr & ->). eexists r, _. split; [exact Hr |].
    split; [apply Hbase; exists n; split; [exact Hn | reflexivity] | reflexivity].
  - intros (r & c & Hr & Hc & ->). apply Hbase in Hc. destruct Hc as (n & Hn & ->).
    exists n, r. split; [exact Hn |]. split; [exact Hr | reflexivity].
  - intros (n & i & Hn & Hi & ->). eexists _, i.
    split; [apply Hbase; exists n; split; [exact Hn | reflexivity] |].
    split; [exact Hi | reflexivity].
  - intros (c & i & Hc & Hi & ->). apply Hbase in Hc. destruct Hc as (n & Hn & ->).
    exists n, i. split; [exact Hn |]. split; [exact Hi | reflexivity].
  - intros (n & Hn & ->). eexists.
    split; [apply Hbase; exists n; split; [exact Hn | reflexivity] | reflexivity].
  - intros (c & Hc & ->). apply Hbase in Hc. destruct Hc as (n & Hn & ->).
    exists n. split; [exact Hn | reflexivity].
Qed.

(** The whole matrix. *)
Lemma quantizeColumnWise_cases (scales : mem float)
    (zero_points : option (mem Z)) (dst : mem Z) :
  0 <= rows -> 0 <= columns -> zp_is_null zero_points = null ->
  match
    BlockwiseQDQQuantizer.quantizeColumnWise qbits src scales zero_points dst
      rows columns quant_block_size
  with
  | Some (BlockwiseQDQQuantizer.Quantized b') =>
      qdq_quantized null qbits src rows columns quant_block_size
        {| BlockwiseQDQQuantizer.d_scales := scales;
           BlockwiseQDQQuantizer.d_zero_points := zero_points;
           BlockwiseQDQQuantizer.d_dst := dst |}
        b'
  | Some BlockwiseQDQQuantizer.EnforceFailed => False
  | None => bad
  end.
Proof.
  intros Hrows Hcols Hnull. destruct pack_cases as [Hp H16].
  assert (Hpos : 0 < pack) by lia.
  unfold BlockwiseQDQQuantizer.quantizeColumnWise.
  rewrite Z.rem_mod_nonneg, columns_packed by lia.
  cbn [Z.eqb negb]. cbv zeta.
  set (tcb := Z.quot (columns + 16 - 1) 16).
  set (total := Z.quot (rows + quant_block_size - 1) quant_block_size * tcb).
  set (b0 := {| BlockwiseQDQQuantizer.d_scales := scales;
                BlockwiseQDQQuantizer.d_zero_points := zero_points;
                BlockwiseQDQQuantizer.d_dst := dst |}).
  pose proof (foldM_bufs_cases qdq_view
    (BlockwiseQDQQuantizer.quantize_tile qbits src rows columns quant_block_size)
    (fun t x => exists r c,
       Z.quot t tcb * quant_block_size <= r
         < Z.min (Z.quot t tcb * quant_block_size + quant_block_size) rows
       /\ (qdq_stride qbits columns c /\ c / 16 = Z.rem t tcb)
       /\ x = (r * columns + c) / pack)
    (fun t x => exists c i,
       (qdq_stride qbits columns c /\ c / 16 = Z.rem t tcb) /\ 0 <= i < pack
       /\ x = Z.quot t tcb * columns + c + i)
    (fun t x => exists c,
       (qdq_stride qbits columns c /\ c / 16 = Z.rem t tcb)
       /\ x = (Z.quot t tcb * columns + c) / pack)
    vD vS vZ null bad (zrange 0 total 1)) as H.
  match type of H with
  | ?P -> _ => assert (Hstep : P); [| specialize (H Hstep b0 Hnull)]
  end.
  { intros t b Ht Hb. apply elem_of_zrange_1 in Ht.
    exact (qdq_tile_cases t b Hrows Hcols Ht Hb). }
  destruct (foldM _ _ b0) as [b' |]; cbn [mbind option_bind]; [| exact H].
  unfold qdq_quantized. cbv zeta.
  assert (Hcol : forall c, qdq_stride qbits columns c -> 0 <= c < columns)
    by (unfold qdq_stride; cbv zeta; intros c (H1 & _ & H3); lia).
  eapply bufs_writes_cover; [| | | exact H]; intros x; split.
  - intros (t & Ht & r & c & Hr & [Hc _] & ->). apply elem_of_zrange_1 in Ht.
    destruct (tile_of_bounds quant_block_size 16 rows columns t block_pos
                ltac:(lia) Hrows Hcols Ht) as (H1 & H2 & H3 & H4).
    fold tcb in H1, H2, H3, H4.
    exists r, c. split; [lia |]. split; [exact Hc | reflexivity].
  - intros (r & c & Hr & Hc & ->).
    destruct (tile_of_element quant_block_size 16 rows columns r c block_pos
                ltac:(lia) Hr (Hcol c Hc)) as (Ht & Eq & Er).
    fold tcb in Ht, Eq, Er.
    eexists. split; [apply elem_of_zrange_1; exact Ht |].
    exists r, c. rewrite Eq, Er.
    pose proof (Z.div_mod r quant_block_size ltac:(lia)) as Hd.
    pose proof (Z.mod_pos_bound r quant_block_size ltac:(lia)) as Hm.
    split; [lia |]. split; [split; [exact Hc | reflexivity] | reflexivity].
  - intros (t & Ht & c & i & [Hc _] & Hi & ->). apply elem_of_zrange_1 in Ht.
    destruct (tile_of_bounds quant_block_size 16 rows columns t block_pos
                ltac:(lia) Hrows Hcols Ht) as (H1 & H2 & H3 & H4).
    fold tcb in H1, H2, H3, H4.
    exists (Z.quot t tcb), c, i. split; [lia |]. split; [exact Hc |].
    split; [exact Hi | reflexivity].
  - intros (rb & c & i & Hrb & Hc & Hi & ->).
    destruct (tile_of_element quant_block_size 16 rows columns
                (rb * quant_block_size) c block_pos ltac:(lia) ltac:(nia)
                (Hcol c Hc)) as (Ht & Eq & Er).
    fold tcb in Ht, Eq, Er. rewrite Z.div_mul in Ht, Eq, Er by lia.
    eexists. split; [apply elem_of_zrange_1; exact Ht |].
    exists c, i. rewrite Eq, Er.
    split; [split; [exact Hc | reflexivity] |]. split; [exact Hi | reflexivity].
  - intros (t & Ht & c & [Hc _] & ->). apply elem_of_zrange_1 in Ht.
    destruct (tile_of_bounds quant_block_size 16 rows columns t block_pos
                ltac:(lia) Hrows Hcols Ht) as (H1 & H2 & H3 & H4).
    fold tcb in H1, H2, H3, H4.
    exists (Z.quot t tcb), c. split; [lia |]. split; [exact Hc | reflexivity].
  - intros (rb & c & Hrb & Hc & ->).
    destruct (tile_of_element quant_block_size 16 rows columns
                (rb * quant_block_size) c block_pos ltac:(lia) ltac:(nia)
                (Hcol c Hc)) as (Ht & Eq & Er).
    fold tcb in Ht, Eq, Er. rewrite Z.div_mul in Ht, Eq, Er by lia.
    eexists. split; [apply elem_of_zrange_1; exact Ht |].
    exists c. rewrite Eq, Er.
    split; [split; [exact Hc | reflexivity] | reflexivity].
Qed.

(** A column the loop reaches, in its stride. *)
Lemma visited_base (c : Z) :
  c < columns -> qdq_visited qbits columns c ->
  qdq_stride qbits columns (c / pack * pack)
  /\ 0 <= c mod pack < pack
  /\ c = c / pack * pack + c mod pack.
Proof.
  unfold qdq_visited, qdq_stride. cbv zeta. intros Hlt [Hc Hv].
  destruct pack_cases as [Hp H16].
  pose proof (Z.div_mod c 16 ltac:(lia)) as Hd16.
  pose proof (Z.mod_pos_bound c 16 ltac:(lia)) as Hm16.
  assert (Hpos : 0 < pack) by lia.
  pose proof (Z.div_mod c pack ltac:(lia)) as Hd.
  pose proof (Z.mod_pos_bound c pack ltac:(lia)) as Hm.
  pose proof (Z.div_mod (c mod 16) pack ltac:(lia)) as Hd'.
  pose proof (Z.mod_pos_bound (c mod 16) pack ltac:(lia)) as Hm'.
  assert (0 <= c / pack) by (apply Z.div_pos; lia).
  assert (0 <= c mod 16 / pack) by (apply Z.div_pos; lia).
  assert (Em : c mod pack = (c mod 16) mod pack).
  { destruct Hp as [E | E]; rewrite E in *.
    - symmetry. apply Z.mod_unique with (q := 4 * (c / 16) + c mod 16 / 4); lia.
    - symmetry. apply Z.mod_unique with (q := 8 * (c / 16) + c mod 16 / 2); lia. }
  assert (E16 : c / pack * pack / 16 = c / 16).
  { symmetry. apply Z.div_unique with (r := c mod 16 - c mod pack); lia. }
  rewrite E16. split; [| split; [exact Hm | lia]].
  split; [nia |]. split; [apply Z.mod_mul; lia | exact Hv].
Qed.

Lemma stride_byte (r c : Z) :
  0 <= r -> c < columns -> qdq_visited qbits columns c ->
  (r * columns + c) / pack = (r * columns + c / pack * pack) / pack.
Proof.
  intros Hr Hlt Hv. destruct pack_cases as [Hp _].
  assert (Hpos : 0 < pack) by lia.
  destruct (visited_base c Hlt Hv) as ((Hc0 & Hm0 & Hv0) & Hm & Ec).
  destruct (stride_offset r (c / pack * pack) Hc0 ltac:(lia) Hm0) as (Eo & _).
  cbv zeta in Eo.
  symmetry. apply Z.div_unique with (r := c mod pack); lia.
Qed.

(** The elements of the bytes. *)
Lemma qdq_params_zp_range (rb c : Z) (scale : float) (zp : Z) :
  params rb c = Some (scale, zp) -> 0 <= zp <= BitsTraits.kMax qbits.
Proof.
  unfold qdq_params. cbv zeta. destruct null.
  - intros [= _ <-]. destruct qbits_supported as [-> | ->]; vm_compute;
      split; discriminate.
  - intros H. exact (range2scalezp_zp_range qbits _ _ _ _ qbits_supported H).
Qed.

Lemma qdq_elem_cases (r c : Z) (q : Z) :
  elem r c = Some q ->
  0 <= q <= BitsTraits.kMax qbits
  /\ exists scale zp,
       params (r / quant_block_size) c = Some (scale, zp)
       /\ BlockwiseQDQQuantizer.quant qbits
            (BlockwiseQuantizer.reciprocal scale) (of_Z zp)
            (src (r * columns + c)) = Some q.
Proof.
  unfold qdq_elem.
  destruct (params _ _) as [[scale zp] |]; [| discriminate].
  cbn [mbind option_bind fst snd]. intros H.
  pose proof (qdq_quant_cases qbits (BlockwiseQuantizer.reciprocal scale)
                (of_Z zp) (src (r * columns + c)) qbits_supported
                (mkf_wf _ _)) as Hc.
  rewrite H in Hc. split; [exact Hc |].
  exists scale, zp. split; [reflexivity | exact H].
Qed.

Lemma qdq_elem_values (b b' : BlockwiseQDQQuantizer.qdq_bufs) (r c : Z) :
  qdq_quantized null qbits src rows columns quant_block_size b b' ->
  0 <= r < rows -> c < columns -> qdq_visited qbits columns c ->
  exists q,
    elem r c = Some q
    /\ GetElem qbits
         (BlockwiseQDQQuantizer.d_dst b' ((r * columns + c) / pack))
         (c mod pack) = q.
Proof.
  intros (HD & _ & _) Hr Hlt Hv.
  destruct (visited_base c Hlt Hv) as (Hs & Hm & Ec).
  pose proof Hs as (Hc0 & Hm0 & Hv0).
  rewrite (stride_byte r c ltac:(lia) Hlt Hv).
  destruct (HD ((r * columns + c / pack * pack) / pack)) as [[_ Ev] | [Hno _]].
  2:{ exfalso. apply Hno. exists r, (c / pack * pack).
      split; [exact Hr |]. split; [exact Hs | reflexivity]. }
  rewrite qdq_vD_at in Ev by lia.
  destruct (mapM _ idxs) as [out |] eqn:Eout; [| discriminate].
  cbn [mbind option_bind] in Ev. injection Ev as Ev.
  cbn [qdq_view BlockwiseQuantizer.q_dst] in Ev. rewrite <- Ev.
  destruct (Pack_elems qbits _ out qbits_supported Eout
              ltac:(intros i q Hq; exact (proj1 (qdq_elem_cases _ _ _ Hq))))
    as [_ Hel].
  destruct (Hel (c mod pack) Hm) as (q & Eq & Gq).
  exists q. split; [| exact Gq]. rewrite <- Ec in Eq. exact Eq.
Qed.

Lemma qdq_block_values (b b' : BlockwiseQDQQuantizer.qdq_bufs) (rb c : Z) :
  zp_is_null (BlockwiseQDQQuantizer.d_zero_points b) = null ->
  qdq_quantized null qbits src rows columns quant_block_size b b' ->
  0 <= rb -> rb * quant_block_size < rows ->
  c < columns -> qdq_visited qbits columns c ->
  exists scale zp,
    params rb c = Some (scale, zp)
    /\ 0 <= zp <= BitsTraits.kMax qbits
    /\ BlockwiseQDQQuantizer.d_scales b' (rb * columns + c) = scale
    /\ match BlockwiseQDQQuantizer.d_zero_points b' with
       | Some zps' =>
           GetElem qbits (zps' ((rb * columns + c) / pack)) (c mod pack) = zp
       | None => zp = BitsTraits.kMid qbits
       end.
Proof.
  intros Hnull (_ & HS & HZ) Hrb Hrows Hlt Hv.
  destruct (visited_base c Hlt Hv) as (Hs & Hm & Ec).
  pose proof Hs as (Hc0 & Hm0 & Hv0).
  pose proof Hv as [Hc _].
  destruct (HS (rb * columns + c)) as [[_ Ev] | [Hno _]].
  2:{ exfalso. apply Hno. exists rb, (c / pack * pack), (c mod pack).
      split; [lia |]. split; [exact Hs |]. split; [exact Hm | lia]. }
  rewrite qdq_vS_at in Ev by lia.
  destruct (params rb c) as [[scale zp] |] eqn:Ep; [| discriminate].
  cbn [fmap option_fmap option_map fst] in Ev. injection Ev as Ev.
  exists scale, zp. split; [reflexivity |].
  split; [exact (qdq_params_zp_range _ _ _ _ Ep) |].
  split; [symmetry; exact Ev |].
  unfold opt_writes in HZ. cbn [qdq_view BlockwiseQuantizer.q_zero_points] in HZ.
  destruct (BlockwiseQDQQuantizer.d_zero_points b) as [zps |],
    (BlockwiseQDQQuantizer.d_zero_points b') as [zps' |]; try tauto.
  - rewrite (stride_byte rb c Hrb Hlt Hv).
    destruct (HZ ((rb * columns + c / pack * pack) / pack)) as [[_ Ez] | [Hno _]].
    2:{ exfalso. apply Hno. exists rb, (c / pack * pack).
        split; [lia |]. split; [exact Hs | reflexivity]. }
    rewrite qdq_vZ_at in Ez by lia.
    destruct (mapM _ idxs) as [zs |] eqn:Ezs; [| discriminate].
    cbn [mbind option_bind] in Ez. injection Ez as Ez. rewrite <- Ez.
    destruct (Pack_elems qbits _ zs qbits_supported Ezs) as [_ Hel].
    { intros i z Hz. destruct (params rb (c / pack * pack + i)) as [[s' z'] |] eqn:E;
        [| discriminate].
      cbn in Hz. injection Hz as <-. exact (qdq_params_zp_range _ _ _ _ E). }
    destruct (Hel (c mod pack) Hm) as (z & Ez' & Gz).
    rewrite <- Ec, Ep in Ez'. cbn in Ez'. injection Ez' as <-. exact Gz.
  - cbn [zp_is_null] in Hnull. subst null.
    unfold qdq_params in Ep. injection Ep as _ <-. reflexivity.
Qed.

(** The columns the loop does not reach are left as they were. *)
Lemma qdq_unvisited_scales (b b' : BlockwiseQDQQuantizer.qdq_bufs) (rb c : Z) :
  qdq_quantized null qbits src rows columns quant_block_size b b' ->
  0 <= c < columns -> ~ qdq_visited qbits columns c ->
  BlockwiseQDQQuantizer.d_scales b' (rb * columns + c)
  = BlockwiseQDQQuantizer.d_scales b (rb * columns + c).
Proof.
  intros (_ & HS & _) Hc Hnv.
  destruct (HS (rb * columns + c))
    as [[(rb' & c' & i & _ & (Hc0 & Hm0 & Hv0) & Hi & Ex) _] | [_ E]];
    [| exact E].
  exfalso. apply Hnv.
  destruct (offset_decode columns rb c Hc) as [E1 E2].
  rewrite Ex in E1, E2.
  replace (rb' * columns + c' + i) with (rb' * columns + (c' + i)) in E1, E2
    by lia.
  destruct (offset_decode columns rb' (c' + i) ltac:(lia)) as [E3 E4].
  rewrite E4 in E2. subst c. apply visited_stride; assumption.
Qed.

Lemma qdq_unvisited_bytes (r c : Z) (x : Z) :
  0 <= c < columns -> ~ qdq_visited qbits columns c ->
  x = (r * columns + c) / pack ->
  ~ exists r' c', qdq_stride qbits columns c'
                  /\ x = (r' * columns + c') / pack.
Proof.
  intros Hc Hnv -> (r' & c' & (Hc0 & Hm0 & Hv0) & Ex). apply Hnv.
  destruct pack_cases as [Hp _]. assert (Hpos : 0 < pack) by lia.
  destruct (stride_offset r' c' Hc0 ltac:(lia) Hm0) as (Eo & _).
  cbv zeta in Eo. rewrite <- Ex in Eo.
  pose proof (Z.div_mod (r * columns + c) pack ltac:(lia)) as Hd.
  pose proof (Z.mod_pos_bound (r * columns + c) pack ltac:(lia)) as Hm.
  set (m := (r * columns + c) mod pack) in *.
  destruct (offset_decode columns r c Hc) as [_ E2].
  replace (r * columns + c) with (r' * columns + (c' + m)) in E2 by lia.
  destruct (offset_decode columns r' (c' + m) ltac:(lia)) as [_ E4].
  rewrite E4 in E2. rewrite <- E2. apply visited_stride; assumption.
Qed.

Lemma qdq_unvisited_dst (b b' : BlockwiseQDQQuantizer.qdq_bufs) (r c : Z) :
  qdq_quantized null qbits src rows columns quant_block_size b b' ->
  0 <= c < columns -> ~ qdq_visited qbits columns c ->
  BlockwiseQDQQuantizer.d_dst b' ((r * columns + c) / pack)
  = BlockwiseQDQQuantizer.d_dst b ((r * columns + c) / pack).
Proof.
  intros (HD & _ & _) Hc Hnv.
  destruct (HD ((r * columns + c) / pack))
    as [[(r' & c' & _ & Hs & Ex) _] | [_ E]]; [| exact E].
  exfalso. apply (qdq_unvisited_bytes r c _ Hc Hnv eq_refl).
  exists r', c'. split; assumption.
Qed.

Lemma qdq_unvisited_zero_points (b b' : BlockwiseQDQQuantizer.qdq_bufs)
    (zps zps' : mem Z) (rb c : Z) :
  qdq_quantized null qbits src rows columns quant_block_size b b' ->
  BlockwiseQDQQuantizer.d_zero_points b = Some zps ->
  BlockwiseQDQQuantizer.d_zero_points b' = Some zps' ->
  0 <= c < columns -> ~ qdq_visited qbits columns c ->
  zps' ((rb * columns + c) / pack) = zps ((rb * columns + c) / pack).
Proof.
  intros (_ & _ & HZ) Ez Ez' Hc Hnv. unfold opt_writes in HZ.
  cbn [qdq_view BlockwiseQuantizer.q_zero_points] in HZ. rewrite Ez, Ez' in HZ.
  destruct (HZ ((rb * columns + c) / pack))
    as [[(rb' & c' & _ & Hs & Ex) _] | [_ E]]; [| exact E].
  exfalso. apply (qdq_unvisited_bytes rb c _ Hc Hnv eq_refl).
  exists rb', c'. split; assumption.
Qed.

End QDQSpec.

(** ** When the QDQ quantizer is undefined *)

Lemma qdq_scan_not_nan (src : mem float) (offs : list Z) (i : Z) :
  is_nan (fst (qdq_scan src offs i)) = false
  /\ is_nan (snd (qdq_scan src offs i)) = false.
Proof.
  unfold qdq_scan.
  apply (fold_left_invariant
           (fun st : float * float =>
              is_nan (fst st) = false /\ is_nan (snd st) = false));
    [| split; reflexivity].
  intros [mn mx] off [Hmn Hmx]. cbn [fst snd] in *. unfold fmin, fmax. split.
  - destruct (ltb _ mn) eqn:E; [exact (ltb_nan_l _ _ E) | exact Hmn].
  - destruct (ltb mx _) eqn:E; [exact (ltb_nan_r _ _ E) | exact Hmx].
Qed.

Lemma qdq_quant_undefined (qbits : Z) (reciprocal_scale zp_f v : float) :
  qbits = 2 \/ qbits = 4 -> wf zp_f = true ->
  BlockwiseQDQQuantizer.quant qbits reciprocal_scale zp_f v = None
  <-> is_nan (add (roundf (mul v reciprocal_scale)) zp_f) = true.
Proof.
  intros Hq Hzp.
  pose proof (qdq_quant_cases qbits reciprocal_scale zp_f v Hq Hzp) as Hc.
  split.
  - intros E. rewrite E in Hc. exact Hc.
  - intros Hn. unfold BlockwiseQDQQuantizer.quant.
    apply to_uint8_nan, clamp_of_nan, Hn.
Qed.

Lemma qdq_elem_undefined (null : bool) (qbits : Z) (src : mem float)
    (rows columns quant_block_size : Z) (r c : Z) :
  qbits = 2 \/ qbits = 4 ->
  qdq_elem null qbits src rows columns quant_block_size r c = None
  <-> (null = false
       /\ fst (qdq_column_range src rows columns quant_block_size
                 (r / quant_block_size) c) = S754_infinity true)
      \/ (exists scale zp,
            qdq_params null qbits src rows columns quant_block_size
              (r / quant_block_size) c = Some (scale, zp)
            /\ is_nan (add (roundf (mul (src (r * columns + c))
                                      (BlockwiseQuantizer.reciprocal scale)))
                         (of_Z zp)) = true).
Proof.
  intros Hq. unfold qdq_elem, qdq_params. cbv zeta.
  set (rg := qdq_column_range src rows columns quant_block_size
               (r / quant_block_size) c).
  destruct (qdq_scan_not_nan src
              (BlockwiseQDQQuantizer.row_offsets
                 (r / quant_block_size * quant_block_size * columns)
                 (Z.min quant_block_size
                    (rows - r / quant_block_size * quant_block_size)) columns)
              c) as [Hmn Hmx].
  change (qdq_scan _ _ _) with rg in Hmn, Hmx.
  destruct null.
  - cbn [mbind option_bind fst snd].
    rewrite (qdq_quant_undefined qbits _ (of_Z _) _ Hq (mkf_wf _ 0)). split.
    + intros H. right. eexists _, _. split; [reflexivity | exact H].
    + intros [[? _] | (scale & zp & [= <- <-] & H)]; [discriminate | exact H].
  - destruct (range2scalezp qbits (fst rg) (snd rg)) as [[scale zp] |] eqn:E;
      cbn [mbind option_bind fst snd].
    + rewrite (qdq_quant_undefined qbits _ (of_Z _) _ Hq (mkf_wf _ 0)). split.
      * intros H. right. exists scale, zp. split; [reflexivity | exact H].
      * intros [[_ Hinf] | (scale' & zp' & [= <- <-] & H)]; [| exact H].
        rewrite range2scalezp_bad_range in E by auto. discriminate.
    + split; [| reflexivity]. intros _. left. split; [reflexivity |].
      assert (Hcase : fst rg = S754_infinity true \/ fst rg <> S754_infinity true)
        by (destruct (fst rg) as [s | [] | | s m e];
            (left; reflexivity) || (right; discriminate)).
      destruct Hcase as [Hinf | Hinf]; [exact Hinf | exfalso].
      destruct (range2scalezp_defined qbits (fst rg) (snd rg) Hq Hmn Hmx Hinf)
        as (sc & z & Hd & _).
      congruence.
Qed.

(** ** The QDQ quantizer on a matrix *)

Lemma quantizeColumnWise_enforce (qbits : Z) (src scales : mem float)
    (zero_points : option (mem Z)) (dst : mem Z)
    (rows columns quant_block_size : Z) :
  qbits = 2 \/ qbits = 4 -> 0 <= columns ->
  (columns mod BlockwiseQDQQuantizer.pack_size_ qbits <> 0
   /\ BlockwiseQDQQuantizer.quantizeColumnWise qbits src scales zero_points dst
        rows columns quant_block_size
      = Some BlockwiseQDQQuantizer.EnforceFailed)
  \/ (columns mod BlockwiseQDQQuantizer.pack_size_ qbits = 0
      /\ BlockwiseQDQQuantizer.quantizeColumnWise qbits src scales zero_points
           dst rows columns quant_block_size
         <> Some BlockwiseQDQQuantizer.EnforceFailed).
Proof.
  intros Hq Hcols.
  assert (Hpos : 0 < BlockwiseQDQQuantizer.pack_size_ qbits)
    by (destruct Hq as [-> | ->]; reflexivity).
  unfold BlockwiseQDQQuantizer.quantizeColumnWise.
  rewrite Z.rem_mod_nonneg by lia.
  destruct (Z.eqb_spec (columns mod BlockwiseQDQQuantizer.pack_size_ qbits) 0)
    as [E | E]; cbn [negb].
  - right. split; [exact E |]. cbv zeta.
    destruct (foldM _ _ _); cbn [mbind option_bind]; discriminate.
  - left. split; [exact E | reflexivity].
Qed.




